(** * esp32-psram: the HIMEM window manager and the growable array on top of it

    A shallow embedding of [src/esp32-psram/VectorHIMEM.h]:
    - [HimemBlock], the window manager that owns one allocation of the
      extended memory and the single window mapped onto it;
    - [VectorHIMEM<T>], the growable array whose element bytes live in a
      [HimemBlock].

    [size_t] is the 32-bit unsigned integer of the ESP32; every arithmetic
    operation of the source is written with its wrap-around.  The ESP-IDF
    himem driver ([esp_himem_alloc], [esp_himem_map], ...) is not part of the
    repository: it is modelled as an explicit hardware state that every call
    threads through. *)

From Stdlib Require Import ZArith List Lia.
From Stdlib.Strings Require Import Byte.
From stdpp Require Import base tactics option list gmap fin_maps strings.

Local Open Scope Z_scope.

(** ** Machine integers *)

Module Word.

Definition SIZE_BITS : Z := 32.
Definition modulus : Z := 2 ^ SIZE_BITS.
Definition SIZE_MAX : Z := modulus - 1.

(** The value a [size_t] expression takes after wrap-around. *)
Definition wrap (z : Z) : Z := z mod modulus.

Definition add (a b : Z) : Z := wrap (a + b).
Definition sub (a b : Z) : Z := wrap (a - b).
Definition mul (a b : Z) : Z := wrap (a * b).

Definition in_range (z : Z) : Prop := 0 <= z < modulus.

End Word.

(** ** Byte memories

    The bytes of an extended-memory region, keyed by byte offset.  A byte
    that was never written reads as [x00]. *)

Module Mem.

Definition load1 (m : gmap Z byte) (k : Z) : byte := default x00 (m !! k).

(** [memcpy] out of the memory: the [n] bytes starting at [off]. *)
Fixpoint load_from (m : gmap Z byte) (off : Z) (n : nat) : list byte :=
  match n with
  | O => []
  | S n' => load1 m off :: load_from m (off + 1) n'
  end.

Definition load (m : gmap Z byte) (off : Z) (n : Z) : list byte :=
  load_from m off (Z.to_nat n).

(** [memcpy] into the memory: [bs] is stored from [off] upwards. *)
Fixpoint store (m : gmap Z byte) (off : Z) (bs : list byte) : gmap Z byte :=
  match bs with
  | [] => m
  | b :: bs' => store (<[off := b]> m) (off + 1) bs'
  end.

End Mem.

(** ** The himem driver

    The calls of §6 of the specification ("hardware boundary"), as the ESP-IDF
    driver behaves: regions of extended memory are handed out under handles,
    window ranges are reserved and released, and one block of a region is
    bound to a reserved range at a time.  Handles, ranges and window pointers
    are non-zero identifiers (0 is the null handle / [nullptr]); the window
    pointer of a range is identified with the range.

    Which requests the hardware grants is not decided by the program: the
    state carries, for each kind of request that can be denied, a script of
    answers ([oracle]), consumed one per request; an exhausted script grants
    everything. *)

Module Hw.

(** The block size and the read-write protection flag: the values that
    [VectorHIMEM.h] defines when the driver's header does not
    ([#define ESP_HIMEM_BLKSZ (32 * 1024)], [#define ESP_HIMEM_PROT_RW 0]). *)
Definition ESP_HIMEM_BLKSZ : Z := 32 * 1024.
Definition ESP_HIMEM_PROT_RW : Z := 0.

Inductive esp_err_t :=
  | ESP_OK
  | ESP_ERR_NO_MEM
  | ESP_ERR_INVALID_ARG
  | ESP_ERR_INVALID_SIZE.

Definition is_ok (e : esp_err_t) : bool :=
  match e with ESP_OK => true | _ => false end.

(** The requests the hardware can deny: a region of extended memory, a
    window range, the binding of a block to a range. *)
Inductive request := ReqRegion | ReqRange | ReqMap.

Definition request_eqb (a b : request) : bool :=
  match a, b with
  | ReqRegion, ReqRegion | ReqRange, ReqRange | ReqMap, ReqMap => true
  | _, _ => false
  end.

Inductive call :=
  | Alloc (size : Z)
  | Free (handle : Z)
  | AllocMapRange (size : Z)
  | FreeMapRange (range : Z)
  | Map (handle range ram_offset : Z)
  | Unmap (range ptr : Z).

Record region := { rg_size : Z; rg_bytes : gmap Z byte }.

Record state := {
  regions : gmap Z region;              (* live allocations, by handle *)
  ranges : gmap Z (option (Z * Z));     (* reserved ranges; Some (h, off): block of h at off is mapped *)
  oracle : request -> list bool;        (* answers to the requests to come, by kind *)
  trace : list (call * esp_err_t);      (* driver calls so far, oldest first *)
  fault : bool                          (* an access went through a dead window *)
}.

Definition empty (script : request -> list bool) : state :=
  {| regions := ∅; ranges := ∅; oracle := script; trace := []; fault := false |}.

Definition set_regions (f : gmap Z region -> gmap Z region) (hw : state) : state :=
  {| regions := f (regions hw); ranges := ranges hw; oracle := oracle hw;
     trace := trace hw; fault := fault hw |}.

Definition set_ranges (f : gmap Z (option (Z * Z)) -> gmap Z (option (Z * Z)))
    (hw : state) : state :=
  {| regions := regions hw; ranges := f (ranges hw); oracle := oracle hw;
     trace := trace hw; fault := fault hw |}.

Definition log (c : call) (e : esp_err_t) (hw : state) : state :=
  {| regions := regions hw; ranges := ranges hw; oracle := oracle hw;
     trace := trace hw ++ [(c, e)]; fault := fault hw |}.

Definition raise_fault (hw : state) : state :=
  {| regions := regions hw; ranges := ranges hw; oracle := oracle hw;
     trace := trace hw; fault := true |}.

(** The scripts that grant everything, the one that denies the first
    request for a region, and the one that grants two window ranges and
    denies the third. *)
Definition always : request -> list bool := fun _ => [].

Definition deny_region : request -> list bool :=
  fun k => match k with ReqRegion => [false] | _ => [] end.

Definition deny_third_range : request -> list bool :=
  fun k => match k with ReqRange => [true; true; false] | _ => [] end.

Definition deny_range : request -> list bool :=
  fun k => match k with ReqRange => [false] | _ => [] end.

Definition one_region : request -> list bool :=
  fun k => match k with ReqRegion => [true; false] | _ => [] end.

(** The hardware's answer to the next request of kind [k]. *)
Definition grant (k : request) (hw : state) : bool * state :=
  match oracle hw k with
  | [] => (true, hw)
  | b :: rest =>
      (b, {| regions := regions hw; ranges := ranges hw;
             oracle := fun k' => if request_eqb k k' then rest else oracle hw k';
             trace := trace hw; fault := fault hw |})
  end.

(** An identifier that is neither null nor in use. *)
Definition fresh_id {A} (m : gmap Z A) : Z :=
  1 + foldr Z.max 0 (map fst (map_to_list m)).

Definition maps_handle (h : Z) (e : Z * option (Z * Z)) : bool :=
  match snd e with
  | Some (h', _) => h' =? h
  | None => false
  end.

(** The live mappings of the region [h]. *)
Definition mappings_of (hw : state) (h : Z) : list (Z * option (Z * Z)) :=
  filter (fun e => Is_true (maps_handle h e)) (map_to_list (ranges hw)).

(** Modelled from the spec: [region_allocate(bytes) -> handle | failure],
    the driver's [esp_himem_alloc(size, &handle)], which is not in the
    repository.  Returns the error code and the value of [handle] after
    the call; the hardware may deny the region. *)
Definition esp_himem_alloc (size : Z) (handle : Z) (hw : state)
    : esp_err_t * Z * state :=
  if negb (size mod ESP_HIMEM_BLKSZ =? 0) then
    (ESP_ERR_INVALID_SIZE, handle, log (Alloc size) ESP_ERR_INVALID_SIZE hw)
  else
    let (ok, hw) := grant ReqRegion hw in
    if ok then
      let h := fresh_id (regions hw) in
      (ESP_OK, h,
       log (Alloc size) ESP_OK
         (set_regions (insert h {| rg_size := size; rg_bytes := ∅ |}) hw))
    else (ESP_ERR_NO_MEM, handle, log (Alloc size) ESP_ERR_NO_MEM hw).

(** Modelled from the spec: [region_free(handle)], the driver's
    [esp_himem_free(handle)], which is not in the repository.  Refused while
    a block of the region is mapped. *)
Definition esp_himem_free (handle : Z) (hw : state) : esp_err_t * state :=
  match regions hw !! handle, mappings_of hw handle with
  | Some _, [] =>
      (ESP_OK, log (Free handle) ESP_OK (set_regions (delete handle) hw))
  | _, _ => (ESP_ERR_INVALID_ARG, log (Free handle) ESP_ERR_INVALID_ARG hw)
  end.

(** Modelled from the spec: [window_range_reserve() -> range | failure],
    the driver's [esp_himem_alloc_map_range(size, &range)], which is not in
    the repository; the hardware may deny the range. *)
Definition esp_himem_alloc_map_range (size : Z) (range : Z) (hw : state)
    : esp_err_t * Z * state :=
  if negb (size mod ESP_HIMEM_BLKSZ =? 0) then
    (ESP_ERR_INVALID_SIZE, range, log (AllocMapRange size) ESP_ERR_INVALID_SIZE hw)
  else
    let (ok, hw) := grant ReqRange hw in
    if ok then
      let r := fresh_id (ranges hw) in
      (ESP_OK, r, log (AllocMapRange size) ESP_OK (set_ranges (insert r None) hw))
    else (ESP_ERR_NO_MEM, range, log (AllocMapRange size) ESP_ERR_NO_MEM hw).

(** Modelled from the spec: [window_range_release(range)], the driver's
    [esp_himem_free_map_range(range)], which is not in the repository.
    Refused while the range is mapped. *)
Definition esp_himem_free_map_range (range : Z) (hw : state) : esp_err_t * state :=
  match ranges hw !! range with
  | Some None =>
      (ESP_OK, log (FreeMapRange range) ESP_OK (set_ranges (delete range) hw))
  | _ => (ESP_ERR_INVALID_ARG, log (FreeMapRange range) ESP_ERR_INVALID_ARG hw)
  end.

(** Modelled from the spec: [window_map(handle, range, block_offset,
    block_size, protection) -> pointer | failure], the driver's
    [esp_himem_map(handle, range, ram_offset, range_offset, len, flags,
    &out_ptr)], which is not in the repository: one whole block of a live
    region is bound to a reserved, unmapped range, unless the hardware
    denies it. *)
Definition esp_himem_map (handle range ram_offset range_offset len flags : Z)
    (out_ptr : Z) (hw : state) : esp_err_t * Z * state :=
  let c := Map handle range ram_offset in
  match regions hw !! handle, ranges hw !! range with
  | Some rg, Some None =>
      if (ram_offset mod ESP_HIMEM_BLKSZ =? 0) && (0 <=? ram_offset)
         && (ram_offset + len <=? rg_size rg)
         && (range_offset =? 0) && (len =? ESP_HIMEM_BLKSZ)
      then
        let (ok, hw) := grant ReqMap hw in
        if ok then
          (ESP_OK, range,
           log c ESP_OK (set_ranges (insert range (Some (handle, ram_offset))) hw))
        else (ESP_ERR_NO_MEM, out_ptr, log c ESP_ERR_NO_MEM hw)
      else (ESP_ERR_INVALID_ARG, out_ptr, log c ESP_ERR_INVALID_ARG hw)
  | _, _ => (ESP_ERR_INVALID_ARG, out_ptr, log c ESP_ERR_INVALID_ARG hw)
  end.

(** Modelled from the spec: [window_unmap(range, pointer, block_size)], the
    driver's [esp_himem_unmap(range, ptr, len)], which is not in the
    repository. *)
Definition esp_himem_unmap (range ptr len : Z) (hw : state) : esp_err_t * state :=
  match ranges hw !! range with
  | Some (Some _) =>
      if ptr =? range then
        (ESP_OK, log (Unmap range ptr) ESP_OK (set_ranges (insert range None) hw))
      else (ESP_ERR_INVALID_ARG, log (Unmap range ptr) ESP_ERR_INVALID_ARG hw)
  | _ => (ESP_ERR_INVALID_ARG, log (Unmap range ptr) ESP_ERR_INVALID_ARG hw)
  end.

(** The block of extended memory seen through the window pointer [ptr], if
    the window is live and [off, off + n) lies in it. *)
Definition window (hw : state) (ptr off n : Z) : option (Z * region * Z) :=
  match ranges hw !! ptr with
  | Some (Some (h, ram_offset)) =>
      match regions hw !! h with
      | Some rg =>
          if (0 <=? off) && (0 <=? n) && (off + n <=? ESP_HIMEM_BLKSZ)
          then Some (h, rg, ram_offset + off)
          else None
      | None => None
      end
  | _ => None
  end.

(** [memcpy(dst, ptr + off, n)]: the bytes seen through the window. *)
Definition window_load (ptr off n : Z) (hw : state) : list byte * state :=
  match window hw ptr off n with
  | Some (_, rg, a) => (Mem.load (rg_bytes rg) a n, hw)
  | None => (replicate (Z.to_nat n) x00, raise_fault hw)
  end.

(** [memcpy(ptr + off, src, length bs)]: the bytes go to the mapped block. *)
Definition window_store (ptr off : Z) (bs : list byte) (hw : state) : state :=
  match window hw ptr off (Z.of_nat (length bs)) with
  | Some (h, rg, a) =>
      set_regions
        (insert h {| rg_size := rg_size rg; rg_bytes := Mem.store (rg_bytes rg) a bs |})
        hw
  | None => raise_fault hw
  end.

(** The bytes of region [h] (nothing for a dead handle). *)
Definition bytes_of (hw : state) (h : Z) : gmap Z byte :=
  match regions hw !! h with
  | Some rg => rg_bytes rg
  | None => ∅
  end.

(** *** What the program may rely on

    [wf]: the null identifiers are never handed out, every mapping refers to
    a live region, and no access went through a dead window. *)
Definition wf (hw : state) : Prop :=
  regions hw !! 0 = None /\
  ranges hw !! 0 = None /\
  (forall r h o, ranges hw !! r = Some (Some (h, o)) -> is_Some (regions hw !! h)) /\
  fault hw = false.

(** Every request of kind [k] to come is granted. *)
Definition granted (k : request) (hw : state) : Prop :=
  Forall (fun b => b = true) (oracle hw k).

(** "All hardware allocations succeed". *)
Definition allocating (hw : state) : Prop := granted ReqRegion hw.

(** "Every hardware mapping call succeeds". *)
Definition mapping (hw : state) : Prop := granted ReqRange hw /\ granted ReqMap hw.

(** "All hardware calls succeed". *)
Definition granting (hw : state) : Prop := allocating hw /\ mapping hw.

(** The next request for a region is denied. *)
Definition denying (hw : state) : Prop :=
  exists rest, oracle hw ReqRegion = false :: rest.

(** [later hw hw']: the answers left in [hw'] are what is left of those of
    [hw]. *)
Definition later (hw hw' : state) : Prop :=
  forall k, oracle hw' k `suffix_of` oracle hw k.

(** [frame h hw hw']: going from [hw] to [hw'] touched only the region [h]
    and the mappings of [h]. *)
Definition frame (h : Z) (hw hw' : state) : Prop :=
  (forall h2, h2 <> h -> regions hw' !! h2 = regions hw !! h2) /\
  (forall r h2 o, h2 <> h ->
     ranges hw' !! r = Some (Some (h2, o)) <-> ranges hw !! r = Some (Some (h2, o))).

(** Nothing stored and nothing mapped has changed between [hw] and [hw']. *)
Definition same_memory (hw hw' : state) : Prop :=
  regions hw' = regions hw /\ ranges hw' = ranges hw /\ fault hw' = fault hw.

(** The calls the driver has seen since the trace was [before]. *)
Definition calls_since (before : list (call * esp_err_t)) (hw : state)
    : list (call * esp_err_t) :=
  drop (length before) (trace hw).

End Hw.

(** ** Caller-side buffers *)

(** [memcpy(buf + pos, chunk, length chunk)] on a buffer held as a list. *)
Definition buf_write (buf : list byte) (pos : Z) (chunk : list byte) : list byte :=
  take (Z.to_nat pos) buf ++ chunk ++ drop (Z.to_nat pos + length chunk) buf.

(** The [n] bytes of [buf] from [pos] on, the source of a [memcpy]. *)
Definition buf_read (buf : list byte) (pos n : Z) : list byte :=
  take (Z.to_nat n) (drop (Z.to_nat pos) buf).

(** Byte-wise comparison of two buffers, lengths included. *)
Fixpoint same_bytes (a b : list byte) : bool :=
  match a, b with
  | [], [] => true
  | x :: a', y :: b' => Byte.eqb x y && same_bytes a' b'
  | _, _ => false
  end.

(** ** class HimemBlock *)

Module HimemBlock.

Import Hw.

Record t := {
  handle : Z;
  range : Z;
  mapped_ptr : Z;
  size : Z;
  current_mapped_block : Z
}.

(** The default member initialisers: no allocation, nothing mapped. *)
Definition init : t :=
  {| handle := 0; range := 0; mapped_ptr := 0; size := 0;
     current_mapped_block := Word.SIZE_MAX |}.

Definition allocate (block_size : Z) (m : t) (hw : state) : bool * t * state :=
  if negb (handle m =? 0) then (false, m, hw)
  else
    let block_size :=
      Word.mul (Word.sub (Word.add block_size ESP_HIMEM_BLKSZ) 1 / ESP_HIMEM_BLKSZ)
               ESP_HIMEM_BLKSZ in
    let m := {| handle := handle m; range := range m; mapped_ptr := mapped_ptr m;
                size := block_size;
                current_mapped_block := current_mapped_block m |} in
    let '(err, h, hw) := esp_himem_alloc block_size (handle m) hw in
    let m := {| handle := h; range := range m; mapped_ptr := mapped_ptr m;
                size := size m;
                current_mapped_block := current_mapped_block m |} in
    if negb (is_ok err) then (false, m, hw) else (true, m, hw).

Definition unmap (m : t) (hw : state) : t * state :=
  if negb (mapped_ptr m =? 0) && negb (range m =? 0) then
    let (_, hw) := esp_himem_unmap (range m) (mapped_ptr m) ESP_HIMEM_BLKSZ hw in
    let (_, hw) := esp_himem_free_map_range (range m) hw in
    ({| handle := handle m; range := 0; mapped_ptr := 0; size := size m;
        current_mapped_block := Word.SIZE_MAX |}, hw)
  else (m, hw).

Definition free (m : t) (hw : state) : t * state :=
  if negb (handle m =? 0) then
    let (m, hw) := unmap m hw in
    let (_, hw) := esp_himem_free (handle m) hw in
    ({| handle := 0; range := range m; mapped_ptr := mapped_ptr m; size := 0;
        current_mapped_block := current_mapped_block m |}, hw)
  else (m, hw).

Definition get_size (m : t) : Z := size m.

(** The size [allocate] asks the driver for: the request rounded up to a
    multiple of the block size, as the [size_t] expression computes it. *)
Definition round_up (n : Z) : Z :=
  Word.mul (Word.sub (Word.add n ESP_HIMEM_BLKSZ) 1 / ESP_HIMEM_BLKSZ) ESP_HIMEM_BLKSZ.

Definition ensure_block_mapped (block_index : Z) (m : t) (hw : state)
    : bool * t * state :=
  if block_index =? current_mapped_block m then (true, m, hw)
  else
    let (m, hw) := if negb (mapped_ptr m =? 0) then unmap m hw else (m, hw) in
    let '(err, r, hw) := esp_himem_alloc_map_range ESP_HIMEM_BLKSZ (range m) hw in
    let m := {| handle := handle m; range := r; mapped_ptr := mapped_ptr m;
                size := size m; current_mapped_block := current_mapped_block m |} in
    if negb (is_ok err) then (false, m, hw)
    else
      let '(err, p, hw) :=
        esp_himem_map (handle m) (range m) (Word.mul block_index ESP_HIMEM_BLKSZ) 0
                      ESP_HIMEM_BLKSZ ESP_HIMEM_PROT_RW (mapped_ptr m) hw in
      let m := {| handle := handle m; range := range m; mapped_ptr := p;
                  size := size m; current_mapped_block := current_mapped_block m |} in
      if negb (is_ok err) then
        let (_, hw) := esp_himem_free_map_range (range m) hw in
        (false,
         {| handle := handle m; range := 0; mapped_ptr := mapped_ptr m;
            size := size m; current_mapped_block := current_mapped_block m |}, hw)
      else
        (true,
         {| handle := handle m; range := range m; mapped_ptr := mapped_ptr m;
            size := size m; current_mapped_block := block_index |}, hw).

(** An upper bound on the number of blocks a transfer of [length] bytes
    touches; the block loops below run on it. *)
Definition loop_bound (length : Z) : nat := Z.to_nat (length / ESP_HIMEM_BLKSZ + 2).

(** The [while (bytes_read < length)] loop of [read]. *)
Fixpoint read_loop (fuel : nat) (length block_index block_offset bytes_read : Z)
    (dest : list byte) (m : t) (hw : state) : Z * list byte * t * state :=
  match fuel with
  | O => (bytes_read, dest, m, hw)
  | S fuel' =>
      if bytes_read <? length then
        let '(ok, m, hw) := ensure_block_mapped block_index m hw in
        if negb ok then (bytes_read, dest, m, hw)
        else
          let block_remain := Word.sub ESP_HIMEM_BLKSZ block_offset in
          let to_read := Z.min block_remain (Word.sub length bytes_read) in
          let (chunk, hw) := window_load (mapped_ptr m) block_offset to_read hw in
          let dest := buf_write dest bytes_read chunk in
          read_loop fuel' length (Word.add block_index 1) 0
                    (Word.add bytes_read to_read) dest m hw
      else (bytes_read, dest, m, hw)
  end.

(** [read(dest, offset, length)]: the byte count, the destination buffer
    after the call, and the new state. *)
Definition read (dest : list byte) (offset length : Z) (m : t) (hw : state)
    : Z * list byte * t * state :=
  if (handle m =? 0) || (size m <=? offset) then (0, dest, m, hw)
  else
    let length := Z.min length (Word.sub (size m) offset) in
    if length =? 0 then (0, dest, m, hw)
    else
      let block_index := offset / ESP_HIMEM_BLKSZ in
      let block_offset := offset mod ESP_HIMEM_BLKSZ in
      read_loop (loop_bound length) length block_index block_offset 0 dest m hw.

(** The [while (bytes_written < length)] loop of [write]. *)
Fixpoint write_loop (fuel : nat) (length block_index block_offset bytes_written : Z)
    (src : list byte) (m : t) (hw : state) : Z * t * state :=
  match fuel with
  | O => (bytes_written, m, hw)
  | S fuel' =>
      if bytes_written <? length then
        let '(ok, m, hw) := ensure_block_mapped block_index m hw in
        if negb ok then (bytes_written, m, hw)
        else
          let block_remain := Word.sub ESP_HIMEM_BLKSZ block_offset in
          let to_write := Z.min block_remain (Word.sub length bytes_written) in
          let hw :=
            window_store (mapped_ptr m) block_offset
                         (buf_read src bytes_written to_write) hw in
          write_loop fuel' length (Word.add block_index 1) 0
                     (Word.add bytes_written to_write) src m hw
      else (bytes_written, m, hw)
  end.

(** [write(src, offset, length)]. *)
Definition write (src : list byte) (offset length : Z) (m : t) (hw : state)
    : Z * t * state :=
  if (handle m =? 0) || (size m <=? offset) then (0, m, hw)
  else
    let length := Z.min length (Word.sub (size m) offset) in
    if length =? 0 then (0, m, hw)
    else
      let block_index := offset / ESP_HIMEM_BLKSZ in
      let block_offset := offset mod ESP_HIMEM_BLKSZ in
      write_loop (loop_bound length) length block_index block_offset 0 src m hw.

(** The move constructor: the new object takes every field, the source is
    reset to the empty state.  Returns (new object, moved-from object). *)
Definition move_construct (other : t) : t * t := (other, init).

(** Move assignment between two distinct objects ([this != &other]):
    [free()] on the target, then the fields move over.  Returns
    (target, moved-from object, hardware). *)
Definition move_assign (m other : t) (hw : state) : t * t * state :=
  let (_, hw) := free m hw in
  (other, init, hw).

(** *** The representation invariant

    Either nothing is mapped, and then the three mapping fields are at their
    reset values and the driver holds no mapping of the region; or block [b]
    is mapped, and then the driver holds exactly that mapping of the region. *)
Definition unmapped (hw : state) (m : t) : Prop :=
  mapped_ptr m = 0 /\ range m = 0 /\ current_mapped_block m = Word.SIZE_MAX /\
  forall r o, ranges hw !! r <> Some (Some (handle m, o)).

Definition mapped_at (hw : state) (m : t) (b : Z) : Prop :=
  mapped_ptr m = range m /\ range m <> 0 /\ current_mapped_block m = b /\
  0 <= b < Word.modulus /\
  Word.mul b ESP_HIMEM_BLKSZ + ESP_HIMEM_BLKSZ <= size m /\
  ranges hw !! range m = Some (Some (handle m, Word.mul b ESP_HIMEM_BLKSZ)) /\
  forall r o, ranges hw !! r = Some (Some (handle m, o)) -> r = range m.

Definition inv (hw : state) (m : t) : Prop :=
  0 <= size m < Word.modulus /\
  size m mod ESP_HIMEM_BLKSZ = 0 /\
  (handle m <> 0 ->
   exists rg, regions hw !! handle m = Some rg /\ rg_size rg = size m) /\
  (unmapped hw m \/ mapped_at hw m (current_mapped_block m)).

(** The bytes of the block's region. *)
Definition contents (hw : state) (m : t) : gmap Z byte := bytes_of hw (handle m).

(** The operations on a block: the public ones, and the protected remap
    step that [read] and [write] are made of. *)
Inductive op :=
  | OpAllocate (block_size : Z)
  | OpRead (dest : list byte) (offset length : Z)
  | OpWrite (src : list byte) (offset length : Z)
  | OpUnmap
  | OpFree
  | OpEnsureBlockMapped (block_index : Z).

(** The arguments are [size_t] values, and a source buffer holds the bytes
    it is asked for. *)
Definition op_typed (o : op) : Prop :=
  match o with
  | OpAllocate block_size => Word.in_range block_size
  | OpRead _ offset length => Word.in_range offset /\ Word.in_range length
  | OpWrite src offset length =>
      Word.in_range offset /\ Word.in_range length /\
      length <= Z.of_nat (Datatypes.length src)
  | OpEnsureBlockMapped block_index => Word.in_range block_index
  | OpUnmap | OpFree => True
  end.

Definition run (o : op) (m : t) (hw : state) : t * state :=
  match o with
  | OpAllocate block_size => let '(_, m, hw) := allocate block_size m hw in (m, hw)
  | OpRead dest offset length =>
      let '(_, _, m, hw) := read dest offset length m hw in (m, hw)
  | OpWrite src offset length =>
      let '(_, m, hw) := write src offset length m hw in (m, hw)
  | OpUnmap => unmap m hw
  | OpFree => free m hw
  | OpEnsureBlockMapped block_index =>
      let '(_, m, hw) := ensure_block_mapped block_index m hw in (m, hw)
  end.

(** The blocks a program holds, all on the one driver: an array holds one
    block and builds a second one whenever it grows, and several arrays
    live side by side.  The states reached from untouched hardware,
    whatever the hardware answers: a block is constructed, an operation
    runs on one of the blocks, a block is move-constructed from one of
    them, or one block is move-assigned to another.  The destructor is
    [free()]; a destroyed block stays in the list as the freed block it
    is. *)
Inductive reachable : list t -> state -> Prop :=
  | reach_init script : reachable [] (Hw.empty script)
  | reach_construct blocks hw :
      reachable blocks hw -> reachable (blocks ++ [init]) hw
  | reach_step blocks hw (i : nat) m o m' hw' :
      reachable blocks hw -> blocks !! i = Some m -> op_typed o ->
      run o m hw = (m', hw') -> reachable (<[i := m']> blocks) hw'
  | reach_move_construct blocks hw (i : nat) other m other' :
      reachable blocks hw -> blocks !! i = Some other ->
      move_construct other = (m, other') ->
      reachable (<[i := other']> blocks ++ [m]) hw
  | reach_move_assign blocks hw (i j : nat) m other m' other' hw' :
      reachable blocks hw -> i <> j ->
      blocks !! i = Some m -> blocks !! j = Some other ->
      move_assign m other hw = (m', other', hw') ->
      reachable (<[j := other']> (<[i := m']> blocks)) hw'.

(** No region has two owners among the blocks. *)
Definition apart (blocks : list t) : Prop :=
  forall (i j : nat) mi mj,
    i <> j -> blocks !! i = Some mi -> blocks !! j = Some mj ->
    handle mi <> 0 -> handle mi <> handle mj.

(** The driver calls [unmap] makes on a block that has a window mapped. *)
Definition unmap_calls (m : t) : list (call * esp_err_t) :=
  if negb (mapped_ptr m =? 0) && negb (range m =? 0) then
    [(Unmap (range m) (mapped_ptr m), ESP_OK); (FreeMapRange (range m), ESP_OK)]
  else [].

Definition is_map_call (c : call * esp_err_t) : bool :=
  match fst c with Map _ _ _ => true | _ => false end.

Definition is_unmap_call (c : call * esp_err_t) : bool :=
  match fst c with Unmap _ _ => true | _ => false end.

Definition is_free_call (h : Z) (c : call * esp_err_t) : bool :=
  match fst c with Free h' => h' =? h | _ => false end.

End HimemBlock.

(** ** template <typename T> class VectorHIMEM

    The element type is a fixed-layout type of [sizeof_T] bytes; an element
    is held as its bytes. *)

Module VectorHIMEM.

Import Hw.

(** What an accessor hands back: a reference to its static staging value
    (held here by its contents), or a thrown [std::out_of_range]. *)
Inductive result :=
  | Ref (temp : list byte)
  | OutOfRange.

Definition same_result (r1 r2 : result) : bool :=
  match r1, r2 with
  | Ref a, Ref b => same_bytes a b
  | OutOfRange, OutOfRange => true
  | _, _ => false
  end.

Record t := {
  memory : HimemBlock.t;
  element_count : Z;
  element_capacity : Z
}.

(** [VectorHIMEM() = default]. *)
Definition init : t :=
  {| memory := HimemBlock.init; element_count := 0; element_capacity := 0 |}.

Definition min_elements : Z := 16.

(** A capacity that is zero (the array never grew) or a power-of-two
    multiple of [min_elements]. *)
Definition doubling (c : Z) : Prop :=
  c = 0 \/ exists k : nat, c = min_elements * 2 ^ Z.of_nat k.

(** The hardware is sound, the block is consistent, and every mapping
    request to come is granted. *)
Definition good (hw : state) (m : HimemBlock.t) : Prop :=
  wf hw /\ HimemBlock.inv hw m /\ mapping hw.

(** [m'] is the block [m], whatever is mapped. *)
Definition same_block (m m' : HimemBlock.t) : Prop :=
  HimemBlock.handle m' = HimemBlock.handle m /\
  HimemBlock.size m' = HimemBlock.size m.

(** [for (size_t i = from; i < to; ++i) body], run [n] times from [i]. *)
Fixpoint for_up {S : Type} (n : nat) (i : Z) (body : Z -> S -> S) (s : S) : S :=
  match n with
  | O => s
  | S n' => for_up n' (Word.add i 1) body (body i s)
  end.

(** [for (size_t i = from; i > to; --i) body], run [n] times from [i]. *)
Fixpoint for_down {S : Type} (n : nat) (i : Z) (body : Z -> S -> S) (s : S) : S :=
  match n with
  | O => s
  | S n' => for_down n' (Word.sub i 1) body (body i s)
  end.

Section Element.

Variable sizeof_T : Z.

Definition calculate_size_bytes (count : Z) : Z := Word.mul count sizeof_T.

(** A local [T temp;] before anything is read into it: [sizeof(T)] bytes,
    indeterminate for a trivial [T] and taken as zero here. *)
Definition uninitialized : list byte := replicate (Z.to_nat sizeof_T) x00.

(** [memory.read(&temp, i * sizeof(T), sizeof(T)); memory.write(&temp, j * sizeof(T), sizeof(T))]
    on one block: the body of the shifting loops. *)
Definition move_element (i j : Z) (s : list byte * HimemBlock.t * state)
    : list byte * HimemBlock.t * state :=
  let '(temp, memory, hw) := s in
  let '(_, temp, memory, hw) :=
    HimemBlock.read temp (Word.mul i sizeof_T) sizeof_T memory hw in
  let '(_, memory, hw) :=
    HimemBlock.write temp (Word.mul j sizeof_T) sizeof_T memory hw in
  (temp, memory, hw).

(** The body of the copy loop of [reallocate]: element [i] goes from the old
    block to the new one. *)
Definition copy_element (i : Z) (s : list byte * HimemBlock.t * HimemBlock.t * state)
    : list byte * HimemBlock.t * HimemBlock.t * state :=
  let '(temp, memory, new_memory, hw) := s in
  let '(_, temp, memory, hw) :=
    HimemBlock.read temp (Word.mul i sizeof_T) sizeof_T memory hw in
  let '(_, new_memory, hw) :=
    HimemBlock.write temp (Word.mul i sizeof_T) sizeof_T new_memory hw in
  (temp, memory, new_memory, hw).

Definition reallocate (new_capacity : Z) (v : t) (hw : state) : bool * t * state :=
  if new_capacity <=? element_capacity v then (true, v, hw)
  else
    let new_capacity := Z.max new_capacity min_elements in
    let new_memory := HimemBlock.init in
    let '(ok, new_memory, hw) :=
      HimemBlock.allocate (calculate_size_bytes new_capacity) new_memory hw in
    if negb ok then
      (* ~HimemBlock() of new_memory *)
      let (_, hw) := HimemBlock.free new_memory hw in
      (false, v, hw)
    else
      let '(_, memory, new_memory, hw) :=
        if 0 <? element_count v then
          for_up (Z.to_nat (element_count v)) 0 copy_element
                 (uninitialized, memory v, new_memory, hw)
        else (uninitialized, memory v, new_memory, hw) in
      let '(memory, new_memory, hw) := HimemBlock.move_assign memory new_memory hw in
      let element_capacity := HimemBlock.get_size memory / sizeof_T in
      (* ~HimemBlock() of the moved-from new_memory *)
      let (_, hw) := HimemBlock.free new_memory hw in
      (true,
       {| memory := memory; element_count := element_count v;
          element_capacity := element_capacity |}, hw).

Definition at_ (temp : list byte) (pos : Z) (v : t) (hw : state)
    : result * t * state :=
  if element_count v <=? pos then (OutOfRange, v, hw)
  else
    let '(_, temp, memory, hw) :=
      HimemBlock.read temp (Word.mul pos sizeof_T) sizeof_T (memory v) hw in
    (Ref temp,
     {| memory := memory; element_count := element_count v;
        element_capacity := element_capacity v |}, hw).

(** [operator[]]. *)
Definition index (temp : list byte) (pos : Z) (v : t) (hw : state)
    : result * t * state :=
  let '(_, temp, memory, hw) :=
    HimemBlock.read temp (Word.mul pos sizeof_T) sizeof_T (memory v) hw in
  (Ref temp,
   {| memory := memory; element_count := element_count v;
      element_capacity := element_capacity v |}, hw).

Definition front (temp : list byte) (v : t) (hw : state) : result * t * state :=
  let '(_, temp, memory, hw) := HimemBlock.read temp 0 sizeof_T (memory v) hw in
  (Ref temp,
   {| memory := memory; element_count := element_count v;
      element_capacity := element_capacity v |}, hw).

Definition back (temp : list byte) (v : t) (hw : state) : result * t * state :=
  let '(_, temp, memory, hw) :=
    HimemBlock.read temp (Word.mul (Word.sub (element_count v) 1) sizeof_T)
                    sizeof_T (memory v) hw in
  (Ref temp,
   {| memory := memory; element_count := element_count v;
      element_capacity := element_capacity v |}, hw).

Definition empty (v : t) : bool := element_count v =? 0.
Definition size (v : t) : Z := element_count v.
Definition max_size : Z := Word.SIZE_MAX / sizeof_T.
Definition capacity (v : t) : Z := element_capacity v.

Definition reserve (new_cap : Z) (v : t) (hw : state) : t * state :=
  if element_capacity v <? new_cap then
    let '(_, v, hw) := reallocate new_cap v hw in (v, hw)
  else (v, hw).

Definition clear (v : t) : t :=
  {| memory := memory v; element_count := 0;
     element_capacity := element_capacity v |}.

(** The growth request of [push_back] and [insert]. *)
Definition grow_if_full (v : t) (hw : state) : bool * t * state :=
  if element_capacity v <=? element_count v then
    let new_capacity :=
      if element_capacity v =? 0 then min_elements
      else Word.mul (element_capacity v) 2 in
    reallocate new_capacity v hw
  else (true, v, hw).

Definition push_back (value : list byte) (v : t) (hw : state) : t * state :=
  let '(ok, v, hw) := grow_if_full v hw in
  if negb ok then (v, hw)
  else
    let '(_, memory, hw) :=
      HimemBlock.write value (Word.mul (element_count v) sizeof_T) sizeof_T
                       (memory v) hw in
    ({| memory := memory; element_count := Word.add (element_count v) 1;
        element_capacity := element_capacity v |}, hw).

Definition pop_back (v : t) : t :=
  if 0 <? element_count v then
    {| memory := memory v; element_count := Word.sub (element_count v) 1;
       element_capacity := element_capacity v |}
  else v.

(** [resize(count)]. *)
Definition resize (count : Z) (v : t) (hw : state) : t * state :=
  let '(ok, v, hw) :=
    if element_capacity v <? count then reallocate count v hw else (true, v, hw) in
  if negb ok then (v, hw)
  else
    ({| memory := memory v; element_count := count;
        element_capacity := element_capacity v |}, hw).

(** [resize(count, value)]. *)
Definition resize_fill (count : Z) (value : list byte) (v : t) (hw : state)
    : t * state :=
  let old_size := element_count v in
  if element_count v <? count then
    let '(ok, v, hw) :=
      if element_capacity v <? count then reallocate count v hw else (true, v, hw) in
    if negb ok then (v, hw)
    else
      let '(memory, hw) :=
        for_up (Z.to_nat (count - old_size)) old_size
               (fun i '(memory, hw) =>
                  let '(_, memory, hw) :=
                    HimemBlock.write value (Word.mul i sizeof_T) sizeof_T memory hw in
                  (memory, hw))
               (memory v, hw) in
      ({| memory := memory; element_count := count;
          element_capacity := element_capacity v |}, hw)
  else
    ({| memory := memory v; element_count := count;
        element_capacity := element_capacity v |}, hw).

Definition erase (pos : Z) (v : t) (hw : state) : t * state :=
  if element_count v <=? pos then (v, hw)
  else
    let first := Word.add pos 1 in
    let '(_, memory, hw) :=
      for_up (Z.to_nat (element_count v - first)) first
             (fun i => move_element i (Word.sub i 1))
             (uninitialized, memory v, hw) in
    ({| memory := memory; element_count := Word.sub (element_count v) 1;
        element_capacity := element_capacity v |}, hw).

Definition insert (pos : Z) (value : list byte) (v : t) (hw : state) : t * state :=
  if element_count v <? pos then (v, hw)
  else
    let '(ok, v, hw) := grow_if_full v hw in
    if negb ok then (v, hw)
    else
      let '(_, memory, hw) :=
        for_down (Z.to_nat (element_count v - pos)) (element_count v)
                 (fun i => move_element (Word.sub i 1) i)
                 (uninitialized, memory v, hw) in
      let '(_, memory, hw) :=
        HimemBlock.write value (Word.mul pos sizeof_T) sizeof_T memory hw in
      ({| memory := memory; element_count := Word.add (element_count v) 1;
          element_capacity := element_capacity v |}, hw).

(** [push_back] of each value of a list, in order. *)
Fixpoint push_all (values : list (list byte)) (v : t) (hw : state) : t * state :=
  match values with
  | [] => (v, hw)
  | value :: rest => let (v, hw) := push_back value v hw in push_all rest v hw
  end.

(** *** Construction, assignment and destruction *)

(** [explicit VectorHIMEM(size_type count)]: [resize(count)] on the fresh
    object. *)
Definition construct_count (count : Z) (hw : state) : t * state :=
  resize count init hw.

(** [VectorHIMEM(size_type count, const T& value)]. *)
Definition construct_fill (count : Z) (value : list byte) (hw : state) : t * state :=
  resize_fill count value init hw.

(** The body shared by the copy constructor and the copy assignment: when
    [other] holds elements and [reallocate(other.element_count)] succeeds,
    each element is read from [other] and written to [v].  Returns [v],
    [other] (whose window may have moved) and the hardware. *)
Definition copy_from (v other : t) (hw : state) : t * t * state :=
  if 0 <? element_count other then
    let '(ok, v, hw) := reallocate (element_count other) v hw in
    if negb ok then (v, other, hw)
    else
      let '(_, other_memory, memory, hw) :=
        for_up (Z.to_nat (element_count other)) 0 copy_element
               (uninitialized, memory other, memory v, hw) in
      ({| memory := memory; element_count := element_count other;
          element_capacity := element_capacity v |},
       {| memory := other_memory; element_count := element_count other;
          element_capacity := element_capacity other |}, hw)
  else (v, other, hw).

(** [VectorHIMEM(const VectorHIMEM& other)]. *)
Definition copy_construct (other : t) (hw : state) : t * t * state :=
  copy_from init other hw.


(** [VectorHIMEM(VectorHIMEM&& other)]: the block and the counters move
    over, [other] is left empty.  Returns (new object, moved-from object). *)
Definition move_construct (other : t) : t * t :=
  let (memory, other_memory) := HimemBlock.move_construct (memory other) in
  ({| memory := memory; element_count := element_count other;
      element_capacity := element_capacity other |},
   {| memory := other_memory; element_count := 0; element_capacity := 0 |}).

(** [operator=(VectorHIMEM&& other)] between two distinct objects:
    [clear()], the block is move-assigned (which frees the one held), the
    counters move over. *)
Definition move_assign (v other : t) (hw : state) : t * t * state :=
  let v := clear v in
  let '(memory, other_memory, hw) :=
    HimemBlock.move_assign (memory v) (memory other) hw in
  ({| memory := memory; element_count := element_count other;
      element_capacity := element_capacity other |},
   {| memory := other_memory; element_count := 0; element_capacity := 0 |}, hw).

(** The [for (const auto& item : init)] loop of the initializer-list
    constructor and assignment: item [i] is written to slot [i]. *)
Fixpoint write_items (items : list (list byte)) (i : Z)
    (s : HimemBlock.t * state) : HimemBlock.t * state :=
  match items with
  | [] => s
  | item :: rest =>
      let '(memory, hw) := s in
      let '(_, memory, hw) :=
        HimemBlock.write item (Word.mul i sizeof_T) sizeof_T memory hw in
      write_items rest (Word.add i 1) (memory, hw)
  end.

(** The body shared by the initializer-list constructor and assignment;
    [init.size()] is the length of the list. *)
Definition fill_from_list (items : list (list byte)) (v : t) (hw : state)
    : t * state :=
  let n := Z.of_nat (length items) in
  if 0 <? n then
    let '(ok, v, hw) := reallocate n v hw in
    if negb ok then (v, hw)
    else
      let '(memory, hw) := write_items items 0 (memory v, hw) in
      ({| memory := memory; element_count := n;
          element_capacity := element_capacity v |}, hw)
  else (v, hw).

(** [VectorHIMEM(std::initializer_list<T> init)]. *)
Definition construct_list (items : list (list byte)) (hw : state) : t * state :=
  fill_from_list items init hw.

(** [operator=(std::initializer_list<T> ilist)]: [clear()], then the fill. *)
Definition assign_list (items : list (list byte)) (v : t) (hw : state) : t * state :=
  fill_from_list items (clear v) hw.

(** [~VectorHIMEM()]: [clear()], then the destructor of the block, which is
    [free()].  The object is gone; the hardware is what is left. *)
Definition destroy (v : t) (hw : state) : state :=
  let v := clear v in
  snd (HimemBlock.free (memory v) hw).

(** *** Comparison

    [operator==] on two distinct arrays, for an element type that is
    compared by its bytes.  Both operands are [const], so every [lhs[i]]
    and [rhs[i]] goes through the one [static T result] of the const
    [operator[]]; [lhs_val] is copied out of it before [rhs[i]] is read. *)
Fixpoint equal_loop (n : nat) (i : Z) (result : list byte) (lhs rhs : t)
    (hw : state) : bool * list byte * t * t * state :=
  match n with
  | O => (true, result, lhs, rhs, hw)
  | S n' =>
      let '(_, result, lhs_memory, hw) :=
        HimemBlock.read result (Word.mul i sizeof_T) sizeof_T (memory lhs) hw in
      let lhs_val := result in
      let lhs := {| memory := lhs_memory; element_count := element_count lhs;
                    element_capacity := element_capacity lhs |} in
      let '(_, result, rhs_memory, hw) :=
        HimemBlock.read result (Word.mul i sizeof_T) sizeof_T (memory rhs) hw in
      let rhs_val := result in
      let rhs := {| memory := rhs_memory; element_count := element_count rhs;
                    element_capacity := element_capacity rhs |} in
      if negb (same_bytes lhs_val rhs_val) then (false, result, lhs, rhs, hw)
      else equal_loop n' (Word.add i 1) result lhs rhs hw
  end.

Definition equal (result : list byte) (lhs rhs : t) (hw : state)
    : bool * list byte * t * t * state :=
  if negb (size lhs =? size rhs) then (false, result, lhs, rhs, hw)
  else equal_loop (Z.to_nat (size lhs)) 0 result lhs rhs hw.

(** [operator!=]. *)
Definition not_equal (result : list byte) (lhs rhs : t) (hw : state)
    : bool * list byte * t * t * state :=
  let '(eq, result, lhs, rhs, hw) := equal result lhs rhs hw in
  (negb eq, result, lhs, rhs, hw).

(** *** What holds of every array

    The counters agree with the block: the capacity is the region size in
    elements, the count does not exceed it, an array that never grew holds
    no block, and one that grew has room for [min_elements] at least. *)
Definition inv (hw : state) (v : t) : Prop :=
  HimemBlock.inv hw (memory v) /\
  0 <= element_count v <= element_capacity v /\
  element_capacity v = HimemBlock.size (memory v) / sizeof_T /\
  (HimemBlock.handle (memory v) = 0 -> HimemBlock.size (memory v) = 0) /\
  (element_capacity v = 0 \/ min_elements <= element_capacity v).

(** The bytes stored for element [i] of a block. *)
Definition element (hw : state) (m : HimemBlock.t) (i : Z) : list byte :=
  Mem.load (HimemBlock.contents hw m) (i * sizeof_T) sizeof_T.

(** What [v[i]] hands back. *)
Definition read_at (temp : list byte) (i : Z) (v : t) (hw : state) : result :=
  fst (fst (index temp i v hw)).

(** The capacity [push_back] and [insert] ask [reallocate] for. *)
Definition growth_request (v : t) : Z :=
  if element_capacity v =? 0 then min_elements
  else Word.mul (element_capacity v) 2.

(** The byte size of a region for [n] elements is representable: neither
    [n * sizeof(T)] nor its rounding to whole blocks wraps around. *)
Definition fits (n : Z) : Prop :=
  Z.max n min_elements * sizeof_T + ESP_HIMEM_BLKSZ <= Word.modulus.

(** Following the words of the specification: the capacity that growth
    aims at when [requested] elements are needed. *)
Definition spec_growth_target (v : t) (requested : Z) : Z :=
  Z.max (if element_capacity v =? 0 then min_elements else element_capacity v * 2)
        requested.

(** The capacity of a region allocated for [n] elements. *)
Definition capacity_for (n : Z) : Z :=
  HimemBlock.round_up (calculate_size_bytes (Z.max n min_elements)) / sizeof_T.

(** Doubling the capacity is representable, whenever the array is full. *)
Definition growth_fits (v : t) : Prop :=
  element_capacity v <= element_count v -> fits (2 * element_capacity v).

End Element.

(** [swap]: the blocks and the counters change places, no element moves. *)
Definition swap (v other : t) : t * t := (other, v).

End VectorHIMEM.

(** * HIMEM.h: the file registry

    [HIMEMClass] keeps the files by name: a [std::map] from the file name
    to the byte array ([VectorHIMEM<uint8_t>]) that holds the content.
    [open] hands out a [FileHIMEM], which is declared in a header that is
    not part of the sources at hand, and is left out. *)

Module HIMEMClass.

Import Hw.

Record t := {
  initialized : bool;
  fileData : gmap string VectorHIMEM.t
}.

(** The default member initialisers. *)
Definition init : t := {| initialized := false; fileData := ∅ |}.

(** [begin()].  The answer of the driver's capacity query
    [esp_himem_get_free_size()] is the argument [free_size]. *)
Definition begin (free_size : Z) (fs : t) : bool * t :=
  if 0 <? free_size then
    (true, {| initialized := true; fileData := fileData fs |})
  else (false, {| initialized := false; fileData := fileData fs |}).

(** [exists(filename)]. *)
Definition exists_ (filename : string) (fs : t) : bool :=
  if negb (initialized fs) then false
  else
    match fileData fs !! filename with
    | Some _ => true
    | None => false
    end.

(** [remove(filename)]: [fileData.erase(it)] destroys the array of the
    file, which runs [~VectorHIMEM()]. *)
Definition remove (filename : string) (fs : t) (hw : state) : bool * t * state :=
  if negb (initialized fs) then (false, fs, hw)
  else
    match fileData fs !! filename with
    | Some v =>
        (true,
         {| initialized := initialized fs;
            fileData := delete filename (fileData fs) |},
         VectorHIMEM.destroy v hw)
    | None => (false, fs, hw)
    end.

(** [mkdir] and [rmdir]: there are no directories. *)
Definition mkdir (dirname : string) : bool := true.
Definition rmdir (dirname : string) : bool := true.

End HIMEMClass.

(** ** Concrete states

    A block and an array on hardware that grants every request, the
    hardware that denies the first region, and an array of block-sized
    elements on hardware that runs out of window ranges. *)

Module Examples.

(** A fresh block after [allocate(40000)]: two blocks of 32 KiB. *)
Definition allocated : HimemBlock.t * Hw.state :=
  HimemBlock.run (HimemBlock.OpAllocate 40000) HimemBlock.init (Hw.empty Hw.always).

(** The same block after four bytes were written across the block
    boundary: its second block is mapped. *)
Definition written : HimemBlock.t * Hw.state :=
  HimemBlock.run (HimemBlock.OpWrite [x01; x02; x03; x04] 32766 4)
                 (fst allocated) (snd allocated).

(** A second block on the same hardware, allocated after [written] and
    written across its own block boundary: both blocks have a block
    mapped. *)
Definition second_allocated : HimemBlock.t * Hw.state :=
  HimemBlock.run (HimemBlock.OpAllocate 40000) HimemBlock.init (snd written).

Definition second_written : HimemBlock.t * Hw.state :=
  HimemBlock.run (HimemBlock.OpWrite [x05; x06; x07] 32767 3)
                 (fst second_allocated) (snd second_allocated).

(** An array of one-byte elements after three [push_back]s. *)
Definition three : VectorHIMEM.t * Hw.state :=
  VectorHIMEM.push_all 1 [[x01]; [x02]; [x03]] VectorHIMEM.init (Hw.empty Hw.always).

(** The same array after [reserve(40000)]: it grew a second time, into a
    second region, and its three elements were copied over. *)
Definition grown : VectorHIMEM.t * Hw.state :=
  VectorHIMEM.reserve 1 40000 (fst three) (snd three).

(** Sixteen elements of 2048 bytes: together they fill the one block that
    the first growth allocates. *)
Definition sixteen : list (list byte) :=
  (fun b => replicate (Z.to_nat 2048) b) <$>
    [x01; x02; x03; x04; x05; x06; x07; x08; x09; x0a; x0b; x0c; x0d; x0e; x0f; x10].

(** A full array: sixteen elements, capacity sixteen. *)
Definition full : VectorHIMEM.t * Hw.state :=
  VectorHIMEM.push_all 2048 sixteen VectorHIMEM.init (Hw.empty Hw.always).

(** The same array on hardware that had one region to give: the next
    region request is denied. *)
Definition full_out_of_regions : VectorHIMEM.t * Hw.state :=
  VectorHIMEM.push_all 2048 sixteen VectorHIMEM.init (Hw.empty Hw.one_region).

(** The array [three] and a copy of it, each in a region of its own:
    (the copy, the source, the hardware). *)
Definition copied : VectorHIMEM.t * VectorHIMEM.t * Hw.state :=
  VectorHIMEM.copy_construct 1 (fst three) (snd three).

(** Hardware whose first answer is a denial. *)
Definition denying_hardware : Hw.state := Hw.empty Hw.deny_region.

(** An element that fills one block with the byte [b]. *)
Definition block_of (b : byte) : list byte := replicate (Z.to_nat Hw.ESP_HIMEM_BLKSZ) b.

(** An array of two one-block elements after two [push_back]s: each took
    one window range, the second block is the one mapped, and the hardware
    will deny the next range. *)
Abbreviation two_blocks :=
  (VectorHIMEM.push_all Hw.ESP_HIMEM_BLKSZ [block_of x01; block_of x02]
                        VectorHIMEM.init (Hw.empty Hw.deny_third_range)).

(** A fresh array after [reserve(100)] on hardware that grants the region
    and will deny the first window range. *)
Definition reserved_without_window : VectorHIMEM.t * Hw.state :=
  VectorHIMEM.reserve 1 100 VectorHIMEM.init (Hw.empty Hw.deny_range).

(** A registry that was begun and holds two files: the array [three] and
    its copy. *)
Definition two_files : HIMEMClass.t :=
  {| HIMEMClass.initialized := true;
     HIMEMClass.fileData :=
       <[ "log.txt"%string := snd (fst copied) ]>
         {[ "copy.txt"%string := fst (fst copied) ]} |}.

(** A registry that was begun and holds the array [three] as one file. *)
Definition one_file : HIMEMClass.t :=
  {| HIMEMClass.initialized := true;
     HIMEMClass.fileData := {[ "log.txt"%string := fst three ]} |}.

End Examples.


(** * Facts about machine integers and byte memories *)

Module WordFacts.

Import Word.

Lemma modulus_eq : modulus = 4294967296.
Proof. reflexivity. Qed.

Lemma wrap_range z : in_range (wrap z).
Proof. unfold in_range, wrap. apply Z.mod_pos_bound. rewrite modulus_eq. lia. Qed.

Lemma wrap_small z : in_range z -> wrap z = z.
Proof. unfold in_range, wrap. intros H. apply Z.mod_small. exact H. Qed.

Lemma add_small a b : 0 <= a -> 0 <= b -> a + b < modulus -> add a b = a + b.
Proof. intros. unfold add. apply wrap_small. unfold in_range. lia. Qed.

Lemma sub_small a b : 0 <= b <= a -> a < modulus -> sub a b = a - b.
Proof. intros. unfold sub. apply wrap_small. unfold in_range. lia. Qed.

Lemma mul_small a b : 0 <= a -> 0 <= b -> a * b < modulus -> mul a b = a * b.
Proof. intros. unfold mul. apply wrap_small. unfold in_range. nia. Qed.

End WordFacts.

Module MemFacts.

Import Mem.

Lemma load_from_seqZ m (n : nat) :
  forall off, load_from m off n = map (load1 m) (seqZ off (Z.of_nat n)).
Proof.
  induction n as [|n IH]; intros off; [done|].
  rewrite seqZ_cons by lia. cbn [load_from map]. f_equal.
  rewrite IH. do 2 f_equal; lia.
Qed.

Lemma load_seqZ m off n : load m off n = map (load1 m) (seqZ off n).
Proof.
  unfold load. rewrite load_from_seqZ.
  destruct (Z.le_gt_cases 0 n) as [Hn|Hn].
  - by rewrite Z2Nat.id.
  - unfold seqZ. rewrite !Z2Nat.nonpos by lia. reflexivity.
Qed.

Lemma load_length m off n : 0 <= n -> Z.of_nat (length (load m off n)) = n.
Proof. intros Hn. rewrite load_seqZ, length_map, length_seqZ. lia. Qed.

Lemma load_app m off n1 n2 :
  0 <= n1 -> 0 <= n2 -> load m off (n1 + n2) = load m off n1 ++ load m (off + n1) n2.
Proof.
  intros H1 H2. rewrite !load_seqZ, seqZ_app by lia. apply map_app.
Qed.

Lemma store_app m off xs ys :
  store m off (xs ++ ys) = store (store m off xs) (off + Z.of_nat (length xs)) ys.
Proof.
  revert m off. induction xs as [|x xs IH]; intros m off; simpl.
  - f_equal. lia.
  - rewrite IH. f_equal. lia.
Qed.

Lemma store_lookup_lt m off bs k : k < off -> store m off bs !! k = m !! k.
Proof.
  revert m off. induction bs as [|b bs IH]; intros m off Hk; simpl; [done|].
  rewrite IH by lia. apply lookup_insert_ne. lia.
Qed.

Lemma store_lookup_ge m off bs k :
  off + Z.of_nat (length bs) <= k -> store m off bs !! k = m !! k.
Proof.
  revert m off. induction bs as [|b bs IH]; intros m off Hk; simpl in *; [done|].
  rewrite IH by lia. apply lookup_insert_ne. lia.
Qed.

Lemma store_lookup_in m off bs (i : nat) b :
  bs !! i = Some b -> store m off bs !! (off + Z.of_nat i) = Some b.
Proof.
  revert m off i. induction bs as [|b0 bs IH]; intros m off i Hi; [done|].
  destruct i as [|i]; simpl in *.
  - injection Hi as ->. rewrite store_lookup_lt by lia.
    replace (off + Z.of_nat 0) with off by lia. apply lookup_insert_eq.
  - replace (off + Z.of_nat (S i)) with (off + 1 + Z.of_nat i) by lia.
    by apply IH.
Qed.

(** Reading back exactly the range that was stored. *)
Lemma load_store_same m off bs :
  load (store m off bs) off (Z.of_nat (length bs)) = bs.
Proof.
  rewrite load_seqZ. apply list_eq. intros i.
  rewrite list_lookup_fmap.
  destruct (bs !! i) as [b|] eqn:Hb.
  - assert (Hlt : (i < length bs)%nat) by (eapply lookup_lt_Some; eauto).
    rewrite (lookup_seqZ_lt _ _ i) by lia. simpl.
    unfold load1. by rewrite (store_lookup_in _ _ _ _ _ Hb).
  - assert (Hge : (length bs <= i)%nat) by (by apply lookup_ge_None).
    rewrite lookup_seqZ_ge by lia. done.
Qed.

(** A load from a range the store did not touch sees the old bytes. *)
Lemma load_store_disjoint m off bs off' n :
  off' + n <= off \/ off + Z.of_nat (length bs) <= off' ->
  load (store m off bs) off' n = load m off' n.
Proof.
  intros Hd. rewrite !load_seqZ. apply map_ext_in. intros k Hk.
  apply list_elem_of_In, elem_of_seqZ in Hk.
  unfold load1. f_equal.
  destruct Hd as [Hd|Hd].
  - apply store_lookup_lt. lia.
  - apply store_lookup_ge. lia.
Qed.

End MemFacts.

(** ** Comparing buffers *)

Lemma same_bytes_eq a : forall b, same_bytes a b = true <-> a = b.
Proof.
  induction a as [|x a IH]; intros [|y b]; simpl; try done.
  rewrite andb_true_iff, IH. split.
  - intros [Hx ->]. by rewrite (Byte.byte_dec_bl _ _ Hx).
  - intros [= -> ->]. split; [by apply Byte.byte_dec_lb|done].
Qed.
(** * Facts about the driver model *)

Module HwFacts.

Import Hw.

Lemma foldr_max_ge (l : list Z) x : x ∈ l -> x <= foldr Z.max 0 l.
Proof.
  induction l as [|y l IH]; intros Hx.
  - by apply elem_of_nil in Hx.
  - apply elem_of_cons in Hx as [->|Hx]; simpl; [lia|]. specialize (IH Hx). lia.
Qed.

Lemma foldr_max_nonneg (l : list Z) : 0 <= foldr Z.max 0 l.
Proof. induction l; simpl; lia. Qed.

Lemma fresh_id_pos {A} (m : gmap Z A) : 0 < fresh_id m.
Proof.
  unfold fresh_id. pose proof (foldr_max_nonneg (map fst (map_to_list m))). lia.
Qed.

Lemma fresh_id_fresh {A} (m : gmap Z A) : m !! fresh_id m = None.
Proof.
  destruct (m !! fresh_id m) as [a|] eqn:E; [|done].
  apply elem_of_map_to_list in E.
  assert (H : fresh_id m ∈ map fst (map_to_list m)).
  { apply list_elem_of_In, in_map_iff. exists (fresh_id m, a). split; [done|].
    by apply list_elem_of_In. }
  apply foldr_max_ge in H. unfold fresh_id in H at 1. lia.
Qed.

Lemma blksz_eq : ESP_HIMEM_BLKSZ = 32768.
Proof. reflexivity. Qed.

(** *** The answer scripts *)

Lemma grant_fields k hw b hw' :
  grant k hw = (b, hw') ->
  regions hw' = regions hw /\ ranges hw' = ranges hw /\
  trace hw' = trace hw /\ fault hw' = fault hw.
Proof.
  unfold grant. destruct (oracle hw k); intros [= <- <-]; simpl; done.
Qed.

Lemma later_refl hw : later hw hw.
Proof. intros k. reflexivity. Qed.

Lemma later_trans hw1 hw2 hw3 : later hw1 hw2 -> later hw2 hw3 -> later hw1 hw3.
Proof. intros H12 H23 k. etrans; [apply H23|apply H12]. Qed.

Lemma later_same hw hw' : oracle hw' = oracle hw -> later hw hw'.
Proof. intros E k. by rewrite E. Qed.

Lemma grant_later k hw b hw' : grant k hw = (b, hw') -> later hw hw'.
Proof.
  unfold grant. destruct (oracle hw k) as [|b0 rest] eqn:E.
  - intros [= <- <-]. apply later_refl.
  - intros [= <- <-] k'. simpl.
    destruct (request_eqb k k') eqn:Hk; [|reflexivity].
    assert (k = k') as <- by (by destruct k, k').
    rewrite E. by apply suffix_cons_r.
Qed.

Lemma granted_later k hw hw' : later hw hw' -> granted k hw -> granted k hw'.
Proof.
  intros Hl Hg. destruct (Hl k) as [pre E]. unfold granted in *.
  rewrite E in Hg. by apply Forall_app in Hg as [_ ?].
Qed.

Lemma allocating_later hw hw' : later hw hw' -> allocating hw -> allocating hw'.
Proof. apply granted_later. Qed.

Lemma mapping_later hw hw' : later hw hw' -> mapping hw -> mapping hw'.
Proof. intros Hl [H1 H2]. split; by apply (granted_later _ hw). Qed.

Lemma granting_later hw hw' : later hw hw' -> granting hw -> granting hw'.
Proof.
  intros Hl [H1 H2]. split; [by apply (allocating_later hw)|by apply (mapping_later hw)].
Qed.

Lemma grant_granted k hw b hw' : grant k hw = (b, hw') -> granted k hw -> b = true.
Proof.
  unfold grant, granted. destruct (oracle hw k) as [|b0 rest].
  - by intros [= <- _] _.
  - intros [= <- _] H. by inversion H.
Qed.

Lemma grant_denying hw b hw' :
  grant ReqRegion hw = (b, hw') -> denying hw -> b = false.
Proof.
  unfold grant, denying. intros H [rest E]. rewrite E in H. by injection H as <- _.
Qed.

(** *** The mappings of a region *)

Lemma elem_of_mappings_of hw h e :
  e ∈ mappings_of hw h <->
  exists r o, e = (r, Some (h, o)) /\ ranges hw !! r = Some (Some (h, o)).
Proof.
  unfold mappings_of. rewrite list_elem_of_filter. split.
  - intros [Hm He]. destruct e as [r [[h' o]|]]; unfold maps_handle in Hm; simpl in Hm.
    + apply Is_true_eq_true, Z.eqb_eq in Hm. subst h'.
      exists r, o. split; [done|]. by apply elem_of_map_to_list.
    + done.
  - intros (r & o & -> & Hr). split.
    + unfold maps_handle. simpl. rewrite Z.eqb_refl. done.
    + by apply elem_of_map_to_list.
Qed.

Lemma mappings_of_NoDup hw h : NoDup (mappings_of hw h).
Proof. unfold mappings_of. apply NoDup_filter, NoDup_map_to_list. Qed.

Lemma mappings_of_nil hw h :
  (forall r o, ranges hw !! r <> Some (Some (h, o))) -> mappings_of hw h = [].
Proof.
  intros Hno. destruct (mappings_of hw h) as [|e l] eqn:E; [done|].
  assert (He : e ∈ mappings_of hw h) by (rewrite E; left).
  apply elem_of_mappings_of in He as (r & o & _ & Hr). by apply Hno in Hr.
Qed.

Lemma mappings_of_nil_inv hw h r o :
  mappings_of hw h = [] -> ranges hw !! r <> Some (Some (h, o)).
Proof.
  intros Hnil Hr.
  assert (He : (r, Some (h, o)) ∈ mappings_of hw h).
  { apply elem_of_mappings_of. eauto. }
  rewrite Hnil in He. by apply elem_of_nil in He.
Qed.

Lemma mappings_of_singleton hw h r o :
  ranges hw !! r = Some (Some (h, o)) ->
  (forall r' o', ranges hw !! r' = Some (Some (h, o')) -> r' = r) ->
  mappings_of hw h = [(r, Some (h, o))].
Proof.
  intros Hr Huniq.
  assert (Hall : forall e, e ∈ mappings_of hw h -> e = (r, Some (h, o))).
  { intros e He. apply elem_of_mappings_of in He as (r' & o' & -> & Hr').
    pose proof (Huniq _ _ Hr') as ->. congruence. }
  assert (Hin : (r, Some (h, o)) ∈ mappings_of hw h).
  { apply elem_of_mappings_of. eauto. }
  pose proof (mappings_of_NoDup hw h) as Hnd.
  destruct (mappings_of hw h) as [|e1 [|e2 l]].
  - by apply elem_of_nil in Hin.
  - f_equal. apply Hall. left.
  - exfalso. apply NoDup_cons in Hnd as [Hnotin _]. apply Hnotin.
    rewrite (Hall e1) by left. rewrite (Hall e2) by (right; left). left.
Qed.

(** *** Frames *)

Lemma frame_refl h hw : frame h hw hw.
Proof. split; intros; done. Qed.

Lemma frame_trans h hw1 hw2 hw3 :
  frame h hw1 hw2 -> frame h hw2 hw3 -> frame h hw1 hw3.
Proof.
  intros [R1 M1] [R2 M2]. split.
  - intros h2 Hne. rewrite R2, R1; done.
  - intros r h2 o Hne. rewrite M2, M1; done.
Qed.

Lemma frame_same h hw hw' :
  regions hw' = regions hw -> ranges hw' = ranges hw -> frame h hw hw'.
Proof. intros Hr Hm. split; intros; rewrite ?Hr, ?Hm; done. Qed.

(** *** Mapping a block *)

Lemma esp_himem_map_cases h r off p0 hw e p hw' :
  esp_himem_map h r off 0 ESP_HIMEM_BLKSZ ESP_HIMEM_PROT_RW p0 hw = (e, p, hw') ->
  regions hw' = regions hw /\ fault hw' = fault hw /\
  later hw hw' /\
  trace hw' = trace hw ++ [(Map h r off, e)] /\
  ((e = ESP_OK /\ p = r /\
    ranges hw' = <[r := Some (h, off)]> (ranges hw) /\
    exists rg, regions hw !! h = Some rg /\ 0 <= off /\
               off + ESP_HIMEM_BLKSZ <= rg_size rg)
   \/
   (is_ok e = false /\ p = p0 /\ ranges hw' = ranges hw /\
    (granted ReqMap hw -> ranges hw !! r = Some None ->
     forall rg, regions hw !! h = Some rg -> off mod ESP_HIMEM_BLKSZ = 0 ->
     0 <= off -> off + ESP_HIMEM_BLKSZ <= rg_size rg -> False))).
Proof.
  unfold esp_himem_map. intros Hrun.
  destruct (regions hw !! h) as [rg|] eqn:Hrg.
  2:{ injection Hrun as <- <- <-. split_and!; try done; try (by apply later_same).
      right. split_and!; done. }
  destruct (ranges hw !! r) as [[x|]|] eqn:Hr.
  1,3: injection Hrun as <- <- <-; split_and!; try done; try (by apply later_same);
       right; split_and!; done.
  destruct ((off mod ESP_HIMEM_BLKSZ =? 0) && (0 <=? off)
            && (off + ESP_HIMEM_BLKSZ <=? rg_size rg) && (0 =? 0)
            && (ESP_HIMEM_BLKSZ =? ESP_HIMEM_BLKSZ)) eqn:Hc.
  2:{ injection Hrun as <- <- <-. split_and!; try done; try (by apply later_same).
      right. split_and!; try done.
      intros _ _ rg' [= <-] H1 H2 H3.
      apply Z.eqb_eq in H1. apply Z.leb_le in H2, H3. rewrite H1, H2, H3 in Hc. done. }
  repeat (apply andb_prop in Hc as [Hc ?]).
  destruct (grant ReqMap hw) as [b hw1] eqn:Hg.
  pose proof (grant_fields _ _ _ _ Hg) as (Hg1 & Hg2 & Hg3 & Hg4).
  pose proof (grant_later _ _ _ _ Hg) as Hl.
  assert (Hll : forall c x, later hw (log c x hw1)).
  { intros c x. eapply later_trans; [exact Hl|]. by apply later_same. }
  assert (Hls : forall c x f, later hw (log c x (set_ranges f hw1))).
  { intros c x f. eapply later_trans; [exact Hl|]. by apply later_same. }
  destruct b; injection Hrun as <- <- <-; simpl; rewrite ?Hg1, ?Hg2, ?Hg3, ?Hg4.
  - split_and!; try done.
    left. split_and!; try done. exists rg. split_and!; try done; lia.
  - split_and!; try done.
    right. split_and!; try done.
    intros Hgr. by pose proof (grant_granted _ _ _ _ Hg Hgr).
Qed.

End HwFacts.

(** * Facts about HimemBlock *)

Module HimemBlockFacts.

Import Hw HimemBlock HwFacts WordFacts.

Lemma wf_no_null_mapping hw r o : wf hw -> ranges hw !! r <> Some (Some (0, o)).
Proof.
  intros (Hr0 & _ & Hlive & _) Hr. apply Hlive in Hr as [rg Hrg]. congruence.
Qed.

Lemma init_inv hw : wf hw -> inv hw init.
Proof.
  intros Hwf. unfold inv, init; simpl. split; [rewrite modulus_eq; lia|].
  split; [done|]. split; [done|]. left. unfold unmapped; simpl.
  repeat split; try done. intros r o. by apply wf_no_null_mapping.
Qed.

Lemma mapped_at_handle hw m b : wf hw -> mapped_at hw m b -> handle m <> 0.
Proof.
  intros Hwf (_ & _ & _ & _ & _ & Hr & _) H0. rewrite H0 in Hr.
  by apply wf_no_null_mapping in Hr.
Qed.

Lemma mapped_not_unmapped hw m b : mapped_at hw m b -> unmapped hw m -> False.
Proof.
  intros (_ & Hne & _) (_ & H0 & _). done.
Qed.

(** *** unmap *)

Lemma unmap_unmapped hw m : unmapped hw m -> unmap m hw = (m, hw).
Proof.
  intros (Hp & _). unfold unmap. rewrite Hp. done.
Qed.

Lemma unmap_mapped hw m b :
  mapped_at hw m b ->
  unmap m hw =
    ({| handle := handle m; range := 0; mapped_ptr := 0; size := size m;
        current_mapped_block := Word.SIZE_MAX |},
     log (FreeMapRange (range m)) ESP_OK
       (set_ranges (delete (range m))
          (log (Unmap (range m) (range m)) ESP_OK
             (set_ranges (insert (range m) None) hw)))).
Proof.
  intros (Hp & Hne & _ & _ & _ & Hr & _). unfold unmap. rewrite Hp.
  assert (E : (range m =? 0) = false) by (apply Z.eqb_neq; done). rewrite E. simpl.
  unfold esp_himem_unmap. rewrite Hr, Z.eqb_refl.
  unfold esp_himem_free_map_range. simpl. rewrite lookup_insert_eq. done.
Qed.

Lemma unmap_spec hw m m' hw' :
  wf hw -> inv hw m -> unmap m hw = (m', hw') ->
  wf hw' /\ inv hw' m' /\ unmapped hw' m' /\ frame (handle m) hw hw' /\
  handle m' = handle m /\ size m' = size m /\
  regions hw' = regions hw /\ oracle hw' = oracle hw.
Proof.
  intros Hwf Hinv Hrun. pose proof Hinv as (Hsz & Hmod & Hreg & [Hun|Hmap]).
  - rewrite (unmap_unmapped _ _ Hun) in Hrun. injection Hrun as <- <-.
    split_and!; try done.
  - rewrite (unmap_mapped _ _ _ Hmap) in Hrun. injection Hrun as <- <-.
    destruct Hwf as (Hr0 & Hm0 & Hlive & Hfault).
    destruct Hmap as (Hp & Hne & _ & _ & _ & Hr & Huniq).
    assert (Hgone : forall r o,
      delete (range m) (<[range m := None]> (ranges hw)) !! r <> Some (Some (handle m, o))).
    { intros r o. destruct (decide (r = range m)) as [->|Hd].
      - rewrite lookup_delete_eq. done.
      - rewrite lookup_delete_ne, lookup_insert_ne by done.
        intros H. apply Huniq in H. done. }
    assert (Hun' : unmapped
      (log (FreeMapRange (range m)) ESP_OK
         (set_ranges (delete (range m))
            (log (Unmap (range m) (range m)) ESP_OK
               (set_ranges (insert (range m) None) hw))))
      {| handle := handle m; range := 0; mapped_ptr := 0; size := size m;
         current_mapped_block := Word.SIZE_MAX |}).
    { unfold unmapped; simpl. repeat split; try done. }
    split; [|split; [|split; [exact Hun'|]]].
    + unfold wf; simpl. split; [done|]. split.
      { destruct (decide (0 = range m)) as [<-|Hd]; [apply lookup_delete_eq|].
        rewrite lookup_delete_ne, lookup_insert_ne by done. done. }
      split; [|done]. intros r h o.
      destruct (decide (r = range m)) as [->|Hd]; [by rewrite lookup_delete_eq|].
      rewrite lookup_delete_ne, lookup_insert_ne by done. apply Hlive.
    + unfold inv; simpl. split; [done|]. split; [done|]. split; [exact Hreg|].
      left. exact Hun'.
    + split; [|done]. split; simpl; [done|].
      intros r h2 o Hh2. destruct (decide (r = range m)) as [->|Hd].
      * rewrite lookup_delete_eq, Hr. split; [done|]. intros [= E _]. congruence.
      * rewrite lookup_delete_ne, lookup_insert_ne by done. done.
Qed.


(** *** free *)

Lemma free_unallocated hw m : handle m = 0 -> free m hw = (m, hw).
Proof. intros H. unfold free. rewrite H. done. Qed.

Lemma free_spec hw m m' hw' :
  wf hw -> inv hw m -> free m hw = (m', hw') ->
  wf hw' /\ inv hw' m' /\ unmapped hw' m' /\ frame (handle m) hw hw' /\
  handle m' = 0 /\ oracle hw' = oracle hw /\
  (handle m <> 0 -> size m' = 0 /\ regions hw' = delete (handle m) (regions hw)).
Proof.
  intros Hwf Hinv Hrun. unfold free in Hrun.
  destruct (handle m =? 0) eqn:Hh; simpl in Hrun.
  - apply Z.eqb_eq in Hh. injection Hrun as <- <-.
    pose proof Hinv as (_ & _ & _ & [Hun|Hmap]).
    + split_and!; try done.
    + by apply (mapped_at_handle _ _ _ Hwf) in Hmap.
  - apply Z.eqb_neq in Hh.
    destruct (unmap m hw) as [m1 hw1] eqn:Hu.
    pose proof (unmap_spec _ _ _ _ Hwf Hinv Hu)
      as (Hwf1 & Hinv1 & Hun1 & Hfr1 & Hh1 & Hs1 & Hrg1 & Ho1).
    destruct Hinv1 as (_ & _ & Hreg1 & _).
    destruct Hreg1 as (rg & Hrg & _); [congruence|].
    unfold esp_himem_free in Hrun. rewrite Hrg in Hrun.
    destruct Hun1 as (Hp1 & Hr1 & Hc1 & Hno1).
    rewrite (mappings_of_nil _ _ Hno1) in Hrun. injection Hrun as <- <-.
    destruct Hwf1 as (Hz1 & Hz2 & Hlive1 & Hf1).
    assert (Hwf' : wf (log (Free (handle m1)) ESP_OK (set_regions (delete (handle m1)) hw1))).
    { unfold wf; simpl. split_and!; try done.
      - apply lookup_delete_None. by right.
      - intros r h o Hr. destruct (decide (h = handle m1)) as [->|Hd].
        + by apply Hno1 in Hr.
        + rewrite lookup_delete_ne by done. by apply Hlive1 in Hr. }
    assert (Hun' : unmapped (log (Free (handle m1)) ESP_OK (set_regions (delete (handle m1)) hw1))
      {| handle := 0; range := range m1; mapped_ptr := mapped_ptr m1; size := 0;
         current_mapped_block := current_mapped_block m1 |}).
    { unfold unmapped; simpl. split_and!; try done.
      intros r o. by apply wf_no_null_mapping. }
    split_and!; try done.
    + unfold inv; simpl. split_and!; try done.
      * by left.
    + eapply frame_trans; [exact Hfr1|]. split; simpl; [|done].
      intros h2 Hne. rewrite lookup_delete_ne; congruence.
    + intros _. simpl. rewrite Hh1, Hrg1. done.
Qed.

(** *** allocate *)

Lemma mul_blksz_mod x : Word.mul x ESP_HIMEM_BLKSZ mod ESP_HIMEM_BLKSZ = 0.
Proof.
  unfold Word.mul, Word.wrap.
  rewrite Z.mod_mod_divide by (exists 131072; reflexivity).
  apply Z_mod_mult.
Qed.

Lemma round_up_mod n : round_up n mod ESP_HIMEM_BLKSZ = 0.
Proof. apply mul_blksz_mod. Qed.

Lemma round_up_small n :
  0 <= n -> n + ESP_HIMEM_BLKSZ <= Word.modulus ->
  round_up n = (n + ESP_HIMEM_BLKSZ - 1) / ESP_HIMEM_BLKSZ * ESP_HIMEM_BLKSZ /\
  n <= round_up n < n + ESP_HIMEM_BLKSZ.
Proof.
  intros Hn Hfit. unfold round_up. rewrite blksz_eq in *. rewrite modulus_eq in *.
  assert (E : Word.sub (Word.add n 32768) 1 = n + 32768 - 1).
  { unfold Word.sub, Word.add, Word.wrap. rewrite Zminus_mod_idemp_l.
    apply Z.mod_small. rewrite modulus_eq. lia. }
  rewrite E.
  pose proof (Z.div_mod (n + 32768 - 1) 32768 ltac:(lia)) as Hdm.
  pose proof (Z.mod_pos_bound (n + 32768 - 1) 32768 ltac:(lia)) as Hb.
  assert (0 <= (n + 32768 - 1) / 32768) by (apply Z.div_pos; lia).
  rewrite mul_small by (rewrite ?modulus_eq; lia).
  split; [done|]. lia.
Qed.

Lemma allocate_spec bs hw m ok m' hw' :
  wf hw -> inv hw m -> allocate bs m hw = (ok, m', hw') ->
  wf hw' /\ inv hw' m' /\ ranges hw' = ranges hw /\
  later hw hw' /\
  (handle m <> 0 -> ok = false /\ m' = m /\ hw' = hw) /\
  (handle m = 0 -> size m' = round_up bs) /\
  (ok = true ->
     handle m = 0 /\ handle m' <> 0 /\ regions hw !! handle m' = None /\
     regions hw' = <[handle m' := {| rg_size := size m'; rg_bytes := ∅ |}]> (regions hw) /\
     frame (handle m') hw hw' /\
     trace hw' = trace hw ++ [(Alloc (size m'), ESP_OK)]) /\
  (ok = false -> handle m' = handle m /\ regions hw' = regions hw) /\
  (allocating hw -> handle m = 0 -> ok = true) /\
  (denying hw -> ok = false).
Proof.
  intros Hwf Hinv Hrun. unfold allocate in Hrun.
  destruct (handle m =? 0) eqn:Hh; simpl in Hrun.
  2:{ apply Z.eqb_neq in Hh. injection Hrun as <- <- <-. split_and!; try done.
      apply later_refl. }
  apply Z.eqb_eq in Hh. fold (round_up bs) in Hrun.
  unfold esp_himem_alloc in Hrun. rewrite round_up_mod in Hrun. simpl in Hrun.
  pose proof Hinv as (Hsz & Hmod & Hreg & Hmapping).
  assert (Hun : unmapped hw m).
  { destruct Hmapping as [Hun|Hmap]; [done|].
    by apply (mapped_at_handle _ _ _ Hwf) in Hmap. }
  destruct Hun as (Hp & Hr & Hc & Hno).
  destruct (grant ReqRegion hw) as [b hw1] eqn:Hg.
  pose proof (grant_fields _ _ _ _ Hg) as (Hg1 & Hg2 & Hg3 & Hg4).
  pose proof (grant_later _ _ _ _ Hg) as Hl.
  pose proof Hwf as (Hz1 & Hz2 & Hlive & Hf).
  destruct b; simpl in Hrun; injection Hrun as <- <- <-.
  - pose proof (fresh_id_fresh (regions hw1)) as Hfresh.
    pose proof (fresh_id_pos (regions hw1)) as Hpos.
    set (h := fresh_id (regions hw1)) in *.
    assert (Hwf' : wf (log (Alloc (round_up bs)) ESP_OK
        (set_regions (insert h {| rg_size := round_up bs; rg_bytes := ∅ |}) hw1))).
    { unfold wf; simpl. rewrite Hg1, Hg2, Hg4. split_and!; try done.
      - rewrite lookup_insert_ne by lia. done.
      - intros r h2 o Hr2. apply Hlive in Hr2 as [rg Hrg].
        destruct (decide (h2 = h)) as [->|Hd]; [congruence|].
        rewrite lookup_insert_ne by done. eauto. }
    split_and!; try done; simpl.
    + unfold inv; simpl. split_and!.
      * apply wrap_range.
      * apply wrap_range.
      * apply round_up_mod.
      * intros _. rewrite lookup_insert_eq. eauto.
      * left. unfold unmapped; simpl. rewrite Hg2. split_and!; try done.
        intros r o Hr2. apply Hlive in Hr2 as [rg Hrg]. congruence.
    + intros _. split_and!; try done.
      * lia.
      * congruence.
      * by rewrite Hg1.
      * split; simpl; [|by rewrite Hg2].
        intros h2 Hne. rewrite lookup_insert_ne by done. by rewrite Hg1.
      * by rewrite Hg3.
    + intros [rest Hd]. unfold grant in Hg. rewrite Hd in Hg. done.
  - split_and!; try done; simpl.
    + unfold wf; simpl. rewrite Hg1, Hg2, Hg4. done.
    + unfold inv; simpl. split_and!.
      * apply wrap_range.
      * apply wrap_range.
      * apply round_up_mod.
      * done.
      * left. unfold unmapped; simpl. rewrite Hg2. done.
    + intros Hgr _. by pose proof (grant_granted _ _ _ _ Hg Hgr).
Qed.


(** *** ensure_block_mapped *)

(** The first step of a remap: whatever was mapped is unmapped. *)
Lemma ensure_unmap_step hw m m1 hw1 :
  wf hw -> inv hw m ->
  (if negb (mapped_ptr m =? 0) then unmap m hw else (m, hw)) = (m1, hw1) ->
  wf hw1 /\ inv hw1 m1 /\ unmapped hw1 m1 /\ frame (handle m) hw hw1 /\
  handle m1 = handle m /\ size m1 = size m /\
  regions hw1 = regions hw /\ oracle hw1 = oracle hw.
Proof.
  intros Hwf Hinv Hrun.
  destruct (mapped_ptr m =? 0) eqn:Hp; simpl in Hrun.
  - apply Z.eqb_eq in Hp. injection Hrun as <- <-.
    pose proof Hinv as (_ & _ & _ & [Hun|Hmap]).
    + split_and!; try done.
    + destruct Hmap as (E & Hne & _). congruence.
  - by apply unmap_spec.
Qed.

(** A refused mapping: the freshly reserved range [r] goes back and the
    block stays unmapped. *)
Lemma ensure_release_step hw hw1 m m1 r hwx :
  wf hw1 -> inv hw1 m1 -> unmapped hw1 m1 -> frame (handle m) hw hw1 ->
  regions hw1 = regions hw -> ranges hw1 !! r = None ->
  regions hwx = regions hw1 -> ranges hwx = <[r := None]> (ranges hw1) ->
  fault hwx = false ->
  exists hw',
    esp_himem_free_map_range r hwx = (ESP_OK, hw') /\
    hw' = log (FreeMapRange r) ESP_OK (set_ranges (delete r) hwx) /\
    wf hw' /\
    inv hw' {| handle := handle m1; range := 0; mapped_ptr := mapped_ptr m1;
               size := size m1; current_mapped_block := current_mapped_block m1 |} /\
    unmapped hw' {| handle := handle m1; range := 0; mapped_ptr := mapped_ptr m1;
               size := size m1; current_mapped_block := current_mapped_block m1 |} /\
    frame (handle m) hw hw' /\ regions hw' = regions hw.
Proof.
  intros Hwf1 Hinv1 Hun1 Hfr1 Hrg1 Hfresh Ergs Erng Ef.
  eexists. split.
  { unfold esp_himem_free_map_range. rewrite Erng, lookup_insert_eq. reflexivity. }
  split; [reflexivity|].
  set (hw' := log (FreeMapRange r) ESP_OK (set_ranges (delete r) hwx)).
  assert (Edel : ranges hw' = ranges hw1).
  { unfold hw'; simpl. rewrite Erng. rewrite delete_insert_id; done. }
  assert (Ereg : regions hw' = regions hw1) by done.
  destruct Hun1 as (Hp1 & Hr1 & Hc1 & Hno1).
  destruct Hwf1 as (Hz1 & Hz2 & Hlive1 & Hf1).
  destruct Hinv1 as ([Hsz1 Hsz1'] & Hmod1 & Hreg1 & _).
  assert (Hun' : unmapped hw'
    {| handle := handle m1; range := 0; mapped_ptr := mapped_ptr m1;
       size := size m1; current_mapped_block := current_mapped_block m1 |}).
  { unfold unmapped. rewrite Edel. done. }
  split_and!; try done.
  - unfold wf. rewrite Edel, Ereg. done.
  - unfold inv. rewrite Ereg. split_and!; try done. by left.
  - eapply frame_trans; [exact Hfr1|]. apply frame_same; done.
  - congruence.
Qed.

Lemma ensure_block_mapped_spec bi hw m ok m' hw' :
  wf hw -> inv hw m -> 0 <= bi < Word.modulus ->
  ensure_block_mapped bi m hw = (ok, m', hw') ->
  wf hw' /\ inv hw' m' /\ frame (handle m) hw hw' /\
  handle m' = handle m /\ size m' = size m /\ regions hw' = regions hw /\
  later hw hw' /\
  (ok = false -> unmapped hw' m') /\
  (ok = true ->
     mapped_at hw' m' bi \/
     (bi = Word.SIZE_MAX /\ unmapped hw m /\ m' = m /\ hw' = hw)) /\
  (mapping hw -> handle m <> 0 ->
   Word.mul bi ESP_HIMEM_BLKSZ + ESP_HIMEM_BLKSZ <= size m -> ok = true).
Proof.
  intros Hwf Hinv Hbi Hrun. unfold ensure_block_mapped in Hrun.
  destruct (bi =? current_mapped_block m) eqn:Hcur.
  { apply Z.eqb_eq in Hcur. injection Hrun as <- <- <-.
    split_and!; try done; try apply later_refl.
    intros _. pose proof Hinv as (_ & _ & _ & [Hun|Hmap]).
    - right. split_and!; try done. destruct Hun as (_ & _ & Hc & _). congruence.
    - left. by rewrite Hcur. }
  destruct (if negb (mapped_ptr m =? 0) then unmap m hw else (m, hw))
    as [m1 hw1] eqn:Hstep1.
  pose proof (ensure_unmap_step _ _ _ _ Hwf Hinv Hstep1)
    as (Hwf1 & Hinv1 & Hun1 & Hfr1 & Hh1 & Hs1 & Hrg1 & Ho1).
  clear Hstep1.
  assert (Hl1 : later hw hw1) by (by apply later_same).
  destruct Hun1 as (Hp1 & Hr1 & Hc1 & Hno1).
  pose proof Hwf1 as (Hz1 & Hz2 & Hlive1 & Hf1).
  pose proof Hinv1 as (Hsz1 & Hmod1 & Hreg1 & _).
  unfold esp_himem_alloc_map_range in Hrun.
  replace (ESP_HIMEM_BLKSZ mod ESP_HIMEM_BLKSZ =? 0) with true in Hrun by reflexivity.
  simpl in Hrun.
  destruct (grant ReqRange hw1) as [b hw2] eqn:Hg.
  pose proof (grant_fields _ _ _ _ Hg) as (Hg1 & Hg2 & Hg3 & Hg4).
  assert (Hl2 : later hw hw2).
  { eapply later_trans; [exact Hl1|]. exact (grant_later _ _ _ _ Hg). }
  destruct b; simpl in Hrun.
  2:{ (* the range is denied *)
    injection Hrun as <- <- <-.
    assert (Hun' : unmapped (log (AllocMapRange ESP_HIMEM_BLKSZ) ESP_ERR_NO_MEM hw2)
      {| handle := handle m1; range := range m1; mapped_ptr := mapped_ptr m1;
         size := size m1; current_mapped_block := current_mapped_block m1 |}).
    { unfold unmapped; simpl. rewrite Hg2. done. }
    split_and!; try done; simpl.
    - unfold wf; simpl. rewrite Hg1, Hg2, Hg4. done.
    - unfold inv; simpl. rewrite Hg1. split_and!; try done; try apply Hsz1. by left.
    - eapply frame_trans; [exact Hfr1|]. apply frame_same; simpl; done.
    - congruence.
    - intros [Hgr _] _ _.
      by pose proof (grant_granted _ _ _ _ Hg (granted_later _ _ _ Hl1 Hgr)). }
  pose proof (fresh_id_fresh (ranges hw2)) as Hfresh.
  pose proof (fresh_id_pos (ranges hw2)) as Hpos.
  set (r := fresh_id (ranges hw2)) in *.
  rewrite Hg2 in Hfresh.
  set (hw3 := log (AllocMapRange ESP_HIMEM_BLKSZ) ESP_OK (set_ranges (insert r None) hw2)) in *.
  assert (Hrel := fun hwx => ensure_release_step hw hw1 m m1 r hwx
                      Hwf1 Hinv1 (conj Hp1 (conj Hr1 (conj Hc1 Hno1))) Hfr1 Hrg1 Hfresh).
  assert (Hrg3 : regions hw3 = regions hw1) by (unfold hw3; simpl; done).
  assert (Hrn3 : ranges hw3 = <[r := None]> (ranges hw1)).
  { unfold hw3; simpl. by rewrite Hg2. }
  assert (Hf3 : fault hw3 = false) by (unfold hw3; simpl; congruence).
  assert (Hl3 : later hw hw3) by exact Hl2.
  clearbody hw3.
  destruct (esp_himem_map (handle m1) r (Word.mul bi ESP_HIMEM_BLKSZ) 0
              ESP_HIMEM_BLKSZ ESP_HIMEM_PROT_RW (mapped_ptr m1) hw3)
    as [[e p] hw4] eqn:Hmap.
  pose proof (esp_himem_map_cases _ _ _ _ _ _ _ _ Hmap)
    as (Hrg4 & Hf4 & Hl4 & Htr4 & [(-> & -> & Hrn4 & rg & Hrg & Hoff & Hfit)
                                   |(He & -> & Hrn4 & Hwhy)]).
  - (* mapped *)
    simpl in Hrun. injection Hrun as <- <- <-.
    assert (Hlook : ranges hw4 !! r = Some (Some (handle m1, Word.mul bi ESP_HIMEM_BLKSZ))).
    { rewrite Hrn4. apply lookup_insert_eq. }
    assert (Huniq : forall r' o, ranges hw4 !! r' = Some (Some (handle m1, o)) -> r' = r).
    { intros r' o. rewrite Hrn4, Hrn3.
      destruct (decide (r' = r)) as [->|Hd]; [done|].
      rewrite !lookup_insert_ne by done. intros H. by apply Hno1 in H. }
    assert (Hsize : rg_size rg = size m1).
    { destruct Hreg1 as (rg' & Hrg' & Hsize').
      - intros H0. rewrite Hrg3, H0 in Hrg. congruence.
      - rewrite Hrg3 in Hrg. congruence. }
    assert (Hat : mapped_at hw4
      {| handle := handle m1; range := r; mapped_ptr := r; size := size m1;
         current_mapped_block := bi |} bi).
    { unfold mapped_at; simpl. split_and!; try done; try lia. }
    split_and!; try done; simpl.
    + unfold wf. rewrite Hrg4, Hrg3, Hrn4, Hrn3, Hf4, Hf3. split_and!; try done.
      * rewrite !lookup_insert_ne by lia. done.
      * intros r' h o. destruct (decide (r' = r)) as [->|Hd].
        -- rewrite lookup_insert_eq. intros [= <- <-]. rewrite <- Hrg3. eauto.
        -- rewrite !lookup_insert_ne by done. apply Hlive1.
    + unfold inv; simpl. rewrite Hrg4, Hrg3. split_and!; try done; try apply Hsz1.
      by right.
    + eapply frame_trans; [exact Hfr1|]. split.
      * intros h2 _. by rewrite Hrg4, Hrg3.
      * intros r' h2 o Hne. rewrite Hrn4, Hrn3.
        destruct (decide (r' = r)) as [->|Hd].
        -- rewrite lookup_insert_eq, Hfresh. split; [|done]. intros [= E _]. congruence.
        -- rewrite !lookup_insert_ne by done. done.
    + congruence.
    + by apply (later_trans _ hw3).
    + intros _. by left.
  - (* refused: the range is released again *)
    rewrite He in Hrun. simpl in Hrun.
    destruct (Hrel hw4) as (hw5 & Hfree & -> & Hwf5 & Hinv5 & Hun5 & Hfr5 & Hrg5).
    { congruence. } { congruence. } { congruence. }
    rewrite Hfree in Hrun. injection Hrun as <- <- <-.
    split_and!; try done.
    + apply (later_trans _ hw3); [done|]. apply (later_trans _ hw4); [done|].
      by apply later_same.
    + intros [_ Hgr] Hh Hfit. exfalso.
      destruct Hreg1 as (rg & Hrg & Hsize); [congruence|].
      apply (Hwhy (granted_later _ _ _ Hl3 Hgr)) with (rg := rg).
      * rewrite Hrn3. apply lookup_insert_eq.
      * by rewrite Hrg3.
      * apply mul_blksz_mod.
      * apply wrap_range.
      * rewrite Hsize, Hs1. done.
Qed.

(** *** Access through the window *)

Lemma contents_same hw hw' m m' :
  regions hw' = regions hw -> handle m' = handle m -> contents hw' m' = contents hw m.
Proof. intros Hr Hh. unfold contents, bytes_of. by rewrite Hr, Hh. Qed.

Lemma window_mapped hw m b off n :
  wf hw -> inv hw m -> mapped_at hw m b ->
  0 <= off -> 0 <= n -> off + n <= ESP_HIMEM_BLKSZ ->
  exists rg, regions hw !! handle m = Some rg /\ rg_size rg = size m /\
    window hw (mapped_ptr m) off n =
      Some (handle m, rg, Word.mul b ESP_HIMEM_BLKSZ + off).
Proof.
  intros Hwf Hinv Hmap Hoff Hn Hfit.
  pose proof (mapped_at_handle _ _ _ Hwf Hmap) as Hh.
  destruct Hinv as (_ & _ & Hreg & _). destruct (Hreg Hh) as (rg & Hrg & Hsize).
  destruct Hmap as (Hp & _ & _ & _ & _ & Hr & _).
  exists rg. split_and!; try done.
  unfold window. rewrite Hp, Hr, Hrg.
  assert (E1 : (0 <=? off) = true) by (apply Z.leb_le; lia).
  assert (E2 : (0 <=? n) = true) by (apply Z.leb_le; lia).
  assert (E3 : (off + n <=? ESP_HIMEM_BLKSZ) = true) by (apply Z.leb_le; lia).
  rewrite E1, E2, E3. done.
Qed.

Lemma window_load_mapped hw m b off n :
  wf hw -> inv hw m -> mapped_at hw m b ->
  0 <= off -> 0 <= n -> off + n <= ESP_HIMEM_BLKSZ ->
  window_load (mapped_ptr m) off n hw =
    (Mem.load (contents hw m) (Word.mul b ESP_HIMEM_BLKSZ + off) n, hw).
Proof.
  intros Hwf Hinv Hmap Hoff Hn Hfit.
  destruct (window_mapped _ _ _ _ _ Hwf Hinv Hmap Hoff Hn Hfit) as (rg & Hrg & _ & Hw).
  unfold window_load. rewrite Hw. unfold contents, bytes_of. by rewrite Hrg.
Qed.

Lemma window_store_mapped hw m b off bs :
  wf hw -> inv hw m -> mapped_at hw m b ->
  0 <= off -> off + Z.of_nat (length bs) <= ESP_HIMEM_BLKSZ ->
  let hw' := window_store (mapped_ptr m) off bs hw in
  wf hw' /\ inv hw' m /\ mapped_at hw' m b /\ frame (handle m) hw hw' /\
  ranges hw' = ranges hw /\ oracle hw' = oracle hw /\ trace hw' = trace hw /\
  contents hw' m = Mem.store (contents hw m) (Word.mul b ESP_HIMEM_BLKSZ + off) bs.
Proof.
  intros Hwf Hinv Hmap Hoff Hfit hw'.
  destruct (window_mapped _ _ _ off (Z.of_nat (length bs)) Hwf Hinv Hmap Hoff ltac:(lia) Hfit)
    as (rg & Hrg & Hsize & Hw).
  unfold hw', window_store. rewrite Hw. clear hw'.
  pose proof Hwf as (Hz1 & Hz2 & Hlive & Hf).
  pose proof (mapped_at_handle _ _ _ Hwf Hmap) as Hh.
  pose proof Hinv as (Hsz & Hmod & Hreg & _).
  assert (Hmap' : mapped_at
    (set_regions (insert (handle m)
       {| rg_size := rg_size rg;
          rg_bytes := Mem.store (rg_bytes rg) (Word.mul b ESP_HIMEM_BLKSZ + off) bs |}) hw)
    m b) by exact Hmap.
  split_and!; try done.
  - unfold wf; simpl. split_and!; try done.
    + rewrite lookup_insert_ne by done. done.
    + intros r h o Hr. destruct (decide (h = handle m)) as [->|Hd].
      * rewrite lookup_insert_eq. eauto.
      * rewrite lookup_insert_ne by done. by apply Hlive in Hr.
  - unfold inv; simpl. split_and!; try done; try apply Hsz.
    + intros _. rewrite lookup_insert_eq. eauto.
    + right. destruct Hmap as (? & ? & -> & ?). done.
  - split; simpl; [|done]. intros h2 Hne. by rewrite lookup_insert_ne.
  - unfold contents, bytes_of; simpl. rewrite lookup_insert_eq, Hrg. done.
Qed.

(** *** Buffers *)

Lemma buf_write_nil buf pos : buf_write buf pos [] = buf.
Proof. unfold buf_write; simpl. rewrite Nat.add_0_r. apply take_drop. Qed.

Lemma buf_write_app buf pos c1 c2 :
  0 <= pos ->
  buf_write (buf_write buf pos c1) (pos + Z.of_nat (length c1)) c2 =
  buf_write buf pos (c1 ++ c2).
Proof.
  intros Hpos. unfold buf_write.
  replace (Z.to_nat (pos + Z.of_nat (length c1))) with (Z.to_nat pos + length c1)%nat by lia.
  set (p := Z.to_nat pos). rewrite length_app.
  destruct (decide (p <= length buf)%nat) as [Hle|Hgt].
  - assert (Hlen : length (take p buf) = p) by (rewrite length_take; lia).
    rewrite (app_assoc (take p buf) c1).
    rewrite take_app_length' by (rewrite length_app, Hlen; lia).
    rewrite drop_app_ge by (rewrite length_app, Hlen; lia).
    rewrite length_app, Hlen.
    replace (p + length c1 + length c2 - (p + length c1))%nat with (length c2) by lia.
    rewrite drop_drop. rewrite <- !app_assoc. do 3 f_equal. f_equal. lia.
  - assert (Ht : take p buf = buf) by (apply take_ge; lia).
    rewrite Ht. rewrite !(drop_ge buf) by lia. rewrite !app_nil_r.
    rewrite take_ge by (rewrite length_app; lia).
    rewrite drop_ge by (rewrite length_app; lia).
    by rewrite app_nil_r, app_assoc.
Qed.

Lemma buf_write_length buf pos chunk :
  0 <= pos -> (Z.to_nat pos + length chunk <= length buf)%nat ->
  length (buf_write buf pos chunk) = length buf.
Proof.
  intros Hpos Hfit. unfold buf_write.
  rewrite !length_app, length_take, length_drop. lia.
Qed.

Lemma buf_write_take buf chunk :
  take (length chunk) (buf_write buf 0 chunk) = chunk.
Proof.
  unfold buf_write. simpl. by rewrite take_app_length.
Qed.

Lemma buf_write_drop buf chunk :
  drop (length chunk) (buf_write buf 0 chunk) = drop (length chunk) buf.
Proof.
  unfold buf_write. simpl. by rewrite drop_app_length.
Qed.

Lemma buf_write_whole buf chunk :
  length chunk = length buf -> buf_write buf 0 chunk = chunk.
Proof.
  intros H. unfold buf_write; simpl. rewrite H, drop_all. apply app_nil_r.
Qed.

Lemma buf_read_app src pos k1 k2 :
  0 <= pos -> 0 <= k1 -> 0 <= k2 ->
  buf_read src pos k1 ++ buf_read src (pos + k1) k2 = buf_read src pos (k1 + k2).
Proof.
  intros Hp H1 H2. unfold buf_read.
  replace (Z.to_nat (pos + k1)) with (Z.to_nat pos + Z.to_nat k1)%nat by lia.
  replace (Z.to_nat (k1 + k2)) with (Z.to_nat k1 + Z.to_nat k2)%nat by lia.
  rewrite <- drop_drop. apply take_take_drop.
Qed.

Lemma buf_read_length src pos k :
  0 <= pos -> 0 <= k -> pos + k <= Z.of_nat (length src) ->
  Z.of_nat (length (buf_read src pos k)) = k.
Proof.
  intros Hp Hk Hfit. unfold buf_read. rewrite length_take, length_drop. lia.
Qed.

(** *** The block loops *)

Ltac arith := rewrite ?blksz_eq, ?modulus_eq in *; lia.

Lemma block_fits x bi bo s :
  0 <= bo < ESP_HIMEM_BLKSZ -> bi * ESP_HIMEM_BLKSZ + bo = x -> 0 <= x < s ->
  s mod ESP_HIMEM_BLKSZ = 0 ->
  0 <= bi /\ bi * ESP_HIMEM_BLKSZ + ESP_HIMEM_BLKSZ <= s.
Proof.
  intros Hbo Hx Hs Hmod. rewrite blksz_eq in *.
  pose proof (Z.div_mod s 32768 ltac:(lia)) as Hdm. rewrite Hmod in Hdm.
  split; [lia|]. assert (bi < s / 32768) by nia. nia.
Qed.

Lemma load_zero c off : Mem.load c off 0 = [].
Proof. reflexivity. Qed.

Lemma read_loop_spec fuel :
  forall length bi bo br dest m hw offset n dest' m' hw',
  wf hw -> inv hw m -> handle m <> 0 ->
  0 <= offset -> offset + length <= size m ->
  0 <= br <= length -> 0 <= bo < ESP_HIMEM_BLKSZ ->
  (br < length -> bi * ESP_HIMEM_BLKSZ + bo = offset + br) ->
  (length - br) + bo <= Z.of_nat fuel * ESP_HIMEM_BLKSZ ->
  read_loop fuel length bi bo br dest m hw = (n, dest', m', hw') ->
  wf hw' /\ inv hw' m' /\ frame (handle m) hw hw' /\
  handle m' = handle m /\ size m' = size m /\ regions hw' = regions hw /\
  later hw hw' /\
  br <= n <= length /\
  dest' = buf_write dest br (Mem.load (contents hw m) (offset + br) (n - br)) /\
  (mapping hw -> n = length).
Proof.
  induction fuel as [|fuel IH];
    intros length bi bo br dest m hw offset n dest' m' hw'
           Hwf Hinv Hh Hoff Hfit Hbr Hbo Hpos Hfuel Hrun.
  - simpl in Hrun. injection Hrun as <- <- <- <-.
    assert (br = length) by arith. subst br.
    rewrite Z.sub_diag, load_zero, buf_write_nil. split_and!; try done; try apply later_refl; lia.
  - simpl in Hrun. destruct (br <? length) eqn:Hlt.
    2:{ apply Z.ltb_ge in Hlt. injection Hrun as <- <- <- <-.
        assert (br = length) by lia. subst br.
        rewrite Z.sub_diag, load_zero, buf_write_nil. split_and!; try done; try apply later_refl; lia. }
    apply Z.ltb_lt in Hlt. specialize (Hpos Hlt).
    pose proof Hinv as (Hsz & Hmod & _).
    destruct (block_fits (offset + br) bi bo (size m) Hbo Hpos ltac:(lia) Hmod)
      as [Hbi Hblock].
    assert (Hmul : Word.mul bi ESP_HIMEM_BLKSZ = bi * ESP_HIMEM_BLKSZ).
    { apply mul_small; arith. }
    destruct (ensure_block_mapped bi m hw) as [[ok m1] hw1] eqn:Hens.
    assert (Hbir : 0 <= bi < Word.modulus).
    { arith. }
    pose proof (ensure_block_mapped_spec _ _ _ _ _ _ Hwf Hinv Hbir Hens)
      as (Hwf1 & Hinv1 & Hfr1 & Hh1 & Hs1 & Hrg1 & Hgr1 & Hfail & Hok & Hmust).
    destruct ok; simpl in Hrun.
    2:{ injection Hrun as <- <- <- <-.
        rewrite Z.sub_diag, load_zero, buf_write_nil. split_and!; try done; try lia.
        intros Hgr. exfalso. assert (false = true); [|done].
        apply Hmust; try done. rewrite Hmul. lia. }
    destruct (Hok eq_refl) as [Hmap|(Hmax & _)]; [|exfalso; unfold Word.SIZE_MAX in Hmax; arith].
    assert (Hrem : Word.sub ESP_HIMEM_BLKSZ bo = ESP_HIMEM_BLKSZ - bo).
    { apply sub_small; arith. }
    assert (Hleft : Word.sub length br = length - br).
    { apply sub_small; arith. }
    rewrite Hrem, Hleft in Hrun.
    set (to_read := Z.min (ESP_HIMEM_BLKSZ - bo) (length - br)) in *.
    assert (Hto : 0 < to_read <= ESP_HIMEM_BLKSZ - bo /\ to_read <= length - br).
    { unfold to_read. lia. }
    rewrite (window_load_mapped _ _ _ _ _ Hwf1 Hinv1 Hmap) in Hrun by lia.
    assert (Hbi1 : Word.add bi 1 = bi + 1) by (apply add_small; arith).
    assert (Hbr1 : Word.add br to_read = br + to_read) by (apply add_small; arith).
    rewrite Hbi1, Hbr1, Hmul in Hrun.
    assert (Hc1 : contents hw1 m1 = contents hw m) by (by apply contents_same).
    rewrite Hc1 in Hrun.
    apply (IH _ _ _ _ _ _ _ offset) in Hrun; try done; try lia; try congruence.
    destruct Hrun as (Hwf' & Hinv' & Hfr' & Hh' & Hs' & Hrg' & Hgr' & Hn & Hdest & Hall).
    split_and!; try done; try lia; try congruence.
    + eapply frame_trans; [exact Hfr1|]. by rewrite <- Hh1.
    + by apply (later_trans _ hw1).
    + rewrite Hdest, Hc1.
      replace (bi * ESP_HIMEM_BLKSZ + bo) with (offset + br) by lia.
      replace (br + to_read) with (br + Z.of_nat (Datatypes.length (Mem.load (contents hw m) (offset + br) to_read))) at 1
        by (rewrite MemFacts.load_length; lia).
      rewrite buf_write_app by lia. f_equal.
      replace (n - br) with (to_read + (n - (br + to_read))) by lia.
      rewrite MemFacts.load_app by lia. do 2 f_equal. lia.
    + intros Hgr. apply Hall. by apply (mapping_later hw).
Qed.

Lemma buf_read_zero src pos : buf_read src pos 0 = [].
Proof. reflexivity. Qed.

Lemma write_loop_spec fuel :
  forall length bi bo bw src m hw offset n m' hw',
  wf hw -> inv hw m -> handle m <> 0 ->
  0 <= offset -> offset + length <= size m ->
  0 <= bw <= length -> length <= Z.of_nat (Datatypes.length src) ->
  0 <= bo < ESP_HIMEM_BLKSZ ->
  (bw < length -> bi * ESP_HIMEM_BLKSZ + bo = offset + bw) ->
  (length - bw) + bo <= Z.of_nat fuel * ESP_HIMEM_BLKSZ ->
  write_loop fuel length bi bo bw src m hw = (n, m', hw') ->
  wf hw' /\ inv hw' m' /\ frame (handle m) hw hw' /\
  handle m' = handle m /\ size m' = size m /\
  later hw hw' /\
  bw <= n <= length /\
  contents hw' m' =
    Mem.store (contents hw m) (offset + bw) (buf_read src bw (n - bw)) /\
  (mapping hw -> n = length).
Proof.
  induction fuel as [|fuel IH];
    intros length bi bo bw src m hw offset n m' hw'
           Hwf Hinv Hh Hoff Hfit Hbw Hsrc Hbo Hpos Hfuel Hrun.
  - simpl in Hrun. injection Hrun as <- <- <-.
    assert (bw = length) by arith. subst bw.
    rewrite Z.sub_diag, buf_read_zero. simpl. split_and!; try done; try apply later_refl; lia.
  - simpl in Hrun. destruct (bw <? length) eqn:Hlt.
    2:{ apply Z.ltb_ge in Hlt. injection Hrun as <- <- <-.
        assert (bw = length) by lia. subst bw.
        rewrite Z.sub_diag, buf_read_zero. simpl. split_and!; try done; try apply later_refl; lia. }
    apply Z.ltb_lt in Hlt. specialize (Hpos Hlt).
    pose proof Hinv as (Hsz & Hmod & _).
    destruct (block_fits (offset + bw) bi bo (size m) Hbo Hpos ltac:(lia) Hmod)
      as [Hbi Hblock].
    assert (Hmul : Word.mul bi ESP_HIMEM_BLKSZ = bi * ESP_HIMEM_BLKSZ).
    { apply mul_small; arith. }
    destruct (ensure_block_mapped bi m hw) as [[ok m1] hw1] eqn:Hens.
    assert (Hbir : 0 <= bi < Word.modulus) by arith.
    pose proof (ensure_block_mapped_spec _ _ _ _ _ _ Hwf Hinv Hbir Hens)
      as (Hwf1 & Hinv1 & Hfr1 & Hh1 & Hs1 & Hrg1 & Hgr1 & Hfail & Hok & Hmust).
    assert (Hc1 : contents hw1 m1 = contents hw m) by (by apply contents_same).
    destruct ok; simpl in Hrun.
    2:{ injection Hrun as <- <- <-.
        rewrite Z.sub_diag, buf_read_zero. simpl. split_and!; try done; try lia.
        intros Hgr. exfalso. assert (false = true); [|done].
        apply Hmust; try done. rewrite Hmul. lia. }
    destruct (Hok eq_refl) as [Hmap|(Hmax & _)]; [|exfalso; unfold Word.SIZE_MAX in Hmax; arith].
    assert (Hrem : Word.sub ESP_HIMEM_BLKSZ bo = ESP_HIMEM_BLKSZ - bo).
    { apply sub_small; arith. }
    assert (Hleft : Word.sub length bw = length - bw).
    { apply sub_small; arith. }
    rewrite Hrem, Hleft in Hrun.
    set (to_write := Z.min (ESP_HIMEM_BLKSZ - bo) (length - bw)) in *.
    assert (Hto : 0 < to_write <= ESP_HIMEM_BLKSZ - bo /\ to_write <= length - bw).
    { unfold to_write. lia. }
    set (chunk := buf_read src bw to_write) in *.
    assert (Hchunk : Z.of_nat (Datatypes.length chunk) = to_write).
    { unfold chunk. apply buf_read_length; lia. }
    destruct (window_store_mapped _ _ _ bo chunk Hwf1 Hinv1 Hmap ltac:(lia) ltac:(lia))
      as (Hwf2 & Hinv2 & Hmap2 & Hfr2 & Hrn2 & Hor2 & Htr2 & Hc2).
    set (hw2 := window_store (mapped_ptr m1) bo chunk hw1) in *. clearbody hw2.
    assert (Hbi1 : Word.add bi 1 = bi + 1) by (apply add_small; arith).
    assert (Hbw1 : Word.add bw to_write = bw + to_write) by (apply add_small; arith).
    rewrite Hbi1, Hbw1 in Hrun.
    apply (IH _ _ _ _ _ _ _ offset) in Hrun; try done; try lia; try congruence.
    destruct Hrun as (Hwf' & Hinv' & Hfr' & Hh' & Hs' & Hgr' & Hn & Hcont & Hall).
    assert (Hl2 : later hw hw2).
    { apply (later_trans _ hw1); [done|]. by apply later_same. }
    split_and!; try done; try lia; try congruence.
    + eapply frame_trans; [exact Hfr1|]. rewrite <- Hh1.
      eapply frame_trans; [exact Hfr2|]. done.
    + by apply (later_trans _ hw2).
    + rewrite Hcont, Hc2, Hc1, Hmul.
      replace (bi * ESP_HIMEM_BLKSZ + bo) with (offset + bw) by lia.
      replace (offset + (bw + to_write))
        with (offset + bw + Z.of_nat (Datatypes.length chunk)) by lia.
      rewrite <- MemFacts.store_app. f_equal. unfold chunk.
      rewrite buf_read_app by lia. f_equal. lia.
    + intros Hgr. apply Hall. by apply (mapping_later hw).
Qed.

(** *** read and write *)

Lemma loop_bound_enough length bo :
  0 <= length -> 0 <= bo < ESP_HIMEM_BLKSZ ->
  length + bo <= Z.of_nat (loop_bound length) * ESP_HIMEM_BLKSZ.
Proof.
  intros Hl Hbo. unfold loop_bound. rewrite blksz_eq in *.
  pose proof (Z.div_mod length 32768 ltac:(lia)) as Hdm.
  pose proof (Z.mod_pos_bound length 32768 ltac:(lia)) as Hb.
  assert (0 <= length / 32768) by (apply Z.div_pos; lia).
  rewrite Z2Nat.id by lia. lia.
Qed.

Lemma read_rejected dest offset length m hw :
  handle m = 0 \/ size m <= offset ->
  read dest offset length m hw = (0, dest, m, hw).
Proof.
  intros H. unfold read.
  assert (E : (handle m =? 0) || (size m <=? offset) = true).
  { apply orb_true_iff. destruct H as [H|H]; [left; by apply Z.eqb_eq|right; by apply Z.leb_le]. }
  by rewrite E.
Qed.

Lemma write_rejected src offset length m hw :
  handle m = 0 \/ size m <= offset ->
  write src offset length m hw = (0, m, hw).
Proof.
  intros H. unfold write.
  assert (E : (handle m =? 0) || (size m <=? offset) = true).
  { apply orb_true_iff. destruct H as [H|H]; [left; by apply Z.eqb_eq|right; by apply Z.leb_le]. }
  by rewrite E.
Qed.

Lemma read_spec dest offset length hw m n dest' m' hw' :
  wf hw -> inv hw m -> 0 <= offset < Word.modulus -> 0 <= length < Word.modulus ->
  read dest offset length m hw = (n, dest', m', hw') ->
  wf hw' /\ inv hw' m' /\ frame (handle m) hw hw' /\
  handle m' = handle m /\ size m' = size m /\ regions hw' = regions hw /\
  later hw hw' /\
  0 <= n <= length /\ (n = 0 \/ offset + n <= size m) /\
  dest' = buf_write dest 0 (Mem.load (contents hw m) offset n) /\
  (mapping hw -> handle m <> 0 -> offset < size m ->
   n = Z.min length (size m - offset)).
Proof.
  intros Hwf Hinv Hoff Hlen Hrun.
  destruct (decide (handle m = 0 \/ size m <= offset)) as [Hrej|Hacc].
  { rewrite read_rejected in Hrun by done. injection Hrun as <- <- <- <-.
    rewrite load_zero, buf_write_nil. split_and!; try done; try apply later_refl; try lia; try tauto. }
  assert (Hh : handle m <> 0) by tauto.
  assert (Hlt : offset < size m) by lia.
  unfold read in Hrun.
  assert (E : (handle m =? 0) || (size m <=? offset) = false).
  { apply orb_false_iff. split; [by apply Z.eqb_neq|apply Z.leb_gt; lia]. }
  rewrite E in Hrun. clear E.
  pose proof Hinv as (Hsz & Hmod & _).
  assert (Hsub : Word.sub (size m) offset = size m - offset).
  { apply sub_small; lia. }
  rewrite Hsub in Hrun.
  set (len := Z.min length (size m - offset)) in *.
  destruct (len =? 0) eqn:Hz.
  { apply Z.eqb_eq in Hz. injection Hrun as <- <- <- <-.
    rewrite load_zero, buf_write_nil. split_and!; try done; try apply later_refl; try lia; try tauto. }
  apply Z.eqb_neq in Hz.
  pose proof (Z.div_mod offset ESP_HIMEM_BLKSZ ltac:(arith)) as Hdm.
  pose proof (Z.mod_pos_bound offset ESP_HIMEM_BLKSZ ltac:(arith)) as Hbo.
  apply (read_loop_spec _ _ _ _ _ _ _ _ offset) in Hrun; try done; try lia.
  2:{ pose proof (loop_bound_enough len (offset mod ESP_HIMEM_BLKSZ) ltac:(lia) Hbo). lia. }
  destruct Hrun as (Hwf' & Hinv' & Hfr' & Hh' & Hs' & Hrg' & Hgr' & Hn & Hdest & Hall).
  rewrite Z.add_0_r, Z.sub_0_r in Hdest.
  split_and!; try done; try lia.
  intros Hgr _ _. by apply Hall.
Qed.

Lemma write_spec src offset length hw m n m' hw' :
  wf hw -> inv hw m -> 0 <= offset < Word.modulus -> 0 <= length < Word.modulus ->
  length <= Z.of_nat (Datatypes.length src) ->
  write src offset length m hw = (n, m', hw') ->
  wf hw' /\ inv hw' m' /\ frame (handle m) hw hw' /\
  handle m' = handle m /\ size m' = size m /\
  later hw hw' /\
  0 <= n <= length /\ (n = 0 \/ offset + n <= size m) /\
  contents hw' m' = Mem.store (contents hw m) offset (buf_read src 0 n) /\
  (mapping hw -> handle m <> 0 -> offset < size m ->
   n = Z.min length (size m - offset)).
Proof.
  intros Hwf Hinv Hoff Hlen Hsrc Hrun.
  destruct (decide (handle m = 0 \/ size m <= offset)) as [Hrej|Hacc].
  { rewrite write_rejected in Hrun by done. injection Hrun as <- <- <-.
    rewrite buf_read_zero. simpl. split_and!; try done; try apply later_refl; try lia; try tauto. }
  assert (Hh : handle m <> 0) by tauto.
  assert (Hlt : offset < size m) by lia.
  unfold write in Hrun.
  assert (E : (handle m =? 0) || (size m <=? offset) = false).
  { apply orb_false_iff. split; [by apply Z.eqb_neq|apply Z.leb_gt; lia]. }
  rewrite E in Hrun. clear E.
  pose proof Hinv as (Hsz & Hmod & _).
  assert (Hsub : Word.sub (size m) offset = size m - offset).
  { apply sub_small; lia. }
  rewrite Hsub in Hrun.
  set (len := Z.min length (size m - offset)) in *.
  destruct (len =? 0) eqn:Hz.
  { apply Z.eqb_eq in Hz. injection Hrun as <- <- <-.
    rewrite buf_read_zero. simpl. split_and!; try done; try apply later_refl; try lia; try tauto. }
  apply Z.eqb_neq in Hz.
  pose proof (Z.div_mod offset ESP_HIMEM_BLKSZ ltac:(arith)) as Hdm.
  pose proof (Z.mod_pos_bound offset ESP_HIMEM_BLKSZ ltac:(arith)) as Hbo.
  apply (write_loop_spec _ _ _ _ _ _ _ _ offset) in Hrun; try done; try lia.
  2:{ pose proof (loop_bound_enough len (offset mod ESP_HIMEM_BLKSZ) ltac:(lia) Hbo). lia. }
  destruct Hrun as (Hwf' & Hinv' & Hfr' & Hh' & Hs' & Hgr' & Hn & Hcont & Hall).
  rewrite Z.add_0_r, Z.sub_0_r in Hcont.
  split_and!; try done; try lia.
  intros Hgr _ _. by apply Hall.
Qed.

(** *** The bound on the block loops is never what ends them *)

Lemma read_loop_fuel fuel : forall extra length bi bo br dest m hw,
  0 <= bo < ESP_HIMEM_BLKSZ -> 0 <= br <= length -> length < Word.modulus ->
  (length - br) + bo <= Z.of_nat fuel * ESP_HIMEM_BLKSZ ->
  read_loop (fuel + extra) length bi bo br dest m hw =
  read_loop fuel length bi bo br dest m hw.
Proof.
  induction fuel as [|fuel IH]; intros extra length bi bo br dest m hw Hbo Hbr Hlen Hfuel.
  - assert (br = length) by arith. subst br. simpl.
    destruct extra; simpl; [done|]. by rewrite Z.ltb_irrefl.
  - simpl. destruct (br <? length) eqn:Hlt; [|done]. apply Z.ltb_lt in Hlt.
    destruct (ensure_block_mapped bi m hw) as [[ok m1] hw1].
    destruct ok; simpl; [|done].
    rewrite (sub_small ESP_HIMEM_BLKSZ bo) by arith.
    rewrite (sub_small length br) by arith.
    set (to_read := Z.min (ESP_HIMEM_BLKSZ - bo) (length - br)).
    destruct (window_load (mapped_ptr m1) bo to_read hw1) as [chunk hw2].
    assert (Hto : 0 < to_read <= ESP_HIMEM_BLKSZ - bo /\ to_read <= length - br).
    { unfold to_read. lia. }
    rewrite (add_small br to_read) by arith.
    apply IH; try lia; try arith.
    clear Hto. subst to_read. arith.
Qed.

Lemma write_loop_fuel fuel : forall extra length bi bo bw src m hw,
  0 <= bo < ESP_HIMEM_BLKSZ -> 0 <= bw <= length -> length < Word.modulus ->
  (length - bw) + bo <= Z.of_nat fuel * ESP_HIMEM_BLKSZ ->
  write_loop (fuel + extra) length bi bo bw src m hw =
  write_loop fuel length bi bo bw src m hw.
Proof.
  induction fuel as [|fuel IH]; intros extra length bi bo bw src m hw Hbo Hbw Hlen Hfuel.
  - assert (bw = length) by arith. subst bw. simpl.
    destruct extra; simpl; [done|]. by rewrite Z.ltb_irrefl.
  - simpl. destruct (bw <? length) eqn:Hlt; [|done]. apply Z.ltb_lt in Hlt.
    destruct (ensure_block_mapped bi m hw) as [[ok m1] hw1].
    destruct ok; simpl; [|done].
    rewrite (sub_small ESP_HIMEM_BLKSZ bo) by arith.
    rewrite (sub_small length bw) by arith.
    set (to_write := Z.min (ESP_HIMEM_BLKSZ - bo) (length - bw)).
    assert (Hto : 0 < to_write <= ESP_HIMEM_BLKSZ - bo /\ to_write <= length - bw).
    { unfold to_write. lia. }
    rewrite (add_small bw to_write) by arith.
    apply IH; try lia; try arith.
    clear Hto. subst to_write. arith.
Qed.

(** *** Other blocks on the same hardware *)

Lemma inv_frame h hw hw' m :
  inv hw m -> frame h hw hw' -> handle m <> h -> inv hw' m.
Proof.
  intros (Hsz & Hmod & Hreg & Hmapping) [Hfr Hfm] Hne.
  unfold inv. split_and!; try done; try apply Hsz.
  - intros Hh. rewrite Hfr; [auto|done].
  - destruct Hmapping as [(Hp & Hr & Hc & Hno)|(Hp & Hr & Hc & Hb & Hfit & Hlook & Huniq)].
    + left. unfold unmapped. split_and!; try done.
      intros r o H. apply Hfm in H; [|done]. by apply Hno in H.
    + right. unfold mapped_at. split_and!; try done; try apply Hb.
      * by apply Hfm.
      * intros r o H. apply Hfm in H; [|done]. by apply Huniq in H.
Qed.

Lemma contents_frame h hw hw' m :
  frame h hw hw' -> handle m <> h -> contents hw' m = contents hw m.
Proof.
  intros [Hfr _] Hne. unfold contents, bytes_of. by rewrite Hfr.
Qed.

(** *** Every reachable state satisfies the invariant *)

Lemma empty_wf script : wf (Hw.empty script).
Proof.
  unfold wf, Hw.empty; simpl. split_and!; done.
Qed.

Lemma run_inv o hw m m' hw' :
  wf hw -> inv hw m -> op_typed o -> run o m hw = (m', hw') ->
  wf hw' /\ inv hw' m'.
Proof.
  intros Hwf Hinv Hty Hrun. destruct o; simpl in Hrun, Hty.
  - destruct (allocate block_size m hw) as [[ok m1] hw1] eqn:E.
    injection Hrun as <- <-.
    by destruct (allocate_spec _ _ _ _ _ _ Hwf Hinv E) as (? & ? & _).
  - destruct (read dest offset length m hw) as [[[n d] m1] hw1] eqn:E.
    injection Hrun as <- <-. destruct Hty as [Ho Hl].
    by destruct (read_spec _ _ _ _ _ _ _ _ _ Hwf Hinv Ho Hl E) as (? & ? & _).
  - destruct (write src offset length m hw) as [[n m1] hw1] eqn:E.
    injection Hrun as <- <-. destruct Hty as (Ho & Hl & Hs).
    by destruct (write_spec _ _ _ _ _ _ _ _ Hwf Hinv Ho Hl Hs E) as (? & ? & _).
  - by destruct (unmap_spec _ _ _ _ Hwf Hinv Hrun) as (? & ? & _).
  - by destruct (free_spec _ _ _ _ Hwf Hinv Hrun) as (? & ? & _).
  - destruct (ensure_block_mapped block_index m hw) as [[ok m1] hw1] eqn:E.
    injection Hrun as <- <-.
    by destruct (ensure_block_mapped_spec _ _ _ _ _ _ Hwf Hinv Hty E) as (? & ? & _).
Qed.

(** A block that does not own the region [h] is not affected by what
    happens to [h]. *)
Lemma inv_aside h hw hw' m :
  wf hw -> wf hw' -> inv hw m -> frame h hw hw' ->
  (handle m <> 0 -> handle m <> h) -> inv hw' m.
Proof.
  intros Hwf Hwf' Hinv Hfr Hne.
  destruct (decide (handle m = 0)) as [Hz|Hnz].
  - destruct Hinv as (Hsz & Hmod & Hreg & Hmapping).
    unfold inv. split_and!; try done; try apply Hsz.
    destruct Hmapping as [(Hp & Hr & Hc & Hno)|Hmap].
    + left. unfold unmapped. split_and!; try done.
      intros r o. rewrite Hz. by apply wf_no_null_mapping.
    + by apply (mapped_at_handle _ _ _ Hwf) in Hmap.
  - apply (inv_frame _ _ _ _ Hinv Hfr). auto.
Qed.

Lemma run_aside o hw m m' hw' other :
  wf hw -> inv hw m -> op_typed o -> run o m hw = (m', hw') ->
  inv hw other -> (handle other <> 0 -> handle other <> handle m) ->
  inv hw' other /\ (handle other <> 0 -> handle other <> handle m').
Proof.
  intros Hwf Hinv Hty Hrun Hother Hne. destruct o; simpl in Hrun, Hty.
  - destruct (allocate block_size m hw) as [[ok m1] hw1] eqn:E.
    injection Hrun as <- <-.
    destruct (allocate_spec _ _ _ _ _ _ Hwf Hinv E)
      as (Hwf1 & _ & Hrn & _ & Hheld & _ & Hok & Hno & _).
    destruct ok.
    + destruct (Hok eq_refl) as (_ & Hh1 & Hfresh & _ & Hfr & _).
      assert (Hn1 : handle other <> 0 -> handle other <> handle m1).
      { intros Hnz Heq. destruct Hother as (_ & _ & Hreg & _).
        destruct (Hreg Hnz) as (rg & Hrg & _). congruence. }
      split; [|done]. by apply (inv_aside (handle m1) hw).
    + destruct (Hno eq_refl) as [Hh1 Hrg].
      split; [|by rewrite Hh1].
      apply (inv_aside (handle m) hw); try done. by apply frame_same.
  - destruct (read dest offset length m hw) as [[[n d] m1] hw1] eqn:E.
    injection Hrun as <- <-. destruct Hty as [Ho Hl].
    destruct (read_spec _ _ _ _ _ _ _ _ _ Hwf Hinv Ho Hl E)
      as (Hwf1 & _ & Hfr & Hh1 & _).
    split; [|by rewrite Hh1]. by apply (inv_aside (handle m) hw).
  - destruct (write src offset length m hw) as [[n m1] hw1] eqn:E.
    injection Hrun as <- <-. destruct Hty as (Ho & Hl & Hs).
    destruct (write_spec _ _ _ _ _ _ _ _ Hwf Hinv Ho Hl Hs E)
      as (Hwf1 & _ & Hfr & Hh1 & _).
    split; [|by rewrite Hh1]. by apply (inv_aside (handle m) hw).
  - destruct (unmap_spec _ _ _ _ Hwf Hinv Hrun) as (Hwf1 & _ & _ & Hfr & Hh1 & _).
    split; [|by rewrite Hh1]. by apply (inv_aside (handle m) hw).
  - destruct (free_spec _ _ _ _ Hwf Hinv Hrun) as (Hwf1 & _ & _ & Hfr & Hh1 & _).
    split; [|by rewrite Hh1]. by apply (inv_aside (handle m) hw).
  - destruct (ensure_block_mapped block_index m hw) as [[ok m1] hw1] eqn:E.
    injection Hrun as <- <-.
    destruct (ensure_block_mapped_spec _ _ _ _ _ _ Hwf Hinv Hty E)
      as (Hwf1 & _ & Hfr & Hh1 & _).
    split; [|by rewrite Hh1]. by apply (inv_aside (handle m) hw).
Qed.

(** What holds of the blocks of a program together. *)
Lemma apart_sym blocks (i j : nat) mi mj :
  apart blocks -> i <> j -> blocks !! i = Some mi -> blocks !! j = Some mj ->
  handle mj <> 0 -> handle mj <> handle mi.
Proof. intros Hap Hij Hi Hj Hnz. by apply (Hap j i mj mi). Qed.

Lemma step_together blocks hw (i : nat) m m' hw' :
  wf hw -> (forall k b, blocks !! k = Some b -> inv hw b) -> apart blocks ->
  blocks !! i = Some m -> wf hw' -> inv hw' m' ->
  (forall other, inv hw other -> (handle other <> 0 -> handle other <> handle m) ->
     inv hw' other /\ (handle other <> 0 -> handle other <> handle m')) ->
  (forall k b, <[i := m']> blocks !! k = Some b -> inv hw' b) /\
  apart (<[i := m']> blocks).
Proof.
  intros Hwf Hall Hap Hi Hwf' Hinv' Hrest.
  assert (Hold : forall k b, k <> i -> blocks !! k = Some b ->
            inv hw' b /\ (handle b <> 0 -> handle b <> handle m')).
  { intros k b Hk Hb. apply Hrest; [by apply (Hall k)|].
    by apply (Hap k i b m). }
  split.
  - intros k b Hb. apply list_lookup_insert_Some in Hb as [(-> & <- & _)|[Hk Hb]].
    + done.
    + by apply (Hold k).
  - intros a b ma mb Hab Ha Hb Hnz.
    apply list_lookup_insert_Some in Ha as [(-> & <- & _)|[Hka Ha]];
      apply list_lookup_insert_Some in Hb as [(-> & <- & _)|[Hkb Hb]]; try done.
    + intros Heq. destruct (Hold b mb ltac:(done) Hb) as [_ Hn].
      apply Hn; congruence.
    + by apply (Hold a ma).
    + by apply (Hap a b).
Qed.

(** *** Every reachable state satisfies the invariant *)

Lemma reachable_inv blocks hw :
  reachable blocks hw ->
  wf hw /\ (forall (i : nat) m, blocks !! i = Some m -> inv hw m) /\ apart blocks.
Proof.
  induction 1 as [script
                 |blocks hw _ (IHwf & IHinv & IHap)
                 |blocks hw i m o m' hw' _ (IHwf & IHinv & IHap) Hi Hty Hrun
                 |blocks hw i other m other' _ (IHwf & IHinv & IHap) Hi Hmove
                 |blocks hw i j m other m' other' hw' _ (IHwf & IHinv & IHap)
                    Hij Hi Hj Hmove].
  - split; [apply empty_wf|]. split; [intros i m H; by rewrite lookup_nil in H|].
    intros i j mi mj _ H. by rewrite lookup_nil in H.
  - split; [done|]. split.
    + intros i m Hm. apply lookup_app_Some in Hm as [Hm|[_ Hm]].
      * by apply (IHinv i).
      * apply list_lookup_singleton_Some in Hm as [_ <-]. by apply init_inv.
    + intros a b ma mb Hab Ha Hb Hnz.
      apply lookup_app_Some in Ha as [Ha|[Hla Ha]].
      * apply lookup_app_Some in Hb as [Hb|[_ Hb]].
        -- by apply (IHap a b).
        -- apply list_lookup_singleton_Some in Hb as [_ <-]. done.
      * apply list_lookup_singleton_Some in Ha as [_ <-]. done.
  - destruct (run_inv _ _ _ _ _ IHwf (IHinv i m Hi) Hty Hrun) as [Hwf' Hinv'].
    split; [done|].
    apply (step_together blocks hw i m m' hw'); try done.
    intros other Ho Hne.
    by apply (run_aside o hw m m' hw' other IHwf (IHinv i m Hi) Hty Hrun).
  - unfold move_construct in Hmove. injection Hmove as <- <-.
    assert (Hinit : inv hw init) by (by apply init_inv).
    assert (Hrest : forall b, inv hw b -> (handle b <> 0 -> handle b <> handle other) ->
              inv hw b /\ (handle b <> 0 -> handle b <> handle init)).
    { intros b Hb Hne. split; [done|]. done. }
    destruct (step_together blocks hw i other init hw IHwf IHinv IHap Hi IHwf Hinit Hrest)
      as [Hinv1 Hap1].
    split; [done|]. split.
    + intros k b Hb. apply lookup_app_Some in Hb as [Hb|[_ Hb]].
      * by apply (Hinv1 k).
      * apply list_lookup_singleton_Some in Hb as [_ <-]. by apply (IHinv i).
    + intros a b ma mb Hab Ha Hb Hnz.
      apply lookup_app_Some in Ha as [Ha|[Hla Ha]];
        apply lookup_app_Some in Hb as [Hb|[Hlb Hb]].
      * by apply (Hap1 a b).
      * apply list_lookup_singleton_Some in Hb as [_ <-].
        apply list_lookup_insert_Some in Ha as [(-> & <- & _)|[Hka Ha]]; [done|].
        by apply (IHap a i).
      * apply list_lookup_singleton_Some in Ha as [_ <-].
        apply list_lookup_insert_Some in Hb as [(-> & <- & _)|[Hkb Hb]]; [done|].
        by apply (IHap i b).
      * apply list_lookup_singleton_Some in Ha as [Ha _].
        apply list_lookup_singleton_Some in Hb as [Hb _]. lia.
  - unfold move_assign in Hmove.
    destruct (free m hw) as [m1 hw1] eqn:Hfree. injection Hmove as <- <- <-.
    destruct (free_spec _ _ _ _ IHwf (IHinv i m Hi) Hfree)
      as (Hwf1 & _ & _ & Hfr & _).
    assert (Hkeep : forall k b, k <> i -> blocks !! k = Some b -> inv hw1 b).
    { intros k b Hk Hb. apply (inv_aside (handle m) hw); try done.
      - by apply (IHinv k).
      - by apply (IHap k i b m). }
    split; [done|]. split.
    + intros k b Hb.
      apply list_lookup_insert_Some in Hb as [(-> & <- & _)|[Hkj Hb]].
      * by apply init_inv.
      * apply list_lookup_insert_Some in Hb as [(-> & <- & _)|[Hki Hb]].
        -- by apply (Hkeep j).
        -- by apply (Hkeep k).
    + intros a b ma mb Hab Ha Hb Hnz.
      apply list_lookup_insert_Some in Ha as [(-> & <- & _)|[Haj Ha]]; [done|].
      apply list_lookup_insert_Some in Hb as [(-> & <- & _)|[Hbj Hb]]; [done|].
      apply list_lookup_insert_Some in Ha as [(-> & <- & _)|[Hai Ha]];
        apply list_lookup_insert_Some in Hb as [(-> & <- & _)|[Hbi Hb]]; try done.
      * by apply (IHap j b).
      * intros Heq. apply (IHap j a other ma); try done; congruence.
      * by apply (IHap a b).
Qed.

Lemma reachable_block_inv blocks hw (i : nat) m :
  reachable blocks hw -> blocks !! i = Some m -> wf hw /\ inv hw m.
Proof.
  intros Hreach Hi. destruct (reachable_inv _ _ Hreach) as (Hwf & Hinv & _).
  split; [done|]. by apply (Hinv i).
Qed.

(** *** The driver calls each operation makes *)

Lemma unmap_calls_unmapped hw m : unmapped hw m -> unmap_calls m = [].
Proof. intros (Hp & _). unfold unmap_calls. by rewrite Hp. Qed.

Lemma unmap_calls_mapped hw m b :
  mapped_at hw m b ->
  unmap_calls m =
    [(Unmap (range m) (range m), ESP_OK); (FreeMapRange (range m), ESP_OK)].
Proof.
  intros (Hp & Hne & _). unfold unmap_calls. rewrite Hp.
  assert (E : (range m =? 0) = false) by (by apply Z.eqb_neq). by rewrite E.
Qed.

Lemma unmap_trace hw m m' hw' :
  inv hw m -> unmap m hw = (m', hw') -> trace hw' = trace hw ++ unmap_calls m.
Proof.
  intros (_ & _ & _ & [Hun|Hmap]) Hrun.
  - rewrite (unmap_unmapped _ _ Hun) in Hrun. injection Hrun as <- <-.
    by rewrite (unmap_calls_unmapped _ _ Hun), app_nil_r.
  - rewrite (unmap_mapped _ _ _ Hmap) in Hrun. injection Hrun as <- <-.
    rewrite (unmap_calls_mapped _ _ _ Hmap). simpl. by rewrite <- app_assoc.
Qed.

Lemma free_trace hw m m' hw' :
  wf hw -> inv hw m -> handle m <> 0 -> free m hw = (m', hw') ->
  trace hw' = trace hw ++ unmap_calls m ++ [(Free (handle m), ESP_OK)].
Proof.
  intros Hwf Hinv Hh Hrun. unfold free in Hrun.
  assert (E : (handle m =? 0) = false) by (by apply Z.eqb_neq).
  rewrite E in Hrun. simpl in Hrun.
  destruct (unmap m hw) as [m1 hw1] eqn:Hu.
  pose proof (unmap_trace _ _ _ _ Hinv Hu) as Ht.
  pose proof (unmap_spec _ _ _ _ Hwf Hinv Hu)
    as (Hwf1 & Hinv1 & Hun1 & Hfr1 & Hh1 & Hs1 & Hrg1 & Ho1).
  destruct Hinv1 as (_ & _ & Hreg1 & _).
  destruct Hreg1 as (rg & Hrg & _); [congruence|].
  unfold esp_himem_free in Hrun. rewrite Hrg in Hrun.
  destruct Hun1 as (_ & _ & _ & Hno1).
  rewrite (mappings_of_nil _ _ Hno1) in Hrun. injection Hrun as <- <-.
  simpl. rewrite Ht, Hh1. by rewrite <- app_assoc.
Qed.

Lemma ensure_block_mapped_trace bi hw m ok m' hw' :
  wf hw -> inv hw m -> bi <> current_mapped_block m ->
  ensure_block_mapped bi m hw = (ok, m', hw') ->
  exists rest,
    trace hw' = trace hw ++ unmap_calls m ++ rest /\
    Forall (fun c => is_unmap_call c = false) rest /\
    (ok = true -> Exists (fun c => is_map_call c = true) rest).
Proof.
  intros Hwf Hinv Hne Hrun. unfold ensure_block_mapped in Hrun.
  assert (E : (bi =? current_mapped_block m) = false) by (by apply Z.eqb_neq).
  rewrite E in Hrun. clear E.
  destruct (if negb (mapped_ptr m =? 0) then unmap m hw else (m, hw))
    as [m1 hw1] eqn:Hstep1.
  assert (Ht1 : trace hw1 = trace hw ++ unmap_calls m).
  { destruct (mapped_ptr m =? 0) eqn:Hp; simpl in Hstep1.
    - injection Hstep1 as <- <-. unfold unmap_calls. rewrite Hp. simpl.
      by rewrite app_nil_r.
    - exact (unmap_trace _ _ _ _ Hinv Hstep1). }
  clear Hstep1.
  unfold esp_himem_alloc_map_range in Hrun.
  replace (ESP_HIMEM_BLKSZ mod ESP_HIMEM_BLKSZ =? 0) with true in Hrun by reflexivity.
  simpl in Hrun.
  destruct (grant ReqRange hw1) as [b hw2] eqn:Hg.
  pose proof (grant_fields _ _ _ _ Hg) as (_ & _ & Hg3 & _).
  destruct b; simpl in Hrun.
  2:{ injection Hrun as <- <- <-. eexists. simpl. rewrite Hg3, Ht1, <- app_assoc.
      split; [reflexivity|]. split; [|done]. by repeat constructor. }
  match type of Hrun with
  | context [esp_himem_map ?h ?r ?o ?ro ?l ?f ?p ?hwx] =>
      destruct (esp_himem_map h r o ro l f p hwx) as [[e p'] hw4] eqn:Hmap
  end.
  pose proof (esp_himem_map_cases _ _ _ _ _ _ _ _ Hmap)
    as (_ & _ & _ & Htr4 & _).
  simpl in Htr4. rewrite Hg3, Ht1 in Htr4.
  destruct (is_ok e) eqn:He; simpl in Hrun.
  - injection Hrun as <- <- <-. eexists. rewrite Htr4, <- !app_assoc.
    split; [reflexivity|]. split.
    + by repeat constructor.
    + intros _. simpl. right. left. done.
  - unfold esp_himem_free_map_range in Hrun.
    destruct (ranges hw4 !! _) as [[x|]|]; injection Hrun as <- <- <-;
      eexists; simpl; rewrite Htr4, <- !app_assoc;
      (split; [reflexivity|]); (split; [by repeat constructor|done]).
Qed.

End HimemBlockFacts.

(** * Facts about VectorHIMEM *)

Module VectorHIMEMFacts.

Import Hw HwFacts WordFacts HimemBlockFacts VectorHIMEM.

Section Element.

Variable sizeof_T : Z.
Hypothesis sizeof_pos : 0 < sizeof_T.

Local Abbreviation element := (element sizeof_T).

Lemma slot_bounds i m hw :
  HimemBlock.inv hw m -> 0 <= i -> (i + 1) * sizeof_T <= HimemBlock.size m ->
  Word.mul i sizeof_T = i * sizeof_T /\
  0 <= i * sizeof_T < Word.modulus /\ 0 <= sizeof_T < Word.modulus /\
  i * sizeof_T < HimemBlock.size m /\
  Z.min sizeof_T (HimemBlock.size m - i * sizeof_T) = sizeof_T.
Proof.
  intros (Hsz & _) Hi Hfit.
  assert (0 <= i * sizeof_T) by nia.
  split_and!; try lia. apply mul_small; nia.
Qed.

Lemma element_length hw m i : Z.of_nat (length (element hw m i)) = sizeof_T.
Proof. unfold VectorHIMEM.element. apply MemFacts.load_length. lia. Qed.

Lemma read_element temp i m hw n temp' m' hw' :
  good hw m -> HimemBlock.handle m <> 0 ->
  0 <= i -> (i + 1) * sizeof_T <= HimemBlock.size m ->
  Z.of_nat (length temp) = sizeof_T ->
  HimemBlock.read temp (Word.mul i sizeof_T) sizeof_T m hw = (n, temp', m', hw') ->
  n = sizeof_T /\ temp' = element hw m i /\
  good hw' m' /\ same_block m m' /\ regions hw' = regions hw /\
  frame (HimemBlock.handle m) hw hw' /\ later hw hw'.
Proof.
  intros (Hwf & Hinv & Hgr) Hh Hi Hfit Htemp Hrun.
  destruct (slot_bounds i m hw Hinv Hi Hfit) as (Hmul & Hoff & Hs & Hlt & Hmin).
  rewrite Hmul in Hrun.
  destruct (read_spec _ _ _ _ _ _ _ _ _ Hwf Hinv Hoff Hs Hrun)
    as (Hwf' & Hinv' & Hfr & Hh' & Hs' & Hrg & Hl & Hn & _ & Hdest & Hall).
  specialize (Hall Hgr Hh Hlt). rewrite Hmin in Hall. subst n.
  split_and!; try done.
  - rewrite Hdest. apply (buf_write_whole temp (element hw m i)).
    pose proof (element_length hw m i) as Hlen. lia.
  - split_and!; auto. by apply (mapping_later hw).
Qed.

Lemma buf_read_all value n :
  Z.of_nat (length value) = n -> buf_read value 0 n = value.
Proof.
  intros H. unfold buf_read. simpl. apply take_ge. lia.
Qed.

Lemma write_element value i m hw n m' hw' :
  good hw m -> HimemBlock.handle m <> 0 ->
  0 <= i -> (i + 1) * sizeof_T <= HimemBlock.size m ->
  Z.of_nat (length value) = sizeof_T ->
  HimemBlock.write value (Word.mul i sizeof_T) sizeof_T m hw = (n, m', hw') ->
  n = sizeof_T /\
  good hw' m' /\ same_block m m' /\ frame (HimemBlock.handle m) hw hw' /\
  later hw hw' /\ element hw' m' i = value /\
  (forall k, 0 <= k -> k <> i -> element hw' m' k = element hw m k).
Proof.
  intros (Hwf & Hinv & Hgr) Hh Hi Hfit Hval Hrun.
  destruct (slot_bounds i m hw Hinv Hi Hfit) as (Hmul & Hoff & Hs & Hlt & Hmin).
  rewrite Hmul in Hrun.
  assert (Hsrc : sizeof_T <= Z.of_nat (length value)) by lia.
  destruct (write_spec _ _ _ _ _ _ _ _ Hwf Hinv Hoff Hs Hsrc Hrun)
    as (Hwf' & Hinv' & Hfr & Hh' & Hs' & Hl & Hn & _ & Hcont & Hall).
  specialize (Hall Hgr Hh Hlt). rewrite Hmin in Hall. subst n.
  rewrite (buf_read_all value sizeof_T Hval) in Hcont.
  split_and!; try done.
  - split_and!; auto. by apply (mapping_later hw).
  - unfold VectorHIMEM.element. rewrite Hcont, <- Hval.
    apply MemFacts.load_store_same.
  - intros k Hk Hne. unfold VectorHIMEM.element. rewrite Hcont.
    apply MemFacts.load_store_disjoint. rewrite Hval.
    destruct (Z.lt_ge_cases k i); [left|right]; nia.
Qed.

Lemma move_element_spec i j temp m hw temp' m' hw' :
  good hw m -> HimemBlock.handle m <> 0 ->
  0 <= i -> (i + 1) * sizeof_T <= HimemBlock.size m ->
  0 <= j -> (j + 1) * sizeof_T <= HimemBlock.size m ->
  Z.of_nat (length temp) = sizeof_T ->
  move_element sizeof_T i j (temp, m, hw) = (temp', m', hw') ->
  good hw' m' /\ same_block m m' /\ frame (HimemBlock.handle m) hw hw' /\
  later hw hw' /\ Z.of_nat (length temp') = sizeof_T /\
  element hw' m' j = element hw m i /\
  (forall k, 0 <= k -> k <> j -> element hw' m' k = element hw m k).
Proof.
  intros Hgood Hh Hi Hifit Hj Hjfit Htemp Hrun. unfold move_element in Hrun.
  destruct (HimemBlock.read temp (Word.mul i sizeof_T) sizeof_T m hw)
    as [[[n1 temp1] m1] hw1] eqn:Hread.
  destruct (read_element _ _ _ _ _ _ _ _ Hgood Hh Hi Hifit Htemp Hread)
    as (_ & -> & Hgood1 & [Hh1 Hs1] & Hrg1 & Hfr1 & Hl1).
  destruct (HimemBlock.write (element hw m i) (Word.mul j sizeof_T) sizeof_T m1 hw1)
    as [[n2 m2] hw2] eqn:Hwrite.
  injection Hrun as <- <- <-.
  assert (Hc1 : forall k, element hw1 m1 k = element hw m k).
  { intros k. unfold VectorHIMEM.element. by rewrite (contents_same hw hw1 m m1). }
  assert (Hh1' : HimemBlock.handle m1 <> 0) by congruence.
  assert (Hjfit1 : (j + 1) * sizeof_T <= HimemBlock.size m1) by congruence.
  destruct (write_element _ _ _ _ _ _ _ Hgood1 Hh1' Hj Hjfit1
              (element_length hw m i) Hwrite)
    as (_ & Hgood2 & [Hh2 Hs2] & Hfr2 & Hl2 & Hj2 & Hk2).
  split_and!; try done.
  - split; congruence.
  - eapply frame_trans; [exact Hfr1|]. by rewrite <- Hh1.
  - by apply (later_trans _ hw1).
  - apply element_length.
  - intros k Hk Hne. rewrite Hk2 by done. apply Hc1.
Qed.


(** *** The shifting loops *)

Lemma good_in_range hw m i :
  good hw m -> 0 <= i -> (i + 1) * sizeof_T <= HimemBlock.size m ->
  i + 1 < Word.modulus.
Proof.
  intros (_ & (Hsz & _) & _) Hi Hfit. nia.
Qed.

Lemma shift_up_spec pos : forall (n : nat) i temp m hw temp' m' hw',
  good hw m -> HimemBlock.handle m <> 0 ->
  0 <= pos -> i = pos + Z.of_nat n ->
  (i + 1) * sizeof_T <= HimemBlock.size m ->
  Z.of_nat (length temp) = sizeof_T ->
  for_down n i (fun i => move_element sizeof_T (Word.sub i 1) i) (temp, m, hw)
    = (temp', m', hw') ->
  good hw' m' /\ same_block m m' /\ frame (HimemBlock.handle m) hw hw' /\
  later hw hw' /\
  forall k, 0 <= k ->
    element hw' m' k =
      if decide (pos < k <= i) then element hw m (k - 1) else element hw m k.
Proof.
  induction n as [|n IH]; intros i temp m hw temp' m' hw' Hgood Hh Hpos Hi Hfit Htemp Hrun.
  - simpl in Hrun. injection Hrun as <- <- <-.
    split_and!; try done; try apply later_refl.
    intros k Hk. destruct (decide (pos < k <= i)); [lia|done].
  - cbn [for_down] in Hrun.
    assert (Hi0 : 0 <= i) by lia.
    pose proof (good_in_range _ _ _ Hgood Hi0 Hfit) as Hrange.
    rewrite (sub_small i 1) in Hrun by lia.
    destruct (move_element sizeof_T (i - 1) i (temp, m, hw)) as [[temp1 m1] hw1] eqn:Hmove.
    assert (Hfit0 : (i - 1 + 1) * sizeof_T <= HimemBlock.size m) by nia.
    assert (Hi1' : 0 <= i - 1) by lia.
    destruct (move_element_spec _ _ _ _ _ _ _ _ Hgood Hh Hi1' Hfit0 Hi0 Hfit
                Htemp Hmove)
      as (Hgood1 & [Hh1 Hs1] & Hfr1 & Hl1 & Htemp1 & Hi1 & Hk1).
    apply IH in Hrun; try done; try lia; try congruence.
    destruct Hrun as (Hgood' & [Hh' Hs'] & Hfr' & Hl' & Hel).
    split_and!; try done.
    + split; congruence.
    + eapply frame_trans; [exact Hfr1|]. by rewrite <- Hh1.
    + by apply (later_trans _ hw1).
    + intros k Hk. rewrite (Hel k Hk).
      destruct (decide (pos < k <= i - 1)), (decide (pos < k <= i)); try lia.
      * apply Hk1; lia.
      * assert (k = i) by lia. subst k. exact Hi1.
      * apply Hk1; lia.
Qed.

Lemma shift_down_spec : forall (n : nat) i temp m hw temp' m' hw',
  good hw m -> HimemBlock.handle m <> 0 ->
  1 <= i -> (i + Z.of_nat n) * sizeof_T <= HimemBlock.size m ->
  Z.of_nat (length temp) = sizeof_T ->
  for_up n i (fun i => move_element sizeof_T i (Word.sub i 1)) (temp, m, hw)
    = (temp', m', hw') ->
  good hw' m' /\ same_block m m' /\ frame (HimemBlock.handle m) hw hw' /\
  later hw hw' /\
  forall k, 0 <= k ->
    element hw' m' k =
      if decide (i - 1 <= k < i - 1 + Z.of_nat n)
      then element hw m (k + 1) else element hw m k.
Proof.
  induction n as [|n IH]; intros i temp m hw temp' m' hw' Hgood Hh Hi Hfit Htemp Hrun.
  - simpl in Hrun. injection Hrun as <- <- <-.
    split_and!; try done; try apply later_refl.
    intros k Hk. destruct (decide (i - 1 <= k < i - 1 + Z.of_nat 0)); [lia|done].
  - cbn [for_up] in Hrun.
    assert (Hfit1 : (i + 1) * sizeof_T <= HimemBlock.size m) by nia.
    assert (Hi0 : 0 <= i) by lia.
    pose proof (good_in_range _ _ _ Hgood Hi0 Hfit1) as Hrange.
    rewrite (sub_small i 1) in Hrun by lia.
    rewrite (add_small i 1) in Hrun by lia.
    destruct (move_element sizeof_T i (i - 1) (temp, m, hw)) as [[temp1 m1] hw1] eqn:Hmove.
    assert (Hfit0 : (i - 1 + 1) * sizeof_T <= HimemBlock.size m) by nia.
    assert (Hi1' : 0 <= i - 1) by lia.
    destruct (move_element_spec _ _ _ _ _ _ _ _ Hgood Hh Hi0 Hfit1 Hi1' Hfit0
                Htemp Hmove)
      as (Hgood1 & [Hh1 Hs1] & Hfr1 & Hl1 & Htemp1 & Hi1 & Hk1).
    apply IH in Hrun; try done; try lia; try congruence; try (rewrite Hs1; nia).
    destruct Hrun as (Hgood' & [Hh' Hs'] & Hfr' & Hl' & Hel).
    split_and!; try done.
    + split; congruence.
    + eapply frame_trans; [exact Hfr1|]. by rewrite <- Hh1.
    + by apply (later_trans _ hw1).
    + intros k Hk. rewrite (Hel k Hk).
      destruct (decide (i + 1 - 1 <= k < i + 1 - 1 + Z.of_nat n)),
               (decide (i - 1 <= k < i - 1 + Z.of_nat (S n))); try lia.
      * apply Hk1; lia.
      * assert (k = i - 1) by lia. subst k.
        replace (i - 1 + 1) with i by lia. exact Hi1.
      * apply Hk1; lia.
Qed.

(** *** reallocate *)

Lemma copy_elements_spec : forall (n : nat) i temp m1 m2 hw temp' m1' m2' hw',
  wf hw -> HimemBlock.inv hw m1 -> HimemBlock.inv hw m2 -> mapping hw ->
  HimemBlock.handle m1 <> 0 -> HimemBlock.handle m2 <> 0 ->
  HimemBlock.handle m1 <> HimemBlock.handle m2 ->
  0 <= i ->
  (i + Z.of_nat n) * sizeof_T <= HimemBlock.size m1 ->
  (i + Z.of_nat n) * sizeof_T <= HimemBlock.size m2 ->
  Z.of_nat (length temp) = sizeof_T ->
  for_up n i (copy_element sizeof_T) (temp, m1, m2, hw) = (temp', m1', m2', hw') ->
  wf hw' /\ HimemBlock.inv hw' m1' /\ HimemBlock.inv hw' m2' /\ later hw hw' /\
  same_block m1 m1' /\ same_block m2 m2' /\
  (forall h, h <> HimemBlock.handle m1 -> h <> HimemBlock.handle m2 ->
     regions hw' !! h = regions hw !! h) /\
  (forall k, 0 <= k -> element hw' m1' k = element hw m1 k) /\
  (forall k, 0 <= k ->
     element hw' m2' k =
       if decide (i <= k < i + Z.of_nat n) then element hw m1 k else element hw m2 k).
Proof.
  induction n as [|n IH];
    intros i temp m1 m2 hw temp' m1' m2' hw'
           Hwf Hinv1 Hinv2 Hgr Hh1 Hh2 Hne Hi Hfit1 Hfit2 Htemp Hrun.
  - simpl in Hrun. injection Hrun as <- <- <- <-.
    split_and!; try done; try apply later_refl.
    intros k Hk. destruct (decide (i <= k < i + Z.of_nat 0)); [lia|done].
  - cbn [for_up] in Hrun. unfold copy_element at 2 in Hrun.
    assert (Hf1 : (i + 1) * sizeof_T <= HimemBlock.size m1) by nia.
    assert (Hf2 : (i + 1) * sizeof_T <= HimemBlock.size m2) by nia.
    destruct (HimemBlock.read temp (Word.mul i sizeof_T) sizeof_T m1 hw)
      as [[[n1 temp1] m1a] hwa] eqn:Hread.
    destruct (read_element _ _ _ _ _ _ _ _ (conj Hwf (conj Hinv1 Hgr)) Hh1 Hi Hf1 Htemp Hread)
      as (_ & -> & (Hwfa & Hinv1a & Hgra) & [Hh1a Hs1a] & Hrga & Hfra & Hla).
    assert (Hinv2a : HimemBlock.inv hwa m2).
    { apply (inv_frame _ _ _ _ Hinv2 Hfra). congruence. }
    destruct (HimemBlock.write (element hw m1 i) (Word.mul i sizeof_T) sizeof_T m2 hwa)
      as [[n2 m2b] hwb] eqn:Hwrite.
    destruct (write_element _ _ _ _ _ _ _ (conj Hwfa (conj Hinv2a Hgra)) Hh2 Hi Hf2
                (element_length hw m1 i) Hwrite)
      as (_ & (Hwfb & Hinv2b & Hgrb) & [Hh2b Hs2b] & Hfrb & Hlb & Hib & Hkb).
    assert (Hinv1b : HimemBlock.inv hwb m1a).
    { apply (inv_frame _ _ _ _ Hinv1a Hfrb). congruence. }
    assert (Hgood_range : i + 1 < Word.modulus).
    { apply (good_in_range hw m1 i); [by split_and!|lia|done]. }
    rewrite (add_small i 1) in Hrun by lia.
    apply IH in Hrun; try done; try lia; try congruence;
      try (rewrite ?Hs1a, ?Hs2b; nia); try apply element_length.
    destruct Hrun as (Hwf' & Hinv1' & Hinv2' & Hgr' & [Hh1' Hs1'] & [Hh2' Hs2']
                      & Hreg' & Hel1 & Hel2).
    assert (Hm1 : forall k, element hwb m1a k = element hw m1 k).
    { intros k. unfold VectorHIMEM.element.
      rewrite (contents_frame _ _ _ _ Hfrb) by congruence.
      by rewrite (contents_same hw hwa m1 m1a). }
    assert (Hm2 : forall k, element hwa m2 k = element hw m2 k).
    { intros k. unfold VectorHIMEM.element. by rewrite (contents_same hw hwa m2 m2). }
    split_and!; try done.
    + apply (later_trans _ hwa); [done|]. by apply (later_trans _ hwb).
    + split; congruence.
    + split; congruence.
    + intros h Hx1 Hx2. rewrite Hreg' by congruence.
      destruct Hfrb as [Hfrb _]. rewrite Hfrb by done. by rewrite Hrga.
    + intros k Hk. rewrite Hel1 by done. apply Hm1.
    + intros k Hk. rewrite Hel2 by done.
      destruct (decide (i + 1 <= k < i + 1 + Z.of_nat n)),
               (decide (i <= k < i + Z.of_nat (S n))); try lia.
      * apply Hm1.
      * assert (k = i) by lia. subst k. by rewrite Hib.
      * rewrite Hkb by lia. apply Hm2.
Qed.

Lemma fits_bounds nc :
  0 <= nc -> fits sizeof_T nc ->
  calculate_size_bytes sizeof_T (Z.max nc min_elements) = Z.max nc min_elements * sizeof_T /\
  Z.max nc min_elements * sizeof_T <=
    HimemBlock.round_up (calculate_size_bytes sizeof_T (Z.max nc min_elements)) /\
  nc <= capacity_for sizeof_T nc /\ min_elements <= capacity_for sizeof_T nc.
Proof.
  intros Hnc Hfit. unfold fits in Hfit. unfold capacity_for.
  set (c := Z.max nc min_elements) in *.
  assert (Hc : nc <= c /\ min_elements <= c /\ 0 <= c).
  { unfold c, min_elements. lia. }
  assert (Hmul : calculate_size_bytes sizeof_T c = c * sizeof_T).
  { unfold calculate_size_bytes. apply mul_small; try lia.
    rewrite blksz_eq in Hfit. lia. }
  rewrite Hmul.
  destruct (round_up_small (c * sizeof_T) ltac:(nia) Hfit) as [_ Hru].
  assert (Hdiv : c <= HimemBlock.round_up (c * sizeof_T) / sizeof_T).
  { apply Z.div_le_lower_bound; lia. }
  split_and!; try done; lia.
Qed.

Lemma reallocate_noop nc v hw :
  nc <= element_capacity v -> reallocate sizeof_T nc v hw = (true, v, hw).
Proof.
  intros H. unfold reallocate.
  assert (E : (nc <=? element_capacity v) = true) by (by apply Z.leb_le).
  by rewrite E.
Qed.

Lemma uninitialized_length :
  Z.of_nat (length (uninitialized sizeof_T)) = sizeof_T.
Proof. unfold uninitialized. rewrite length_replicate. lia. Qed.

Lemma copy_phase_spec count m1 m2 hw temp' m1' m2' hw' :
  wf hw -> HimemBlock.inv hw m1 -> HimemBlock.inv hw m2 -> mapping hw ->
  HimemBlock.handle m2 <> 0 ->
  HimemBlock.handle m1 <> HimemBlock.handle m2 ->
  (HimemBlock.handle m1 = 0 -> HimemBlock.size m1 = 0) ->
  0 <= count ->
  count * sizeof_T <= HimemBlock.size m1 ->
  count * sizeof_T <= HimemBlock.size m2 ->
  (if 0 <? count
   then for_up (Z.to_nat count) 0 (copy_element sizeof_T)
               (uninitialized sizeof_T, m1, m2, hw)
   else (uninitialized sizeof_T, m1, m2, hw)) = (temp', m1', m2', hw') ->
  wf hw' /\ HimemBlock.inv hw' m1' /\ HimemBlock.inv hw' m2' /\ later hw hw' /\
  same_block m1 m1' /\ same_block m2 m2' /\
  (forall k, 0 <= k < count -> element hw' m2' k = element hw m1 k).
Proof.
  intros Hwf Hinv1 Hinv2 Hgr Hh2 Hne Hnull Hcount Hfit1 Hfit2 Hrun.
  destruct (0 <? count) eqn:Hpos.
  - apply Z.ltb_lt in Hpos.
    assert (Hh1 : HimemBlock.handle m1 <> 0).
    { intros H0. apply Hnull in H0. nia. }
    apply copy_elements_spec in Hrun; try done; try lia;
      try (rewrite Z2Nat.id by lia; lia); try apply uninitialized_length.
    destruct Hrun as (Hwf' & Hinv1' & Hinv2' & Hgr' & Hs1 & Hs2 & _ & _ & Hel).
    split_and!; try done.
    intros k Hk. rewrite Hel by lia.
    destruct (decide (0 <= k < 0 + Z.of_nat (Z.to_nat count))); [done|lia].
  - apply Z.ltb_ge in Hpos. injection Hrun as <- <- <- <-.
    split_and!; try done; try apply later_refl. intros k Hk. lia.
Qed.

Lemma inv_slots hw v :
  inv sizeof_T hw v ->
  element_capacity v * sizeof_T <= HimemBlock.size (memory v) /\
  element_count v * sizeof_T <= HimemBlock.size (memory v) /\
  (0 < element_capacity v -> HimemBlock.handle (memory v) <> 0).
Proof.
  intros (Hinv & Hcount & Hcap & Hnull & Hmincap).
  assert (H1 : element_capacity v * sizeof_T <= HimemBlock.size (memory v)).
  { rewrite Hcap. rewrite Z.mul_comm. apply Z.mul_div_le. lia. }
  split_and!; try done; try nia.
Qed.

Lemma reallocate_grow nc v hw ok v' hw' :
  wf hw -> inv sizeof_T hw v -> granting hw ->
  element_capacity v < nc -> fits sizeof_T nc ->
  reallocate sizeof_T nc v hw = (ok, v', hw') ->
  ok = true /\ wf hw' /\ inv sizeof_T hw' v' /\ later hw hw' /\
  element_count v' = element_count v /\
  element_capacity v' = capacity_for sizeof_T nc /\
  HimemBlock.size (memory v') =
    HimemBlock.round_up (calculate_size_bytes sizeof_T (Z.max nc min_elements)) /\
  HimemBlock.handle (memory v') <> 0 /\
  (forall k, 0 <= k < element_count v ->
     element hw' (memory v') k = element hw (memory v) k).
Proof.
  intros Hwf Hvinv [Hgra Hgrm] Hnc Hfits Hrun.
  pose proof Hvinv as (Hinv & Hcount & Hcap & Hnull & Hmincap).
  destruct (inv_slots _ _ Hvinv) as (Hslots & Hcslots & Hlive).
  destruct (fits_bounds nc ltac:(lia) Hfits) as (Hbytes & Hround & Hcapfor & Hmin).
  unfold reallocate in Hrun.
  assert (E : (nc <=? element_capacity v) = false) by (apply Z.leb_gt; lia).
  rewrite E in Hrun. clear E.
  set (bytes := calculate_size_bytes sizeof_T (Z.max nc min_elements)) in *.
  destruct (HimemBlock.allocate bytes HimemBlock.init hw) as [[ok1 m2] hw1] eqn:Halloc.
  destruct (allocate_spec _ _ _ _ _ _ Hwf (init_inv _ Hwf) Halloc)
    as (Hwf1 & Hinv2 & Hrn1 & Hl1 & _ & Hsize2 & Hok & _ & Hmust & _).
  rewrite (Hmust Hgra eq_refl) in *. simpl in Hrun.
  destruct (Hok eq_refl) as (_ & Hh2 & Hfresh & Hrg1 & Hfr1 & _).
  specialize (Hsize2 eq_refl).
  assert (Hgr1 : mapping hw1) by (by apply (mapping_later hw)).
  assert (Hne : HimemBlock.handle (memory v) <> HimemBlock.handle m2).
  { intros Heq. destruct Hinv as (_ & _ & Hreg & _).
    destruct Hreg as (rg & Hrg & _); [congruence|]. congruence. }
  assert (Hinv1 : HimemBlock.inv hw1 (memory v)) by (by apply (inv_frame _ _ _ _ Hinv Hfr1)).
  assert (Hel1 : forall k, element hw1 (memory v) k = element hw (memory v) k).
  { intros k. unfold VectorHIMEM.element. by rewrite (contents_frame _ _ _ _ Hfr1). }
  match type of Hrun with
  | context [if 0 <? ?c then ?a else ?b] =>
      destruct (if 0 <? c then a else b) as [[[temp' m1'] m2'] hw2] eqn:Hcopy
  end.
  apply copy_phase_spec in Hcopy; try done; try lia.
  2:{ rewrite Hsize2. fold bytes. unfold min_elements in *. nia. }
  destruct Hcopy as (Hwf2 & Hinv1' & Hinv2' & Hl2 & [Hh1' Hs1'] & [Hh2' Hs2'] & Hel2).
  unfold HimemBlock.move_assign in Hrun.
  destruct (HimemBlock.free m1' hw2) as [m1'' hw3] eqn:Hfree.
  destruct (free_spec _ _ _ _ Hwf2 Hinv1' Hfree)
    as (Hwf3 & _ & _ & Hfr3 & _ & Hor3 & _).
  rewrite free_unallocated in Hrun by done.
  injection Hrun as <- <- <-.
  assert (Hinv3 : HimemBlock.inv hw3 m2').
  { apply (inv_frame _ _ _ _ Hinv2' Hfr3). congruence. }
  assert (Hsz : HimemBlock.size m2' = HimemBlock.round_up bytes) by congruence.
  assert (Hcf : HimemBlock.round_up bytes / sizeof_T = capacity_for sizeof_T nc)
    by reflexivity.
  split_and!; try done; simpl.
  - unfold inv; simpl. unfold HimemBlock.get_size. rewrite Hsz, Hcf.
    split_and!; try done; try lia; try congruence.
  - apply (later_trans _ hw1); [done|]. apply (later_trans _ hw2); [done|].
    by apply later_same.
  - unfold HimemBlock.get_size. by rewrite Hsz.
  - congruence.
  - intros k Hk. unfold VectorHIMEM.element.
    rewrite (contents_frame _ _ _ _ Hfr3) by congruence.
    fold (element hw2 m2' k). rewrite Hel2 by done. apply Hel1.
Qed.

Lemma reallocate_denied nc v hw ok v' hw' :
  denying hw -> element_capacity v < nc ->
  reallocate sizeof_T nc v hw = (ok, v', hw') ->
  ok = false /\ v' = v /\ regions hw' = regions hw /\ ranges hw' = ranges hw /\
  fault hw' = fault hw /\
  trace hw' = trace hw ++
    [(Alloc (HimemBlock.round_up (calculate_size_bytes sizeof_T (Z.max nc min_elements))),
      ESP_ERR_NO_MEM)] /\
  oracle hw ReqRegion = false :: oracle hw' ReqRegion.
Proof.
  intros [rest Hden] Hnc Hrun. unfold reallocate in Hrun.
  assert (E : (nc <=? element_capacity v) = false) by (apply Z.leb_gt; lia).
  rewrite E in Hrun. clear E.
  unfold HimemBlock.allocate in Hrun. simpl in Hrun.
  fold (HimemBlock.round_up (calculate_size_bytes sizeof_T (Z.max nc min_elements))) in Hrun.
  unfold esp_himem_alloc in Hrun. rewrite round_up_mod in Hrun. simpl in Hrun.
  unfold grant in Hrun. rewrite Hden in Hrun. simpl in Hrun.
  injection Hrun as <- <- <-. simpl. split_and!; try done.
Qed.

(** *** Element access *)

Lemma index_spec temp i v hw :
  wf hw -> inv sizeof_T hw v -> mapping hw ->
  0 <= i < element_capacity v -> Z.of_nat (length temp) = sizeof_T ->
  exists v' hw',
    index sizeof_T temp i v hw = (Ref (element hw (memory v) i), v', hw') /\
    wf hw' /\ inv sizeof_T hw' v' /\ later hw hw' /\
    element_count v' = element_count v /\
    element_capacity v' = element_capacity v /\
    (forall k, element hw' (memory v') k = element hw (memory v) k).
Proof.
  intros Hwf Hvinv Hgr Hi Htemp.
  pose proof Hvinv as (Hinv & Hcount & Hcap & Hnull & Hmincap).
  destruct (inv_slots _ _ Hvinv) as (Hslots & _ & Hlive).
  assert (Hfit : (i + 1) * sizeof_T <= HimemBlock.size (memory v)) by nia.
  assert (Hh : HimemBlock.handle (memory v) <> 0) by (apply Hlive; lia).
  unfold index.
  destruct (HimemBlock.read temp (Word.mul i sizeof_T) sizeof_T (memory v) hw)
    as [[[n temp'] m'] hw'] eqn:Hread.
  assert (Hi0 : 0 <= i) by lia.
  destruct (read_element _ _ _ _ _ _ _ _ (conj Hwf (conj Hinv Hgr)) Hh Hi0 Hfit Htemp Hread)
    as (_ & -> & (Hwf' & Hinv' & Hgr') & [Hh' Hs'] & Hrg & _ & Hl).
  eexists _, _. split; [reflexivity|].
  split_and!; try done.
  - unfold inv; simpl. rewrite Hs', Hh'. done.
  - intros k. unfold VectorHIMEM.element; simpl.
    by rewrite (contents_same hw hw' (memory v) m').
Qed.

Lemma read_at_spec temp i v hw :
  wf hw -> inv sizeof_T hw v -> mapping hw ->
  0 <= i < element_capacity v -> Z.of_nat (length temp) = sizeof_T ->
  read_at sizeof_T temp i v hw = Ref (element hw (memory v) i).
Proof.
  intros Hwf Hvinv Hgr Hi Htemp.
  destruct (index_spec temp i v hw Hwf Hvinv Hgr Hi Htemp) as (v' & hw' & E & _).
  unfold read_at. by rewrite E.
Qed.

(** *** Growth on demand *)

Lemma growth_request_small v :
  0 <= element_capacity v -> fits sizeof_T (2 * element_capacity v) ->
  growth_request v =
    (if element_capacity v =? 0 then min_elements else 2 * element_capacity v) /\
  element_capacity v < growth_request v /\
  fits sizeof_T (growth_request v).
Proof.
  intros Hcap Hfits. unfold growth_request, fits, min_elements in *.
  rewrite blksz_eq in *.
  destruct (element_capacity v =? 0) eqn:E.
  - apply Z.eqb_eq in E. rewrite E in *. split_and!; try done; lia.
  - apply Z.eqb_neq in E.
    assert (Hmul : Word.mul (element_capacity v) 2 = 2 * element_capacity v).
    { rewrite mul_small; try lia. rewrite modulus_eq in *. nia. }
    rewrite Hmul. split_and!; try done; lia.
Qed.

Lemma grow_if_full_spec v hw ok v' hw' :
  wf hw -> inv sizeof_T hw v -> granting hw -> growth_fits sizeof_T v ->
  grow_if_full sizeof_T v hw = (ok, v', hw') ->
  ok = true /\ wf hw' /\ inv sizeof_T hw' v' /\ later hw hw' /\
  element_count v' = element_count v /\
  element_count v < element_capacity v' /\
  element_capacity v' =
    (if element_capacity v <=? element_count v
     then capacity_for sizeof_T (growth_request v) else element_capacity v) /\
  HimemBlock.size (memory v') =
    (if element_capacity v <=? element_count v
     then HimemBlock.round_up
            (calculate_size_bytes sizeof_T (Z.max (growth_request v) min_elements))
     else HimemBlock.size (memory v)) /\
  (forall k, 0 <= k < element_count v ->
     element hw' (memory v') k = element hw (memory v) k).
Proof.
  intros Hwf Hvinv Hgr Hfits Hrun. unfold grow_if_full in Hrun.
  pose proof Hvinv as (_ & Hcount & _).
  destruct (element_capacity v <=? element_count v) eqn:Hfull.
  - apply Z.leb_le in Hfull.
    destruct (growth_request_small v ltac:(lia) (Hfits Hfull)) as (Hreq & Hlt & Hfit).
    fold (growth_request v) in Hrun.
    destruct (reallocate_grow _ _ _ _ _ _ Hwf Hvinv Hgr Hlt Hfit Hrun)
      as (-> & Hwf' & Hvinv' & Hgr' & Hc' & Hcap' & Hsize' & _ & Hel).
    split_and!; try done.
    rewrite Hcap'.
    assert (Hnn : 0 <= growth_request v) by lia.
    destruct (fits_bounds _ Hnn Hfit) as (_ & _ & Hge & _). lia.
  - apply Z.leb_gt in Hfull. injection Hrun as <- <- <-.
    split_and!; try done. apply later_refl.
Qed.

Lemma grow_if_full_denied v hw ok v' hw' :
  denying hw -> element_capacity v <= element_count v ->
  0 <= element_capacity v -> 2 * element_capacity v < Word.modulus ->
  grow_if_full sizeof_T v hw = (ok, v', hw') ->
  ok = false /\ v' = v /\ regions hw' = regions hw /\ ranges hw' = ranges hw /\
  fault hw' = fault hw /\
  trace hw' = trace hw ++
    [(Alloc (HimemBlock.round_up
               (calculate_size_bytes sizeof_T (Z.max (growth_request v) min_elements))),
      ESP_ERR_NO_MEM)] /\
  oracle hw ReqRegion = false :: oracle hw' ReqRegion.
Proof.
  intros Hden Hfull Hcap Hsmall Hrun. unfold grow_if_full in Hrun.
  assert (E : (element_capacity v <=? element_count v) = true) by (by apply Z.leb_le).
  rewrite E in Hrun. fold (growth_request v) in Hrun.
  apply (reallocate_denied _ _ _ _ _ _ Hden); [|done].
  unfold growth_request, min_elements.
  destruct (element_capacity v =? 0) eqn:E0.
  - apply Z.eqb_eq in E0. lia.
  - apply Z.eqb_neq in E0. rewrite mul_small; lia.
Qed.

(** *** push_back *)

Lemma push_back_spec value v hw v' hw' :
  wf hw -> inv sizeof_T hw v -> granting hw -> growth_fits sizeof_T v ->
  Z.of_nat (length value) = sizeof_T ->
  push_back sizeof_T value v hw = (v', hw') ->
  wf hw' /\ inv sizeof_T hw' v' /\ later hw hw' /\
  element_count v' = element_count v + 1 /\
  element_capacity v' =
    (if element_capacity v <=? element_count v
     then capacity_for sizeof_T (growth_request v) else element_capacity v) /\
  HimemBlock.size (memory v') =
    (if element_capacity v <=? element_count v
     then HimemBlock.round_up
            (calculate_size_bytes sizeof_T (Z.max (growth_request v) min_elements))
     else HimemBlock.size (memory v)) /\
  element hw' (memory v') (element_count v) = value /\
  (forall k, 0 <= k < element_count v ->
     element hw' (memory v') k = element hw (memory v) k).
Proof.
  intros Hwf Hvinv Hgr Hfits Hval Hrun. unfold push_back in Hrun.
  destruct (grow_if_full sizeof_T v hw) as [[ok v1] hw1] eqn:Hgrow.
  destruct (grow_if_full_spec _ _ _ _ _ Hwf Hvinv Hgr Hfits Hgrow)
    as (-> & Hwf1 & Hvinv1 & Hl1 & Hc1 & Hroom & Hcap1 & Hsize1 & Hel1).
  assert (Hgr1 : mapping hw1) by (apply (mapping_later hw); [done|apply Hgr]).
  simpl in Hrun.
  pose proof Hvinv1 as (Hinv1 & Hcount1 & Hcapeq1 & Hnull1 & Hmincap1).
  destruct (inv_slots _ _ Hvinv1) as (Hslots1 & _ & Hlive1).
  assert (Hfit : (element_count v1 + 1) * sizeof_T <= HimemBlock.size (memory v1)) by nia.
  assert (Hh : HimemBlock.handle (memory v1) <> 0) by (apply Hlive1; lia).
  destruct (HimemBlock.write value (Word.mul (element_count v1) sizeof_T) sizeof_T
              (memory v1) hw1) as [[n m'] hw2] eqn:Hwrite.
  assert (Hc0 : 0 <= element_count v1) by lia.
  destruct (write_element _ _ _ _ _ _ _ (conj Hwf1 (conj Hinv1 Hgr1)) Hh Hc0 Hfit Hval Hwrite)
    as (_ & (Hwf2 & Hinv2 & Hgr2) & [Hh2 Hs2] & _ & Hl2 & Hnew & Hold).
  injection Hrun as <- <-.
  assert (Hrange : element_count v1 + 1 < Word.modulus).
  { apply (good_in_range hw1 (memory v1)); [by split_and!|lia|done]. }
  rewrite (add_small (element_count v1) 1) by lia.
  split_and!; try done; simpl.
  - unfold inv; simpl. rewrite Hs2, Hh2. split_and!; try done; lia.
  - by apply (later_trans _ hw1).
  - lia.
  - congruence.
  - by rewrite <- Hc1.
  - intros k Hk. rewrite Hold by lia. by apply Hel1.
Qed.

(** *** insert and erase *)

Lemma insert_noop pos value v hw :
  element_count v < pos -> insert sizeof_T pos value v hw = (v, hw).
Proof.
  intros H. unfold insert.
  assert (E : (element_count v <? pos) = true) by (by apply Z.ltb_lt).
  by rewrite E.
Qed.

Lemma insert_spec pos value v hw v' hw' :
  wf hw -> inv sizeof_T hw v -> granting hw -> growth_fits sizeof_T v ->
  Z.of_nat (length value) = sizeof_T ->
  0 <= pos <= element_count v ->
  insert sizeof_T pos value v hw = (v', hw') ->
  wf hw' /\ inv sizeof_T hw' v' /\ later hw hw' /\
  element_count v' = element_count v + 1 /\
  element hw' (memory v') pos = value /\
  (forall k, 0 <= k < pos -> element hw' (memory v') k = element hw (memory v) k) /\
  (forall k, pos <= k < element_count v ->
     element hw' (memory v') (k + 1) = element hw (memory v) k).
Proof.
  intros Hwf Hvinv Hgr Hfits Hval Hpos Hrun. unfold insert in Hrun.
  assert (E : (element_count v <? pos) = false) by (apply Z.ltb_ge; lia).
  rewrite E in Hrun. clear E.
  destruct (grow_if_full sizeof_T v hw) as [[ok v1] hw1] eqn:Hgrow.
  destruct (grow_if_full_spec _ _ _ _ _ Hwf Hvinv Hgr Hfits Hgrow)
    as (-> & Hwf1 & Hvinv1 & Hl1 & Hc1 & Hroom & Hcap1 & Hsize1 & Hel1).
  assert (Hgr1 : mapping hw1) by (apply (mapping_later hw); [done|apply Hgr]).
  simpl in Hrun.
  pose proof Hvinv1 as (Hinv1 & Hcount1 & Hcapeq1 & Hnull1 & Hmincap1).
  destruct (inv_slots _ _ Hvinv1) as (Hslots1 & _ & Hlive1).
  assert (Hfit : (element_count v1 + 1) * sizeof_T <= HimemBlock.size (memory v1)) by nia.
  assert (Hh : HimemBlock.handle (memory v1) <> 0) by (apply Hlive1; lia).
  match type of Hrun with
  | context [for_down ?n ?i ?f ?s0] =>
      destruct (for_down n i f s0) as [[temp2 m2] hw2] eqn:Hloop
  end.
  apply (shift_up_spec pos) in Hloop; try done; try lia;
    try apply uninitialized_length.
  destruct Hloop as (Hgood2 & [Hh2 Hs2] & _ & Hl2 & Hel2).
  destruct (HimemBlock.write value (Word.mul pos sizeof_T) sizeof_T m2 hw2)
    as [[n m3] hw3] eqn:Hwrite.
  assert (Hp0 : 0 <= pos) by lia.
  assert (Hh2' : HimemBlock.handle m2 <> 0) by congruence.
  assert (Hfitp : (pos + 1) * sizeof_T <= HimemBlock.size m2) by (rewrite Hs2; nia).
  destruct (write_element _ _ _ _ _ _ _ Hgood2 Hh2' Hp0 Hfitp Hval Hwrite)
    as (_ & (Hwf3 & Hinv3 & Hgr3) & [Hh3 Hs3] & _ & Hl3 & Hnew & Hold).
  injection Hrun as <- <-.
  assert (Hrange : element_count v1 + 1 < Word.modulus).
  { apply (good_in_range hw1 (memory v1)); [by split_and!|lia|done]. }
  rewrite (add_small (element_count v1) 1) by lia.
  split_and!; try done; simpl.
  - unfold inv; simpl. rewrite Hs3, Hh3, Hs2, Hh2. split_and!; try done; lia.
  - apply (later_trans _ hw1); [done|]. by apply (later_trans _ hw2).
  - lia.
  - intros k Hk. rewrite Hold by lia. rewrite Hel2 by lia.
    destruct (decide (pos < k <= element_count v1)); [lia|]. apply Hel1. lia.
  - intros k Hk. rewrite Hold by lia. rewrite Hel2 by lia.
    destruct (decide (pos < k + 1 <= element_count v1)); [|lia].
    replace (k + 1 - 1) with k by lia. apply Hel1. lia.
Qed.

Lemma erase_noop pos v hw :
  element_count v <= pos -> erase sizeof_T pos v hw = (v, hw).
Proof.
  intros H. unfold erase.
  assert (E : (element_count v <=? pos) = true) by (by apply Z.leb_le).
  by rewrite E.
Qed.

Lemma erase_count pos v hw v' hw' :
  0 <= pos < element_count v -> element_count v < Word.modulus ->
  erase sizeof_T pos v hw = (v', hw') ->
  element_count v' = element_count v - 1 /\
  element_capacity v' = element_capacity v.
Proof.
  intros Hpos Hrange Hrun. unfold erase in Hrun.
  assert (E : (element_count v <=? pos) = false) by (apply Z.leb_gt; lia).
  rewrite E in Hrun. clear E.
  match type of Hrun with
  | context [for_up ?n ?i ?f ?s0] => destruct (for_up n i f s0) as [[temp2 m2] hw2]
  end.
  injection Hrun as <- <-. simpl. split; [|done]. apply sub_small; lia.
Qed.

Lemma erase_spec pos v hw v' hw' :
  wf hw -> inv sizeof_T hw v -> mapping hw ->
  0 <= pos < element_count v ->
  erase sizeof_T pos v hw = (v', hw') ->
  wf hw' /\ inv sizeof_T hw' v' /\ later hw hw' /\
  element_count v' = element_count v - 1 /\
  element_capacity v' = element_capacity v /\
  (forall k, 0 <= k < pos -> element hw' (memory v') k = element hw (memory v) k) /\
  (forall k, pos <= k < element_count v - 1 ->
     element hw' (memory v') k = element hw (memory v) (k + 1)).
Proof.
  intros Hwf Hvinv Hgr Hpos Hrun.
  pose proof Hvinv as (Hinv & Hcount & Hcapeq & Hnull & Hmincap).
  destruct (inv_slots _ _ Hvinv) as (Hslots & Hcslots & Hlive).
  assert (Hh : HimemBlock.handle (memory v) <> 0) by (apply Hlive; lia).
  assert (Hrange : element_count v < Word.modulus).
  { destruct Hinv as (Hsz & _). nia. }
  destruct (erase_count _ _ _ _ _ Hpos Hrange Hrun) as [Hc' Hcap'].
  unfold erase in Hrun.
  assert (E : (element_count v <=? pos) = false) by (apply Z.leb_gt; lia).
  rewrite E in Hrun. clear E.
  rewrite (add_small pos 1) in Hrun by lia.
  match type of Hrun with
  | context [for_up ?n ?i ?f ?s0] =>
      destruct (for_up n i f s0) as [[temp2 m2] hw2] eqn:Hloop
  end.
  apply shift_down_spec in Hloop; try done; try lia;
    try apply uninitialized_length;
    try (rewrite Z2Nat.id by lia; replace (pos + 1 + (element_count v - (pos + 1)))
           with (element_count v) by lia; done).
  destruct Hloop as ((Hwf2 & Hinv2 & Hgr2) & [Hh2 Hs2] & _ & Hl2 & Hel2).
  injection Hrun as <- <-.
  split_and!; try done; simpl.
  - simpl in Hc'. unfold inv; simpl. rewrite Hs2, Hh2, Hc'.
    split_and!; try done; lia.
  - intros k Hk. rewrite Hel2 by lia.
    destruct (decide (pos + 1 - 1 <= k < pos + 1 - 1 + Z.of_nat (Z.to_nat (element_count v - (pos + 1)))));
      [lia|done].
  - intros k Hk. rewrite Hel2 by lia.
    destruct (decide (pos + 1 - 1 <= k < pos + 1 - 1 + Z.of_nat (Z.to_nat (element_count v - (pos + 1)))));
      [done|lia].
Qed.

(** *** The counters, whatever the mapping requests are answered

    The copy loop of [reallocate] and the write of [push_back] ignore the
    byte counts that [read] and [write] return, so the element count and
    the capacity depend on the allocation requests only. *)

Lemma copy_element_sizes i temp m1 m2 hw temp' m1' m2' hw' :
  sizeof_T < Word.modulus ->
  wf hw -> HimemBlock.inv hw m1 -> HimemBlock.inv hw m2 ->
  HimemBlock.handle m1 <> HimemBlock.handle m2 ->
  Z.of_nat (length temp) = sizeof_T ->
  copy_element sizeof_T i (temp, m1, m2, hw) = (temp', m1', m2', hw') ->
  wf hw' /\ HimemBlock.inv hw' m1' /\ HimemBlock.inv hw' m2' /\ later hw hw' /\
  same_block m1 m1' /\ same_block m2 m2' /\
  Z.of_nat (length temp') = sizeof_T.
Proof.
  intros Hsz Hwf Hinv1 Hinv2 Hne Htemp Hrun. unfold copy_element in Hrun.
  destruct (HimemBlock.read temp (Word.mul i sizeof_T) sizeof_T m1 hw)
    as [[[n1 temp1] m1a] hwa] eqn:Hread.
  destruct (HimemBlock.write temp1 (Word.mul i sizeof_T) sizeof_T m2 hwa)
    as [[n2 m2b] hwb] eqn:Hwrite.
  injection Hrun as <- <- <- <-.
  assert (Hoff : 0 <= Word.mul i sizeof_T < Word.modulus) by apply wrap_range.
  assert (Hlen : 0 <= sizeof_T < Word.modulus) by lia.
  destruct (read_spec _ _ _ _ _ _ _ _ _ Hwf Hinv1 Hoff Hlen Hread)
    as (Hwfa & Hinv1a & Hfra & Hh1a & Hs1a & _ & Hla & Hn & _ & Hdest & _).
  assert (Htemp1 : Z.of_nat (length temp1) = sizeof_T).
  { pose proof (MemFacts.load_length (HimemBlock.contents hw m1)
                  (Word.mul i sizeof_T) n1 ltac:(lia)) as Hload.
    rewrite Hdest, buf_write_length; [done|lia|lia]. }
  assert (Hinv2a : HimemBlock.inv hwa m2).
  { apply (inv_frame _ _ _ _ Hinv2 Hfra). congruence. }
  assert (Hsrc : sizeof_T <= Z.of_nat (length temp1)) by lia.
  destruct (write_spec _ _ _ _ _ _ _ _ Hwfa Hinv2a Hoff Hlen Hsrc Hwrite)
    as (Hwfb & Hinv2b & Hfrb & Hh2b & Hs2b & Hlb & _).
  assert (Hinv1b : HimemBlock.inv hwb m1a).
  { apply (inv_frame _ _ _ _ Hinv1a Hfrb). congruence. }
  split_and!; try done. by apply (later_trans _ hwa).
Qed.

Lemma copy_elements_sizes : forall (n : nat) i temp m1 m2 hw temp' m1' m2' hw',
  sizeof_T < Word.modulus ->
  wf hw -> HimemBlock.inv hw m1 -> HimemBlock.inv hw m2 ->
  HimemBlock.handle m1 <> HimemBlock.handle m2 ->
  Z.of_nat (length temp) = sizeof_T ->
  for_up n i (copy_element sizeof_T) (temp, m1, m2, hw) = (temp', m1', m2', hw') ->
  wf hw' /\ HimemBlock.inv hw' m1' /\ HimemBlock.inv hw' m2' /\ later hw hw' /\
  same_block m1 m1' /\ same_block m2 m2'.
Proof.
  induction n as [|n IH];
    intros i temp m1 m2 hw temp' m1' m2' hw' Hsz Hwf Hinv1 Hinv2 Hne Htemp Hrun.
  - simpl in Hrun. injection Hrun as <- <- <- <-.
    split_and!; try done. apply later_refl.
  - cbn [for_up] in Hrun.
    destruct (copy_element sizeof_T i (temp, m1, m2, hw))
      as [[[temp1 m1a] m2a] hwa] eqn:Hstep.
    destruct (copy_element_sizes _ _ _ _ _ _ _ _ _ Hsz Hwf Hinv1 Hinv2 Hne Htemp Hstep)
      as (Hwfa & Hinv1a & Hinv2a & Hla & [Hh1a Hs1a] & [Hh2a Hs2a] & Htemp1).
    apply IH in Hrun; try done; try congruence.
    destruct Hrun as (Hwf' & Hinv1' & Hinv2' & Hl' & [Hh1' Hs1'] & [Hh2' Hs2']).
    split_and!; try done.
    + by apply (later_trans _ hwa).
    + split; congruence.
    + split; congruence.
Qed.

Lemma reallocate_sizes nc v hw ok v' hw' :
  wf hw -> inv sizeof_T hw v -> allocating hw ->
  element_capacity v < nc -> fits sizeof_T nc ->
  reallocate sizeof_T nc v hw = (ok, v', hw') ->
  ok = true /\ wf hw' /\ inv sizeof_T hw' v' /\ later hw hw' /\
  element_count v' = element_count v /\
  element_capacity v' = capacity_for sizeof_T nc /\
  HimemBlock.size (memory v') =
    HimemBlock.round_up (calculate_size_bytes sizeof_T (Z.max nc min_elements)).
Proof.
  intros Hwf Hvinv Hgr Hnc Hfits Hrun.
  pose proof Hvinv as (Hinv & Hcount & Hcap & Hnull & Hmincap).
  destruct (fits_bounds nc ltac:(lia) Hfits) as (Hbytes & Hround & Hcapfor & Hmin).
  assert (Hsz : sizeof_T < Word.modulus).
  { unfold fits, min_elements in Hfits. rewrite blksz_eq in Hfits. nia. }
  unfold reallocate in Hrun.
  assert (E : (nc <=? element_capacity v) = false) by (apply Z.leb_gt; lia).
  rewrite E in Hrun. clear E.
  set (bytes := calculate_size_bytes sizeof_T (Z.max nc min_elements)) in *.
  destruct (HimemBlock.allocate bytes HimemBlock.init hw) as [[ok1 m2] hw1] eqn:Halloc.
  destruct (allocate_spec _ _ _ _ _ _ Hwf (init_inv _ Hwf) Halloc)
    as (Hwf1 & Hinv2 & Hrn1 & Hl1 & _ & Hsize2 & Hok & _ & Hmust & _).
  rewrite (Hmust Hgr eq_refl) in *. simpl in Hrun.
  destruct (Hok eq_refl) as (_ & Hh2 & Hfresh & Hrg1 & Hfr1 & _).
  specialize (Hsize2 eq_refl).
  assert (Hne : HimemBlock.handle (memory v) <> HimemBlock.handle m2).
  { intros Heq. destruct Hinv as (_ & _ & Hreg & _).
    destruct Hreg as (rg & Hrg & _); [congruence|]. congruence. }
  assert (Hinv1 : HimemBlock.inv hw1 (memory v)) by (by apply (inv_frame _ _ _ _ Hinv Hfr1)).
  match type of Hrun with
  | context [if 0 <? ?c then ?a else ?b] =>
      destruct (if 0 <? c then a else b) as [[[temp' m1'] m2'] hw2] eqn:Hcopy
  end.
  assert (Hphase : wf hw2 /\ HimemBlock.inv hw2 m1' /\ HimemBlock.inv hw2 m2' /\
                   later hw1 hw2 /\ same_block (memory v) m1' /\ same_block m2 m2').
  { destruct (0 <? element_count v).
    - apply copy_elements_sizes in Hcopy; try done. apply uninitialized_length.
    - injection Hcopy as <- <- <- <-. split_and!; try done. apply later_refl. }
  clear Hcopy.
  destruct Hphase as (Hwf2 & Hinv1' & Hinv2' & Hl2 & [Hh1' Hs1'] & [Hh2' Hs2']).
  unfold HimemBlock.move_assign in Hrun.
  destruct (HimemBlock.free m1' hw2) as [m1'' hw3] eqn:Hfree.
  destruct (free_spec _ _ _ _ Hwf2 Hinv1' Hfree)
    as (Hwf3 & _ & _ & Hfr3 & _ & Hor3 & _).
  rewrite free_unallocated in Hrun by done.
  injection Hrun as <- <- <-.
  assert (Hinv3 : HimemBlock.inv hw3 m2').
  { apply (inv_frame _ _ _ _ Hinv2' Hfr3). congruence. }
  assert (Hsize : HimemBlock.size m2' = HimemBlock.round_up bytes) by congruence.
  assert (Hcf : HimemBlock.round_up bytes / sizeof_T = capacity_for sizeof_T nc)
    by reflexivity.
  split_and!; try done; simpl.
  - unfold inv; simpl. unfold HimemBlock.get_size. rewrite Hsize, Hcf.
    split_and!; try done; try lia; try congruence.
  - apply (later_trans _ hw1); [done|]. apply (later_trans _ hw2); [done|].
    by apply later_same.
  - unfold HimemBlock.get_size. by rewrite Hsize.
Qed.

Lemma grow_if_full_sizes v hw ok v' hw' :
  wf hw -> inv sizeof_T hw v -> allocating hw -> growth_fits sizeof_T v ->
  grow_if_full sizeof_T v hw = (ok, v', hw') ->
  ok = true /\ wf hw' /\ inv sizeof_T hw' v' /\ later hw hw' /\
  element_count v' = element_count v /\
  element_count v < element_capacity v' /\
  element_capacity v' =
    (if element_capacity v <=? element_count v
     then capacity_for sizeof_T (growth_request v) else element_capacity v) /\
  HimemBlock.size (memory v') =
    (if element_capacity v <=? element_count v
     then HimemBlock.round_up
            (calculate_size_bytes sizeof_T (Z.max (growth_request v) min_elements))
     else HimemBlock.size (memory v)).
Proof.
  intros Hwf Hvinv Hgr Hfits Hrun. unfold grow_if_full in Hrun.
  pose proof Hvinv as (_ & Hcount & _).
  destruct (element_capacity v <=? element_count v) eqn:Hfull.
  - apply Z.leb_le in Hfull.
    destruct (growth_request_small v ltac:(lia) (Hfits Hfull)) as (Hreq & Hlt & Hfit).
    fold (growth_request v) in Hrun.
    destruct (reallocate_sizes _ _ _ _ _ _ Hwf Hvinv Hgr Hlt Hfit Hrun)
      as (-> & Hwf' & Hvinv' & Hl' & Hc' & Hcap' & Hsize').
    split_and!; try done.
    rewrite Hcap'.
    assert (Hnn : 0 <= growth_request v) by lia.
    destruct (fits_bounds _ Hnn Hfit) as (_ & _ & Hge & _). lia.
  - apply Z.leb_gt in Hfull. injection Hrun as <- <- <-.
    split_and!; try done. apply later_refl.
Qed.

Lemma push_back_sizes value v hw v' hw' :
  wf hw -> inv sizeof_T hw v -> allocating hw -> growth_fits sizeof_T v ->
  Z.of_nat (length value) = sizeof_T ->
  push_back sizeof_T value v hw = (v', hw') ->
  wf hw' /\ inv sizeof_T hw' v' /\ later hw hw' /\
  element_count v' = element_count v + 1 /\
  element_capacity v' =
    (if element_capacity v <=? element_count v
     then capacity_for sizeof_T (growth_request v) else element_capacity v) /\
  HimemBlock.size (memory v') =
    (if element_capacity v <=? element_count v
     then HimemBlock.round_up
            (calculate_size_bytes sizeof_T (Z.max (growth_request v) min_elements))
     else HimemBlock.size (memory v)).
Proof.
  intros Hwf Hvinv Hgr Hfits Hval Hrun. unfold push_back in Hrun.
  destruct (grow_if_full sizeof_T v hw) as [[ok v1] hw1] eqn:Hgrow.
  destruct (grow_if_full_sizes _ _ _ _ _ Hwf Hvinv Hgr Hfits Hgrow)
    as (-> & Hwf1 & Hvinv1 & Hl1 & Hc1 & Hroom & Hcap1 & Hsize1).
  simpl in Hrun.
  pose proof Hvinv1 as (Hinv1 & Hcount1 & Hcapeq1 & Hnull1 & Hmincap1).
  destruct (inv_slots _ _ Hvinv1) as (Hslots1 & _ & Hlive1).
  destruct (HimemBlock.write value (Word.mul (element_count v1) sizeof_T) sizeof_T
              (memory v1) hw1) as [[n m'] hw2] eqn:Hwrite.
  assert (Hoff : 0 <= Word.mul (element_count v1) sizeof_T < Word.modulus)
    by apply wrap_range.
  assert (Hrange : element_count v1 + 1 < Word.modulus).
  { destruct Hinv1 as (Hsz & _). nia. }
  assert (Hlen : 0 <= sizeof_T < Word.modulus).
  { destruct Hinv1 as (Hsz & _). nia. }
  assert (Hsrc : sizeof_T <= Z.of_nat (length value)) by lia.
  destruct (write_spec _ _ _ _ _ _ _ _ Hwf1 Hinv1 Hoff Hlen Hsrc Hwrite)
    as (Hwf2 & Hinv2 & _ & Hh2 & Hs2 & Hl2 & _).
  injection Hrun as <- <-.
  rewrite (add_small (element_count v1) 1) by lia.
  split_and!; try done; simpl.
  - unfold inv; simpl. rewrite Hs2, Hh2. split_and!; try done; lia.
  - by apply (later_trans _ hw1).
  - lia.
  - congruence.
Qed.

(** *** Repeated push_back *)

Lemma fits_mono a b : a <= b -> fits sizeof_T b -> fits sizeof_T a.
Proof. unfold fits, min_elements. intros Hab Hb. nia. Qed.

Lemma capacity_for_pow2 (e j : nat) :
  sizeof_T = 2 ^ Z.of_nat e ->
  fits sizeof_T (min_elements * 2 ^ Z.of_nat j) ->
  exists k : nat,
    capacity_for sizeof_T (min_elements * 2 ^ Z.of_nat j) = min_elements * 2 ^ Z.of_nat k.
Proof.
  intros Hs Hfit.
  set (x := min_elements * 2 ^ Z.of_nat j) in *.
  assert (Hpj : 0 < 2 ^ Z.of_nat j) by (apply Z.pow_pos_nonneg; lia).
  assert (Hx : min_elements <= x) by (unfold x, min_elements; lia).
  assert (Hx0 : 0 <= x) by (unfold min_elements in Hx; lia).
  destruct (fits_bounds x Hx0 Hfit) as (Hbytes & _).
  unfold capacity_for. rewrite Hbytes.
  replace (Z.max x min_elements) with x in * by lia.
  assert (Hn : x * sizeof_T = 2 ^ (4 + Z.of_nat j + Z.of_nat e)).
  { unfold x, min_elements. rewrite Hs, !Z.pow_add_r by lia. reflexivity. }
  assert (Hfit' : x * sizeof_T + ESP_HIMEM_BLKSZ <= Word.modulus).
  { unfold fits in Hfit. by replace (Z.max x min_elements) with x in Hfit by lia. }
  assert (Hxs : 0 <= x * sizeof_T) by nia.
  destruct (round_up_small (x * sizeof_T) Hxs Hfit') as [Hru _].
  rewrite Hru. rewrite blksz_eq.
  destruct (Z.le_gt_cases 15 (4 + Z.of_nat j + Z.of_nat e)) as [Hbig|Hsmall].
  - (* whole blocks already *)
    exists j. fold x.
    assert (Hq : x * sizeof_T = 2 ^ (4 + Z.of_nat j + Z.of_nat e - 15) * 32768).
    { rewrite Hn. change 32768 with (2 ^ 15). rewrite <- Z.pow_add_r by lia.
      f_equal. lia. }
    rewrite Hq.
    replace (2 ^ (4 + Z.of_nat j + Z.of_nat e - 15) * 32768 + 32768 - 1)
      with (32767 + 2 ^ (4 + Z.of_nat j + Z.of_nat e - 15) * 32768) by lia.
    rewrite Z.div_add by lia. change (32767 / 32768) with 0. rewrite Z.add_0_l.
    rewrite <- Hq. apply Z.div_mul. lia.
  - (* less than a block: one block is allocated *)
    exists (11 - e)%nat.
    assert (He : Z.of_nat e < 11) by lia.
    assert (Hlt : 0 < x * sizeof_T < 32768).
    { rewrite Hn. split; [apply Z.pow_pos_nonneg; lia|].
      change 32768 with (2 ^ 15). apply Z.pow_lt_mono_r; lia. }
    assert (Hone : (x * sizeof_T + 32768 - 1) / 32768 = 1).
    { symmetry. apply (Z.div_unique _ _ 1 (x * sizeof_T - 1)); lia. }
    rewrite Hone, Hs. change (1 * 32768) with (2 ^ 15).
    rewrite <- Z.pow_sub_r by lia.
    unfold min_elements. change 16 with (2 ^ 4). rewrite <- Z.pow_add_r by lia.
    f_equal. lia.
Qed.

Lemma growth_request_doubling v :
  0 <= element_capacity v -> fits sizeof_T (2 * element_capacity v) ->
  doubling (element_capacity v) ->
  exists j : nat, growth_request v = min_elements * 2 ^ Z.of_nat j.
Proof.
  intros Hcap Hfit Hd.
  destruct (growth_request_small v Hcap Hfit) as (Hreq & _).
  rewrite Hreq. destruct Hd as [->|[k Hk]].
  - exists 0%nat. simpl. reflexivity.
  - assert (Hpk : 0 < 2 ^ Z.of_nat k) by (apply Z.pow_pos_nonneg; lia).
    assert (E : (element_capacity v =? 0) = false).
    { apply Z.eqb_neq. unfold min_elements in Hk. lia. }
    rewrite E. exists (S k). rewrite Hk, Nat2Z.inj_succ, Z.pow_succ_r by lia. lia.
Qed.

Lemma push_all_spec values : forall v hw v' hw',
  wf hw -> inv sizeof_T hw v -> allocating hw ->
  Forall (fun value => Z.of_nat (length value) = sizeof_T) values ->
  fits sizeof_T (2 * (element_count v + Z.of_nat (length values))) ->
  push_all sizeof_T values v hw = (v', hw') ->
  wf hw' /\ inv sizeof_T hw' v' /\ later hw hw' /\
  element_count v' = element_count v + Z.of_nat (length values) /\
  (forall e : nat, sizeof_T = 2 ^ Z.of_nat e ->
     doubling (element_capacity v) -> doubling (element_capacity v')).
Proof.
  induction values as [|value rest IH]; intros v hw v' hw' Hwf Hvinv Hgr Hlen Hfit Hrun.
  - simpl in *. injection Hrun as <- <-.
    split_and!; try done; try apply later_refl. lia.
  - cbn [push_all] in Hrun.
    destruct (push_back sizeof_T value v hw) as [v1 hw1] eqn:Hpush.
    apply Forall_cons in Hlen as [Hval Hlen].
    pose proof Hvinv as (_ & Hcount & _).
    assert (Hgf : growth_fits sizeof_T v).
    { intros Hfull. apply (fits_mono _ _ ) with (2 := Hfit). simpl length. lia. }
    destruct (push_back_sizes _ _ _ _ _ Hwf Hvinv Hgr Hgf Hval Hpush)
      as (Hwf1 & Hvinv1 & Hl1 & Hc1 & Hcap1 & _).
    apply IH in Hrun; try done; try (by apply (allocating_later hw)).
    2:{ rewrite Hc1. simpl length in Hfit.
        replace (element_count v + 1 + Z.of_nat (length rest))
          with (element_count v + Z.of_nat (S (length rest))) by lia. done. }
    destruct Hrun as (Hwf' & Hvinv' & Hgr' & Hc' & Hdbl).
    split_and!; try done.
    + by apply (later_trans _ hw1).
    + rewrite Hc', Hc1. simpl length. lia.
    + intros e He Hd. apply (Hdbl e He). rewrite Hcap1.
      destruct (element_capacity v <=? element_count v) eqn:Hfull; [|done].
      apply Z.leb_le in Hfull. specialize (Hgf Hfull).
      assert (Hcap0 : 0 <= element_capacity v) by lia.
      destruct (growth_request_doubling v Hcap0 Hgf Hd) as [j Hj].
      destruct (growth_request_small v Hcap0 Hgf) as (_ & _ & Hfj).
      rewrite Hj in *. right. by apply (capacity_for_pow2 e j).
Qed.

End Element.

(** *** Comparing what two accesses hand back *)

Lemma same_result_eq r1 r2 : same_result r1 r2 = true <-> r1 = r2.
Proof.
  destruct r1 as [a|], r2 as [b|]; simpl; try done.
  rewrite same_bytes_eq. split; [by intros ->|by intros [= ->]].
Qed.

Lemma same_result_neq r1 r2 : same_result r1 r2 = false -> r1 <> r2.
Proof.
  intros Hf Heq. apply same_result_eq in Heq. congruence.
Qed.

End VectorHIMEMFacts.

(** * The window manager: the properties of the specification *)

Module HimemBlockTheorems.

Import Hw HimemBlock HwFacts WordFacts HimemBlockFacts.

(** C1. On an allocated block, for an offset and a length that lie within
    the region, with every hardware mapping request granted: [write(src, offset,
    length)] followed by [read(dest, offset, length)] both return [length],
    and the [length] bytes read are the [length] bytes written (the rest of
    [dest] is untouched). *)
Theorem write_read_round_trip (m : t) (hw : state) (src dest : list byte)
    (offset length : Z) :
  wf hw -> inv hw m -> handle m <> 0 -> mapping hw ->
  0 <= offset -> 0 <= length -> offset + length <= size m ->
  length <= Z.of_nat (Datatypes.length src) ->
  exists m1 hw1 dest' m2 hw2,
    write src offset length m hw = (length, m1, hw1) /\
    read dest offset length m1 hw1 = (length, dest', m2, hw2) /\
    take (Z.to_nat length) dest' = take (Z.to_nat length) src /\
    drop (Z.to_nat length) dest' = drop (Z.to_nat length) dest.
Proof.
  intros Hwf Hinv Hh Hgr Hoff Hlen Hfit Hsrc.
  pose proof Hinv as (Hsz & _).
  assert (Hoffr : 0 <= offset < Word.modulus) by lia.
  assert (Hlenr : 0 <= length < Word.modulus) by lia.
  destruct (write src offset length m hw) as [[n1 m1] hw1] eqn:Hw.
  destruct (write_spec _ _ _ _ _ _ _ _ Hwf Hinv Hoffr Hlenr Hsrc Hw)
    as (Hwf1 & Hinv1 & _ & Hh1 & Hs1 & Hgr1 & Hn1 & _ & Hcont & Hall1).
  assert (En1 : n1 = length).
  { destruct (decide (offset < size m)) as [Hlt|Hge].
    - rewrite (Hall1 Hgr Hh Hlt). lia.
    - lia. }
  subst n1.
  destruct (read dest offset length m1 hw1) as [[[n2 dest'] m2] hw2] eqn:Hr.
  destruct (read_spec _ _ _ _ _ _ _ _ _ Hwf1 Hinv1 Hoffr Hlenr Hr)
    as (_ & _ & _ & _ & _ & _ & _ & Hn2 & _ & Hdest & Hall2).
  assert (En2 : n2 = length).
  { destruct (decide (offset < size m)) as [Hlt|Hge].
    - rewrite (Hall2 (mapping_later _ _ Hgr1 Hgr)) by congruence. lia.
    - lia. }
  subst n2.
  exists m1, hw1, dest', m2, hw2. split; [done|]. split; [done|].
  set (chunk := buf_read src 0 length) in *.
  assert (Hchunk : Z.of_nat (Datatypes.length chunk) = length).
  { unfold chunk. apply buf_read_length; lia. }
  assert (Hload : Mem.load (contents hw1 m1) offset length = chunk).
  { rewrite Hcont, <- Hchunk. apply MemFacts.load_store_same. }
  rewrite Hload in Hdest. subst dest'.
  assert (Htake : take (Z.to_nat length) src = chunk) by reflexivity.
  rewrite Htake.
  replace (Z.to_nat length) with (Datatypes.length chunk) by lia.
  split.
  - apply buf_write_take.
  - apply buf_write_drop.
Qed.

(** C6. [read] returns 0 and touches nothing when the block is unallocated
    or the offset is at or past the region size; otherwise, with every
    mapping request granted, it transfers exactly min(length, size - offset) bytes,
    all of them from inside the region.  [write] clamps in the same way and
    changes no byte outside the clamped range. *)
Theorem read_write_clamp (m : t) (hw : state) (buf : list byte) (offset length : Z) :
  (handle m = 0 \/ size m <= offset ->
     read buf offset length m hw = (0, buf, m, hw) /\
     write buf offset length m hw = (0, m, hw)) /\
  (wf hw -> inv hw m -> mapping hw -> handle m <> 0 ->
   0 <= offset < size m -> 0 <= length < Word.modulus ->
   let n := Z.min length (size m - offset) in
   offset + n <= size m /\
   (exists m' hw',
      read buf offset length m hw =
        (n, buf_write buf 0 (Mem.load (contents hw m) offset n), m', hw') /\
      contents hw' m' = contents hw m) /\
   (length <= Z.of_nat (Datatypes.length buf) ->
    exists m' hw',
      write buf offset length m hw = (n, m', hw') /\
      contents hw' m' = Mem.store (contents hw m) offset (buf_read buf 0 n))).
Proof.
  split.
  - intros Hrej. split; [by apply read_rejected|by apply write_rejected].
  - intros Hwf Hinv Hgr Hh Hoff Hlen n.
    pose proof Hinv as (Hsz & _).
    assert (Hoffr : 0 <= offset < Word.modulus) by lia.
    split; [lia|]. split.
    + destruct (read buf offset length m hw) as [[[n1 dest'] m1] hw1] eqn:Hr.
      destruct (read_spec _ _ _ _ _ _ _ _ _ Hwf Hinv Hoffr Hlen Hr)
        as (_ & _ & _ & Hh1 & _ & Hrg1 & _ & _ & _ & Hdest & Hall).
      rewrite (Hall Hgr Hh ltac:(lia)) in *. fold n in Hdest. subst dest'.
      exists m1, hw1. split; [done|]. by apply contents_same.
    + intros Hsrc.
      destruct (write buf offset length m hw) as [[n1 m1] hw1] eqn:Hw.
      destruct (write_spec _ _ _ _ _ _ _ _ Hwf Hinv Hoffr Hlen Hsrc Hw)
        as (_ & _ & _ & _ & _ & _ & _ & _ & Hcont & Hall).
      rewrite (Hall Hgr Hh ltac:(lia)) in *. fold n in Hcont.
      exists m1, hw1. done.
Qed.

Lemma inv_mappings hw m :
  wf hw -> inv hw m ->
  (unmapped hw m /\ mappings_of hw (handle m) = []) \/
  (mapped_at hw m (current_mapped_block m) /\
   mappings_of hw (handle m) =
     [(range m, Some (handle m, Word.mul (current_mapped_block m) ESP_HIMEM_BLKSZ))]).
Proof.
  intros Hwf (_ & _ & _ & [Hun|Hmap]).
  - left. split; [done|]. apply mappings_of_nil. apply Hun.
  - right. split; [done|].
    destruct Hmap as (_ & _ & _ & _ & _ & Hlook & Huniq).
    by apply mappings_of_singleton.
Qed.

Lemma inv_at_most_one hw m :
  wf hw -> inv hw m -> (Datatypes.length (mappings_of hw (handle m)) <= 1)%nat.
Proof.
  intros Hwf Hinv.
  destruct (inv_mappings hw m Hwf Hinv) as [[_ ->]|[_ ->]]; simpl; lia.
Qed.

(** C7. In every reachable state of a program, which may hold any number
    of blocks on the one driver, construct, move and destroy them, the
    driver holds at most one mapping of the region of each block, and no
    other block owns that region.  [ensure_block_mapped(index)] does
    nothing when [index] is the mapped block; otherwise the calls it makes
    begin with the unmap of the window that was mapped (if one was), and
    the map request comes after it; and when it reports failure the block
    is unmapped: the mapped index is the sentinel, the pointer is null, and
    the driver holds no mapping of the region. *)
Theorem single_live_mapping (blocks : list t) (hw : state) (i : nat) (m : t) :
  reachable blocks hw -> blocks !! i = Some m ->
  (Datatypes.length (mappings_of hw (handle m)) <= 1)%nat /\
  (handle m <> 0 ->
   forall (j : nat) other, j <> i -> blocks !! j = Some other ->
     handle other <> handle m) /\
  forall block_index ok m' hw',
    Word.in_range block_index ->
    ensure_block_mapped block_index m hw = (ok, m', hw') ->
    (Datatypes.length (mappings_of hw' (handle m')) <= 1)%nat /\
    (block_index = current_mapped_block m -> ok = true /\ m' = m /\ hw' = hw) /\
    (block_index <> current_mapped_block m ->
     exists rest,
       trace hw' = trace hw ++ unmap_calls m ++ rest /\
       Forall (fun c => is_unmap_call c = false) rest /\
       (ok = true -> Exists (fun c => is_map_call c = true) rest) /\
       (mapped_ptr m <> 0 ->
        unmap_calls m =
          [(Unmap (range m) (mapped_ptr m), ESP_OK);
           (FreeMapRange (range m), ESP_OK)])) /\
    (ok = false ->
     current_mapped_block m' = Word.SIZE_MAX /\ mapped_ptr m' = 0 /\
     mappings_of hw' (handle m') = []).
Proof.
  intros Hreach Hi.
  destruct (reachable_inv _ _ Hreach) as (Hwf & Hall & Hap).
  pose proof (Hall i m Hi) as Hinv.
  split; [by apply inv_at_most_one|].
  split.
  { intros Hnz j other Hj Hother Heq.
    by apply (Hap i j m other). }
  intros bi ok m' hw' Hbi Hrun.
  destruct (ensure_block_mapped_spec _ _ _ _ _ _ Hwf Hinv Hbi Hrun)
    as (Hwf' & Hinv' & _ & Hh' & _ & _ & _ & Hfail & _).
  split_and!.
  - by apply inv_at_most_one.
  - intros ->. unfold ensure_block_mapped in Hrun. rewrite Z.eqb_refl in Hrun.
    by injection Hrun as <- <- <-.
  - intros Hne.
    destruct (ensure_block_mapped_trace _ _ _ _ _ _ Hwf Hinv Hne Hrun)
      as (rest & Htr & Hno & Hmap).
    exists rest. split_and!; try done.
    intros Hp. destruct Hinv as (_ & _ & _ & [(Hp0 & _)|Hat]); [done|].
    rewrite (unmap_calls_mapped _ _ _ Hat).
    destruct Hat as (-> & _). done.
  - intros ->. destruct (Hfail eq_refl) as (Hp & _ & Hc & Hno).
    split_and!; try done. by apply mappings_of_nil.
Qed.

(** C9. [unmap()] and [free()] do nothing, and make no driver call, when
    nothing is mapped or allocated; calling either a second time changes
    nothing.  On an allocated block [free()] unmaps first, then releases
    the handle, exactly once and without error, and leaves the size at 0
    and the handle null. *)
Theorem unmap_free_idempotent (m : t) (hw : state) :
  (mapped_ptr m = 0 \/ range m = 0 -> unmap m hw = (m, hw)) /\
  (handle m = 0 -> free m hw = (m, hw)) /\
  (forall m1 hw1, unmap m hw = (m1, hw1) -> unmap m1 hw1 = (m1, hw1)) /\
  (forall m1 hw1, free m hw = (m1, hw1) -> free m1 hw1 = (m1, hw1)) /\
  (wf hw -> inv hw m -> handle m <> 0 ->
   forall m1 hw1, free m hw = (m1, hw1) ->
     calls_since (trace hw) hw1 = unmap_calls m ++ [(Free (handle m), ESP_OK)] /\
     Datatypes.length
       (List.filter (is_free_call (handle m)) (calls_since (trace hw) hw1)) = 1%nat /\
     handle m1 = 0 /\ get_size m1 = 0 /\ mapped_ptr m1 = 0 /\
     regions hw1 !! handle m = None /\ mappings_of hw1 (handle m) = []).
Proof.
  split_and!.
  - intros H. unfold unmap.
    destruct H as [-> | ->]; simpl; [done|]. by rewrite andb_false_r.
  - apply free_unallocated.
  - intros m1 hw1 Hrun. unfold unmap in Hrun.
    destruct (negb (mapped_ptr m =? 0) && negb (range m =? 0)) eqn:E.
    + destruct (esp_himem_unmap _ _ _ _) as [e1 hwa].
      destruct (esp_himem_free_map_range _ _) as [e2 hwb].
      injection Hrun as <- <-. reflexivity.
    + injection Hrun as <- <-. unfold unmap. by rewrite E.
  - intros m1 hw1 Hrun. unfold free in Hrun.
    destruct (handle m =? 0) eqn:E; simpl in Hrun.
    + injection Hrun as <- <-. unfold free. by rewrite E.
    + destruct (unmap m hw) as [ma hwa].
      destruct (esp_himem_free _ _) as [e hwb].
      injection Hrun as <- <-. reflexivity.
  - intros Hwf Hinv Hh m1 hw1 Hrun.
    pose proof (free_trace _ _ _ _ Hwf Hinv Hh Hrun) as Htr.
    destruct (free_spec _ _ _ _ Hwf Hinv Hrun)
      as (Hwf1 & Hinv1 & (Hp1 & _ & _ & Hno1) & _ & Hh1 & _ & Hfreed).
    destruct (Hfreed Hh) as [Hs1 Hrg1].
    assert (Hcalls : calls_since (trace hw) hw1
                     = unmap_calls m ++ [(Free (handle m), ESP_OK)]).
    { unfold calls_since. rewrite Htr. by rewrite drop_app_length. }
    split_and!; try done.
    + assert (Hnone : List.filter (is_free_call (handle m)) (unmap_calls m) = []).
      { unfold unmap_calls. destruct (negb _ && negb _); reflexivity. }
      rewrite Hcalls, List.filter_app, Hnone.
      cbn [List.filter is_free_call fst app]. by rewrite Z.eqb_refl.
    + rewrite Hrg1. apply lookup_delete_eq.
    + apply mappings_of_nil. intros r o Hr.
      destruct Hwf1 as (_ & _ & Hlive & _). apply Hlive in Hr as [rg Hrg].
      rewrite Hrg1, lookup_delete_eq in Hrg. done.
Qed.

(** C10. When [allocate(requested)] on an unallocated block is denied by
    the hardware, the block still holds no handle and every later [read]
    and [write] returns 0 and changes nothing, but [get_size()] reports
    [requested] rounded up to a multiple of the block size: the size field
    was set before the driver was called and is not reset. *)
Theorem failed_allocate_keeps_size (requested : Z) (m : t) (hw : state) :
  handle m = 0 -> denying hw ->
  exists m' hw',
    allocate requested m hw = (false, m', hw') /\
    handle m' = 0 /\
    get_size m' = round_up requested /\
    round_up requested mod ESP_HIMEM_BLKSZ = 0 /\
    (0 <= requested -> requested + ESP_HIMEM_BLKSZ <= Word.modulus ->
     requested <= get_size m' < requested + ESP_HIMEM_BLKSZ) /\
    (forall dest offset length,
       read dest offset length m' hw' = (0, dest, m', hw')) /\
    (forall src offset length,
       write src offset length m' hw' = (0, m', hw')).
Proof.
  intros Hh [rest Hden]. unfold allocate. rewrite Hh. simpl.
  fold (round_up requested).
  unfold esp_himem_alloc. rewrite round_up_mod. simpl.
  unfold grant. rewrite Hden. simpl.
  eexists _, _. split; [reflexivity|]. simpl.
  split; [done|]. split; [done|]. split; [done|].
  split; [intros H0 Hfit; apply (round_up_small requested H0 Hfit)|].
  split.
  - intros dest offset length. apply read_rejected. by left.
  - intros src offset length. apply write_rejected. by left.
Qed.

(** *** The theorems at concrete states *)

Lemma in_range_small z : 0 <= z < 2 ^ 32 -> Word.in_range z.
Proof. unfold Word.in_range. by rewrite modulus_eq. Qed.

Lemma allocated_reachable :
  reachable [fst Examples.allocated] (snd Examples.allocated).
Proof.
  apply (reach_step [init] (Hw.empty Hw.always) 0 init (OpAllocate 40000)).
  - apply (reach_construct [] _), reach_init.
  - reflexivity.
  - apply in_range_small. lia.
  - exact (surjective_pairing Examples.allocated).
Qed.

Lemma written_reachable :
  reachable [fst Examples.written] (snd Examples.written).
Proof.
  apply (reach_step [fst Examples.allocated] (snd Examples.allocated) 0
                    (fst Examples.allocated) (OpWrite [x01; x02; x03; x04] 32766 4)).
  - apply allocated_reachable.
  - reflexivity.
  - split_and!; try (apply in_range_small; lia). simpl. lia.
  - exact (surjective_pairing Examples.written).
Qed.

Lemma second_written_reachable :
  reachable [fst Examples.written; fst Examples.second_written]
            (snd Examples.second_written).
Proof.
  apply (reach_step [fst Examples.written; fst Examples.second_allocated]
                    (snd Examples.second_allocated) 1
                    (fst Examples.second_allocated)
                    (OpWrite [x05; x06; x07] 32767 3)).
  - apply (reach_step [fst Examples.written; init] (snd Examples.written) 1 init
                      (OpAllocate 40000)).
    + apply (reach_construct [fst Examples.written] _), written_reachable.
    + reflexivity.
    + apply in_range_small. lia.
    + exact (surjective_pairing Examples.second_allocated).
  - reflexivity.
  - split_and!; try (apply in_range_small; lia). simpl. lia.
  - exact (surjective_pairing Examples.second_written).
Qed.

(** The block of the array [Examples.grown], step by step: the first
    [push_back] builds a block, allocates it and moves it into the block
    of the array, the moved-from block is destroyed, and three writes
    follow; [reserve] does the same once more, with the three elements
    read from the old block and written to the new one before the move. *)
Ltac op_is_typed :=
  simpl; repeat split; try (apply in_range_small; lia); try (simpl; lia).

Ltac run_on H i o :=
  lazymatch type of H with
  | reachable ?bs ?hw =>
      let r := eval vm_compute in (bs !! i) in
      lazymatch r with
      | Some ?m =>
          let res := eval vm_compute in (run o m hw) in
          lazymatch res with
          | (?m', ?hw') =>
              let bs' := eval vm_compute in (<[i := m']> bs) in
              let H' := fresh "H" in
              assert (H' : reachable bs' hw')
                by (refine (reach_step bs hw i m o m' hw' H _ _ _);
                    [reflexivity | op_is_typed | vm_compute; reflexivity]);
              clear H; rename H' into H
          end
      end
  end.

Ltac move_on H i j :=
  lazymatch type of H with
  | reachable ?bs ?hw =>
      let ri := eval vm_compute in (bs !! i) in
      let rj := eval vm_compute in (bs !! j) in
      lazymatch ri with
      | Some ?m =>
          lazymatch rj with
          | Some ?other =>
              let res := eval vm_compute in (move_assign m other hw) in
              lazymatch res with
              | (?m', ?other', ?hw') =>
                  let bs' := eval vm_compute in (<[j := other']> (<[i := m']> bs)) in
                  let H' := fresh "H" in
                  assert (H' : reachable bs' hw')
                    by (refine (reach_move_assign bs hw i j m other m' other' hw' H _ _ _ _);
                        [lia | reflexivity | reflexivity | vm_compute; reflexivity]);
                  clear H; rename H' into H
              end
          end
      end
  end.

Ltac construct_on H :=
  lazymatch type of H with
  | reachable ?bs ?hw =>
      let bs' := eval vm_compute in (bs ++ [init]) in
      let H' := fresh "H" in
      assert (H' : reachable bs' hw) by exact (reach_construct bs hw H);
      clear H; rename H' into H
  end.

Lemma grown_block_reachable :
  reachable [VectorHIMEM.memory (fst Examples.grown); init; init] (snd Examples.grown).
Proof.
  pose proof (reach_init Hw.always) as H.
  construct_on H.
  construct_on H.
  run_on H 1%nat (OpAllocate 16).
  move_on H 0%nat 1%nat.
  run_on H 1%nat OpFree.
  run_on H 0%nat (OpWrite [x01] 0 1).
  run_on H 0%nat (OpWrite [x02] 1 1).
  run_on H 0%nat (OpWrite [x03] 2 1).
  construct_on H.
  run_on H 2%nat (OpAllocate 40000).
  run_on H 0%nat (OpRead [x00] 0 1).
  run_on H 2%nat (OpWrite [x01] 0 1).
  run_on H 0%nat (OpRead [x01] 1 1).
  run_on H 2%nat (OpWrite [x02] 1 1).
  run_on H 0%nat (OpRead [x02] 2 1).
  run_on H 2%nat (OpWrite [x03] 2 1).
  move_on H 0%nat 2%nat.
  run_on H 2%nat OpFree.
  assert (Em : VectorHIMEM.memory (fst Examples.grown) = _ /\ snd Examples.grown = _)
    by (split; vm_compute; reflexivity).
  destruct Em as [-> ->]. exact H.
Qed.

Lemma allocated_good :
  wf (snd Examples.allocated) /\ inv (snd Examples.allocated) (fst Examples.allocated).
Proof. exact (reachable_block_inv _ _ 0 _ allocated_reachable eq_refl). Qed.

Lemma written_good :
  wf (snd Examples.written) /\ inv (snd Examples.written) (fst Examples.written).
Proof. exact (reachable_block_inv _ _ 0 _ written_reachable eq_refl). Qed.

Lemma allocated_mapping : mapping (snd Examples.allocated).
Proof. split; vm_compute; constructor. Qed.

Lemma write_read_round_trip_at_boundary :
  exists m1 hw1 dest' m2 hw2,
    write [x01; x02; x03; x04] 32766 4 (fst Examples.allocated) (snd Examples.allocated)
      = (4, m1, hw1) /\
    read [x00; x00; x00; x00; x00] 32766 4 m1 hw1 = (4, dest', m2, hw2) /\
    take (Z.to_nat 4) dest' = take (Z.to_nat 4) [x01; x02; x03; x04] /\
    drop (Z.to_nat 4) dest' = drop (Z.to_nat 4) [x00; x00; x00; x00; x00].
Proof.
  apply write_read_round_trip.
  - apply allocated_good.
  - apply allocated_good.
  - vm_compute. discriminate.
  - apply allocated_mapping.
  - lia.
  - lia.
  - vm_compute. discriminate.
  - vm_compute. discriminate.
Defined.

Lemma read_write_clamp_at_region_end :
  let m := fst Examples.allocated in
  let hw := snd Examples.allocated in
  let buf := [x01; x02; x03; x04] in
  let n := Z.min 4 (size m - 65534) in
  65534 + n <= size m /\
  (exists m' hw',
     read buf 65534 4 m hw =
       (n, buf_write buf 0 (Mem.load (contents hw m) 65534 n), m', hw') /\
     contents hw' m' = contents hw m) /\
  (4 <= Z.of_nat (Datatypes.length buf) ->
   exists m' hw',
     write buf 65534 4 m hw = (n, m', hw') /\
     contents hw' m' = Mem.store (contents hw m) 65534 (buf_read buf 0 n)).
Proof.
  apply (proj2 (read_write_clamp (fst Examples.allocated) (snd Examples.allocated)
                  [x01; x02; x03; x04] 65534 4)).
  - apply allocated_good.
  - apply allocated_good.
  - apply allocated_mapping.
  - vm_compute. discriminate.
  - split; vm_compute; [discriminate|reflexivity].
  - split; vm_compute; [discriminate|reflexivity].
Defined.

Lemma single_live_mapping_of_coexisting_and_grown_blocks :
  (let a := fst Examples.written in
   let b := fst Examples.second_written in
   let hw := snd Examples.second_written in
   (Datatypes.length (mappings_of hw (handle a)) <= 1)%nat /\
   (Datatypes.length (mappings_of hw (handle b)) <= 1)%nat /\
   handle b <> handle a /\
   mapped_ptr a <> 0 /\ mapped_ptr b <> 0) /\
  (let m := VectorHIMEM.memory (fst Examples.grown) in
   let hw := snd Examples.grown in
   (Datatypes.length (mappings_of hw (handle m)) <= 1)%nat /\
   handle m = 2 /\ mapped_ptr m <> 0).
Proof.
  split; [split; [|split; [|split]]|split].
  - apply (proj1 (single_live_mapping _ _ 0 _ second_written_reachable eq_refl)).
  - apply (proj1 (single_live_mapping _ _ 1 _ second_written_reachable eq_refl)).
  - apply (proj1 (proj2 (single_live_mapping _ _ 0 _ second_written_reachable eq_refl))
             ltac:(vm_compute; discriminate) 1%nat); [lia|reflexivity].
  - split; vm_compute; discriminate.
  - apply (proj1 (single_live_mapping _ _ 0 _ grown_block_reachable eq_refl)).
  - split; vm_compute; [reflexivity|discriminate].
Defined.

Lemma free_after_write_is_idempotent :
  let m := fst Examples.written in
  let hw := snd Examples.written in
  let m1 := fst (free m hw) in
  let hw1 := snd (free m hw) in
  calls_since (trace hw) hw1 = unmap_calls m ++ [(Free (handle m), ESP_OK)] /\
  Datatypes.length
    (List.filter (is_free_call (handle m)) (calls_since (trace hw) hw1)) = 1%nat /\
  handle m1 = 0 /\ get_size m1 = 0 /\ mapped_ptr m1 = 0 /\
  regions hw1 !! handle m = None /\ mappings_of hw1 (handle m) = [].
Proof.
  apply (proj2 (proj2 (proj2 (proj2
           (unmap_free_idempotent (fst Examples.written) (snd Examples.written)))))).
  - apply written_good.
  - apply written_good.
  - vm_compute. discriminate.
  - apply surjective_pairing.
Defined.

Lemma failed_allocate_of_100_bytes :
  exists m' hw',
    allocate 100 init Examples.denying_hardware = (false, m', hw') /\
    handle m' = 0 /\
    get_size m' = round_up 100 /\
    round_up 100 mod ESP_HIMEM_BLKSZ = 0 /\
    (0 <= 100 -> 100 + ESP_HIMEM_BLKSZ <= Word.modulus ->
     100 <= get_size m' < 100 + ESP_HIMEM_BLKSZ) /\
    (forall dest offset length,
       read dest offset length m' hw' = (0, dest, m', hw')) /\
    (forall src offset length,
       write src offset length m' hw' = (0, m', hw')).
Proof.
  apply failed_allocate_keeps_size.
  - reflexivity.
  - exists []. reflexivity.
Defined.

End HimemBlockTheorems.

(** * The growable array: the properties of the specification *)

Module VectorHIMEMTheorems.

Import Hw HwFacts WordFacts HimemBlockFacts VectorHIMEM VectorHIMEMFacts.

Section Element.

Variable sizeof_T : Z.
Hypothesis sizeof_pos : 0 < sizeof_T.

Local Abbreviation element := (element sizeof_T).

(** C3 (amended). [insert(pos, v)] does nothing when [pos > size()].
    Otherwise, with the growth it may need and every window-mapping request
    granted, and the doubled capacity representable, the size goes up by
    one, index [pos] reads back as [v], every element that
    was at an index [i >= pos] is read at [i + 1], and the elements below
    [pos] are read as before. *)
Theorem insert_shifts_up (pos : Z) (value : list byte) (v : t) (hw : state) :
  (size v < pos -> insert sizeof_T pos value v hw = (v, hw)) /\
  (wf hw -> inv sizeof_T hw v -> granting hw -> growth_fits sizeof_T v ->
   Z.of_nat (length value) = sizeof_T -> 0 <= pos <= size v ->
   exists v' hw',
     insert sizeof_T pos value v hw = (v', hw') /\
     size v' = size v + 1 /\
     forall temp, Z.of_nat (length temp) = sizeof_T ->
       read_at sizeof_T temp pos v' hw' = Ref value /\
       (forall i, pos <= i < size v ->
          read_at sizeof_T temp (i + 1) v' hw' = read_at sizeof_T temp i v hw) /\
       (forall i, 0 <= i < pos ->
          read_at sizeof_T temp i v' hw' = read_at sizeof_T temp i v hw)).
Proof.
  unfold size. split; [apply insert_noop|].
  intros Hwf Hvinv Hgr Hfits Hval Hpos.
  destruct (insert sizeof_T pos value v hw) as [v' hw'] eqn:Hrun.
  destruct (insert_spec sizeof_T sizeof_pos _ _ _ _ _ _ Hwf Hvinv Hgr Hfits Hval Hpos Hrun)
    as (Hwf' & Hvinv' & Hl' & Hc' & Hnew & Hlow & Hhigh).
  exists v', hw'. split; [done|]. split; [done|].
  intros temp Htemp.
  pose proof Hvinv as (_ & Hcount & _).
  pose proof Hvinv' as (_ & Hcount' & _).
  destruct Hgr as [_ Hmp].
  assert (Hmp' : mapping hw') by (by apply (mapping_later hw)).
  split_and!.
  - rewrite (read_at_spec sizeof_T sizeof_pos) by (try done; lia). by rewrite Hnew.
  - intros i Hi. rewrite !(read_at_spec sizeof_T sizeof_pos) by (try done; lia). by rewrite Hhigh.
  - intros i Hi. rewrite !(read_at_spec sizeof_T sizeof_pos) by (try done; lia). by rewrite Hlow.
Qed.

(** C4 (amended). [erase(pos)] does nothing when [pos >= size()].
    Otherwise the size goes down by one; and, with every window-mapping
    request granted, every element that was at an index above [pos] is read one slot lower and
    the elements below [pos] are read as before. *)
Theorem erase_shifts_down (pos : Z) (v : t) (hw : state) :
  (size v <= pos -> erase sizeof_T pos v hw = (v, hw)) /\
  (0 <= pos < size v -> size v < Word.modulus ->
   size (fst (erase sizeof_T pos v hw)) = size v - 1) /\
  (wf hw -> inv sizeof_T hw v -> mapping hw -> 0 <= pos < size v ->
   exists v' hw',
     erase sizeof_T pos v hw = (v', hw') /\
     size v' = size v - 1 /\
     forall temp, Z.of_nat (length temp) = sizeof_T ->
       (forall i, pos <= i < size v - 1 ->
          read_at sizeof_T temp i v' hw' = read_at sizeof_T temp (i + 1) v hw) /\
       (forall i, 0 <= i < pos ->
          read_at sizeof_T temp i v' hw' = read_at sizeof_T temp i v hw)).
Proof.
  unfold size. split; [apply erase_noop|]. split.
  - intros Hpos Hrange.
    destruct (erase sizeof_T pos v hw) as [v' hw'] eqn:Hrun.
    by destruct (erase_count sizeof_T _ _ _ _ _ Hpos Hrange Hrun).
  - intros Hwf Hvinv Hgr Hpos.
    destruct (erase sizeof_T pos v hw) as [v' hw'] eqn:Hrun.
    destruct (erase_spec sizeof_T sizeof_pos _ _ _ _ _ Hwf Hvinv Hgr Hpos Hrun)
      as (Hwf' & Hvinv' & Hl' & Hc' & Hcap' & Hlow & Hhigh).
    exists v', hw'. split; [done|]. split; [done|].
    intros temp Htemp.
    pose proof Hvinv as (_ & Hcount & _).
    assert (Hgr' : mapping hw') by (by apply (mapping_later hw)).
    split.
    + intros i Hi. rewrite !(read_at_spec sizeof_T sizeof_pos) by (try done; lia). by rewrite Hhigh.
    + intros i Hi. rewrite !(read_at_spec sizeof_T sizeof_pos) by (try done; lia). by rewrite Hlow.
Qed.

(** C5. When the hardware denies the allocation that growth asks for,
    [push_back], [insert], [resize] and [reserve] leave the array as it was:
    the same block, size and capacity, and no stored byte or mapping has
    changed. *)
Theorem growth_denied_leaves_array (v : t) (hw : state) (value : list byte)
    (pos n : Z) :
  denying hw -> 0 <= capacity v ->
  (capacity v <= size v -> 2 * capacity v < Word.modulus ->
   (exists hw', push_back sizeof_T value v hw = (v, hw') /\ same_memory hw hw') /\
   (pos <= size v ->
    exists hw', insert sizeof_T pos value v hw = (v, hw') /\ same_memory hw hw')) /\
  (capacity v < n ->
   (exists hw', resize sizeof_T n v hw = (v, hw') /\ same_memory hw hw') /\
   (size v < n ->
    exists hw', resize_fill sizeof_T n value v hw = (v, hw') /\ same_memory hw hw') /\
   (exists hw', reserve sizeof_T n v hw = (v, hw') /\ same_memory hw hw')).
Proof.
  unfold size, capacity. intros Hden Hcap. split.
  - intros Hfull Hsmall.
    destruct (grow_if_full sizeof_T v hw) as [[ok v1] hw1] eqn:Hgrow.
    destruct (grow_if_full_denied sizeof_T _ _ _ _ _ Hden Hfull Hcap Hsmall Hgrow)
      as (-> & -> & Hrg & Hrn & Hf & _).
    split.
    + exists hw1. unfold push_back. rewrite Hgrow. simpl. by split.
    + intros Hpos. exists hw1. unfold insert.
      assert (E : (element_count v <? pos) = false) by (apply Z.ltb_ge; lia).
      rewrite E, Hgrow. simpl. by split.
  - intros Hn.
    destruct (reallocate sizeof_T n v hw) as [[ok v1] hw1] eqn:Hre.
    destruct (reallocate_denied sizeof_T _ _ _ _ _ _ Hden Hn Hre)
      as (-> & -> & Hrg & Hrn & Hf & _).
    assert (E : (element_capacity v <? n) = true) by (by apply Z.ltb_lt).
    split_and!.
    + exists hw1. unfold resize. rewrite E, Hre. simpl. by split.
    + intros Hc. exists hw1. unfold resize_fill.
      assert (E' : (element_count v <? n) = true) by (by apply Z.ltb_lt).
      rewrite E', E, Hre. simpl. by split.
    + exists hw1. unfold reserve. rewrite E, Hre. by split.
Qed.

(** C2 (amended). Starting from a default-constructed array, with every
    hardware allocation granted and the byte sizes representable, [push_back]
    of N values leaves [size()] at N and [capacity()] at N or more; the
    capacity is the size of the region, a whole number of blocks, divided
    by [sizeof(T)], and is a power-of-two multiple of [min_elements] when
    [sizeof(T)] is a power of two.  A [push_back] that finds
    [count + 1 > capacity] allocates a region for
    max(capacity == 0 ? min_elements : capacity * 2, count + 1) elements,
    rounded up to whole blocks. *)
Theorem push_back_n_times (values : list (list byte)) (hw : state) :
  wf hw -> allocating hw ->
  Forall (fun value => Z.of_nat (length value) = sizeof_T) values ->
  fits sizeof_T (2 * Z.of_nat (length values)) ->
  (exists v hw',
     push_all sizeof_T values init hw = (v, hw') /\
     size v = Z.of_nat (length values) /\
     Z.of_nat (length values) <= capacity v /\
     capacity v = HimemBlock.get_size (memory v) / sizeof_T /\
     HimemBlock.get_size (memory v) mod ESP_HIMEM_BLKSZ = 0 /\
     (forall e : nat, sizeof_T = 2 ^ Z.of_nat e -> doubling (capacity v))) /\
  (forall value v hw1 v' hw',
     wf hw1 -> inv sizeof_T hw1 v -> allocating hw1 -> growth_fits sizeof_T v ->
     Z.of_nat (length value) = sizeof_T ->
     capacity v < size v + 1 ->
     push_back sizeof_T value v hw1 = (v', hw') ->
     HimemBlock.get_size (memory v') =
       HimemBlock.round_up (spec_growth_target v (size v + 1) * sizeof_T) /\
     capacity v' = HimemBlock.get_size (memory v') / sizeof_T /\
     spec_growth_target v (size v + 1) <= capacity v' /\
     size v' = size v + 1).
Proof.
  intros Hwf Hgr Hlen Hfit. unfold size, capacity, HimemBlock.get_size. split.
  - destruct (push_all sizeof_T values init hw) as [v hw'] eqn:Hrun.
    assert (Hinit : inv sizeof_T hw init).
    { unfold inv, init; simpl. split_and!; try done.
      - by apply init_inv.
      - by left. }
    destruct (push_all_spec sizeof_T sizeof_pos values init hw v hw' Hwf Hinit Hgr Hlen Hfit Hrun)
      as (_ & Hvinv & _ & Hc & Hdbl).
    destruct Hvinv as ((_ & Hmod & _) & Hcount & Hcap & _).
    simpl in Hc. exists v, hw'. split_and!; try done; try lia.
    intros e He. apply (Hdbl e He). by left.
  - intros value v hw1 v' hw' Hwf1 Hvinv Hgr1 Hgf Hval Hfull Hrun.
    destruct (push_back_sizes sizeof_T sizeof_pos _ _ _ _ _ Hwf1 Hvinv Hgr1 Hgf Hval Hrun)
      as (_ & Hvinv' & _ & Hc' & Hcap' & Hsize').
    destruct Hvinv as (_ & Hcount & _ & _ & Hmin).
    destruct Hvinv' as (_ & _ & Hcapeq' & _).
    assert (E : (element_capacity v <=? element_count v) = true) by (apply Z.leb_le; lia).
    rewrite E in *.
    assert (Hcap0 : 0 <= element_capacity v) by lia.
    assert (Hfit2 : fits sizeof_T (2 * element_capacity v)) by (apply Hgf; lia).
    destruct (growth_request_small sizeof_T sizeof_pos v Hcap0 Hfit2) as (Hreq & Hlt & Hfitr).
    assert (Htarget : spec_growth_target v (element_count v + 1) = growth_request v).
    { unfold spec_growth_target. rewrite Hreq. unfold min_elements in *.
      destruct (element_capacity v =? 0) eqn:E0; [|apply Z.eqb_neq in E0]; lia. }
    assert (Hmax : Z.max (growth_request v) min_elements = growth_request v).
    { rewrite Hreq. unfold min_elements in *.
      destruct (element_capacity v =? 0) eqn:E0; [|apply Z.eqb_neq in E0]; lia. }
    assert (Hreq0 : 0 <= growth_request v) by lia.
    destruct (fits_bounds sizeof_T sizeof_pos _ Hreq0 Hfitr) as (Hbytes & _ & Hge & _).
    rewrite Hmax in Hbytes.
    rewrite Htarget. split_and!; try done.
    + rewrite Hsize', Hmax, Hbytes. done.
    + rewrite Hcap'. done.
Qed.


Lemma back_offset_of_empty :
  sizeof_T <= Word.modulus ->
  Word.mul (Word.sub 0 1) sizeof_T = Word.modulus - sizeof_T.
Proof.
  intros Hs. unfold Word.mul, Word.sub, Word.wrap.
  change ((0 - 1) mod Word.modulus) with (Word.modulus - 1).
  replace ((Word.modulus - 1) * sizeof_T)
    with (Word.modulus - sizeof_T + (sizeof_T - 1) * Word.modulus) by lia.
  rewrite Z.mod_add by (rewrite modulus_eq; lia).
  apply Z.mod_small. lia.
Qed.

(** C8 (amended). [front()] and [back()] check nothing and never signal:
    they always hand back the staging value.  On an array that holds no
    block both leave the staging value as an earlier access left it.  On an
    empty array [back()] reads at offset (0 - 1) * sizeof(T), that is
    2^32 - sizeof(T), which is at or past the end of the region whenever
    sizeof(T) + region size <= 2^32: nothing is read and the staging value
    comes back unchanged.  On an empty array that holds a block, with every
    mapping request granted, [front()] hands back the bytes stored in the
    first slot. *)
Theorem front_back_unchecked (temp : list byte) (v : t) (hw : state) :
  (exists temp' v' hw', front sizeof_T temp v hw = (Ref temp', v', hw')) /\
  (exists temp' v' hw', back sizeof_T temp v hw = (Ref temp', v', hw')) /\
  (HimemBlock.handle (memory v) = 0 ->
     front sizeof_T temp v hw = (Ref temp, v, hw) /\
     back sizeof_T temp v hw = (Ref temp, v, hw)) /\
  (empty v = true -> 0 <= HimemBlock.get_size (memory v) ->
   sizeof_T + HimemBlock.get_size (memory v) <= Word.modulus ->
     back sizeof_T temp v hw = (Ref temp, v, hw)) /\
  (empty v = true ->
   wf hw -> inv sizeof_T hw v -> mapping hw -> 0 < capacity v ->
   Z.of_nat (length temp) = sizeof_T ->
     fst (fst (front sizeof_T temp v hw)) = Ref (element hw (memory v) 0)).
Proof.
  split_and!.
  - unfold front. destruct (HimemBlock.read _ _ _ _ _) as [[[n temp'] m'] hw'].
    by eexists _, _, _.
  - unfold back. destruct (HimemBlock.read _ _ _ _ _) as [[[n temp'] m'] hw'].
    by eexists _, _, _.
  - intros Hh. unfold front, back.
    rewrite !read_rejected by (by left). by destruct v.
  - intros Hempty Hsize0 Hsize. unfold empty in Hempty. apply Z.eqb_eq in Hempty.
    unfold back. rewrite Hempty.
    unfold HimemBlock.get_size in Hsize0, Hsize.
    rewrite back_offset_of_empty by lia.
    rewrite read_rejected by (right; lia).
    destruct v; simpl in *. by subst.
  - intros _ Hwf Hvinv Hgr Hcap Htemp. unfold capacity in Hcap.
    pose proof Hvinv as (Hinv & _).
    destruct (inv_slots sizeof_T sizeof_pos _ _ Hvinv) as (Hslots & _ & Hlive).
    unfold front.
    destruct (HimemBlock.read temp 0 sizeof_T (memory v) hw)
      as [[[n temp'] m'] hw'] eqn:Hread.
    change 0 with (Word.mul 0 sizeof_T) in Hread at 1.
    assert (Hfit : (0 + 1) * sizeof_T <= HimemBlock.size (memory v)) by nia.
    destruct (read_element sizeof_T sizeof_pos _ _ _ _ _ _ _ _ (conj Hwf (conj Hinv Hgr))
                (Hlive Hcap) (Z.le_refl 0) Hfit Htemp Hread) as (_ & -> & _).
    reflexivity.
Qed.

End Element.

(** C2 as stated fails: with a three-byte element type, one [push_back]
    on a fresh array grows the capacity to 32768 / 3 = 10922 elements,
    which is no power-of-two multiple of [min_elements]. *)
Lemma capacity_not_power_of_two_multiple :
  let v := fst (push_all 3 [[x01; x02; x03]] init (Hw.empty Hw.always)) in
  size v = 1 /\ capacity v = 10922 /\
  ~ (exists k : nat, capacity v = min_elements * 2 ^ Z.of_nat k).
Proof.
  split; [reflexivity|]. split; [reflexivity|].
  intros [k Hk].
  assert (H : capacity (fst (push_all 3 [[x01; x02; x03]] init (Hw.empty Hw.always))) mod 16 = 0).
  { rewrite Hk. unfold min_elements. rewrite Z.mul_comm. apply Z_mod_mult. }
  vm_compute in H. discriminate.
Qed.

(** C8 as stated fails: after [push_back(42)] and [pop_back()] the array is
    empty, yet [front()] hands back 42 with no signal, and [back()] the value
    the staging variable held before; only [at] signals. *)
Lemma front_on_empty_returns_stale_data :
  let '(v, hw) := push_back 1 [x2a] init (Hw.empty Hw.always) in
  let v := pop_back v in
  empty v = true /\
  fst (fst (front 1 [x00] v hw)) = Ref [x2a] /\
  fst (fst (back 1 [x07] v hw)) = Ref [x07] /\
  fst (fst (at_ 1 [x00] 0 v hw)) = OutOfRange.
Proof. vm_compute. repeat split. Qed.

(** *** Two one-block elements, and a window that is denied *)

Lemma block_of_length b :
  Z.of_nat (length (Examples.block_of b)) = ESP_HIMEM_BLKSZ.
Proof. unfold Examples.block_of. rewrite length_replicate. apply Z2Nat.id. done. Qed.

Lemma two_blocks_fit : fits ESP_HIMEM_BLKSZ (2 * (0 + 2)).
Proof. vm_compute. discriminate. Qed.

Lemma two_blocks_inv :
  wf (snd Examples.two_blocks) /\
  inv ESP_HIMEM_BLKSZ (snd Examples.two_blocks) (fst Examples.two_blocks).
Proof.
  assert (Hpos : 0 < ESP_HIMEM_BLKSZ) by reflexivity.
  assert (Hinit : inv ESP_HIMEM_BLKSZ (Hw.empty Hw.deny_third_range) init).
  { unfold inv, init; simpl. split_and!; try done.
    - apply init_inv, empty_wf.
    - by left. }
  assert (Hlen : Forall (fun value => Z.of_nat (length value) = ESP_HIMEM_BLKSZ)
                   [Examples.block_of x01; Examples.block_of x02]).
  { apply Forall_cons; split; [apply block_of_length|].
    apply Forall_cons; split; [apply block_of_length|apply Forall_nil_2]. }
  destruct (push_all_spec ESP_HIMEM_BLKSZ Hpos
              [Examples.block_of x01; Examples.block_of x02] init
              (Hw.empty Hw.deny_third_range)
              (fst Examples.two_blocks) (snd Examples.two_blocks)
              (empty_wf _) Hinit (Forall_nil_2 _) Hlen two_blocks_fit
              (surjective_pairing _))
    as (Hwf & Hinv & _).
  by split.
Qed.

(** C4 as stated fails.  The array holds two elements of one block each,
    [1 1 ...] and [2 2 ...], and block 1 is the one mapped.  [erase(0)] reads
    element 1 through the mapped window, then has to remap to block 0 to
    store it; the hardware denies the window range, [write] returns 0, and
    [erase] ignores it: the size goes down to 1 but index 0 still holds
    [1 1 ...], the element that was to be removed, and not [2 2 ...]. *)
Lemma erase_with_window_denied :
  let v := fst Examples.two_blocks in
  let hw := snd Examples.two_blocks in
  let v' := fst (erase ESP_HIMEM_BLKSZ 0 v hw) in
  let hw' := snd (erase ESP_HIMEM_BLKSZ 0 v hw) in
  (wf hw /\ inv ESP_HIMEM_BLKSZ hw v) /\
  size v = 2 /\
  element ESP_HIMEM_BLKSZ hw (memory v) 0 = Examples.block_of x01 /\
  element ESP_HIMEM_BLKSZ hw (memory v) 1 = Examples.block_of x02 /\
  read_at ESP_HIMEM_BLKSZ (Examples.block_of x00) 1 v hw = Ref (Examples.block_of x02) /\
  size v' = 1 /\
  element ESP_HIMEM_BLKSZ hw' (memory v') 0 = Examples.block_of x01 /\
  read_at ESP_HIMEM_BLKSZ (Examples.block_of x00) 0 v' hw' = Ref (Examples.block_of x01) /\
  read_at ESP_HIMEM_BLKSZ (Examples.block_of x00) 0 v' hw'
    <> read_at ESP_HIMEM_BLKSZ (Examples.block_of x00) 1 v hw.
Proof.
  assert (H :
    (let v := fst Examples.two_blocks in
     let hw := snd Examples.two_blocks in
     let r := erase ESP_HIMEM_BLKSZ 0 v hw in
     let before := read_at ESP_HIMEM_BLKSZ (Examples.block_of x00) 1 v hw in
     let after := read_at ESP_HIMEM_BLKSZ (Examples.block_of x00) 0 (fst r) (snd r) in
     (size v =? 2)
     && same_bytes (element ESP_HIMEM_BLKSZ hw (memory v) 0) (Examples.block_of x01)
     && same_bytes (element ESP_HIMEM_BLKSZ hw (memory v) 1) (Examples.block_of x02)
     && same_result before (Ref (Examples.block_of x02))
     && (size (fst r) =? 1)
     && same_bytes (element ESP_HIMEM_BLKSZ (snd r) (memory (fst r)) 0)
                   (Examples.block_of x01)
     && same_result after (Ref (Examples.block_of x01))
     && negb (same_result after before)) = true).
  { vm_compute. reflexivity. }
  cbv zeta in H.
  destruct (andb_prop _ _ H) as [H7 Hneq]; clear H.
  destruct (andb_prop _ _ H7) as [H6 Hafter]; clear H7.
  destruct (andb_prop _ _ H6) as [H5 Hkept]; clear H6.
  destruct (andb_prop _ _ H5) as [H4 Hsize']; clear H5.
  destruct (andb_prop _ _ H4) as [H3 Hbefore]; clear H4.
  destruct (andb_prop _ _ H3) as [H2 Hone]; clear H3.
  destruct (andb_prop _ _ H2) as [Hsize Hzero]; clear H2.
  cbv zeta. split; [exact two_blocks_inv|].
  split; [exact (proj1 (Z.eqb_eq _ _) Hsize)|].
  split; [exact (proj1 (same_bytes_eq _ _) Hzero)|].
  split; [exact (proj1 (same_bytes_eq _ _) Hone)|].
  split; [exact (proj1 (same_result_eq _ _) Hbefore)|].
  split; [exact (proj1 (Z.eqb_eq _ _) Hsize')|].
  split; [exact (proj1 (same_bytes_eq _ _) Hkept)|].
  split; [exact (proj1 (same_result_eq _ _) Hafter)|].
  exact (same_result_neq _ _ (proj1 (negb_true_iff _) Hneq)).
Qed.

(** C3 as stated fails.  On the same array [insert(0, [3 3 ...])] needs no
    growth.  Its first shift reads element 1 through the mapped window and
    has to remap to block 2 to store it; the hardware denies the window
    range, [write] returns 0, and [insert] goes on: the size goes up to 3,
    index 0 reads [3 3 ...] and index 1 reads [1 1 ...], but index 2 does not
    hold [2 2 ...], the element that was at index 1. *)
Lemma insert_with_window_denied :
  let v := fst Examples.two_blocks in
  let hw := snd Examples.two_blocks in
  let v' := fst (insert ESP_HIMEM_BLKSZ 0 (Examples.block_of x03) v hw) in
  let hw' := snd (insert ESP_HIMEM_BLKSZ 0 (Examples.block_of x03) v hw) in
  (wf hw /\ inv ESP_HIMEM_BLKSZ hw v) /\
  size v = 2 /\ capacity v = 16 /\
  read_at ESP_HIMEM_BLKSZ (Examples.block_of x00) 1 v hw = Ref (Examples.block_of x02) /\
  size v' = 3 /\ capacity v' = 16 /\
  read_at ESP_HIMEM_BLKSZ (Examples.block_of x00) 0 v' hw' = Ref (Examples.block_of x03) /\
  read_at ESP_HIMEM_BLKSZ (Examples.block_of x00) 1 v' hw' = Ref (Examples.block_of x01) /\
  read_at ESP_HIMEM_BLKSZ (Examples.block_of x00) 2 v' hw'
    <> read_at ESP_HIMEM_BLKSZ (Examples.block_of x00) 1 v hw.
Proof.
  assert (H :
    (let v := fst Examples.two_blocks in
     let hw := snd Examples.two_blocks in
     let r := insert ESP_HIMEM_BLKSZ 0 (Examples.block_of x03) v hw in
     let before := read_at ESP_HIMEM_BLKSZ (Examples.block_of x00) 1 v hw in
     let after i := read_at ESP_HIMEM_BLKSZ (Examples.block_of x00) i (fst r) (snd r) in
     (size v =? 2) && (capacity v =? 16)
     && same_result before (Ref (Examples.block_of x02))
     && (size (fst r) =? 3) && (capacity (fst r) =? 16)
     && same_result (after 0) (Ref (Examples.block_of x03))
     && same_result (after 1) (Ref (Examples.block_of x01))
     && negb (same_result (after 2) before)) = true).
  { vm_compute. reflexivity. }
  cbv zeta beta in H.
  destruct (andb_prop _ _ H) as [H7 Hneq]; clear H.
  destruct (andb_prop _ _ H7) as [H6 Hone]; clear H7.
  destruct (andb_prop _ _ H6) as [H5 Hzero]; clear H6.
  destruct (andb_prop _ _ H5) as [H4 Hcap']; clear H5.
  destruct (andb_prop _ _ H4) as [H3 Hsize']; clear H4.
  destruct (andb_prop _ _ H3) as [H2 Hbefore]; clear H3.
  destruct (andb_prop _ _ H2) as [Hsize Hcap]; clear H2.
  cbv zeta. split; [exact two_blocks_inv|].
  split; [exact (proj1 (Z.eqb_eq _ _) Hsize)|].
  split; [exact (proj1 (Z.eqb_eq _ _) Hcap)|].
  split; [exact (proj1 (same_result_eq _ _) Hbefore)|].
  split; [exact (proj1 (Z.eqb_eq _ _) Hsize')|].
  split; [exact (proj1 (Z.eqb_eq _ _) Hcap')|].
  split; [exact (proj1 (same_result_eq _ _) Hzero)|].
  split; [exact (proj1 (same_result_eq _ _) Hone)|].
  exact (same_result_neq _ _ (proj1 (negb_true_iff _) Hneq)).
Qed.

(** *** The theorems at concrete states *)

Lemma one_byte : 0 < 1.
Proof. reflexivity. Qed.

Lemma empty_granting : granting (Hw.empty Hw.always).
Proof. repeat split; constructor. Qed.

Lemma init_inv_on_empty script : inv 1 (Hw.empty script) init.
Proof.
  unfold inv, init; simpl. split_and!; try done.
  - apply init_inv, empty_wf.
  - by left.
Qed.

Lemma three_good :
  wf (snd Examples.three) /\ inv 1 (snd Examples.three) (fst Examples.three) /\
  granting (snd Examples.three).
Proof.
  destruct (push_all_spec 1 one_byte [[x01]; [x02]; [x03]] init (Hw.empty Hw.always)
              (fst Examples.three) (snd Examples.three))
    as (Hwf & Hinv & Hl & _).
  - apply empty_wf.
  - apply init_inv_on_empty.
  - apply empty_granting.
  - repeat constructor.
  - vm_compute. discriminate.
  - exact (surjective_pairing Examples.three).
  - split_and!; try done. exact (granting_later _ _ Hl empty_granting).
Qed.

Lemma three_growth_fits : growth_fits 1 (fst Examples.three).
Proof. intros H. vm_compute in H. by destruct H. Qed.

Lemma push_back_three_times :
  exists v hw',
    push_all 1 [[x01]; [x02]; [x03]] init (Hw.empty Hw.always) = (v, hw') /\
    size v = 3 /\ 3 <= capacity v /\
    capacity v = HimemBlock.get_size (memory v) / 1 /\
    HimemBlock.get_size (memory v) mod ESP_HIMEM_BLKSZ = 0 /\
    (forall e : nat, 1 = 2 ^ Z.of_nat e -> doubling (capacity v)).
Proof.
  apply (proj1 (push_back_n_times 1 one_byte [[x01]; [x02]; [x03]] (Hw.empty Hw.always)
                  (empty_wf Hw.always) (proj1 empty_granting)
                  ltac:(repeat constructor) ltac:(vm_compute; discriminate))).
Defined.

Lemma insert_in_the_middle_of_three :
  let v := fst Examples.three in
  let hw := snd Examples.three in
  exists v' hw',
    insert 1 1 [x09] v hw = (v', hw') /\
    size v' = size v + 1 /\
    forall temp, Z.of_nat (length temp) = 1 ->
      read_at 1 temp 1 v' hw' = Ref [x09] /\
      (forall i, 1 <= i < size v ->
         read_at 1 temp (i + 1) v' hw' = read_at 1 temp i v hw) /\
      (forall i, 0 <= i < 1 ->
         read_at 1 temp i v' hw' = read_at 1 temp i v hw).
Proof.
  apply (proj2 (insert_shifts_up 1 one_byte 1 [x09]
                  (fst Examples.three) (snd Examples.three))).
  - apply three_good.
  - apply three_good.
  - apply three_good.
  - apply three_growth_fits.
  - reflexivity.
  - split; vm_compute; discriminate.
Defined.

Lemma erase_the_first_of_three :
  let v := fst Examples.three in
  let hw := snd Examples.three in
  exists v' hw',
    erase 1 0 v hw = (v', hw') /\
    size v' = size v - 1 /\
    forall temp, Z.of_nat (length temp) = 1 ->
      (forall i, 0 <= i < size v - 1 ->
         read_at 1 temp i v' hw' = read_at 1 temp (i + 1) v hw) /\
      (forall i, 0 <= i < 0 ->
         read_at 1 temp i v' hw' = read_at 1 temp i v hw).
Proof.
  apply (proj2 (proj2 (erase_shifts_down 1 one_byte 0
                         (fst Examples.three) (snd Examples.three)))).
  - apply three_good.
  - apply three_good.
  - apply three_good.
  - split; vm_compute; [discriminate|reflexivity].
Defined.

Lemma denied_growth_of_full_array :
  let v := fst Examples.full_out_of_regions in
  let hw := snd Examples.full_out_of_regions in
  let value := replicate (Z.to_nat 2048) x11 in
  size v = 16 /\ capacity v = 16 /\
  (exists hw', push_back 2048 value v hw = (v, hw') /\ same_memory hw hw') /\
  (exists hw', insert 2048 3 value v hw = (v, hw') /\ same_memory hw hw') /\
  (exists hw', resize 2048 40 v hw = (v, hw') /\ same_memory hw hw') /\
  (exists hw', resize_fill 2048 40 value v hw = (v, hw') /\ same_memory hw hw') /\
  (exists hw', reserve 2048 40 v hw = (v, hw') /\ same_memory hw hw').
Proof.
  assert (Hsize : size (fst Examples.full_out_of_regions) = 16)
    by (vm_compute; reflexivity).
  assert (Hcap : capacity (fst Examples.full_out_of_regions) = 16)
    by (vm_compute; reflexivity).
  assert (Hden : denying (snd Examples.full_out_of_regions))
    by (exists []; vm_compute; reflexivity).
  destruct (growth_denied_leaves_array 2048 (fst Examples.full_out_of_regions)
              (snd Examples.full_out_of_regions)
              (replicate (Z.to_nat 2048) x11) 3 40 Hden
              ltac:(rewrite Hcap; discriminate))
    as [Hfull Hmore].
  destruct Hfull as [Hpush Hins];
    [rewrite Hcap, Hsize; discriminate|rewrite Hcap; reflexivity|].
  destruct Hmore as (Hres & Hfill & Hrsv); [rewrite Hcap; reflexivity|].
  split; [exact Hsize|]. split; [exact Hcap|].
  split; [exact Hpush|].
  split; [apply Hins; rewrite Hsize; discriminate|].
  split; [exact Hres|].
  split; [apply Hfill; rewrite Hsize; reflexivity|exact Hrsv].
Defined.

Lemma back_on_fresh_array :
  front 1 [x07] init (Hw.empty Hw.always) = (Ref [x07], init, Hw.empty Hw.always) /\
  back 1 [x07] init (Hw.empty Hw.always) = (Ref [x07], init, Hw.empty Hw.always).
Proof.
  apply (proj1 (proj2 (proj2 (front_back_unchecked 1 one_byte [x07] init (Hw.empty Hw.always))))).
  reflexivity.
Defined.


End VectorHIMEMTheorems.

(** * The window manager: further properties *)

Module HimemBlockExtras.

Import Hw HimemBlock HwFacts WordFacts HimemBlockFacts.

(** *** Where a transfer stops *)

Lemma read_loop_boundary fuel :
  forall length bi bo br dest m hw n dest' m' hw',
  0 <= br <= length -> length < Word.modulus -> 0 <= bo < ESP_HIMEM_BLKSZ ->
  read_loop fuel length bi bo br dest m hw = (n, dest', m', hw') ->
  br <= n <= length /\
  (n = br \/ n = length \/ (bo + (n - br)) mod ESP_HIMEM_BLKSZ = 0).
Proof.
  induction fuel as [|fuel IH];
    intros length bi bo br dest m hw n dest' m' hw' Hbr Hlen Hbo Hrun.
  - simpl in Hrun. injection Hrun as <- <- <- <-. split; [lia|by left].
  - simpl in Hrun. destruct (br <? length) eqn:Hlt.
    2:{ injection Hrun as <- <- <- <-. split; [lia|by left]. }
    apply Z.ltb_lt in Hlt.
    destruct (ensure_block_mapped bi m hw) as [[ok m1] hw1].
    destruct ok; simpl in Hrun.
    2:{ injection Hrun as <- <- <- <-. split; [lia|by left]. }
    rewrite (sub_small ESP_HIMEM_BLKSZ bo) in Hrun by arith.
    rewrite (sub_small length br) in Hrun by lia.
    set (to_read := Z.min (ESP_HIMEM_BLKSZ - bo) (length - br)) in *.
    destruct (window_load (mapped_ptr m1) bo to_read hw1) as [chunk hw2].
    rewrite (add_small br to_read) in Hrun by (unfold to_read; lia).
    apply IH in Hrun; [|unfold to_read; lia|lia|arith].
    destruct Hrun as [Hn Hcase]. split; [unfold to_read in *; lia|].
    destruct (Z.le_gt_cases (ESP_HIMEM_BLKSZ - bo) (length - br)) as [Hblock|Hlast].
    + (* the block is used up to its end *)
      assert (Hto : to_read = ESP_HIMEM_BLKSZ - bo) by (unfold to_read; lia).
      destruct Hcase as [->|[->|Hmod]]; [right; right|by right; left|right; right].
      * replace (bo + (br + to_read - br)) with (1 * ESP_HIMEM_BLKSZ) by lia.
        apply Z_mod_mult.
      * replace (bo + (n - br)) with (n - (br + to_read) + 1 * ESP_HIMEM_BLKSZ) by lia.
        rewrite Z_mod_plus_full. by rewrite Z.add_0_l in Hmod.
    + (* the transfer ends inside the block *)
      assert (Hto : to_read = length - br) by (unfold to_read; lia).
      right; left. lia.
Qed.

Lemma write_loop_boundary fuel :
  forall length bi bo bw src m hw n m' hw',
  0 <= bw <= length -> length < Word.modulus -> 0 <= bo < ESP_HIMEM_BLKSZ ->
  write_loop fuel length bi bo bw src m hw = (n, m', hw') ->
  bw <= n <= length /\
  (n = bw \/ n = length \/ (bo + (n - bw)) mod ESP_HIMEM_BLKSZ = 0).
Proof.
  induction fuel as [|fuel IH];
    intros length bi bo bw src m hw n m' hw' Hbw Hlen Hbo Hrun.
  - simpl in Hrun. injection Hrun as <- <- <-. split; [lia|by left].
  - simpl in Hrun. destruct (bw <? length) eqn:Hlt.
    2:{ injection Hrun as <- <- <-. split; [lia|by left]. }
    apply Z.ltb_lt in Hlt.
    destruct (ensure_block_mapped bi m hw) as [[ok m1] hw1].
    destruct ok; simpl in Hrun.
    2:{ injection Hrun as <- <- <-. split; [lia|by left]. }
    rewrite (sub_small ESP_HIMEM_BLKSZ bo) in Hrun by arith.
    rewrite (sub_small length bw) in Hrun by lia.
    set (to_write := Z.min (ESP_HIMEM_BLKSZ - bo) (length - bw)) in *.
    rewrite (add_small bw to_write) in Hrun by (unfold to_write; lia).
    apply IH in Hrun; [|unfold to_write; lia|lia|arith].
    destruct Hrun as [Hn Hcase]. split; [unfold to_write in *; lia|].
    destruct (Z.le_gt_cases (ESP_HIMEM_BLKSZ - bo) (length - bw)) as [Hblock|Hlast].
    + assert (Hto : to_write = ESP_HIMEM_BLKSZ - bo) by (unfold to_write; lia).
      destruct Hcase as [->|[->|Hmod]]; [right; right|by right; left|right; right].
      * replace (bo + (bw + to_write - bw)) with (1 * ESP_HIMEM_BLKSZ) by lia.
        apply Z_mod_mult.
      * replace (bo + (n - bw)) with (n - (bw + to_write) + 1 * ESP_HIMEM_BLKSZ) by lia.
        rewrite Z_mod_plus_full. by rewrite Z.add_0_l in Hmod.
    + assert (Hto : to_write = length - bw) by (unfold to_write; lia).
      right; left. lia.
Qed.

Lemma boundary_of_offset offset n :
  (offset mod ESP_HIMEM_BLKSZ + n) mod ESP_HIMEM_BLKSZ = 0 ->
  (offset + n) mod ESP_HIMEM_BLKSZ = 0.
Proof.
  intros H. rewrite <- H. rewrite Z.add_mod_idemp_l by (rewrite blksz_eq; lia). done.
Qed.

(** X1. Whatever the hardware answers, a transfer is exact up to the count
    it returns: [read] returns some [n <= length], the first [n] bytes of
    the destination are the [n] bytes stored from [offset] on and the rest
    of the destination is untouched, and no stored byte changes; [write]
    returns some [n <= length] and stores exactly the first [n] bytes of
    the source, changing no other byte.  A count short of
    min(length, size - offset) is 0 or ends on a block boundary. *)
Theorem partial_transfer_is_exact (m : t) (hw : state) (buf : list byte)
    (offset length : Z) :
  wf hw -> inv hw m -> Word.in_range offset -> Word.in_range length ->
  (forall n dest' m' hw',
     read buf offset length m hw = (n, dest', m', hw') ->
     0 <= n <= length /\
     dest' = buf_write buf 0 (Mem.load (contents hw m) offset n) /\
     contents hw' m' = contents hw m /\
     (n < Z.min length (size m - offset) ->
      n = 0 \/ (offset + n) mod ESP_HIMEM_BLKSZ = 0)) /\
  (length <= Z.of_nat (Datatypes.length buf) ->
   forall n m' hw',
     write buf offset length m hw = (n, m', hw') ->
     0 <= n <= length /\
     contents hw' m' = Mem.store (contents hw m) offset (buf_read buf 0 n) /\
     (n < Z.min length (size m - offset) ->
      n = 0 \/ (offset + n) mod ESP_HIMEM_BLKSZ = 0)).
Proof.
  intros Hwf Hinv Hoff Hlen. pose proof Hinv as (Hsz & _). split.
  - intros n dest' m' hw' Hrun.
    destruct (read_spec _ _ _ _ _ _ _ _ _ Hwf Hinv Hoff Hlen Hrun)
      as (_ & _ & _ & Hh & _ & Hrg & _ & Hn & _ & Hdest & _).
    split_and!; try done; try lia.
    + by apply contents_same.
    + intros Hshort. unfold read in Hrun.
      destruct ((handle m =? 0) || (size m <=? offset)); [left; congruence|].
      rewrite (sub_small (size m) offset) in Hrun by (unfold Word.in_range in *; lia).
      destruct (Z.min length (size m - offset) =? 0); [left; congruence|].
      apply read_loop_boundary in Hrun;
        [|unfold Word.in_range in *; lia|unfold Word.in_range in *; lia
         |apply Z.mod_pos_bound; by rewrite blksz_eq].
      destruct Hrun as [_ [->|[->|Hmod]]]; [by left|lia|right].
      apply boundary_of_offset. by rewrite Z.sub_0_r in Hmod.
  - intros Hsrc n m' hw' Hrun.
    destruct (write_spec _ _ _ _ _ _ _ _ Hwf Hinv Hoff Hlen Hsrc Hrun)
      as (_ & _ & _ & _ & _ & _ & Hn & _ & Hcont & _).
    split_and!; try done; try lia.
    intros Hshort. unfold write in Hrun.
    destruct ((handle m =? 0) || (size m <=? offset)); [left; congruence|].
    rewrite (sub_small (size m) offset) in Hrun by (unfold Word.in_range in *; lia).
    destruct (Z.min length (size m - offset) =? 0); [left; congruence|].
    apply write_loop_boundary in Hrun;
      [|unfold Word.in_range in *; lia|unfold Word.in_range in *; lia
       |apply Z.mod_pos_bound; by rewrite blksz_eq].
    destruct Hrun as [_ [->|[->|Hmod]]]; [by left|lia|right].
    apply boundary_of_offset. by rewrite Z.sub_0_r in Hmod.
Qed.

(** *** Whole transfers *)

Lemma write_full src offset length hw m :
  wf hw -> inv hw m -> handle m <> 0 -> mapping hw ->
  0 <= offset -> 0 <= length -> offset + length <= size m ->
  length <= Z.of_nat (Datatypes.length src) ->
  exists m' hw',
    write src offset length m hw = (length, m', hw') /\
    wf hw' /\ inv hw' m' /\ mapping hw' /\
    handle m' = handle m /\ size m' = size m /\
    frame (handle m) hw hw' /\ later hw hw' /\
    contents hw' m' = Mem.store (contents hw m) offset (buf_read src 0 length).
Proof.
  intros Hwf Hinv Hh Hgr Hoff Hlen Hfit Hsrc.
  pose proof Hinv as (Hsz & _).
  assert (Hoffr : 0 <= offset < Word.modulus) by lia.
  assert (Hlenr : 0 <= length < Word.modulus) by lia.
  destruct (write src offset length m hw) as [[n m'] hw'] eqn:Hw.
  destruct (write_spec _ _ _ _ _ _ _ _ Hwf Hinv Hoffr Hlenr Hsrc Hw)
    as (Hwf' & Hinv' & Hfr & Hh' & Hs' & Hl & Hn & _ & Hcont & Hall).
  assert (En : n = length).
  { destruct (decide (offset < size m)) as [Hlt|Hge].
    - rewrite (Hall Hgr Hh Hlt). lia.
    - lia. }
  subst n. exists m', hw'. split_and!; try done. by apply (mapping_later hw).
Qed.

Lemma read_full dest offset length hw m :
  wf hw -> inv hw m -> handle m <> 0 -> mapping hw ->
  0 <= offset -> 0 <= length -> offset + length <= size m ->
  exists m' hw',
    read dest offset length m hw =
      (length, buf_write dest 0 (Mem.load (contents hw m) offset length), m', hw') /\
    wf hw' /\ inv hw' m' /\ mapping hw' /\
    handle m' = handle m /\ size m' = size m /\
    regions hw' = regions hw /\ later hw hw'.
Proof.
  intros Hwf Hinv Hh Hgr Hoff Hlen Hfit.
  pose proof Hinv as (Hsz & _).
  assert (Hoffr : 0 <= offset < Word.modulus) by lia.
  assert (Hlenr : 0 <= length < Word.modulus) by lia.
  destruct (read dest offset length m hw) as [[[n dest'] m'] hw'] eqn:Hr.
  destruct (read_spec _ _ _ _ _ _ _ _ _ Hwf Hinv Hoffr Hlenr Hr)
    as (Hwf' & Hinv' & _ & Hh' & Hs' & Hrg & Hl & Hn & _ & Hdest & Hall).
  assert (En : n = length).
  { destruct (decide (offset < size m)) as [Hlt|Hge].
    - rewrite (Hall Hgr Hh Hlt). lia.
    - lia. }
  subst n. exists m', hw'. rewrite Hdest. split_and!; try done.
  by apply (mapping_later hw).
Qed.

(** X2. With every mapping request granted, a [write] to one range of the
    region leaves every disjoint range as it was: a [read] of a disjoint
    range after the write returns the bytes it would have returned before
    it. *)
Theorem write_leaves_disjoint_ranges (m : t) (hw : state) (src dest : list byte)
    (offset length offset' length' : Z) :
  wf hw -> inv hw m -> handle m <> 0 -> mapping hw ->
  0 <= offset -> 0 <= length -> offset + length <= size m ->
  length <= Z.of_nat (Datatypes.length src) ->
  0 <= offset' -> 0 <= length' -> offset' + length' <= size m ->
  offset' + length' <= offset \/ offset + length <= offset' ->
  exists before m0 hw0 m1 hw1 m2 hw2,
    read dest offset' length' m hw = (length', before, m0, hw0) /\
    write src offset length m hw = (length, m1, hw1) /\
    read dest offset' length' m1 hw1 = (length', before, m2, hw2).
Proof.
  intros Hwf Hinv Hh Hgr Hoff Hlen Hfit Hsrc Hoff' Hlen' Hfit' Hdisj.
  destruct (read_full dest offset' length' hw m) as (m0 & hw0 & Hr0 & _); try done.
  destruct (write_full src offset length hw m)
    as (m1 & hw1 & Hw & Hwf1 & Hinv1 & Hgr1 & Hh1 & Hs1 & _ & _ & Hcont); try done.
  destruct (read_full dest offset' length' hw1 m1) as (m2 & hw2 & Hr1 & _);
    try done; try congruence.
  eexists _, m0, hw0, m1, hw1, m2, hw2. split; [exact Hr0|]. split; [exact Hw|].
  rewrite Hr1, Hcont. rewrite MemFacts.load_store_disjoint; [done|].
  rewrite buf_read_length by lia. lia.
Qed.

(** X3. The data lives in the region, not in the window: with every
    mapping request granted, bytes written to an allocated block are read
    back unchanged after [unmap()] has released the window. *)
Theorem data_survives_unmap (m : t) (hw : state) (src dest : list byte)
    (offset length : Z) :
  wf hw -> inv hw m -> handle m <> 0 -> mapping hw ->
  0 <= offset -> 0 <= length -> offset + length <= size m ->
  length <= Z.of_nat (Datatypes.length src) ->
  exists m1 hw1 m2 hw2 dest' m3 hw3,
    write src offset length m hw = (length, m1, hw1) /\
    unmap m1 hw1 = (m2, hw2) /\
    mapped_ptr m2 = 0 /\ mappings_of hw2 (handle m2) = [] /\
    read dest offset length m2 hw2 = (length, dest', m3, hw3) /\
    take (Z.to_nat length) dest' = take (Z.to_nat length) src /\
    drop (Z.to_nat length) dest' = drop (Z.to_nat length) dest.
Proof.
  intros Hwf Hinv Hh Hgr Hoff Hlen Hfit Hsrc.
  destruct (write_full src offset length hw m)
    as (m1 & hw1 & Hw & Hwf1 & Hinv1 & Hgr1 & Hh1 & Hs1 & _ & _ & Hcont); try done.
  destruct (unmap m1 hw1) as [m2 hw2] eqn:Hun.
  destruct (unmap_spec _ _ _ _ Hwf1 Hinv1 Hun)
    as (Hwf2 & Hinv2 & Hunm & _ & Hh2 & Hs2 & Hrg2 & Hor2).
  assert (Hgr2 : mapping hw2).
  { apply (mapping_later hw1); [by apply later_same|done]. }
  destruct (read_full dest offset length hw2 m2) as (m3 & hw3 & Hr & _);
    try done; try congruence.
  eexists m1, hw1, m2, hw2, _, m3, hw3.
  split; [exact Hw|]. split; [done|].
  split; [apply Hunm|]. split; [apply mappings_of_nil, Hunm|].
  split; [exact Hr|].
  assert (Hc2 : contents hw2 m2 = contents hw1 m1) by (by apply contents_same).
  set (chunk := buf_read src 0 length) in *.
  assert (Hchunk : Z.of_nat (Datatypes.length chunk) = length).
  { unfold chunk. apply buf_read_length; lia. }
  assert (Hload : Mem.load (contents hw2 m2) offset length = chunk).
  { rewrite Hc2, Hcont, <- Hchunk. apply MemFacts.load_store_same. }
  rewrite Hload.
  assert (Htake : take (Z.to_nat length) src = chunk) by reflexivity.
  rewrite Htake.
  replace (Z.to_nat length) with (Datatypes.length chunk) by lia.
  split; [apply buf_write_take|apply buf_write_drop].
Qed.

(** X4. A block holds one allocation at a time: [allocate] on a block that
    holds a region is refused and changes nothing; after [free()] the
    region is gone from the driver and, when the hardware grants the
    region, [allocate] is accepted again and the block reports the rounded
    size. *)
Theorem allocate_once_until_freed (m : t) (hw : state) (block_size : Z) :
  wf hw -> inv hw m -> handle m <> 0 ->
  allocate block_size m hw = (false, m, hw) /\
  exists m1 hw1,
    free m hw = (m1, hw1) /\
    regions hw1 !! handle m = None /\
    (allocating hw ->
     exists m2 hw2,
       allocate block_size m1 hw1 = (true, m2, hw2) /\
       handle m2 <> 0 /\ get_size m2 = round_up block_size /\
       wf hw2 /\ inv hw2 m2 /\
       exists rg, regions hw2 !! handle m2 = Some rg /\
                  rg_size rg = round_up block_size).
Proof.
  intros Hwf Hinv Hh. split.
  - unfold allocate. destruct (handle m =? 0) eqn:E; [|done].
    by apply Z.eqb_eq in E.
  - destruct (free m hw) as [m1 hw1] eqn:Hfree.
    destruct (free_spec _ _ _ _ Hwf Hinv Hfree)
      as (Hwf1 & Hinv1 & _ & _ & Hh1 & Hor1 & Hfreed).
    destruct (Hfreed Hh) as [Hs1 Hrg1].
    exists m1, hw1. split; [done|]. split.
    { rewrite Hrg1. apply lookup_delete_eq. }
    intros Hgr.
    destruct (allocate block_size m1 hw1) as [[ok m2] hw2] eqn:Halloc.
    destruct (allocate_spec _ _ _ _ _ _ Hwf1 Hinv1 Halloc)
      as (Hwf2 & Hinv2 & _ & _ & _ & Hsize & Hok & _ & Hmust & _).
    assert (Hgr1 : allocating hw1).
    { apply (allocating_later hw); [by apply later_same|done]. }
    rewrite (Hmust Hgr1 Hh1) in *.
    destruct (Hok eq_refl) as (_ & Hh2 & _ & Hrg2 & _).
    exists m2, hw2. split_and!; try done.
    + by apply Hsize.
    + destruct Hinv2 as (_ & _ & Hreg & _). destruct (Hreg Hh2) as (rg & Hlook & Hrs).
      exists rg. split; [done|]. rewrite Hrs. by apply Hsize.
Qed.

Lemma round_up_wraps n :
  Word.modulus - ESP_HIMEM_BLKSZ < n < Word.modulus -> round_up n = 0.
Proof.
  intros Hn. unfold round_up. rewrite blksz_eq, modulus_eq in *.
  assert (E1 : Word.add n 32768 = n + 32768 - 4294967296).
  { unfold Word.add, Word.wrap. rewrite modulus_eq.
    symmetry. apply (Z.mod_unique_pos _ _ 1). lia. lia. }
  rewrite E1.
  rewrite (sub_small (n + 32768 - 4294967296) 1) by (rewrite ?modulus_eq; lia).
  rewrite Z.div_small by lia. reflexivity.
Qed.

(** X5. The rounding of [allocate] wraps around: for a request above
    [SIZE_MAX - 32767], that is for the 32767 largest values of [size_t],
    the rounded size is 0, so the driver is asked for 0 bytes,
    [get_size()] reports 0 whatever the driver answers, and every later
    [read] and [write] returns 0 and changes nothing. *)
Theorem allocate_request_wraps (requested : Z) (m : t) (hw : state) :
  handle m = 0 ->
  Word.modulus - ESP_HIMEM_BLKSZ < requested < Word.modulus ->
  exists ok m' hw',
    allocate requested m hw = (ok, m', hw') /\
    get_size m' = 0 /\
    calls_since (trace hw) hw' =
      [(Alloc 0, if ok then ESP_OK else ESP_ERR_NO_MEM)] /\
    (forall dest offset length, 0 <= offset ->
       read dest offset length m' hw' = (0, dest, m', hw')) /\
    (forall src offset length, 0 <= offset ->
       write src offset length m' hw' = (0, m', hw')).
Proof.
  intros Hh Hreq. unfold allocate. rewrite Hh. simpl.
  fold (round_up requested). rewrite (round_up_wraps _ Hreq).
  unfold esp_himem_alloc. simpl.
  destruct (grant ReqRegion hw) as [b hw1] eqn:Hg.
  pose proof (grant_fields _ _ _ _ Hg) as (_ & _ & Htr & _).
  destruct b; simpl.
  - eexists true, _, _. split; [reflexivity|]. simpl. split; [done|]. split.
    + unfold calls_since; simpl. rewrite Htr. by rewrite drop_app_length.
    + split.
      * intros dest offset length Ho. apply read_rejected. right. simpl. lia.
      * intros src offset length Ho. apply write_rejected. right. simpl. lia.
  - eexists false, _, _. split; [reflexivity|]. simpl. split; [done|]. split.
    + unfold calls_since; simpl. rewrite Htr. by rewrite drop_app_length.
    + split.
      * intros dest offset length Ho. apply read_rejected. right. simpl. lia.
      * intros src offset length Ho. apply write_rejected. right. simpl. lia.
Qed.

Lemma mapped_at_kept hw hw' m b :
  mapped_at hw m b -> inv hw' m -> mapped_at hw' m b.
Proof.
  intros (Hp & Hr & Hc & _) (_ & _ & _ & [(Hp0 & _)|Hat]).
  - congruence.
  - by rewrite <- Hc.
Qed.

(** X6. Move assignment between two blocks that own different regions: the
    region the target held is released, the target takes over the source's
    region with every stored byte and its window as they were, and the
    source is left as a default-constructed block. *)
Theorem block_move_assign_transfers (m other : t) (hw : state) :
  wf hw -> inv hw m -> inv hw other ->
  (handle m <> 0 -> handle other <> handle m) ->
  exists hw',
    move_assign m other hw = (other, init, hw') /\
    wf hw' /\ inv hw' other /\ inv hw' init /\
    contents hw' other = contents hw other /\
    (forall b, mapped_at hw other b -> mapped_at hw' other b) /\
    (handle m <> 0 ->
     regions hw' = delete (handle m) (regions hw) /\
     mappings_of hw' (handle m) = []).
Proof.
  intros Hwf Hinv Hinvo Hne. unfold move_assign.
  destruct (free m hw) as [m1 hw'] eqn:Hfree. exists hw'. split; [done|].
  destruct (decide (handle m = 0)) as [Hz|Hnz].
  - rewrite (free_unallocated _ _ Hz) in Hfree. injection Hfree as <- <-.
    split_and!; try done. by apply init_inv.
  - destruct (free_spec _ _ _ _ Hwf Hinv Hfree)
      as (Hwf' & _ & _ & Hfr & _ & _ & Hfreed).
    destruct (Hfreed Hnz) as [_ Hrg].
    assert (Hinvo' : inv hw' other).
    { apply (inv_frame _ _ _ _ Hinvo Hfr). by apply Hne. }
    split_and!; try done.
    + by apply init_inv.
    + apply (contents_frame _ _ _ _ Hfr). by apply Hne.
    + intros b Hat. by apply (mapped_at_kept hw).
    + intros _. split; [done|]. apply mappings_of_nil. intros r o Hr.
      destruct Hwf' as (_ & _ & Hlive & _). apply Hlive in Hr as [rg Hrg'].
      rewrite Hrg, lookup_delete_eq in Hrg'. done.
Qed.

(** *** The further properties at concrete states *)

Lemma allocated_inv :
  wf (snd Examples.allocated) /\ inv (snd Examples.allocated) (fst Examples.allocated).
Proof. exact HimemBlockTheorems.allocated_good. Qed.

Lemma allocated_held : handle (fst Examples.allocated) <> 0.
Proof. vm_compute. discriminate. Qed.

Lemma allocated_maps : mapping (snd Examples.allocated).
Proof. split; vm_compute; constructor. Qed.

Lemma partial_transfer_is_exact_at_boundary :
  let m := fst Examples.allocated in
  let hw := snd Examples.allocated in
  let buf := [x01; x02; x03; x04] in
  (forall n dest' m' hw',
     read buf 32766 4 m hw = (n, dest', m', hw') ->
     0 <= n <= 4 /\
     dest' = buf_write buf 0 (Mem.load (contents hw m) 32766 n) /\
     contents hw' m' = contents hw m /\
     (n < Z.min 4 (size m - 32766) ->
      n = 0 \/ (32766 + n) mod ESP_HIMEM_BLKSZ = 0)) /\
  (4 <= Z.of_nat (Datatypes.length buf) ->
   forall n m' hw',
     write buf 32766 4 m hw = (n, m', hw') ->
     0 <= n <= 4 /\
     contents hw' m' = Mem.store (contents hw m) 32766 (buf_read buf 0 n) /\
     (n < Z.min 4 (size m - 32766) ->
      n = 0 \/ (32766 + n) mod ESP_HIMEM_BLKSZ = 0)).
Proof.
  apply (partial_transfer_is_exact (fst Examples.allocated) (snd Examples.allocated)
           [x01; x02; x03; x04] 32766 4).
  - apply allocated_inv.
  - apply allocated_inv.
  - split; vm_compute; [discriminate|reflexivity].
  - split; vm_compute; [discriminate|reflexivity].
Defined.

Lemma write_leaves_disjoint_ranges_at_boundary :
  exists before m0 hw0 m1 hw1 m2 hw2,
    read [x00; x00] 32760 2 (fst Examples.allocated) (snd Examples.allocated)
      = (2, before, m0, hw0) /\
    write [x01; x02; x03; x04] 32766 4 (fst Examples.allocated) (snd Examples.allocated)
      = (4, m1, hw1) /\
    read [x00; x00] 32760 2 m1 hw1 = (2, before, m2, hw2).
Proof.
  apply (write_leaves_disjoint_ranges (fst Examples.allocated) (snd Examples.allocated)
           [x01; x02; x03; x04] [x00; x00] 32766 4 32760 2).
  - apply allocated_inv.
  - apply allocated_inv.
  - apply allocated_held.
  - apply allocated_maps.
  - lia.
  - lia.
  - vm_compute. discriminate.
  - vm_compute. discriminate.
  - lia.
  - lia.
  - vm_compute. discriminate.
  - left. lia.
Defined.

Lemma data_survives_unmap_at_boundary :
  exists m1 hw1 m2 hw2 dest' m3 hw3,
    write [x01; x02; x03; x04] 32766 4 (fst Examples.allocated) (snd Examples.allocated)
      = (4, m1, hw1) /\
    unmap m1 hw1 = (m2, hw2) /\
    mapped_ptr m2 = 0 /\ mappings_of hw2 (handle m2) = [] /\
    read [x00; x00; x00; x00; x00] 32766 4 m2 hw2 = (4, dest', m3, hw3) /\
    take (Z.to_nat 4) dest' = take (Z.to_nat 4) [x01; x02; x03; x04] /\
    drop (Z.to_nat 4) dest' = drop (Z.to_nat 4) [x00; x00; x00; x00; x00].
Proof.
  apply data_survives_unmap.
  - apply allocated_inv.
  - apply allocated_inv.
  - apply allocated_held.
  - apply allocated_maps.
  - lia.
  - lia.
  - vm_compute. discriminate.
  - vm_compute. discriminate.
Defined.

Lemma allocate_once_until_freed_on_allocated :
  let m := fst Examples.allocated in
  let hw := snd Examples.allocated in
  allocate 100 m hw = (false, m, hw) /\
  exists m1 hw1,
    free m hw = (m1, hw1) /\
    regions hw1 !! handle m = None /\
    (allocating hw ->
     exists m2 hw2,
       allocate 100 m1 hw1 = (true, m2, hw2) /\
       handle m2 <> 0 /\ get_size m2 = round_up 100 /\
       wf hw2 /\ inv hw2 m2 /\
       exists rg, regions hw2 !! handle m2 = Some rg /\ rg_size rg = round_up 100).
Proof.
  apply (allocate_once_until_freed (fst Examples.allocated) (snd Examples.allocated) 100).
  - apply allocated_inv.
  - apply allocated_inv.
  - apply allocated_held.
Defined.

Lemma allocate_request_wraps_at_size_max :
  exists ok m' hw',
    allocate Word.SIZE_MAX init (Hw.empty Hw.always) = (ok, m', hw') /\
    get_size m' = 0 /\
    calls_since (trace (Hw.empty Hw.always)) hw' =
      [(Alloc 0, if ok then ESP_OK else ESP_ERR_NO_MEM)] /\
    (forall dest offset length, 0 <= offset ->
       read dest offset length m' hw' = (0, dest, m', hw')) /\
    (forall src offset length, 0 <= offset ->
       write src offset length m' hw' = (0, m', hw')).
Proof.
  apply allocate_request_wraps.
  - reflexivity.
  - split; vm_compute; reflexivity.
Defined.

Lemma block_move_assign_between_two_written_blocks :
  let m := fst Examples.written in
  let other := fst Examples.second_written in
  let hw := snd Examples.second_written in
  handle m <> 0 /\ handle other <> 0 /\ handle other <> handle m /\
  mapped_ptr other <> 0 /\
  exists hw',
    move_assign m other hw = (other, init, hw') /\
    wf hw' /\ inv hw' other /\ inv hw' init /\
    contents hw' other = contents hw other /\
    (forall b, mapped_at hw other b -> mapped_at hw' other b) /\
    regions hw' = delete (handle m) (regions hw) /\
    mappings_of hw' (handle m) = [].
Proof.
  assert (Hm : handle (fst Examples.written) <> 0) by (vm_compute; discriminate).
  assert (Ho : handle (fst Examples.second_written) <> 0) by (vm_compute; discriminate).
  assert (Hne : handle (fst Examples.second_written) <> handle (fst Examples.written))
    by (vm_compute; discriminate).
  assert (Hp : mapped_ptr (fst Examples.second_written) <> 0)
    by (vm_compute; discriminate).
  destruct (block_move_assign_transfers (fst Examples.written)
              (fst Examples.second_written) (snd Examples.second_written)
              (proj1 (reachable_block_inv _ _ 0 _
                        HimemBlockTheorems.second_written_reachable eq_refl))
              (proj2 (reachable_block_inv _ _ 0 _
                        HimemBlockTheorems.second_written_reachable eq_refl))
              (proj2 (reachable_block_inv _ _ 1 _
                        HimemBlockTheorems.second_written_reachable eq_refl))
              (fun _ => Hne))
    as (hw' & Hrun & Hwf' & Hinv' & Hinit' & Hcont & Hmap & Hrel).
  destruct (Hrel Hm) as [Hrg Hnone].
  split; [exact Hm|]. split; [exact Ho|]. split; [exact Hne|]. split; [exact Hp|].
  exists hw'. split; [exact Hrun|]. split; [exact Hwf'|]. split; [exact Hinv'|].
  split; [exact Hinit'|]. split; [exact Hcont|]. split; [exact Hmap|].
  split; [exact Hrg|exact Hnone].
Defined.

End HimemBlockExtras.

(** * The growable array: further properties *)

Module VectorHIMEMExtras.

Import Hw HwFacts WordFacts HimemBlockFacts VectorHIMEM VectorHIMEMFacts.

Section Element.

Variable sizeof_T : Z.
Hypothesis sizeof_pos : 0 < sizeof_T.

Local Abbreviation element := (element sizeof_T).
Local Abbreviation read_at := (read_at sizeof_T).

(** *** The accessors are [operator[]] at a position *)

Lemma at_in_range temp pos v hw :
  pos < element_count v -> at_ sizeof_T temp pos v hw = index sizeof_T temp pos v hw.
Proof.
  intros H. unfold at_, index.
  assert (E : (element_count v <=? pos) = false) by (apply Z.leb_gt; lia).
  by rewrite E.
Qed.

Lemma back_is_index temp v hw :
  back sizeof_T temp v hw = index sizeof_T temp (Word.sub (element_count v) 1) v hw.
Proof. reflexivity. Qed.

Lemma front_is_index temp v hw :
  front sizeof_T temp v hw = index sizeof_T temp 0 v hw.
Proof. reflexivity. Qed.

Lemma count_in_range hw v :
  inv sizeof_T hw v -> 0 <= element_count v /\ element_capacity v < Word.modulus.
Proof.
  intros ((Hsz & _) & Hcount & Hcap & _). split; [lia|].
  assert (element_capacity v * sizeof_T <= HimemBlock.size (memory v)).
  { rewrite Hcap, Z.mul_comm. apply Z.mul_div_le. lia. }
  nia.
Qed.

(** X7. [at(pos)] signals out-of-range exactly when [pos >= size()], and
    then touches nothing; for [pos < size()] it does what [operator[]]
    does, and with every mapping request granted it hands back the element
    stored at [pos] and leaves the array as it was. *)
Theorem at_checks_bounds (temp : list byte) (pos : Z) (v : t) (hw : state) :
  (size v <= pos -> at_ sizeof_T temp pos v hw = (OutOfRange, v, hw)) /\
  (pos < size v ->
   at_ sizeof_T temp pos v hw = index sizeof_T temp pos v hw /\
   fst (fst (at_ sizeof_T temp pos v hw)) <> OutOfRange) /\
  (wf hw -> inv sizeof_T hw v -> mapping hw -> 0 <= pos < size v ->
   Z.of_nat (length temp) = sizeof_T ->
   exists v' hw',
     at_ sizeof_T temp pos v hw = (Ref (element hw (memory v) pos), v', hw') /\
     size v' = size v /\ capacity v' = capacity v /\
     forall k, element hw' (memory v') k = element hw (memory v) k).
Proof.
  unfold size, capacity. split_and!.
  - intros H. unfold at_.
    assert (E : (element_count v <=? pos) = true) by (by apply Z.leb_le).
    by rewrite E.
  - intros H. split; [by apply at_in_range|].
    rewrite at_in_range by done. unfold index.
    by destruct (HimemBlock.read _ _ _ _ _) as [[[n temp'] m'] hw'].
  - intros Hwf Hvinv Hgr Hpos Htemp.
    pose proof Hvinv as (_ & Hcount & _).
    destruct (index_spec sizeof_T sizeof_pos temp pos v hw Hwf Hvinv Hgr ltac:(lia) Htemp)
      as (v' & hw' & E & _ & _ & _ & Hc & Hcap & Hel).
    exists v', hw'. rewrite at_in_range by lia. done.
Qed.

(** X8. With the growth it may need and every mapping request granted,
    after [push_back(value)] the size is one more, [back()] and
    [at(size() - 1)] hand back [value], and every earlier index reads as
    before. *)
Theorem push_back_then_back (value temp : list byte) (v : t) (hw : state) :
  wf hw -> inv sizeof_T hw v -> granting hw -> growth_fits sizeof_T v ->
  Z.of_nat (length value) = sizeof_T -> Z.of_nat (length temp) = sizeof_T ->
  exists v' hw',
    push_back sizeof_T value v hw = (v', hw') /\
    size v' = size v + 1 /\
    fst (fst (back sizeof_T temp v' hw')) = Ref value /\
    fst (fst (at_ sizeof_T temp (size v' - 1) v' hw')) = Ref value /\
    (forall i, 0 <= i < size v -> read_at temp i v' hw' = read_at temp i v hw).
Proof.
  unfold size. intros Hwf Hvinv Hgr Hfits Hval Htemp.
  destruct (push_back sizeof_T value v hw) as [v' hw'] eqn:Hpush.
  destruct (push_back_spec sizeof_T sizeof_pos _ _ _ _ _ Hwf Hvinv Hgr Hfits Hval Hpush)
    as (Hwf' & Hvinv' & Hl & Hc' & _ & _ & Hnew & Hold).
  assert (Hmp' : mapping hw') by (apply (mapping_later hw); [done|apply Hgr]).
  pose proof Hvinv as (_ & Hcount & _).
  pose proof Hvinv' as (_ & Hcount' & _).
  destruct (count_in_range _ _ Hvinv') as [_ Hrange'].
  assert (Hlast : read_at temp (element_count v) v' hw' = Ref value).
  { rewrite (read_at_spec sizeof_T sizeof_pos) by (try done; lia). by rewrite Hnew. }
  exists v', hw'. split_and!; try done.
  - rewrite back_is_index, Hc'. rewrite sub_small by lia.
    replace (element_count v + 1 - 1) with (element_count v) by lia. exact Hlast.
  - rewrite at_in_range by lia. rewrite Hc'.
    replace (element_count v + 1 - 1) with (element_count v) by lia. exact Hlast.
  - intros i Hi. rewrite !(read_at_spec sizeof_T sizeof_pos) by (try done; try apply Hgr; lia).
    by rewrite Hold.
Qed.

(** *** pop_back *)

Lemma read_at_memory temp i v1 v2 hw :
  memory v1 = memory v2 -> read_at temp i v1 hw = read_at temp i v2 hw.
Proof.
  intros H. unfold VectorHIMEM.read_at, index. rewrite H.
  by destruct (HimemBlock.read _ _ _ _ _) as [[[n temp'] m'] hw'].
Qed.

(** X9. [pop_back()] only lowers the count: on an empty array it does
    nothing; after a [push_back(value)] (growth and mappings granted) it
    brings the size back, keeps the capacity and the block that
    [push_back] left, every earlier index reads as before the push, and
    the popped value is still what the unchecked [operator[]] reads at the
    old end. *)
Theorem pop_back_after_push_back (value temp : list byte) (v : t) (hw : state) :
  (size v = 0 -> pop_back v = v) /\
  (wf hw -> inv sizeof_T hw v -> granting hw -> growth_fits sizeof_T v ->
   Z.of_nat (length value) = sizeof_T -> Z.of_nat (length temp) = sizeof_T ->
   exists v' hw',
     push_back sizeof_T value v hw = (v', hw') /\
     size (pop_back v') = size v /\
     capacity (pop_back v') = capacity v' /\
     memory (pop_back v') = memory v' /\
     inv sizeof_T hw' (pop_back v') /\
     (forall i, 0 <= i < size v ->
        read_at temp i (pop_back v') hw' = read_at temp i v hw) /\
     read_at temp (size v) (pop_back v') hw' = Ref value).
Proof.
  unfold size, capacity. split.
  - intros H. unfold pop_back. by rewrite H.
  - intros Hwf Hvinv Hgr Hfits Hval Htemp.
    destruct (push_back sizeof_T value v hw) as [v' hw'] eqn:Hpush.
    destruct (push_back_spec sizeof_T sizeof_pos _ _ _ _ _ Hwf Hvinv Hgr Hfits Hval Hpush)
      as (Hwf' & Hvinv' & Hl & Hc' & _ & _ & Hnew & Hold).
    assert (Hmp' : mapping hw') by (apply (mapping_later hw); [done|apply Hgr]).
    pose proof Hvinv as (_ & Hcount & _).
    pose proof Hvinv' as (Hinv' & Hcount' & Hcap' & Hnull' & Hmin').
    destruct (count_in_range _ _ Hvinv') as [_ Hrange'].
    assert (Hpop : pop_back v' =
                   {| memory := memory v'; element_count := element_count v;
                      element_capacity := element_capacity v' |}).
    { unfold pop_back.
      assert (E : (0 <? element_count v') = true) by (apply Z.ltb_lt; lia).
      rewrite E, Hc', sub_small by lia. f_equal. lia. }
    exists v', hw'. rewrite Hpop. simpl. split_and!; try done.
    + unfold inv; simpl. split_and!; try done; lia.
    + intros i Hi. rewrite (read_at_memory temp i _ v') by done.
      rewrite !(read_at_spec sizeof_T sizeof_pos) by (try done; try apply Hgr; lia).
      by rewrite Hold.
    + rewrite (read_at_memory temp _ _ v') by done.
      rewrite (read_at_spec sizeof_T sizeof_pos) by (try done; lia). by rewrite Hnew.
Qed.

(** *** reserve *)

(** X10. [reserve(n)] does nothing when [n <= capacity()].  Otherwise,
    with the region and every mapping request granted and the byte size
    representable, the capacity becomes at least [n] (the region size in
    whole blocks divided by [sizeof(T)]), the size is unchanged and every
    element reads as before. *)
Theorem reserve_grows_capacity (n : Z) (temp : list byte) (v : t) (hw : state) :
  (n <= capacity v -> reserve sizeof_T n v hw = (v, hw)) /\
  (wf hw -> inv sizeof_T hw v -> granting hw -> fits sizeof_T n -> capacity v < n ->
   Z.of_nat (length temp) = sizeof_T ->
   exists v' hw',
     reserve sizeof_T n v hw = (v', hw') /\
     n <= capacity v' /\ capacity v' = capacity_for sizeof_T n /\
     size v' = size v /\
     wf hw' /\ inv sizeof_T hw' v' /\
     forall i, 0 <= i < size v -> read_at temp i v' hw' = read_at temp i v hw).
Proof.
  unfold size, capacity. split.
  - intros H. unfold reserve.
    assert (E : (element_capacity v <? n) = false) by (apply Z.ltb_ge; lia).
    by rewrite E.
  - intros Hwf Hvinv Hgr Hfit Hlt Htemp. unfold reserve.
    assert (E : (element_capacity v <? n) = true) by (by apply Z.ltb_lt).
    rewrite E.
    destruct (reallocate sizeof_T n v hw) as [[ok v'] hw'] eqn:Hre.
    destruct (reallocate_grow sizeof_T sizeof_pos _ _ _ _ _ _ Hwf Hvinv Hgr Hlt Hfit Hre)
      as (_ & Hwf' & Hvinv' & Hl & Hc' & Hcap' & _ & _ & Hel).
    pose proof Hvinv as (_ & Hcount & _).
    pose proof Hvinv' as (_ & Hcount' & _).
    destruct (fits_bounds sizeof_T sizeof_pos n ltac:(lia) Hfit) as (_ & _ & Hge & _).
    exists v', hw'. split_and!; try done; try lia.
    intros i Hi.
    assert (Hmp' : mapping hw') by (apply (mapping_later hw); [done|apply Hgr]).
    rewrite !(read_at_spec sizeof_T sizeof_pos) by (try done; try apply Hgr; lia).
    by rewrite Hel.
Qed.

Lemma push_back_room value v hw v' hw' :
  wf hw -> inv sizeof_T hw v -> element_count v < element_capacity v ->
  Z.of_nat (length value) = sizeof_T ->
  push_back sizeof_T value v hw = (v', hw') ->
  wf hw' /\ inv sizeof_T hw' v' /\ later hw hw' /\
  element_count v' = element_count v + 1 /\
  element_capacity v' = element_capacity v /\
  HimemBlock.handle (memory v') = HimemBlock.handle (memory v) /\
  (forall h, h <> HimemBlock.handle (memory v) -> regions hw' !! h = regions hw !! h).
Proof.
  intros Hwf Hvinv Hroom Hval Hrun. unfold push_back, grow_if_full in Hrun.
  assert (E : (element_capacity v <=? element_count v) = false) by (apply Z.leb_gt; lia).
  rewrite E in Hrun. simpl in Hrun.
  pose proof Hvinv as (Hinv & Hcount & Hcap & Hnull & Hmin).
  destruct (count_in_range _ _ Hvinv) as [_ Hrange].
  destruct (HimemBlock.write value (Word.mul (element_count v) sizeof_T) sizeof_T
              (memory v) hw) as [[n m'] hw2] eqn:Hwrite.
  assert (Hoff : 0 <= Word.mul (element_count v) sizeof_T < Word.modulus)
    by apply wrap_range.
  assert (Hlen : 0 <= sizeof_T < Word.modulus).
  { destruct Hinv as (Hsz & _).
    assert (element_capacity v * sizeof_T <= HimemBlock.size (memory v)).
    { rewrite Hcap, Z.mul_comm. apply Z.mul_div_le. lia. }
    nia. }
  assert (Hsrc : sizeof_T <= Z.of_nat (length value)) by lia.
  destruct (write_spec _ _ _ _ _ _ _ _ Hwf Hinv Hoff Hlen Hsrc Hwrite)
    as (Hwf2 & Hinv2 & Hfr & Hh2 & Hs2 & Hl2 & _).
  injection Hrun as <- <-.
  rewrite (add_small (element_count v) 1) by lia.
  split_and!; try done; simpl.
  - unfold inv; simpl. rewrite Hs2, Hh2. split_and!; try done; lia.
  - intros h Hne. by apply Hfr.
Qed.

Lemma push_all_room values : forall v hw v' hw',
  wf hw -> inv sizeof_T hw v ->
  Forall (fun value => Z.of_nat (length value) = sizeof_T) values ->
  element_count v + Z.of_nat (length values) <= element_capacity v ->
  push_all sizeof_T values v hw = (v', hw') ->
  wf hw' /\ inv sizeof_T hw' v' /\ later hw hw' /\
  element_count v' = element_count v + Z.of_nat (length values) /\
  element_capacity v' = element_capacity v /\
  HimemBlock.handle (memory v') = HimemBlock.handle (memory v) /\
  (forall h, h <> HimemBlock.handle (memory v) -> regions hw' !! h = regions hw !! h).
Proof.
  induction values as [|value rest IH]; intros v hw v' hw' Hwf Hvinv Hlen Hroom Hrun.
  - simpl in *. injection Hrun as <- <-.
    split_and!; try done; try apply later_refl. lia.
  - cbn [push_all] in Hrun.
    destruct (push_back sizeof_T value v hw) as [v1 hw1] eqn:Hpush.
    apply Forall_cons in Hlen as [Hval Hlen]. simpl length in Hroom.
    destruct (push_back_room _ _ _ _ _ Hwf Hvinv ltac:(lia) Hval Hpush)
      as (Hwf1 & Hvinv1 & Hl1 & Hc1 & Hcap1 & Hh1 & Hrg1).
    apply IH in Hrun; try done; try lia.
    destruct Hrun as (Hwf' & Hvinv' & Hl' & Hc' & Hcap' & Hh' & Hrg').
    split_and!; try done; try congruence.
    + by apply (later_trans _ hw1).
    + simpl length. lia.
    + intros h Hne. rewrite Hrg' by congruence. by apply Hrg1.
Qed.

(** X11. After [reserve(n)] (the region granted, the byte size
    representable), [push_back] of values up to a size of [n] never
    reallocates, whatever the mapping requests are answered: the capacity
    and the region stay the ones [reserve] left, and the size is the
    number of values pushed more. *)
Theorem reserve_then_push_back (n : Z) (values : list (list byte)) (v : t)
    (hw : state) :
  wf hw -> inv sizeof_T hw v -> allocating hw -> fits sizeof_T n ->
  Forall (fun value => Z.of_nat (length value) = sizeof_T) values ->
  size v + Z.of_nat (length values) <= n ->
  exists v1 hw1 v2 hw2,
    reserve sizeof_T n v hw = (v1, hw1) /\
    n <= capacity v1 /\ size v1 = size v /\
    push_all sizeof_T values v1 hw1 = (v2, hw2) /\
    size v2 = size v + Z.of_nat (length values) /\
    capacity v2 = capacity v1 /\
    HimemBlock.handle (memory v2) = HimemBlock.handle (memory v1).
Proof.
  unfold size, capacity. intros Hwf Hvinv Hgr Hfit Hlen Hroom.
  assert (Hres : exists v1 hw1,
            reserve sizeof_T n v hw = (v1, hw1) /\ wf hw1 /\ inv sizeof_T hw1 v1 /\
            n <= element_capacity v1 /\ element_count v1 = element_count v).
  { unfold reserve. destruct (element_capacity v <? n) eqn:E.
    - apply Z.ltb_lt in E.
      destruct (reallocate sizeof_T n v hw) as [[ok v1] hw1] eqn:Hre.
      destruct (reallocate_sizes sizeof_T sizeof_pos _ _ _ _ _ _ Hwf Hvinv Hgr E Hfit Hre)
        as (_ & Hwf1 & Hvinv1 & _ & Hc1 & Hcap1 & _).
      pose proof Hvinv as (_ & Hcount & _).
      destruct (fits_bounds sizeof_T sizeof_pos n ltac:(lia) Hfit) as (_ & _ & Hge & _).
      exists v1, hw1. split_and!; try done. lia.
    - apply Z.ltb_ge in E. exists v, hw. split_and!; try done. }
  destruct Hres as (v1 & hw1 & Hres & Hwf1 & Hvinv1 & Hcap1 & Hc1).
  destruct (push_all sizeof_T values v1 hw1) as [v2 hw2] eqn:Hpush.
  destruct (push_all_room values v1 hw1 v2 hw2 Hwf1 Hvinv1 Hlen ltac:(lia) Hpush)
    as (_ & _ & _ & Hc2 & Hcap2 & Hh2 & _).
  exists v1, hw1, v2, hw2. split_and!; try done. lia.
Qed.

(** *** resize *)

Lemma resize_grows count temp v hw :
  wf hw -> inv sizeof_T hw v -> granting hw -> fits sizeof_T count ->
  element_capacity v < count -> Z.of_nat (length temp) = sizeof_T ->
  exists v' hw',
    resize sizeof_T count v hw = (v', hw') /\
    element_count v' = count /\ count <= element_capacity v' /\
    wf hw' /\ inv sizeof_T hw' v' /\
    forall i, 0 <= i < element_count v -> read_at temp i v' hw' = read_at temp i v hw.
Proof.
  intros Hwf Hvinv Hgr Hfit Hlt Htemp. unfold resize.
  assert (E : (element_capacity v <? count) = true) by (by apply Z.ltb_lt).
  rewrite E.
  destruct (reallocate sizeof_T count v hw) as [[ok v1] hw1] eqn:Hre.
  destruct (reallocate_grow sizeof_T sizeof_pos _ _ _ _ _ _ Hwf Hvinv Hgr Hlt Hfit Hre)
    as (-> & Hwf1 & Hvinv1 & Hl & Hc1 & Hcap1 & _ & _ & Hel).
  simpl.
  pose proof Hvinv as (_ & Hcount & _).
  pose proof Hvinv1 as (Hinv1 & Hcount1 & Hcapeq1 & Hnull1 & Hmin1).
  destruct (fits_bounds sizeof_T sizeof_pos count ltac:(lia) Hfit) as (_ & _ & Hge & _).
  assert (Hvinv' : inv sizeof_T hw1
            {| memory := memory v1; element_count := count;
               element_capacity := element_capacity v1 |}).
  { unfold inv; simpl. split_and!; try done; lia. }
  eexists _, hw1. split; [reflexivity|]. simpl. split_and!; try done; try lia.
  intros i Hi.
  assert (Hmp1 : mapping hw1) by (apply (mapping_later hw); [done|apply Hgr]).
  rewrite (read_at_memory temp i _ v1) by done.
  rewrite !(read_at_spec sizeof_T sizeof_pos) by (try done; try apply Hgr; lia).
  by rewrite Hel.
Qed.

(** X12. [resize(count)] writes no element.  Within the capacity it only
    sets the count, so growing the size exposes whatever the slots hold:
    after [pop_back()], [resize] to the old size gives the array back as it
    was.  Beyond the capacity (growth and mappings granted, the byte size
    representable) the size becomes [count], the capacity at least [count],
    and the elements below the old size read as before. *)
Theorem resize_sets_count (count : Z) (temp : list byte) (v : t) (hw : state) :
  (count <= capacity v ->
   resize sizeof_T count v hw =
     ({| memory := memory v; element_count := count;
         element_capacity := element_capacity v |}, hw)) /\
  (0 < size v <= capacity v -> size v < Word.modulus ->
   resize sizeof_T (size v) (pop_back v) hw = (v, hw)) /\
  (wf hw -> inv sizeof_T hw v -> granting hw -> fits sizeof_T count ->
   capacity v < count -> Z.of_nat (length temp) = sizeof_T ->
   exists v' hw',
     resize sizeof_T count v hw = (v', hw') /\
     size v' = count /\ count <= capacity v' /\
     wf hw' /\ inv sizeof_T hw' v' /\
     forall i, 0 <= i < size v -> read_at temp i v' hw' = read_at temp i v hw).
Proof.
  unfold size, capacity. split_and!.
  - intros H. unfold resize.
    assert (E : (element_capacity v <? count) = false) by (apply Z.ltb_ge; lia).
    by rewrite E.
  - intros Hc Hrange. unfold resize, pop_back.
    assert (E1 : (0 <? element_count v) = true) by (apply Z.ltb_lt; lia).
    rewrite E1. simpl.
    assert (E2 : (element_capacity v <? element_count v) = false)
      by (apply Z.ltb_ge; lia).
    rewrite E2. simpl. by destruct v.
  - apply resize_grows.
Qed.

Lemma fill_spec value : forall (n : nat) i m hw m' hw',
  good hw m -> HimemBlock.handle m <> 0 ->
  0 <= i -> (i + Z.of_nat n) * sizeof_T <= HimemBlock.size m ->
  Z.of_nat (length value) = sizeof_T ->
  for_up n i
    (fun i '(memory, hw) =>
       let '(_, memory, hw) :=
         HimemBlock.write value (Word.mul i sizeof_T) sizeof_T memory hw in
       (memory, hw))
    (m, hw) = (m', hw') ->
  good hw' m' /\ same_block m m' /\ later hw hw' /\
  forall k, 0 <= k ->
    element hw' m' k =
      if decide (i <= k < i + Z.of_nat n) then value else element hw m k.
Proof.
  induction n as [|n IH]; intros i m hw m' hw' Hgood Hh Hi Hfit Hval Hrun.
  - simpl in Hrun. injection Hrun as <- <-.
    split_and!; try done; try apply later_refl.
    intros k Hk. destruct (decide (i <= k < i + Z.of_nat 0)); [lia|done].
  - cbn [for_up] in Hrun.
    destruct (HimemBlock.write value (Word.mul i sizeof_T) sizeof_T m hw)
      as [[n1 m1] hw1] eqn:Hwrite.
    assert (Hfit1 : (i + 1) * sizeof_T <= HimemBlock.size m) by nia.
    destruct (write_element sizeof_T sizeof_pos _ _ _ _ _ _ _ Hgood Hh Hi Hfit1 Hval Hwrite)
      as (_ & Hgood1 & [Hh1 Hs1] & _ & Hl1 & Hnew & Hold).
    pose proof (good_in_range sizeof_T sizeof_pos _ _ _ Hgood Hi Hfit1) as Hrange.
    rewrite (add_small i 1) in Hrun by lia.
    apply IH in Hrun; try done; try lia; try congruence; try (rewrite Hs1; nia).
    destruct Hrun as (Hgood' & [Hh' Hs'] & Hl' & Hel).
    split_and!; try done.
    + split; congruence.
    + by apply (later_trans _ hw1).
    + intros k Hk. rewrite (Hel k Hk).
      destruct (decide (i + 1 <= k < i + 1 + Z.of_nat n)),
               (decide (i <= k < i + Z.of_nat (S n))); try lia; try done.
      * assert (k = i) by lia. by subst k.
      * apply Hold; lia.
Qed.

Lemma resize_fill_grows count value temp v hw :
  wf hw -> inv sizeof_T hw v -> granting hw -> fits sizeof_T count ->
  element_count v < count ->
  Z.of_nat (length value) = sizeof_T -> Z.of_nat (length temp) = sizeof_T ->
  exists v' hw',
    resize_fill sizeof_T count value v hw = (v', hw') /\
    element_count v' = count /\ count <= element_capacity v' /\
    wf hw' /\ inv sizeof_T hw' v' /\ mapping hw' /\
    (forall i, 0 <= i < element_count v ->
       read_at temp i v' hw' = read_at temp i v hw) /\
    (forall i, element_count v <= i < count -> read_at temp i v' hw' = Ref value).
Proof.
  intros Hwf Hvinv Hgr Hfit Hlt Hval Htemp. unfold resize_fill.
  assert (E : (element_count v <? count) = true) by (by apply Z.ltb_lt).
  rewrite E.
  pose proof Hvinv as (_ & Hcount & _).
  assert (Hgrown : exists v1 hw1,
            (if element_capacity v <? count then reallocate sizeof_T count v hw
             else (true, v, hw)) = (true, v1, hw1) /\
            wf hw1 /\ inv sizeof_T hw1 v1 /\ mapping hw1 /\
            element_count v1 = element_count v /\ count <= element_capacity v1 /\
            forall k, 0 <= k < element_count v ->
              element hw1 (memory v1) k = element hw (memory v) k).
  { destruct (element_capacity v <? count) eqn:Ecap.
    - apply Z.ltb_lt in Ecap.
      destruct (reallocate sizeof_T count v hw) as [[ok v1] hw1] eqn:Hre.
      destruct (reallocate_grow sizeof_T sizeof_pos _ _ _ _ _ _ Hwf Hvinv Hgr Ecap Hfit Hre)
        as (-> & Hwf1 & Hvinv1 & Hl & Hc1 & Hcap1 & _ & _ & Hel).
      destruct (fits_bounds sizeof_T sizeof_pos count ltac:(lia) Hfit)
        as (_ & _ & Hge & _).
      exists v1, hw1. split_and!; try done; try lia.
      apply (mapping_later hw); [done|apply Hgr].
    - apply Z.ltb_ge in Ecap. exists v, hw. split_and!; try done. apply Hgr. }
  destruct Hgrown as (v1 & hw1 & -> & Hwf1 & Hvinv1 & Hmp1 & Hc1 & Hcap1 & Hel1).
  simpl.
  pose proof Hvinv1 as (Hinv1 & Hcount1 & Hcapeq1 & Hnull1 & Hmin1).
  destruct (inv_slots sizeof_T sizeof_pos _ _ Hvinv1) as (Hslots1 & _ & Hlive1).
  match goal with
  | |- context [for_up ?n ?i ?f ?s0] =>
      destruct (for_up n i f s0) as [m2 hw2] eqn:Hloop
  end.
  assert (Hh1 : HimemBlock.handle (memory v1) <> 0) by (apply Hlive1; lia).
  assert (Hfill : (element_count v + Z.of_nat (Z.to_nat (count - element_count v)))
                  * sizeof_T <= HimemBlock.size (memory v1)).
  { rewrite Z2Nat.id by lia.
    replace (element_count v + (count - element_count v)) with count by lia. nia. }
  apply fill_spec in Hloop; try done; try lia.
  destruct Hloop as ((Hwf2 & Hinv2 & Hmp2) & [Hh2 Hs2] & Hl2 & Hel2).
  assert (Hvinv2 : inv sizeof_T hw2
            {| memory := m2; element_count := count;
               element_capacity := element_capacity v1 |}).
  { unfold inv; simpl. rewrite Hs2, Hh2. split_and!; try done; lia. }
  eexists _, hw2. split; [reflexivity|]. simpl. split_and!; try done.
  + intros i Hi.
    rewrite !(read_at_spec sizeof_T sizeof_pos) by (try done; try apply Hgr; simpl; lia).
    simpl. rewrite Hel2 by lia.
    destruct (decide (element_count v <= i <
                      element_count v + Z.of_nat (Z.to_nat (count - element_count v))));
      [lia|]. rewrite Hel1 by lia. done.
  + intros i Hi.
    rewrite (read_at_spec sizeof_T sizeof_pos) by (try done; simpl; lia).
    simpl. rewrite Hel2 by lia.
    destruct (decide (element_count v <= i <
                      element_count v + Z.of_nat (Z.to_nat (count - element_count v))));
      [done|lia].
Qed.

(** X13. [resize(count, value)] with [count <= size()] only sets the
    count.  With [count > size()] (growth and mappings granted, the byte
    size representable) the size becomes [count], the elements below the
    old size read as before and every new element reads as [value]. *)
Theorem resize_fills_new_elements (count : Z) (value temp : list byte) (v : t)
    (hw : state) :
  (count <= size v ->
   resize_fill sizeof_T count value v hw =
     ({| memory := memory v; element_count := count;
         element_capacity := element_capacity v |}, hw)) /\
  (wf hw -> inv sizeof_T hw v -> granting hw -> fits sizeof_T count ->
   size v < count ->
   Z.of_nat (length value) = sizeof_T -> Z.of_nat (length temp) = sizeof_T ->
   exists v' hw',
     resize_fill sizeof_T count value v hw = (v', hw') /\
     size v' = count /\ count <= capacity v' /\
     wf hw' /\ inv sizeof_T hw' v' /\ mapping hw' /\
     (forall i, 0 <= i < size v -> read_at temp i v' hw' = read_at temp i v hw) /\
     (forall i, size v <= i < count -> read_at temp i v' hw' = Ref value)).
Proof.
  unfold size, capacity. split.
  - intros H. unfold resize_fill.
    assert (E : (element_count v <? count) = false) by (apply Z.ltb_ge; lia).
    by rewrite E.
  - apply resize_fill_grows.
Qed.

(** *** The constructors *)

Lemma init_inv_vector hw : wf hw -> inv sizeof_T hw init.
Proof.
  intros Hwf. unfold inv, init; simpl. split_and!; try done.
  - by apply init_inv.
  - by left.
Qed.

Lemma clear_inv hw v : inv sizeof_T hw v -> inv sizeof_T hw (clear v).
Proof.
  intros (Hinv & Hcount & Hcap & Hnull & Hmin).
  unfold inv, clear; simpl. split_and!; try done. lia.
Qed.

(** X14. The counted constructors are [resize] on a fresh array.  With the
    region and every mapping request granted and the byte size
    representable, [VectorHIMEM(count, value)] holds [count] elements that
    all read as [value], and [VectorHIMEM(count)] holds [count] elements;
    when the hardware denies the region both leave an empty array without
    any signal. *)
Theorem counted_constructors (count : Z) (value temp : list byte) (hw : state) :
  wf hw -> 0 < count ->
  (granting hw -> fits sizeof_T count ->
   Z.of_nat (length value) = sizeof_T -> Z.of_nat (length temp) = sizeof_T ->
   (exists v hw',
      construct_fill sizeof_T count value hw = (v, hw') /\
      size v = count /\ count <= capacity v /\ inv sizeof_T hw' v /\
      forall i, 0 <= i < count -> read_at temp i v hw' = Ref value) /\
   (exists v hw',
      construct_count sizeof_T count hw = (v, hw') /\
      size v = count /\ count <= capacity v /\ inv sizeof_T hw' v)) /\
  (denying hw ->
   (exists hw', construct_fill sizeof_T count value hw = (init, hw') /\
                same_memory hw hw') /\
   (exists hw', construct_count sizeof_T count hw = (init, hw') /\
                same_memory hw hw')).
Proof.
  intros Hwf Hcount. pose proof (init_inv_vector hw Hwf) as Hinit. split.
  - intros Hgr Hfit Hval Htemp. split.
    + destruct (resize_fill_grows count value temp init hw
                  Hwf Hinit Hgr Hfit Hcount Hval Htemp)
        as (v & hw' & Hrun & Hc & Hcap & _ & Hvinv & _ & _ & Hnew).
      exists v, hw'. split_and!; try done.
    + destruct (resize_grows count temp init hw Hwf Hinit Hgr Hfit Hcount Htemp)
        as (v & hw' & Hrun & Hc & Hcap & _ & Hvinv & _).
      exists v, hw'. split_and!; try done.
  - intros Hden.
    destruct (reallocate sizeof_T count init hw) as [[ok v1] hw1] eqn:Hre.
    assert (Hcap0 : element_capacity init < count) by (simpl; lia).
    destruct (reallocate_denied sizeof_T _ _ _ _ _ _ Hden Hcap0 Hre)
      as (-> & -> & Hrg & Hrn & Hf & _).
    assert (E : (0 <? count) = true) by (by apply Z.ltb_lt).
    split.
    + exists hw1. unfold construct_fill, resize_fill. simpl.
      rewrite E, Hre. simpl. by split.
    + exists hw1. unfold construct_count, resize. simpl.
      rewrite E, Hre. simpl. by split.
Qed.

Lemma write_items_spec : forall items i m hw m' hw',
  good hw m -> HimemBlock.handle m <> 0 ->
  0 <= i -> (i + Z.of_nat (length items)) * sizeof_T <= HimemBlock.size m ->
  Forall (fun item => Z.of_nat (length item) = sizeof_T) items ->
  write_items sizeof_T items i (m, hw) = (m', hw') ->
  good hw' m' /\ same_block m m' /\ later hw hw' /\
  (forall (j : nat) item, items !! j = Some item ->
     element hw' m' (i + Z.of_nat j) = item) /\
  (forall k, 0 <= k -> ~ (i <= k < i + Z.of_nat (length items)) ->
     element hw' m' k = element hw m k).
Proof.
  induction items as [|item rest IH]; intros i m hw m' hw' Hgood Hh Hi Hfit Hlen Hrun.
  - simpl in Hrun. injection Hrun as <- <-.
    split_and!; try done; try apply later_refl.
  - cbn [write_items] in Hrun. simpl length in Hfit.
    apply Forall_cons in Hlen as [Hval Hlen].
    destruct (HimemBlock.write item (Word.mul i sizeof_T) sizeof_T m hw)
      as [[n1 m1] hw1] eqn:Hwrite.
    assert (Hfit1 : (i + 1) * sizeof_T <= HimemBlock.size m) by nia.
    destruct (write_element sizeof_T sizeof_pos _ _ _ _ _ _ _ Hgood Hh Hi Hfit1 Hval Hwrite)
      as (_ & Hgood1 & [Hh1 Hs1] & _ & Hl1 & Hnew & Hold).
    pose proof (good_in_range sizeof_T sizeof_pos _ _ _ Hgood Hi Hfit1) as Hrange.
    rewrite (add_small i 1) in Hrun by lia.
    apply IH in Hrun; try done; try lia; try congruence; try (rewrite Hs1; nia).
    destruct Hrun as (Hgood' & [Hh' Hs'] & Hl' & Hin & Hout).
    split_and!; try done.
    + split; congruence.
    + by apply (later_trans _ hw1).
    + intros [|j] it Hj; simpl in Hj.
      * injection Hj as <-. rewrite Hout by lia.
        replace (i + Z.of_nat 0) with i by lia. done.
      * replace (i + Z.of_nat (S j)) with (i + 1 + Z.of_nat j) by lia.
        by apply Hin.
    + intros k Hk Hnot. simpl length in Hnot. rewrite Hout by lia. apply Hold; lia.
Qed.

Lemma fill_from_list_spec items v hw :
  wf hw -> inv sizeof_T hw v -> granting hw ->
  items <> [] -> fits sizeof_T (Z.of_nat (length items)) ->
  Forall (fun item => Z.of_nat (length item) = sizeof_T) items ->
  exists v' hw',
    fill_from_list sizeof_T items v hw = (v', hw') /\
    element_count v' = Z.of_nat (length items) /\
    Z.of_nat (length items) <= element_capacity v' /\
    wf hw' /\ inv sizeof_T hw' v' /\ mapping hw' /\
    forall (j : nat) item, items !! j = Some item ->
      element hw' (memory v') (Z.of_nat j) = item.
Proof.
  intros Hwf Hvinv Hgr Hne Hfit Hlen. unfold fill_from_list.
  set (n := Z.of_nat (length items)) in *.
  assert (Hn : 0 < n).
  { unfold n. destruct items; [done|simpl; lia]. }
  assert (E : (0 <? n) = true) by (by apply Z.ltb_lt).
  rewrite E.
  assert (Hgrown : exists v1 hw1,
            reallocate sizeof_T n v hw = (true, v1, hw1) /\
            wf hw1 /\ inv sizeof_T hw1 v1 /\ mapping hw1 /\ n <= element_capacity v1).
  { destruct (Z.le_gt_cases n (element_capacity v)) as [Hroom|Hgrow].
    - rewrite (reallocate_noop sizeof_T n v hw Hroom).
      exists v, hw. split_and!; try done. apply Hgr.
    - destruct (reallocate sizeof_T n v hw) as [[ok v1] hw1] eqn:Hre.
      assert (Hlt : element_capacity v < n) by lia.
      destruct (reallocate_grow sizeof_T sizeof_pos _ _ _ _ _ _ Hwf Hvinv Hgr Hlt Hfit Hre)
        as (-> & Hwf1 & Hvinv1 & Hl & _ & Hcap1 & _).
      destruct (fits_bounds sizeof_T sizeof_pos n ltac:(lia) Hfit) as (_ & _ & Hge & _).
      exists v1, hw1. split_and!; try done; try lia.
      apply (mapping_later hw); [done|apply Hgr]. }
  destruct Hgrown as (v1 & hw1 & -> & Hwf1 & Hvinv1 & Hmp1 & Hcap1). simpl.
  pose proof Hvinv1 as (Hinv1 & Hcount1 & Hcapeq1 & Hnull1 & Hmin1).
  destruct (inv_slots sizeof_T sizeof_pos _ _ Hvinv1) as (Hslots1 & _ & Hlive1).
  assert (Hh1 : HimemBlock.handle (memory v1) <> 0) by (apply Hlive1; lia).
  destruct (write_items sizeof_T items 0 (memory v1, hw1)) as [m2 hw2] eqn:Hloop.
  apply write_items_spec in Hloop; try done; try lia.
  2:{ fold n. nia. }
  destruct Hloop as ((Hwf2 & Hinv2 & Hmp2) & [Hh2 Hs2] & _ & Hin & _).
  eexists _, hw2. split; [reflexivity|]. simpl. split_and!; try done.
  unfold inv; simpl. rewrite Hs2, Hh2. split_and!; try done; lia.
Qed.

Lemma fill_from_list_denied items v hw :
  denying hw -> element_capacity v < Z.of_nat (length items) ->
  0 <= element_capacity v ->
  exists hw', fill_from_list sizeof_T items v hw = (v, hw') /\ same_memory hw hw'.
Proof.
  intros Hden Hcap Hcap0. unfold fill_from_list.
  assert (E : (0 <? Z.of_nat (length items)) = true) by (apply Z.ltb_lt; lia).
  rewrite E.
  destruct (reallocate sizeof_T (Z.of_nat (length items)) v hw) as [[ok v1] hw1] eqn:Hre.
  destruct (reallocate_denied sizeof_T _ _ _ _ _ _ Hden Hcap Hre)
    as (-> & -> & Hrg & Hrn & Hf & _).
  exists hw1. simpl. by split.
Qed.

(** X15. The initializer-list constructor: an empty list gives the empty
    array and touches nothing; with the region and every mapping request
    granted, the array holds the items of the list in order; when the
    hardware denies the region the result is the empty array, without any
    signal. *)
Theorem construct_list_holds_items (items : list (list byte)) (temp : list byte)
    (hw : state) :
  construct_list sizeof_T [] hw = (init, hw) /\
  (wf hw -> granting hw -> items <> [] ->
   fits sizeof_T (Z.of_nat (length items)) ->
   Forall (fun item => Z.of_nat (length item) = sizeof_T) items ->
   Z.of_nat (length temp) = sizeof_T ->
   exists v hw',
     construct_list sizeof_T items hw = (v, hw') /\
     size v = Z.of_nat (length items) /\ inv sizeof_T hw' v /\
     forall (j : nat) item, items !! j = Some item ->
       read_at temp (Z.of_nat j) v hw' = Ref item) /\
  (denying hw -> items <> [] ->
   exists hw', construct_list sizeof_T items hw = (init, hw') /\ same_memory hw hw').
Proof.
  split_and!.
  - reflexivity.
  - intros Hwf Hgr Hne Hfit Hlen Htemp.
    destruct (fill_from_list_spec items init hw Hwf (init_inv_vector hw Hwf) Hgr Hne Hfit Hlen)
      as (v & hw' & Hrun & Hc & Hcap & Hwf' & Hvinv' & Hmp' & Hin).
    exists v, hw'. split_and!; try done.
    intros j item Hj.
    assert (Hjlt : (j < length items)%nat) by (eapply lookup_lt_Some; eauto).
    rewrite (read_at_spec sizeof_T sizeof_pos) by (try done; lia).
    by rewrite (Hin j item Hj).
  - intros Hden Hne. apply fill_from_list_denied; try done.
    simpl. destruct items; [done|simpl; lia].
Qed.

(** X16. Assignment from an initializer list clears the array first.  With
    the region and every mapping request granted the array then holds the
    items of the list in order, and no region is requested when the
    capacity already suffices; when growth is needed and the hardware
    denies the region, the array is left empty: its old elements are no
    longer counted and the new ones were not stored. *)
Theorem assign_list_replaces_items (items : list (list byte)) (temp : list byte)
    (v : t) (hw : state) :
  wf hw -> inv sizeof_T hw v -> items <> [] ->
  (granting hw -> fits sizeof_T (Z.of_nat (length items)) ->
   Forall (fun item => Z.of_nat (length item) = sizeof_T) items ->
   Z.of_nat (length temp) = sizeof_T ->
   exists v' hw',
     assign_list sizeof_T items v hw = (v', hw') /\
     size v' = Z.of_nat (length items) /\ inv sizeof_T hw' v' /\
     (Z.of_nat (length items) <= capacity v ->
      capacity v' = capacity v /\
      HimemBlock.handle (memory v') = HimemBlock.handle (memory v)) /\
     forall (j : nat) item, items !! j = Some item ->
       read_at temp (Z.of_nat j) v' hw' = Ref item) /\
  (denying hw -> capacity v < Z.of_nat (length items) ->
   exists hw',
     assign_list sizeof_T items v hw = (clear v, hw') /\
     size (clear v) = 0 /\ same_memory hw hw').
Proof.
  unfold size, capacity. intros Hwf Hvinv Hne. split.
  - intros Hgr Hfit Hlen Htemp.
    destruct (fill_from_list_spec items (clear v) hw Hwf (clear_inv _ _ Hvinv) Hgr Hne Hfit Hlen)
      as (v' & hw' & Hrun & Hc & Hcap & Hwf' & Hvinv' & Hmp' & Hin).
    exists v', hw'. split_and!; try done.
    + intros Hroom. unfold assign_list, fill_from_list in Hrun.
      destruct (0 <? Z.of_nat (length items)); [|by injection Hrun as <- <-].
      rewrite (reallocate_noop sizeof_T _ (clear v) hw) in Hrun by (simpl; lia).
      simpl in Hrun.
      destruct (write_items sizeof_T items 0 (memory v, hw)) as [m2 hw2] eqn:Hloop.
      injection Hrun as <- <-. simpl. split; [done|].
      pose proof Hvinv as (Hinv & Hcount & Hcapeq & Hnull & Hmin).
      destruct (inv_slots sizeof_T sizeof_pos _ _ Hvinv) as (Hslots & _ & Hlive).
      assert (Hn : 0 < Z.of_nat (length items)).
      { destruct items; [done|simpl; lia]. }
      assert (Hgood : good hw (memory v)) by (split_and!; try done; apply Hgr).
      assert (Hh : HimemBlock.handle (memory v) <> 0) by (apply Hlive; lia).
      assert (Hroom' : (0 + Z.of_nat (length items)) * sizeof_T
                       <= HimemBlock.size (memory v)) by nia.
      apply write_items_spec in Hloop; try done.
      by destruct Hloop as (_ & [Hh2 _] & _).
    + intros j item Hj.
      assert (Hjlt : (j < length items)%nat) by (eapply lookup_lt_Some; eauto).
      rewrite (read_at_spec sizeof_T sizeof_pos) by (try done; lia).
      by rewrite (Hin j item Hj).
  - intros Hden Hcap.
    pose proof Hvinv as (_ & Hcount & _).
    destruct (fill_from_list_denied items (clear v) hw Hden) as (hw' & Hrun & Hsame);
      try (simpl; lia).
    exists hw'. split_and!; try done.
Qed.

(** *** What growth leaves alone *)

Lemma copy_element_aside i temp m1 m2 hw temp' m1' m2' hw' :
  sizeof_T < Word.modulus ->
  wf hw -> HimemBlock.inv hw m1 -> HimemBlock.inv hw m2 ->
  HimemBlock.handle m1 <> HimemBlock.handle m2 ->
  Z.of_nat (length temp) = sizeof_T ->
  copy_element sizeof_T i (temp, m1, m2, hw) = (temp', m1', m2', hw') ->
  (forall h, h <> HimemBlock.handle m1 -> h <> HimemBlock.handle m2 ->
     regions hw' !! h = regions hw !! h) /\
  (forall other, HimemBlock.inv hw other ->
     HimemBlock.handle other <> HimemBlock.handle m1 ->
     HimemBlock.handle other <> HimemBlock.handle m2 ->
     HimemBlock.inv hw' other /\
     HimemBlock.contents hw' other = HimemBlock.contents hw other).
Proof.
  intros Hsz Hwf Hinv1 Hinv2 Hne Htemp Hrun. unfold copy_element in Hrun.
  destruct (HimemBlock.read temp (Word.mul i sizeof_T) sizeof_T m1 hw)
    as [[[n1 temp1] m1a] hwa] eqn:Hread.
  destruct (HimemBlock.write temp1 (Word.mul i sizeof_T) sizeof_T m2 hwa)
    as [[n2 m2b] hwb] eqn:Hwrite.
  injection Hrun as <- <- <- <-.
  assert (Hoff : 0 <= Word.mul i sizeof_T < Word.modulus) by apply wrap_range.
  assert (Hlen : 0 <= sizeof_T < Word.modulus) by lia.
  destruct (read_spec _ _ _ _ _ _ _ _ _ Hwf Hinv1 Hoff Hlen Hread)
    as (Hwfa & Hinv1a & Hfra & Hh1a & Hs1a & Hrga & Hla & Hn & _ & Hdest & _).
  assert (Htemp1 : Z.of_nat (length temp1) = sizeof_T).
  { pose proof (MemFacts.load_length (HimemBlock.contents hw m1)
                  (Word.mul i sizeof_T) n1 ltac:(lia)) as Hload.
    rewrite Hdest, buf_write_length; [done|lia|lia]. }
  assert (Hinv2a : HimemBlock.inv hwa m2).
  { apply (inv_frame _ _ _ _ Hinv2 Hfra). congruence. }
  assert (Hsrc : sizeof_T <= Z.of_nat (length temp1)) by lia.
  destruct (write_spec _ _ _ _ _ _ _ _ Hwfa Hinv2a Hoff Hlen Hsrc Hwrite)
    as (Hwfb & Hinv2b & Hfrb & Hh2b & Hs2b & Hlb & _).
  split.
  - intros h Hn1 Hn2. destruct Hfrb as [Hfrb _]. rewrite Hfrb by done. by rewrite Hrga.
  - intros other Hinvo Ho1 Ho2.
    assert (Hinvoa : HimemBlock.inv hwa other) by (by apply (inv_frame _ _ _ _ Hinvo Hfra)).
    split.
    + by apply (inv_frame _ _ _ _ Hinvoa Hfrb).
    + rewrite (contents_frame _ _ _ _ Hfrb) by done.
      by rewrite (contents_frame _ _ _ _ Hfra).
Qed.

Lemma copy_elements_aside : forall (n : nat) i temp m1 m2 hw temp' m1' m2' hw',
  sizeof_T < Word.modulus ->
  wf hw -> HimemBlock.inv hw m1 -> HimemBlock.inv hw m2 ->
  HimemBlock.handle m1 <> HimemBlock.handle m2 ->
  Z.of_nat (length temp) = sizeof_T ->
  for_up n i (copy_element sizeof_T) (temp, m1, m2, hw) = (temp', m1', m2', hw') ->
  (forall h, h <> HimemBlock.handle m1 -> h <> HimemBlock.handle m2 ->
     regions hw' !! h = regions hw !! h) /\
  (forall other, HimemBlock.inv hw other ->
     HimemBlock.handle other <> HimemBlock.handle m1 ->
     HimemBlock.handle other <> HimemBlock.handle m2 ->
     HimemBlock.inv hw' other /\
     HimemBlock.contents hw' other = HimemBlock.contents hw other).
Proof.
  induction n as [|n IH];
    intros i temp m1 m2 hw temp' m1' m2' hw' Hsz Hwf Hinv1 Hinv2 Hne Htemp Hrun.
  - simpl in Hrun. injection Hrun as <- <- <- <-. split; [done|]. by intros.
  - cbn [for_up] in Hrun.
    destruct (copy_element sizeof_T i (temp, m1, m2, hw))
      as [[[temp1 m1a] m2a] hwa] eqn:Hstep.
    destruct (copy_element_sizes sizeof_T sizeof_pos _ _ _ _ _ _ _ _ _
                Hsz Hwf Hinv1 Hinv2 Hne Htemp Hstep)
      as (Hwfa & Hinv1a & Hinv2a & Hla & [Hh1a Hs1a] & [Hh2a Hs2a] & Htemp1).
    destruct (copy_element_aside _ _ _ _ _ _ _ _ _ Hsz Hwf Hinv1 Hinv2 Hne Htemp Hstep)
      as [Hrga Hoa].
    apply IH in Hrun; try done; try congruence.
    destruct Hrun as [Hrg' Ho']. split.
    + intros h Hn1 Hn2. rewrite Hrg' by congruence. by apply Hrga.
    + intros other Hinvo Ho1 Ho2.
      destruct (Hoa other Hinvo Ho1 Ho2) as [Hinvoa Hca].
      destruct (Ho' other Hinvoa ltac:(congruence) ltac:(congruence)) as [Hinvo' Hc'].
      split; [done|congruence].
Qed.

Lemma reallocate_aside nc v hw ok v' hw' :
  wf hw -> inv sizeof_T hw v -> allocating hw ->
  element_capacity v < nc -> fits sizeof_T nc ->
  reallocate sizeof_T nc v hw = (ok, v', hw') ->
  HimemBlock.handle (memory v') <> 0 /\
  regions hw !! HimemBlock.handle (memory v') = None /\
  (HimemBlock.handle (memory v) <> 0 ->
   regions hw' !! HimemBlock.handle (memory v) = None) /\
  (forall h, h <> HimemBlock.handle (memory v) -> h <> HimemBlock.handle (memory v') ->
     regions hw' !! h = regions hw !! h) /\
  (forall other, HimemBlock.inv hw other -> HimemBlock.handle other <> 0 ->
     HimemBlock.handle other <> HimemBlock.handle (memory v) ->
     HimemBlock.inv hw' other /\
     HimemBlock.contents hw' other = HimemBlock.contents hw other /\
     HimemBlock.handle other <> HimemBlock.handle (memory v')).
Proof.
  intros Hwf Hvinv Hgr Hnc Hfits Hrun.
  pose proof Hvinv as (Hinv & Hcount & Hcap & Hnull & Hmincap).
  assert (Hsz : sizeof_T < Word.modulus).
  { unfold fits, min_elements in Hfits. rewrite blksz_eq in Hfits. nia. }
  unfold reallocate in Hrun.
  assert (E : (nc <=? element_capacity v) = false) by (apply Z.leb_gt; lia).
  rewrite E in Hrun. clear E.
  set (bytes := calculate_size_bytes sizeof_T (Z.max nc min_elements)) in *.
  destruct (HimemBlock.allocate bytes HimemBlock.init hw) as [[ok1 m2] hw1] eqn:Halloc.
  destruct (allocate_spec _ _ _ _ _ _ Hwf (init_inv _ Hwf) Halloc)
    as (Hwf1 & Hinv2 & Hrn1 & Hl1 & _ & Hsize2 & Hok & _ & Hmust & _).
  rewrite (Hmust Hgr eq_refl) in *. simpl in Hrun.
  destruct (Hok eq_refl) as (_ & Hh2 & Hfresh & Hrg1 & Hfr1 & _).
  assert (Hne : HimemBlock.handle (memory v) <> HimemBlock.handle m2).
  { intros Heq. destruct Hinv as (_ & _ & Hreg & _).
    destruct Hreg as (rg & Hrg & _); [congruence|]. congruence. }
  assert (Hinv1 : HimemBlock.inv hw1 (memory v)) by (by apply (inv_frame _ _ _ _ Hinv Hfr1)).
  match type of Hrun with
  | context [if 0 <? ?c then ?a else ?b] =>
      destruct (if 0 <? c then a else b) as [[[temp' m1'] m2'] hw2] eqn:Hcopy
  end.
  assert (Hphase :
    wf hw2 /\ HimemBlock.inv hw2 m1' /\ HimemBlock.inv hw2 m2' /\
    same_block (memory v) m1' /\ same_block m2 m2' /\
    (forall h, h <> HimemBlock.handle (memory v) -> h <> HimemBlock.handle m2 ->
       regions hw2 !! h = regions hw1 !! h) /\
    (forall other, HimemBlock.inv hw1 other ->
       HimemBlock.handle other <> HimemBlock.handle (memory v) ->
       HimemBlock.handle other <> HimemBlock.handle m2 ->
       HimemBlock.inv hw2 other /\
       HimemBlock.contents hw2 other = HimemBlock.contents hw1 other)).
  { destruct (0 <? element_count v).
    - pose proof (copy_elements_sizes sizeof_T sizeof_pos _ _ _ _ _ _ _ _ _ _
                    Hsz Hwf1 Hinv1 Hinv2 Hne (uninitialized_length sizeof_T sizeof_pos) Hcopy)
        as (Hwf2 & Hinv1' & Hinv2' & _ & Hb1 & Hb2).
      pose proof (copy_elements_aside _ _ _ _ _ _ _ _ _ _
                    Hsz Hwf1 Hinv1 Hinv2 Hne (uninitialized_length sizeof_T sizeof_pos) Hcopy)
        as [Hrg2 Ho2].
      split_and!; done.
    - injection Hcopy as <- <- <- <-. split_and!; done. }
  clear Hcopy.
  destruct Hphase as (Hwf2 & Hinv1' & Hinv2' & [Hh1' Hs1'] & [Hh2' Hs2'] & Hrg2 & Ho2).
  unfold HimemBlock.move_assign in Hrun.
  destruct (HimemBlock.free m1' hw2) as [m1'' hw3] eqn:Hfree.
  destruct (free_spec _ _ _ _ Hwf2 Hinv1' Hfree)
    as (Hwf3 & _ & _ & Hfr3 & _ & Hor3 & Hfreed).
  rewrite free_unallocated in Hrun by done.
  injection Hrun as <- <- <-. simpl.
  split_and!.
  - congruence.
  - congruence.
  - intros Hold. destruct (Hfreed ltac:(congruence)) as [_ Hdel].
    rewrite Hdel, Hh1'. apply lookup_delete_eq.
  - intros h Hn1 Hn2. destruct Hfr3 as [Hfr3 _].
    rewrite Hfr3 by congruence. rewrite Hrg2 by congruence.
    destruct Hfr1 as [Hfr1 _]. apply Hfr1. congruence.
  - intros other Hinvo Ho Hon.
    assert (Hofresh : HimemBlock.handle other <> HimemBlock.handle m2).
    { intros Heq. destruct Hinvo as (_ & _ & Hreg & _).
      destruct (Hreg Ho) as (rg & Hrg & _). congruence. }
    assert (Hinvo1 : HimemBlock.inv hw1 other) by (by apply (inv_frame _ _ _ _ Hinvo Hfr1)).
    destruct (Ho2 other Hinvo1 Hon Hofresh) as [Hinvo2 Hc2].
    split_and!.
    + apply (inv_frame _ _ _ _ Hinvo2 Hfr3). congruence.
    + rewrite (contents_frame _ _ _ _ Hfr3) by congruence.
      rewrite Hc2. by apply (contents_frame _ _ _ _ Hfr1).
    + congruence.
Qed.

(** *** Copies *)

Lemma copy_from_spec v other hw :
  wf hw -> inv sizeof_T hw v -> inv sizeof_T hw other -> granting hw ->
  element_count v = 0 -> 0 < element_count other ->
  fits sizeof_T (element_count other) ->
  HimemBlock.handle (memory other) <> HimemBlock.handle (memory v) ->
  exists v' other' hw',
    copy_from sizeof_T v other hw = (v', other', hw') /\
    wf hw' /\ inv sizeof_T hw' v' /\ inv sizeof_T hw' other' /\ mapping hw' /\
    element_count v' = element_count other /\
    element_count other' = element_count other /\
    element_capacity other' = element_capacity other /\
    same_block (memory other) (memory other') /\
    HimemBlock.handle (memory v') <> HimemBlock.handle (memory other') /\
    (element_count other <= element_capacity v ->
     element_capacity v' = element_capacity v /\
     HimemBlock.handle (memory v') = HimemBlock.handle (memory v)) /\
    (forall k, 0 <= k < element_count other ->
       element hw' (memory v') k = element hw (memory other) k) /\
    (forall k, 0 <= k ->
       element hw' (memory other') k = element hw (memory other) k).
Proof.
  intros Hwf Hvinv Hoinv Hgr Hempty Hn Hfit Hne. unfold copy_from.
  assert (E : (0 <? element_count other) = true) by (by apply Z.ltb_lt).
  rewrite E.
  pose proof Hoinv as (Hinvo & Hcounto & Hcapo & Hnullo & Hmino).
  destruct (inv_slots sizeof_T sizeof_pos _ _ Hoinv) as (Hslotso & Hcslotso & Hliveo).
  assert (Hho : HimemBlock.handle (memory other) <> 0) by (apply Hliveo; lia).
  assert (Hgrown : exists v1 hw1,
    reallocate sizeof_T (element_count other) v hw = (true, v1, hw1) /\
    wf hw1 /\ inv sizeof_T hw1 v1 /\ mapping hw1 /\
    element_count other <= element_capacity v1 /\
    HimemBlock.inv hw1 (memory other) /\
    HimemBlock.contents hw1 (memory other) = HimemBlock.contents hw (memory other) /\
    HimemBlock.handle (memory other) <> HimemBlock.handle (memory v1) /\
    (element_count other <= element_capacity v -> v1 = v)).
  { destruct (Z.le_gt_cases (element_count other) (element_capacity v)) as [Hroom|Hgrow].
    - rewrite (reallocate_noop sizeof_T _ v hw Hroom).
      exists v, hw. split_and!; try done. apply Hgr.
    - destruct (reallocate sizeof_T (element_count other) v hw) as [[ok v1] hw1] eqn:Hre.
      assert (Hlt : element_capacity v < element_count other) by lia.
      destruct (reallocate_grow sizeof_T sizeof_pos _ _ _ _ _ _ Hwf Hvinv Hgr Hlt Hfit Hre)
        as (-> & Hwf1 & Hvinv1 & Hl & _ & Hcap1 & _).
      destruct (reallocate_aside _ _ _ _ _ _ Hwf Hvinv (proj1 Hgr) Hlt Hfit Hre)
        as (_ & _ & _ & _ & Haside).
      destruct (Haside (memory other) Hinvo Hho Hne) as (Hinvo1 & Hco1 & Hne1).
      assert (Hn0 : 0 <= element_count other) by lia.
      destruct (fits_bounds sizeof_T sizeof_pos _ Hn0 Hfit) as (_ & _ & Hge & _).
      exists v1, hw1. split_and!; try done; try lia.
      apply (mapping_later hw); [done|apply Hgr]. }
  destruct Hgrown
    as (v1 & hw1 & -> & Hwf1 & Hvinv1 & Hmp1 & Hcap1 & Hinvo1 & Hco1 & Hne1 & Hsame).
  simpl.
  pose proof Hvinv1 as (Hinv1 & Hcount1 & Hcapeq1 & Hnull1 & Hmin1).
  destruct (inv_slots sizeof_T sizeof_pos _ _ Hvinv1) as (Hslots1 & _ & Hlive1).
  assert (Hh1 : HimemBlock.handle (memory v1) <> 0) by (apply Hlive1; lia).
  destruct (for_up (Z.to_nat (element_count other)) 0 (copy_element sizeof_T)
              (uninitialized sizeof_T, memory other, memory v1, hw1))
    as [[[temp' mo'] m'] hw'] eqn:Hloop.
  assert (Hfit1 : (0 + Z.of_nat (Z.to_nat (element_count other))) * sizeof_T
                  <= HimemBlock.size (memory other)).
  { rewrite Z2Nat.id by lia. lia. }
  assert (Hfit2 : (0 + Z.of_nat (Z.to_nat (element_count other))) * sizeof_T
                  <= HimemBlock.size (memory v1)).
  { rewrite Z2Nat.id by lia. nia. }
  destruct (copy_elements_spec sizeof_T sizeof_pos _ _ _ _ _ _ _ _ _ _
              Hwf1 Hinvo1 Hinv1 Hmp1 Hho Hh1 Hne1 (Z.le_refl 0) Hfit1 Hfit2
              (uninitialized_length sizeof_T sizeof_pos) Hloop)
    as (Hwf' & Hinvo' & Hinv' & Hl' & [Hho' Hso'] & [Hh' Hs'] & _ & Helo & Hel).
  eexists _, _, hw'. split; [reflexivity|]. simpl.
  assert (Hc1 : forall k, element hw1 (memory other) k = element hw (memory other) k).
  { intros k. unfold VectorHIMEM.element. by rewrite Hco1. }
  split_and!; try done.
  all: try (by apply (mapping_later hw1)).
  - unfold inv; simpl. rewrite Hs', Hh'. split_and!; try done; lia.
  - unfold inv; simpl. rewrite Hso', Hho'. split_and!; try done; lia.
  - congruence.
  - intros Hroom. rewrite (Hsame Hroom) in *. split; [done|congruence].
  - intros k Hk. rewrite Hel by lia.
    destruct (decide (0 <= k < 0 + Z.of_nat (Z.to_nat (element_count other)))); [|lia].
    apply Hc1.
  - intros k Hk. rewrite Helo by done. apply Hc1.
Qed.

Lemma copy_from_denied v other hw :
  denying hw -> 0 < element_count other ->
  element_capacity v < element_count other ->
  exists hw', copy_from sizeof_T v other hw = (v, other, hw') /\ same_memory hw hw'.
Proof.
  intros Hden Hn Hcap. unfold copy_from.
  assert (E : (0 <? element_count other) = true) by (by apply Z.ltb_lt).
  rewrite E.
  destruct (reallocate sizeof_T (element_count other) v hw) as [[ok v1] hw1] eqn:Hre.
  destruct (reallocate_denied sizeof_T _ _ _ _ _ _ Hden Hcap Hre)
    as (-> & -> & Hrg & Hrn & Hf & _).
  exists hw1. simpl. by split.
Qed.

(** X17. The copy constructor: the copy of an empty array is the empty
    array and nothing is touched.  With the region and every mapping
    request granted, the copy holds the same number of elements as the
    source, index by index they read the same, the source still reads as
    before, and the copy lives in a region of its own whose capacity is
    computed from the size of the source, not taken from its capacity.
    When the hardware denies the region the copy is the empty array,
    without any signal. *)
Theorem copy_construct_copies (temp : list byte) (other : t) (hw : state) :
  (size other <= 0 -> copy_construct sizeof_T other hw = (init, other, hw)) /\
  (wf hw -> inv sizeof_T hw other -> granting hw -> 0 < size other ->
   fits sizeof_T (size other) -> Z.of_nat (length temp) = sizeof_T ->
   exists v other' hw',
     copy_construct sizeof_T other hw = (v, other', hw') /\
     size v = size other /\ size other' = size other /\
     capacity v = capacity_for sizeof_T (size other) /\
     HimemBlock.handle (memory v) <> HimemBlock.handle (memory other') /\
     inv sizeof_T hw' v /\ inv sizeof_T hw' other' /\
     forall i, 0 <= i < size other ->
       read_at temp i v hw' = read_at temp i other hw /\
       read_at temp i other' hw' = read_at temp i other hw) /\
  (denying hw -> 0 < size other ->
   exists hw',
     copy_construct sizeof_T other hw = (init, other, hw') /\ same_memory hw hw').
Proof.
  unfold size, capacity. split_and!.
  - intros H. unfold copy_construct, copy_from.
    assert (E : (0 <? element_count other) = false) by (apply Z.ltb_ge; lia).
    by rewrite E.
  - intros Hwf Hoinv Hgr Hn Hfit Htemp.
    pose proof Hoinv as (Hinvo & Hcounto & _).
    destruct (inv_slots sizeof_T sizeof_pos _ _ Hoinv) as (_ & _ & Hliveo).
    assert (Hho : HimemBlock.handle (memory other) <> HimemBlock.handle (memory init)).
    { simpl. apply Hliveo. lia. }
    destruct (copy_from_spec init other hw Hwf (init_inv_vector hw Hwf) Hoinv Hgr
                eq_refl Hn Hfit Hho)
      as (v & other' & hw' & Hrun & Hwf' & Hvinv' & Hoinv' & Hmp' & Hc & Hco & Hcapo
          & _ & Hne' & _ & Hel & Helo).
    exists v, other', hw'. split; [exact Hrun|].
    pose proof Hvinv' as (_ & Hcount' & _).
    split_and!; try done.
    + unfold copy_construct, copy_from in Hrun.
      assert (E : (0 <? element_count other) = true) by (by apply Z.ltb_lt).
      rewrite E in Hrun.
      destruct (reallocate sizeof_T (element_count other) init hw)
        as [[ok v1] hw1] eqn:Hre.
      assert (Hlt : element_capacity init < element_count other) by (simpl; lia).
      destruct (reallocate_grow sizeof_T sizeof_pos _ _ _ _ _ _ Hwf
                  (init_inv_vector hw Hwf) Hgr Hlt Hfit Hre)
        as (-> & _ & _ & _ & _ & Hcap1 & _).
      simpl in Hrun.
      destruct (for_up _ _ _ _) as [[[temp' mo'] m'] hw2].
      injection Hrun as <- <- <-. simpl. done.
    + intros i Hi.
      rewrite !(read_at_spec sizeof_T sizeof_pos)
        by (try done; try apply Hgr; lia).
      rewrite Hel by lia. rewrite Helo by lia. done.
  - intros Hden Hn. apply copy_from_denied; try done.
Qed.


(** *** Regions held *)

Lemma push_back_regions value v hw v' hw' :
  wf hw -> inv sizeof_T hw v -> allocating hw -> growth_fits sizeof_T v ->
  Z.of_nat (length value) = sizeof_T ->
  push_back sizeof_T value v hw = (v', hw') ->
  wf hw' /\ inv sizeof_T hw' v' /\
  HimemBlock.handle (memory v') <> 0 /\
  (element_capacity v <= element_count v ->
   regions hw !! HimemBlock.handle (memory v') = None /\
   (HimemBlock.handle (memory v) <> 0 ->
    regions hw' !! HimemBlock.handle (memory v) = None)) /\
  (element_count v < element_capacity v ->
   HimemBlock.handle (memory v') = HimemBlock.handle (memory v)) /\
  (forall h, h <> HimemBlock.handle (memory v) -> h <> HimemBlock.handle (memory v') ->
     regions hw' !! h = regions hw !! h).
Proof.
  intros Hwf Hvinv Hgr Hfits Hval Hrun.
  pose proof (push_back_sizes sizeof_T sizeof_pos _ _ _ _ _ Hwf Hvinv Hgr Hfits Hval Hrun)
    as (Hwf' & Hvinv' & _).
  split; [done|]. split; [done|].
  unfold push_back in Hrun.
  destruct (grow_if_full sizeof_T v hw) as [[ok v1] hw1] eqn:Hgrow.
  destruct (grow_if_full_sizes sizeof_T sizeof_pos _ _ _ _ _ Hwf Hvinv Hgr Hfits Hgrow)
    as (-> & Hwf1 & Hvinv1 & Hl1 & Hc1 & Hroom & Hcap1 & _).
  simpl in Hrun.
  pose proof Hvinv as (_ & Hcount & _).
  pose proof Hvinv1 as (Hinv1 & Hcount1 & Hcapeq1 & Hnull1 & Hmincap1).
  destruct (inv_slots sizeof_T sizeof_pos _ _ Hvinv1) as (Hslots1 & _ & Hlive1).
  assert (Hh1 : HimemBlock.handle (memory v1) <> 0) by (apply Hlive1; lia).
  destruct (HimemBlock.write value (Word.mul (element_count v1) sizeof_T) sizeof_T
              (memory v1) hw1) as [[n m'] hw2] eqn:Hwrite.
  assert (Hoff : 0 <= Word.mul (element_count v1) sizeof_T < Word.modulus)
    by apply wrap_range.
  assert (Hlen : 0 <= sizeof_T < Word.modulus).
  { destruct Hinv1 as (Hsz & _). nia. }
  assert (Hsrc : sizeof_T <= Z.of_nat (length value)) by lia.
  destruct (write_spec _ _ _ _ _ _ _ _ Hwf1 Hinv1 Hoff Hlen Hsrc Hwrite)
    as (_ & _ & [Hfr _] & Hh2 & _).
  injection Hrun as <- <-. simpl. rewrite Hh2.
  unfold grow_if_full in Hgrow.
  destruct (element_capacity v <=? element_count v) eqn:Hfull.
  - apply Z.leb_le in Hfull.
    destruct (growth_request_small sizeof_T sizeof_pos v ltac:(lia) (Hfits Hfull))
      as (Hreq & Hlt & Hfit).
    fold (growth_request v) in Hgrow.
    destruct (reallocate_aside _ _ _ _ _ _ Hwf Hvinv Hgr Hlt Hfit Hgrow)
      as (_ & Hfresh & Hgone & Hrest & _).
    split_and!; try done; try lia.
    + intros _. split; [done|]. intros Hold.
      assert (Hne : HimemBlock.handle (memory v) <> HimemBlock.handle (memory v1)).
      { intros Heq. destruct Hvinv as ((_ & _ & Hreg & _) & _).
        destruct (Hreg Hold) as (rg & Hrg & _). congruence. }
      rewrite Hfr by done. by apply Hgone.
    + intros h Hn1 Hn2. rewrite Hfr by done. by apply Hrest.
  - apply Z.leb_gt in Hfull. injection Hgrow as <- <-.
    split_and!; try done; try lia.
    intros h Hn1 Hn2. by apply Hfr.
Qed.

(** X19. Growth does not leak: with every region granted (whatever the
    mapping requests are answered), a [push_back] that finds the array
    full moves it to a region the driver did not hold before and releases
    the old one; a [push_back] that finds room keeps the region; no other
    region is touched.  So an array that is alone on the hardware holds
    exactly one region after every [push_back]. *)
Theorem push_back_holds_one_region (value : list byte) (v : t) (hw : state) :
  wf hw -> inv sizeof_T hw v -> allocating hw -> growth_fits sizeof_T v ->
  Z.of_nat (length value) = sizeof_T ->
  exists v' hw',
    push_back sizeof_T value v hw = (v', hw') /\
    is_Some (regions hw' !! HimemBlock.handle (memory v')) /\
    (capacity v <= size v ->
     regions hw !! HimemBlock.handle (memory v') = None /\
     (HimemBlock.handle (memory v) <> 0 ->
      regions hw' !! HimemBlock.handle (memory v) = None)) /\
    (size v < capacity v ->
     HimemBlock.handle (memory v') = HimemBlock.handle (memory v)) /\
    (forall h, h <> HimemBlock.handle (memory v) ->
               h <> HimemBlock.handle (memory v') ->
       regions hw' !! h = regions hw !! h) /\
    ((forall h, h <> HimemBlock.handle (memory v) -> regions hw !! h = None) ->
     forall h, h <> HimemBlock.handle (memory v') -> regions hw' !! h = None).
Proof.
  unfold size, capacity. intros Hwf Hvinv Hgr Hfits Hval.
  destruct (push_back sizeof_T value v hw) as [v' hw'] eqn:Hrun.
  destruct (push_back_regions _ _ _ _ _ Hwf Hvinv Hgr Hfits Hval Hrun)
    as (Hwf' & Hvinv' & Hh' & Hfull & Hroom & Hrest).
  exists v', hw'. split_and!; try done.
  - destruct Hvinv' as ((_ & _ & Hreg & _) & _).
    destruct (Hreg Hh') as (rg & Hrg & _). by exists rg.
  - intros Halone h Hne.
    destruct (decide (h = HimemBlock.handle (memory v))) as [->|Hold].
    + destruct (decide (HimemBlock.handle (memory v) = 0)) as [Hz|Hnz].
      * rewrite Hz. apply Hwf'.
      * destruct (Z.le_gt_cases (element_capacity v) (element_count v)) as [Hf|Hr].
        -- by apply (proj2 (Hfull Hf)).
        -- exfalso. apply Hne. symmetry. apply Hroom. lia.
    + rewrite Hrest by done. by apply Halone.
Qed.

Lemma destroy_spec v hw :
  wf hw -> inv sizeof_T hw v ->
  wf (destroy v hw) /\
  regions (destroy v hw) = delete (HimemBlock.handle (memory v)) (regions hw) /\
  mappings_of (destroy v hw) (HimemBlock.handle (memory v)) = [] /\
  frame (HimemBlock.handle (memory v)) hw (destroy v hw) /\
  calls_since (trace hw) (destroy v hw) =
    (if HimemBlock.handle (memory v) =? 0 then []
     else HimemBlock.unmap_calls (memory v)
          ++ [(Free (HimemBlock.handle (memory v)), ESP_OK)]).
Proof.
  intros Hwf (Hinv & _). unfold destroy. simpl.
  destruct (HimemBlock.free (memory v) hw) as [m1 hw1] eqn:Hfree. simpl.
  destruct (free_spec _ _ _ _ Hwf Hinv Hfree)
    as (Hwf1 & _ & _ & Hfr & _ & _ & Hfreed).
  destruct (HimemBlock.handle (memory v) =? 0) eqn:E.
  - apply Z.eqb_eq in E. rewrite (free_unallocated _ _ E) in Hfree.
    injection Hfree as <- <-. rewrite E.
    split_and!; try done.
    + symmetry. apply delete_id. apply Hwf.
    + apply mappings_of_nil. intros r o Hr.
      destruct Hwf as (Hz & _ & Hlive & _). apply Hlive in Hr as [rg Hrg]. congruence.
    + unfold calls_since. apply drop_all.
  - apply Z.eqb_neq in E. destruct (Hfreed E) as [_ Hrg].
    split_and!; try done.
    + apply mappings_of_nil. intros r o Hr.
      destruct Hwf1 as (_ & _ & Hlive & _). apply Hlive in Hr as [rg Hrg'].
      rewrite Hrg, lookup_delete_eq in Hrg'. done.
    + unfold calls_since. rewrite (free_trace _ _ _ _ Hwf Hinv E Hfree).
      by rewrite drop_app_length.
Qed.

(** X20. The destructor releases what the array holds: the window is
    unmapped, the region is handed back to the driver exactly once, and
    nothing of it is left; an array that never grew costs no driver call.
    No other region is touched. *)
Theorem destroy_releases_region (v : t) (hw : state) :
  wf hw -> inv sizeof_T hw v ->
  wf (destroy v hw) /\
  regions (destroy v hw) = delete (HimemBlock.handle (memory v)) (regions hw) /\
  mappings_of (destroy v hw) (HimemBlock.handle (memory v)) = [] /\
  calls_since (trace hw) (destroy v hw) =
    (if HimemBlock.handle (memory v) =? 0 then []
     else HimemBlock.unmap_calls (memory v)
          ++ [(Free (HimemBlock.handle (memory v)), ESP_OK)]).
Proof.
  intros Hwf Hvinv.
  destruct (destroy_spec v hw Hwf Hvinv) as (H1 & H2 & H3 & _ & H4).
  by split_and!.
Qed.

(** X21. Move assignment between two distinct arrays transfers the block
    and copies no element: the region the target held is released, the
    target takes over the block, size and capacity of the source, with
    every element and the mapped window as they were, no other region is
    touched, and the source is left as a default-constructed array. *)
Theorem move_assign_transfers_the_block (v other : t) (hw : state) :
  wf hw -> inv sizeof_T hw v -> inv sizeof_T hw other ->
  (HimemBlock.handle (memory v) <> 0 ->
   HimemBlock.handle (memory other) <> HimemBlock.handle (memory v)) ->
  exists hw',
    move_assign v other hw = (other, init, hw') /\
    wf hw' /\ inv sizeof_T hw' other /\ inv sizeof_T hw' init /\
    regions hw' = delete (HimemBlock.handle (memory v)) (regions hw) /\
    (forall k, element hw' (memory other) k = element hw (memory other) k) /\
    (forall b, HimemBlock.mapped_at hw (memory other) b ->
               HimemBlock.mapped_at hw' (memory other) b).
Proof.
  intros Hwf Hvinv Hoinv Hne.
  pose proof Hvinv as (Hinv & _).
  pose proof Hoinv as (Hinvo & Hcounto & Hcapo & Hnullo & Hmino).
  unfold move_assign, HimemBlock.move_assign. simpl.
  destruct (HimemBlock.free (memory v) hw) as [m1 hw'] eqn:Hfree.
  exists hw'. split; [by destruct other|].
  destruct (decide (HimemBlock.handle (memory v) = 0)) as [Hz|Hnz].
  - rewrite (free_unallocated _ _ Hz) in Hfree. injection Hfree as <- <-.
    split_and!; try done.
    + by apply init_inv_vector.
    + rewrite Hz. symmetry. apply delete_id. apply Hwf.
  - destruct (free_spec _ _ _ _ Hwf Hinv Hfree)
      as (Hwf' & _ & _ & Hfr & _ & _ & Hfreed).
    destruct (Hfreed Hnz) as [_ Hrg].
    assert (Hinvo' : HimemBlock.inv hw' (memory other)).
    { apply (inv_frame _ _ _ _ Hinvo Hfr). by apply Hne. }
    split_and!; try done.
    + by apply init_inv_vector.
    + intros k. unfold VectorHIMEM.element.
      rewrite (contents_frame _ _ _ _ Hfr); [done|by apply Hne].
    + intros b Hat. by apply (HimemBlockExtras.mapped_at_kept hw).
Qed.

(** *** Comparison *)

Lemma equal_loop_spec : forall (n : nat) i result lhs rhs hw,
  wf hw -> mapping hw -> inv sizeof_T hw lhs -> inv sizeof_T hw rhs ->
  HimemBlock.handle (memory lhs) <> HimemBlock.handle (memory rhs) ->
  Z.of_nat (length result) = sizeof_T ->
  0 <= i -> i + Z.of_nat n <= element_count lhs ->
  i + Z.of_nat n <= element_count rhs ->
  exists b result' lhs' rhs' hw',
    equal_loop sizeof_T n i result lhs rhs hw = (b, result', lhs', rhs', hw') /\
    (b = true <->
     forall k, i <= k < i + Z.of_nat n ->
       element hw (memory lhs) k = element hw (memory rhs) k) /\
    wf hw' /\ inv sizeof_T hw' lhs' /\ inv sizeof_T hw' rhs' /\
    regions hw' = regions hw /\
    HimemBlock.handle (memory lhs') = HimemBlock.handle (memory lhs) /\
    HimemBlock.handle (memory rhs') = HimemBlock.handle (memory rhs) /\
    element_count lhs' = element_count lhs /\
    element_count rhs' = element_count rhs /\
    element_capacity lhs' = element_capacity lhs /\
    element_capacity rhs' = element_capacity rhs.
Proof.
  induction n as [|n IH];
    intros i result lhs rhs hw Hwf Hmap Hlinv Hrinv Hne Hres Hi Hnl Hnr.
  - exists true, result, lhs, rhs, hw. simpl. split_and!; try done.
    split; [intros _ k Hk; lia|done].
  - cbn [equal_loop].
    pose proof Hlinv as (Hinvl & Hcountl & Hcapl & Hnulll & Hminl).
    pose proof Hrinv as (Hinvr & Hcountr & Hcapr & Hnullr & Hminr).
    destruct (inv_slots sizeof_T sizeof_pos _ _ Hlinv) as (_ & Hslotl & Hlivel).
    destruct (inv_slots sizeof_T sizeof_pos _ _ Hrinv) as (_ & Hslotr & Hliver).
    assert (Hhl : HimemBlock.handle (memory lhs) <> 0) by (apply Hlivel; lia).
    assert (Hhr : HimemBlock.handle (memory rhs) <> 0) by (apply Hliver; lia).
    assert (Hfitl : (i + 1) * sizeof_T <= HimemBlock.size (memory lhs)) by nia.
    assert (Hfitr : (i + 1) * sizeof_T <= HimemBlock.size (memory rhs)) by nia.
    destruct (HimemBlock.read result (Word.mul i sizeof_T) sizeof_T (memory lhs) hw)
      as [[[n1 result1] ml] hw1] eqn:Hread1.
    destruct (read_element sizeof_T sizeof_pos _ _ _ _ _ _ _ _
                (conj Hwf (conj Hinvl Hmap)) Hhl Hi Hfitl Hres Hread1)
      as (_ & -> & (Hwf1 & Hinvl1 & Hmap1) & [Hhl1 Hsl1] & Hrg1 & Hfr1 & _).
    assert (Hinvr1 : HimemBlock.inv hw1 (memory rhs)).
    { apply (inv_frame _ _ _ _ Hinvr Hfr1). congruence. }
    assert (Hres1 : Z.of_nat (length (element hw (memory lhs) i)) = sizeof_T)
      by (apply element_length; lia).
    destruct (HimemBlock.read (element hw (memory lhs) i) (Word.mul i sizeof_T)
                sizeof_T (memory rhs) hw1)
      as [[[n2 result2] mr] hw2] eqn:Hread2.
    destruct (read_element sizeof_T sizeof_pos _ _ _ _ _ _ _ _
                (conj Hwf1 (conj Hinvr1 Hmap1)) Hhr Hi Hfitr Hres1 Hread2)
      as (_ & -> & (Hwf2 & Hinvr2 & Hmap2) & [Hhr2 Hsr2] & Hrg2 & Hfr2 & _).
    assert (Hel : element hw1 (memory rhs) i = element hw (memory rhs) i).
    { unfold VectorHIMEM.element.
      by rewrite (contents_same hw hw1 (memory rhs) (memory rhs)). }
    rewrite Hel.
    assert (Hinvl2 : HimemBlock.inv hw2 ml).
    { apply (inv_frame _ _ _ _ Hinvl1 Hfr2). congruence. }
    set (lhs1 := {| memory := ml; element_count := element_count lhs;
                    element_capacity := element_capacity lhs |}).
    set (rhs1 := {| memory := mr; element_count := element_count rhs;
                    element_capacity := element_capacity rhs |}).
    assert (Hlinv2 : inv sizeof_T hw2 lhs1).
    { unfold inv, lhs1; simpl. rewrite Hsl1, Hhl1. done. }
    assert (Hrinv2 : inv sizeof_T hw2 rhs1).
    { unfold inv, rhs1; simpl. rewrite Hsr2, Hhr2. done. }
    assert (Hrg : regions hw2 = regions hw) by congruence.
    destruct (same_bytes (element hw (memory lhs) i) (element hw (memory rhs) i))
      eqn:Hsame; simpl.
    + apply same_bytes_eq in Hsame.
      assert (Hmod : i + 1 < Word.modulus).
      { destruct Hinvl as (Hsz & _).
        assert (i + 1 <= HimemBlock.size (memory lhs)) by nia. lia. }
      rewrite (add_small i 1) by lia.
      assert (Hres2 : Z.of_nat (length (element hw (memory rhs) i)) = sizeof_T)
        by (apply element_length; lia).
      destruct (IH (i + 1) (element hw (memory rhs) i) lhs1 rhs1 hw2)
        as (b & result' & lhs' & rhs' & hw' & Hrun & Hiff & Hwf' & Hlinv' & Hrinv'
            & Hrg' & Hhl' & Hhr' & Hcl' & Hcr' & Hkl' & Hkr');
        try done; try (simpl; congruence); try (simpl; lia).
      exists b, result', lhs', rhs', hw'. split; [done|].
      split_and!; try done; try congruence;
        try (rewrite Hhl'; simpl; congruence); try (rewrite Hhr'; simpl; congruence).
      rewrite Hiff. split.
      * intros Hall k Hk. destruct (decide (k = i)) as [->|Hki]; [done|].
        specialize (Hall k ltac:(lia)). unfold VectorHIMEM.element in *.
        simpl in Hall.
        by rewrite (contents_same hw hw2 (memory lhs) ml),
                   (contents_same hw hw2 (memory rhs) mr) in Hall.
      * intros Hall k Hk. specialize (Hall k ltac:(lia)).
        unfold VectorHIMEM.element in *. simpl.
        by rewrite (contents_same hw hw2 (memory lhs) ml),
                   (contents_same hw hw2 (memory rhs) mr).
    + exists false, (element hw (memory rhs) i), lhs1, rhs1, hw2.
      split; [done|]. split_and!; try done.
      split; [done|]. intros Hall. specialize (Hall i ltac:(lia)).
      apply same_bytes_eq in Hall. congruence.
Qed.

(** X22. [operator==] and [operator!=] of two distinct arrays: with the
    window available, [lhs == rhs] holds exactly when the two arrays have
    the same number of elements and the same bytes in every element, and
    [lhs != rhs] is its negation.  The comparison changes no region, so
    both arrays hold afterwards what they held before. *)
Theorem equal_compares_elements (result : list byte) (lhs rhs : t) (hw : state) :
  wf hw -> mapping hw -> inv sizeof_T hw lhs -> inv sizeof_T hw rhs ->
  (HimemBlock.handle (memory lhs) <> 0 ->
   HimemBlock.handle (memory lhs) <> HimemBlock.handle (memory rhs)) ->
  Z.of_nat (length result) = sizeof_T ->
  exists b result' lhs' rhs' hw',
    equal sizeof_T result lhs rhs hw = (b, result', lhs', rhs', hw') /\
    not_equal sizeof_T result lhs rhs hw = (negb b, result', lhs', rhs', hw') /\
    (b = true <->
     size lhs = size rhs /\
     forall k, 0 <= k < size lhs ->
       element hw (memory lhs) k = element hw (memory rhs) k) /\
    regions hw' = regions hw /\
    size lhs' = size lhs /\ size rhs' = size rhs /\
    (forall k, element hw' (memory lhs') k = element hw (memory lhs) k) /\
    (forall k, element hw' (memory rhs') k = element hw (memory rhs) k).
Proof.
  unfold size. intros Hwf Hmap Hlinv Hrinv Hne Hres.
  unfold not_equal, equal, size.
  destruct (element_count lhs =? element_count rhs) eqn:Hsize; simpl.
  - apply Z.eqb_eq in Hsize.
    pose proof Hlinv as (_ & Hcountl & _).
    destruct (decide (element_count lhs = 0)) as [Hz|Hnz].
    + rewrite Hz. simpl. exists true, result, lhs, rhs, hw.
      split_and!; try done. split; [|done]. intros _. split; [lia|]. intros k Hk. lia.
    + destruct (inv_slots sizeof_T sizeof_pos _ _ Hlinv) as (_ & _ & Hlive).
      assert (Hh : HimemBlock.handle (memory lhs) <> 0) by (apply Hlive; lia).
      destruct (equal_loop_spec (Z.to_nat (element_count lhs)) 0 result lhs rhs hw)
        as (b & result' & lhs' & rhs' & hw' & Hrun & Hiff & Hwf' & Hlinv' & Hrinv'
            & Hrg' & Hhl' & Hhr' & Hcl' & Hcr' & _); try done; try lia; auto.
      exists b, result', lhs', rhs', hw'. rewrite Hrun.
      split_and!; try done.
      * rewrite Hiff. rewrite Z2Nat.id by lia. simpl. split.
        -- intros Hall. split; [done|]. intros k Hk. apply Hall. lia.
        -- intros [_ Hall] k Hk. apply Hall. lia.
      * intros k. unfold VectorHIMEM.element.
        by rewrite (contents_same hw hw' (memory lhs) (memory lhs')).
      * intros k. unfold VectorHIMEM.element.
        by rewrite (contents_same hw hw' (memory rhs) (memory rhs')).
  - apply Z.eqb_neq in Hsize. exists false, result, lhs, rhs, hw.
    split_and!; try done. split; [done|]. by intros [? _].
Qed.

(** *** How the operations compose *)

Lemma grow_if_full_count v hw :
  element_count (snd (fst (grow_if_full sizeof_T v hw))) = element_count v.
Proof.
  unfold grow_if_full. destruct (element_capacity v <=? element_count v); [|done].
  unfold reallocate.
  match goal with |- context [if ?c <=? ?d then _ else _] => destruct (c <=? d) end;
    [done|].
  match goal with
  | |- context [HimemBlock.allocate ?n ?m ?h] =>
      destruct (HimemBlock.allocate n m h) as [[ok m1] hw1]
  end.
  destruct ok; simpl.
  - match goal with
    | |- context [if ?c then ?a else ?b] => destruct (if c then a else b) as [[[? ?] ?] ?]
    end.
    match goal with
    | |- context [HimemBlock.move_assign ?a ?b ?h] =>
        destruct (HimemBlock.move_assign a b h) as [[? ?] ?]
    end.
    match goal with
    | |- context [HimemBlock.free ?a ?h] => destruct (HimemBlock.free a h) as [? ?]
    end.
    done.
  - match goal with
    | |- context [HimemBlock.free ?a ?h] => destruct (HimemBlock.free a h) as [? ?]
    end.
    done.
Qed.

(** X23. [erase(pos)] undoes [insert(pos, value)]: with growth and the
    window granted, inserting anywhere up to the end and erasing at the
    same position gives back an array of the old size in which every
    element reads as before (the capacity may have grown). *)
Theorem erase_undoes_insert (pos : Z) (value : list byte) (v : t) (hw : state) :
  wf hw -> inv sizeof_T hw v -> granting hw -> growth_fits sizeof_T v ->
  Z.of_nat (length value) = sizeof_T -> 0 <= pos <= size v ->
  exists v1 hw1 v2 hw2,
    insert sizeof_T pos value v hw = (v1, hw1) /\
    erase sizeof_T pos v1 hw1 = (v2, hw2) /\
    size v2 = size v /\ capacity v <= capacity v2 /\
    forall temp, Z.of_nat (length temp) = sizeof_T ->
      forall i, 0 <= i < size v ->
        read_at temp i v2 hw2 = read_at temp i v hw.
Proof.
  unfold size, capacity. intros Hwf Hvinv Hgr Hfits Hval Hpos.
  destruct (insert sizeof_T pos value v hw) as [v1 hw1] eqn:Hins.
  destruct (insert_spec sizeof_T sizeof_pos _ _ _ _ _ _ Hwf Hvinv Hgr Hfits Hval Hpos Hins)
    as (Hwf1 & Hvinv1 & Hl1 & Hc1 & Hnew & Hlow & Hhigh).
  destruct Hgr as [Hal Hmp].
  assert (Hmp1 : mapping hw1) by (by apply (mapping_later hw)).
  destruct (erase sizeof_T pos v1 hw1) as [v2 hw2] eqn:Her.
  assert (Hpos1 : 0 <= pos < element_count v1) by lia.
  destruct (erase_spec sizeof_T sizeof_pos _ _ _ _ _ Hwf1 Hvinv1 Hmp1 Hpos1 Her)
    as (Hwf2 & Hvinv2 & Hl2 & Hc2 & Hcap2 & Hlow2 & Hhigh2).
  assert (Hmp2 : mapping hw2) by (by apply (mapping_later hw1)).
  pose proof Hvinv as (_ & Hcount & _).
  pose proof Hvinv1 as (_ & Hcount1 & _).
  pose proof Hvinv2 as (_ & Hcount2 & _).
  assert (Hcapge : element_capacity v <= element_capacity v1).
  { unfold insert in Hins.
    assert (E : (element_count v <? pos) = false) by (apply Z.ltb_ge; lia).
    rewrite E in Hins.
    destruct (grow_if_full sizeof_T v hw) as [[ok v0] hw0] eqn:Hgrow.
    destruct (grow_if_full_sizes sizeof_T sizeof_pos _ _ _ _ _ Hwf Hvinv Hal Hfits Hgrow)
      as (-> & _ & _ & _ & _ & Hlt0 & Hcap0 & _).
    simpl in Hins.
    match type of Hins with
    | context [for_down ?n ?i ?f ?s0] => destruct (for_down n i f s0) as [[? ?] ?]
    end.
    match type of Hins with
    | context [HimemBlock.write ?a ?b ?c ?d ?e] =>
        destruct (HimemBlock.write a b c d e) as [[? ?] ?]
    end.
    injection Hins as <- <-. simpl.
    destruct (element_capacity v <=? element_count v) eqn:E2; [|lia].
    apply Z.leb_le in E2. lia. }
  exists v1, hw1, v2, hw2. split_and!; try done; try lia.
  intros temp Htemp i Hi.
  rewrite !(read_at_spec sizeof_T sizeof_pos) by (try done; lia).
  f_equal. destruct (decide (i < pos)) as [Hlt|Hge].
  - rewrite Hlow2 by lia. apply Hlow. lia.
  - rewrite Hhigh2 by lia. apply Hhigh. lia.
Qed.

(** X24. At the end of the array the positional operations are the end
    operations: [insert(size(), value)] is [push_back(value)], whatever the
    hardware answers, and [erase(size() - 1)] on a non-empty array is
    [pop_back()] and touches neither the window nor the driver. *)
Theorem end_operations (value : list byte) (v : t) (hw : state) :
  insert sizeof_T (size v) value v hw = push_back sizeof_T value v hw /\
  (0 < size v < Word.modulus ->
   erase sizeof_T (size v - 1) v hw = (pop_back v, hw)).
Proof.
  unfold size. split.
  - unfold insert, push_back. rewrite Z.ltb_irrefl.
    pose proof (grow_if_full_count v hw) as Hc.
    destruct (grow_if_full sizeof_T v hw) as [[ok v1] hw1]. simpl in Hc.
    destruct ok; simpl; [|done].
    rewrite Hc, Z.sub_diag. simpl. done.
  - intros Hc. unfold erase, pop_back.
    assert (E1 : (element_count v <=? element_count v - 1) = false)
      by (apply Z.leb_gt; lia).
    assert (E2 : (0 <? element_count v) = true) by (apply Z.ltb_lt; lia).
    rewrite E1, E2.
    rewrite (add_small (element_count v - 1) 1) by lia.
    replace (element_count v - 1 + 1) with (element_count v) by lia.
    rewrite Z.sub_diag. simpl. done.
Qed.

(** X25. [clear()] forgets the elements and keeps the region: the array is
    empty, its capacity is unchanged, and the next [push_back] writes into
    the region already held without asking the driver for another one, so
    it stores its value even when no further region would be granted. *)
Theorem clear_keeps_the_region (value : list byte) (v : t) (hw : state) :
  wf hw -> inv sizeof_T hw v -> mapping hw -> 0 < capacity v ->
  Z.of_nat (length value) = sizeof_T ->
  empty (clear v) = true /\ capacity (clear v) = capacity v /\
  exists v' hw',
    push_back sizeof_T value (clear v) hw = (v', hw') /\
    size v' = 1 /\ capacity v' = capacity v /\
    HimemBlock.handle (memory v') = HimemBlock.handle (memory v) /\
    regions hw' !! HimemBlock.handle (memory v) <> None /\
    (forall h, h <> HimemBlock.handle (memory v) ->
       regions hw' !! h = regions hw !! h) /\
    forall temp, Z.of_nat (length temp) = sizeof_T ->
      read_at temp 0 v' hw' = Ref value.
Proof.
  unfold size, capacity, empty. intros Hwf Hvinv Hmp Hcap Hval.
  split; [done|]. split; [done|].
  pose proof (clear_inv _ _ Hvinv) as Hcinv.
  destruct (push_back sizeof_T value (clear v) hw) as [v' hw'] eqn:Hrun.
  assert (Hroom : element_count (clear v) < element_capacity (clear v)) by (simpl; lia).
  destruct (push_back_room _ _ _ _ _ Hwf Hcinv Hroom Hval Hrun)
    as (Hwf' & Hvinv' & Hl' & Hc' & Hcap' & Hh' & Hrg').
  simpl in Hc', Hcap', Hh', Hrg'.
  pose proof Hvinv as (Hinv & Hcount & Hcapeq & Hnull & Hmin).
  destruct (inv_slots sizeof_T sizeof_pos _ _ Hvinv) as (Hslots & _ & Hlive).
  assert (Hh : HimemBlock.handle (memory v) <> 0) by (apply Hlive; lia).
  assert (Hfit : (0 + 1) * sizeof_T <= HimemBlock.size (memory v)) by nia.
  unfold push_back, grow_if_full in Hrun. simpl in Hrun.
  assert (E : (element_capacity v <=? 0) = false) by (apply Z.leb_gt; lia).
  rewrite E in Hrun. simpl in Hrun.
  destruct (HimemBlock.write value (Word.mul 0 sizeof_T) sizeof_T (memory v) hw)
    as [[n m'] hw2] eqn:Hwrite.
  assert (H0 : 0 <= 0) by lia.
  destruct (write_element sizeof_T sizeof_pos _ _ _ _ _ _ _
              (conj Hwf (conj Hinv Hmp)) Hh H0 Hfit Hval Hwrite)
    as (_ & (_ & _ & Hmp') & _ & _ & _ & Hel & _).
  assert (Hoff : 0 <= Word.mul 0 sizeof_T < Word.modulus) by apply wrap_range.
  assert (Hlen : 0 <= sizeof_T < Word.modulus).
  { destruct Hinv as (Hsz & _). nia. }
  injection Hrun as <- <-.
  exists {| memory := m'; element_count := Word.add 0 1;
            element_capacity := element_capacity v |}, hw2.
  split; [done|]. split_and!; try done.
  - destruct Hvinv' as ((_ & _ & Hreg & _) & _). simpl in Hreg, Hh'.
    rewrite Hh' in Hreg. destruct (Hreg Hh) as (rg & Hrg & _). by rewrite Hrg.
  - intros temp Htemp.
    rewrite (read_at_spec sizeof_T sizeof_pos) by (try done; simpl; lia).
    simpl. by rewrite Hel.
Qed.

(** *** A write that fails is not noticed *)

Lemma ensure_block_mapped_range_denied bi m hw rest :
  wf hw -> HimemBlock.inv hw m -> bi <> HimemBlock.current_mapped_block m ->
  oracle hw ReqRange = false :: rest ->
  fst (fst (HimemBlock.ensure_block_mapped bi m hw)) = false.
Proof.
  intros Hwf Hinv Hcur Hdeny. unfold HimemBlock.ensure_block_mapped.
  assert (E : (bi =? HimemBlock.current_mapped_block m) = false) by (by apply Z.eqb_neq).
  rewrite E.
  destruct (if negb (HimemBlock.mapped_ptr m =? 0) then HimemBlock.unmap m hw else (m, hw))
    as [m1 hw1] eqn:Hstep.
  destruct (ensure_unmap_step _ _ _ _ Hwf Hinv Hstep) as (_ & _ & _ & _ & _ & _ & _ & Ho).
  unfold esp_himem_alloc_map_range.
  replace (negb (ESP_HIMEM_BLKSZ mod ESP_HIMEM_BLKSZ =? 0)) with false by reflexivity.
  unfold grant. rewrite Ho, Hdeny. reflexivity.
Qed.

Lemma write_range_denied src offset length m hw rest :
  wf hw -> HimemBlock.inv hw m -> 0 <= offset -> 0 <= length ->
  offset / ESP_HIMEM_BLKSZ <> HimemBlock.current_mapped_block m ->
  oracle hw ReqRange = false :: rest ->
  fst (fst (HimemBlock.write src offset length m hw)) = 0.
Proof.
  intros Hwf Hinv Hoff Hlen Hcur Hdeny. unfold HimemBlock.write.
  destruct ((HimemBlock.handle m =? 0) || (HimemBlock.size m <=? offset)); [done|].
  set (len := Z.min length (Word.sub (HimemBlock.size m) offset)).
  destruct (len =? 0) eqn:Hz; [done|].
  apply Z.eqb_neq in Hz.
  assert (Hpos : 0 < len).
  { pose proof (wrap_range (HimemBlock.size m - offset)) as Hw.
    unfold Word.in_range in Hw. unfold len, Word.sub in *. lia. }
  assert (Hfuel : exists fuel, HimemBlock.loop_bound len = S fuel).
  { unfold HimemBlock.loop_bound.
    assert (0 <= len / ESP_HIMEM_BLKSZ) by (apply Z.div_pos; [lia|reflexivity]).
    exists (Z.to_nat (len / ESP_HIMEM_BLKSZ + 1)).
    rewrite <- Z2Nat.inj_succ by lia. f_equal. lia. }
  destruct Hfuel as [fuel ->]. cbn [HimemBlock.write_loop].
  assert (E : (0 <? len) = true) by (by apply Z.ltb_lt).
  rewrite E.
  pose proof (ensure_block_mapped_range_denied (offset / ESP_HIMEM_BLKSZ) m hw rest
                Hwf Hinv Hcur Hdeny) as Hno.
  destruct (HimemBlock.ensure_block_mapped (offset / ESP_HIMEM_BLKSZ) m hw)
    as [[ok m1] hw1].
  simpl in Hno. subst ok. reflexivity.
Qed.

(** X28. [push_back] does not look at what [write] returns.  When there is
    room, the size goes up by one whatever the hardware answers, and what
    is stored is a prefix of the value: all of it when every mapping
    request is granted, nothing when the block of the new slot is not the
    one mapped and the hardware denies the window range.  In that case the
    array counts an element that was never stored, and every index reads
    the bytes that were there before. *)
Theorem push_back_counts_unwritten_elements (value : list byte) (v : t)
    (hw : state) :
  wf hw -> inv sizeof_T hw v -> size v < capacity v ->
  Z.of_nat (length value) = sizeof_T ->
  exists n v' hw',
    push_back sizeof_T value v hw = (v', hw') /\
    size v' = size v + 1 /\ capacity v' = capacity v /\
    0 <= n <= sizeof_T /\
    HimemBlock.contents hw' (memory v') =
      Mem.store (HimemBlock.contents hw (memory v)) (size v * sizeof_T)
                (buf_read value 0 n) /\
    (mapping hw -> n = sizeof_T) /\
    (forall rest, oracle hw ReqRange = false :: rest ->
       size v * sizeof_T / ESP_HIMEM_BLKSZ
         <> HimemBlock.current_mapped_block (memory v) ->
       n = 0 /\
       forall k, element hw' (memory v') k = element hw (memory v) k).
Proof.
  unfold size, capacity. intros Hwf Hvinv Hroom Hval.
  pose proof Hvinv as (Hinv & Hcount & Hcap & Hnull & Hmin).
  destruct (inv_slots sizeof_T sizeof_pos _ _ Hvinv) as (Hslots & _ & Hlive).
  assert (Hh : HimemBlock.handle (memory v) <> 0) by (apply Hlive; lia).
  assert (Hi : 0 <= element_count v) by lia.
  assert (Hfit : (element_count v + 1) * sizeof_T <= HimemBlock.size (memory v)) by nia.
  destruct (slot_bounds sizeof_T sizeof_pos _ _ _ Hinv Hi Hfit)
    as (Hmul & Hoff & Hs & Hlt & Hmn).
  unfold push_back, grow_if_full.
  assert (E : (element_capacity v <=? element_count v) = false) by (apply Z.leb_gt; lia).
  rewrite E. simpl. rewrite Hmul.
  destruct (HimemBlock.write value (element_count v * sizeof_T) sizeof_T (memory v) hw)
    as [[n m'] hw2] eqn:Hwrite.
  assert (Hsrc : sizeof_T <= Z.of_nat (length value)) by lia.
  destruct (write_spec _ _ _ _ _ _ _ _ Hwf Hinv Hoff Hs Hsrc Hwrite)
    as (Hwf2 & Hinv2 & Hfr & Hh2 & Hs2 & Hl2 & Hn & _ & Hcont & Hall).
  assert (Hmod : element_count v + 1 < Word.modulus).
  { destruct Hinv as (Hsz & _). nia. }
  exists n, {| memory := m'; element_count := Word.add (element_count v) 1;
               element_capacity := element_capacity v |}, hw2.
  split; [done|]. simpl. rewrite (add_small (element_count v) 1) by lia.
  split; [done|]. split; [done|]. split; [done|]. split; [done|]. split.
  - intros Hmp. rewrite (Hall Hmp Hh Hlt). done.
  - intros rest Hdeny Hcur.
    pose proof (write_range_denied value (element_count v * sizeof_T) sizeof_T
                  (memory v) hw rest Hwf Hinv ltac:(lia) ltac:(lia) Hcur Hdeny) as Hzero.
    rewrite Hwrite in Hzero. simpl in Hzero. subst n.
    split; [done|]. intros k. unfold VectorHIMEM.element.
    rewrite Hcont, buf_read_zero. done.
Qed.

End Element.

(** *** The further properties at concrete states

    The array of three one-byte elements [1; 2; 3] on hardware that grants
    every request, the fresh array, and the hardware that denies the first
    region. *)

Lemma three_wf : wf (snd Examples.three).
Proof. apply VectorHIMEMTheorems.three_good. Qed.

Lemma three_inv : inv 1 (snd Examples.three) (fst Examples.three).
Proof. apply VectorHIMEMTheorems.three_good. Qed.

Lemma three_granting : granting (snd Examples.three).
Proof. apply VectorHIMEMTheorems.three_good. Qed.

Lemma three_mapping : mapping (snd Examples.three).
Proof. apply three_granting. Qed.

Lemma three_size : size (fst Examples.three) = 3.
Proof. vm_compute. reflexivity. Qed.

Lemma three_capacity : capacity (fst Examples.three) = 32768.
Proof. vm_compute. reflexivity. Qed.

Lemma three_held : HimemBlock.handle (memory (fst Examples.three)) <> 0.
Proof. vm_compute. discriminate. Qed.

Lemma fresh_inv_beside_three : inv 1 (snd Examples.three) init.
Proof. apply (init_inv_vector 1), three_wf. Qed.

Lemma denying_hardware_denies : denying Examples.denying_hardware.
Proof. exists []. reflexivity. Qed.

Lemma copied_good :
  let v := fst (fst Examples.copied) in
  let other := snd (fst Examples.copied) in
  let hw := snd Examples.copied in
  wf hw /\ inv 1 hw v /\ inv 1 hw other /\ mapping hw /\
  size v = 3 /\ size other = 3 /\
  HimemBlock.handle (memory v) <> HimemBlock.handle (memory other) /\
  (forall k, 0 <= k < 3 ->
     element 1 hw (memory v) k = element 1 hw (memory other) k).
Proof.
  pose proof three_size as Hthree. unfold size in Hthree.
  assert (Hempty : element_count init = 0) by reflexivity.
  assert (Hn : 0 < element_count (fst Examples.three)) by (rewrite Hthree; reflexivity).
  assert (Hfit : fits 1 (element_count (fst Examples.three)))
    by (rewrite Hthree; vm_compute; discriminate).
  destruct (copy_from_spec 1 VectorHIMEMTheorems.one_byte init (fst Examples.three)
              (snd Examples.three) three_wf fresh_inv_beside_three three_inv
              three_granting Hempty Hn Hfit three_held)
    as (v' & other' & hw' & Hrun & Hwf' & Hvinv' & Hoinv' & Hmp' & Hc & Hco & _ & _
        & Hne & _ & Hel & Helo).
  assert (E : Examples.copied = (v', other', hw')) by exact Hrun.
  rewrite E. simpl. unfold size. rewrite Hthree in Hc, Hco, Hel.
  split; [exact Hwf'|]. split; [exact Hvinv'|]. split; [exact Hoinv'|].
  split; [exact Hmp'|]. split; [exact Hc|]. split; [exact Hco|].
  split; [exact Hne|].
  intros k Hk. rewrite (Hel k Hk). symmetry. apply Helo. lia.
Qed.

Lemma full_good :
  wf (snd Examples.full) /\ inv 2048 (snd Examples.full) (fst Examples.full) /\
  size (fst Examples.full) = 16.
Proof.
  assert (Hpos : 0 < 2048) by reflexivity.
  assert (Hlen : Forall (fun value => Z.of_nat (length value) = 2048) Examples.sixteen).
  { apply Forall_forall. intros value Hin.
    apply list_elem_of_fmap in Hin as (b & -> & _).
    by rewrite length_replicate. }
  assert (Hinit : inv 2048 (Hw.empty Hw.always) init).
  { apply (init_inv_vector 2048), empty_wf. }
  assert (Hal : allocating (Hw.empty Hw.always)) by constructor.
  assert (Hfit : fits 2048 (2 * (element_count init + Z.of_nat (length Examples.sixteen))))
    by (vm_compute; discriminate).
  destruct (push_all_spec 2048 Hpos Examples.sixteen init (Hw.empty Hw.always)
              (fst Examples.full) (snd Examples.full)
              (empty_wf _) Hinit Hal Hlen Hfit (surjective_pairing Examples.full))
    as (Hwf & Hinv & _ & Hc & _).
  split; [done|]. split; [done|]. unfold size. rewrite Hc. reflexivity.
Qed.

Lemma at_checks_bounds_on_three :
  let v := fst Examples.three in
  let hw := snd Examples.three in
  exists v' hw',
    at_ 1 [x00] 1 v hw = (Ref (element 1 hw (memory v) 1), v', hw') /\
    size v' = size v /\ capacity v' = capacity v /\
    forall k, element 1 hw' (memory v') k = element 1 hw (memory v) k.
Proof.
  apply (proj2 (proj2 (at_checks_bounds 1 VectorHIMEMTheorems.one_byte [x00] 1
                         (fst Examples.three) (snd Examples.three)))).
  - apply three_wf.
  - apply three_inv.
  - apply three_mapping.
  - rewrite three_size. lia.
  - reflexivity.
Defined.

Lemma push_back_then_back_on_three :
  let v := fst Examples.three in
  let hw := snd Examples.three in
  exists v' hw',
    push_back 1 [x04] v hw = (v', hw') /\
    size v' = size v + 1 /\
    fst (fst (back 1 [x00] v' hw')) = Ref [x04] /\
    fst (fst (at_ 1 [x00] (size v' - 1) v' hw')) = Ref [x04] /\
    (forall i, 0 <= i < size v -> read_at 1 [x00] i v' hw' = read_at 1 [x00] i v hw).
Proof.
  apply (push_back_then_back 1 VectorHIMEMTheorems.one_byte [x04] [x00]
           (fst Examples.three) (snd Examples.three)).
  - apply three_wf.
  - apply three_inv.
  - apply three_granting.
  - apply VectorHIMEMTheorems.three_growth_fits.
  - reflexivity.
  - reflexivity.
Defined.

Lemma pop_back_after_push_back_on_three :
  let v := fst Examples.three in
  let hw := snd Examples.three in
  exists v' hw',
    push_back 1 [x04] v hw = (v', hw') /\
    size (pop_back v') = size v /\
    capacity (pop_back v') = capacity v' /\
    memory (pop_back v') = memory v' /\
    inv 1 hw' (pop_back v') /\
    (forall i, 0 <= i < size v ->
       read_at 1 [x00] i (pop_back v') hw' = read_at 1 [x00] i v hw) /\
    read_at 1 [x00] (size v) (pop_back v') hw' = Ref [x04].
Proof.
  apply (proj2 (pop_back_after_push_back 1 VectorHIMEMTheorems.one_byte [x04] [x00]
                  (fst Examples.three) (snd Examples.three))).
  - apply three_wf.
  - apply three_inv.
  - apply three_granting.
  - apply VectorHIMEMTheorems.three_growth_fits.
  - reflexivity.
  - reflexivity.
Defined.

Lemma reserve_grows_capacity_of_three :
  let v := fst Examples.three in
  let hw := snd Examples.three in
  size v = 3 /\ capacity v = 32768 /\
  exists v' hw',
    reserve 1 40000 v hw = (v', hw') /\
    40000 <= capacity v' /\ capacity v' = capacity_for 1 40000 /\
    size v' = size v /\
    wf hw' /\ inv 1 hw' v' /\
    forall i, 0 <= i < size v -> read_at 1 [x00] i v' hw' = read_at 1 [x00] i v hw.
Proof.
  split; [exact three_size|]. split; [exact three_capacity|].
  apply (proj2 (reserve_grows_capacity 1 VectorHIMEMTheorems.one_byte 40000 [x00]
                  (fst Examples.three) (snd Examples.three))).
  - apply three_wf.
  - apply three_inv.
  - apply three_granting.
  - vm_compute. discriminate.
  - rewrite three_capacity. reflexivity.
  - reflexivity.
Defined.

Lemma reserve_then_push_back_two :
  let v := init in
  let hw := Hw.empty Hw.always in
  exists v1 hw1 v2 hw2,
    reserve 1 100 v hw = (v1, hw1) /\
    100 <= capacity v1 /\ size v1 = size v /\
    push_all 1 [[x01]; [x02]] v1 hw1 = (v2, hw2) /\
    size v2 = size v + Z.of_nat (length [[x01]; [x02]]) /\
    capacity v2 = capacity v1 /\
    HimemBlock.handle (memory v2) = HimemBlock.handle (memory v1).
Proof.
  apply (reserve_then_push_back 1 VectorHIMEMTheorems.one_byte 100 [[x01]; [x02]]
           init (Hw.empty Hw.always)).
  - apply empty_wf.
  - apply VectorHIMEMTheorems.init_inv_on_empty.
  - apply VectorHIMEMTheorems.empty_granting.
  - vm_compute. discriminate.
  - repeat constructor.
  - vm_compute. discriminate.
Defined.

Lemma resize_sets_count_on_three :
  let v := fst Examples.three in
  let hw := snd Examples.three in
  resize 1 (size v) (pop_back v) hw = (v, hw) /\
  exists v' hw',
    resize 1 40000 v hw = (v', hw') /\
    size v' = 40000 /\ 40000 <= capacity v' /\
    wf hw' /\ inv 1 hw' v' /\
    forall i, 0 <= i < size v -> read_at 1 [x00] i v' hw' = read_at 1 [x00] i v hw.
Proof.
  split.
  - apply (proj1 (proj2 (resize_sets_count 1 VectorHIMEMTheorems.one_byte 40000 [x00]
                           (fst Examples.three) (snd Examples.three)))).
    + rewrite three_size, three_capacity. lia.
    + rewrite three_size. reflexivity.
  - apply (proj2 (proj2 (resize_sets_count 1 VectorHIMEMTheorems.one_byte 40000 [x00]
                           (fst Examples.three) (snd Examples.three)))).
    + apply three_wf.
    + apply three_inv.
    + apply three_granting.
    + vm_compute. discriminate.
    + rewrite three_capacity. reflexivity.
    + reflexivity.
Defined.

Lemma resize_fills_new_elements_on_three :
  let v := fst Examples.three in
  let hw := snd Examples.three in
  exists v' hw',
    resize_fill 1 5 [x09] v hw = (v', hw') /\
    size v' = 5 /\ 5 <= capacity v' /\
    wf hw' /\ inv 1 hw' v' /\ mapping hw' /\
    (forall i, 0 <= i < size v -> read_at 1 [x00] i v' hw' = read_at 1 [x00] i v hw) /\
    (forall i, size v <= i < 5 -> read_at 1 [x00] i v' hw' = Ref [x09]).
Proof.
  apply (proj2 (resize_fills_new_elements 1 VectorHIMEMTheorems.one_byte 5 [x09] [x00]
                  (fst Examples.three) (snd Examples.three))).
  - apply three_wf.
  - apply three_inv.
  - apply three_granting.
  - vm_compute. discriminate.
  - rewrite three_size. reflexivity.
  - reflexivity.
  - reflexivity.
Defined.

Lemma counted_constructors_of_five :
  ((exists v hw',
      construct_fill 1 5 [x09] (Hw.empty Hw.always) = (v, hw') /\
      size v = 5 /\ 5 <= capacity v /\ inv 1 hw' v /\
      forall i, 0 <= i < 5 -> read_at 1 [x00] i v hw' = Ref [x09]) /\
   (exists v hw',
      construct_count 1 5 (Hw.empty Hw.always) = (v, hw') /\
      size v = 5 /\ 5 <= capacity v /\ inv 1 hw' v)) /\
  ((exists hw', construct_fill 1 5 [x09] Examples.denying_hardware = (init, hw') /\
                same_memory Examples.denying_hardware hw') /\
   (exists hw', construct_count 1 5 Examples.denying_hardware = (init, hw') /\
                same_memory Examples.denying_hardware hw')).
Proof.
  split.
  - apply (proj1 (counted_constructors 1 VectorHIMEMTheorems.one_byte 5 [x09] [x00]
                    (Hw.empty Hw.always) (empty_wf Hw.always) eq_refl)).
    + apply VectorHIMEMTheorems.empty_granting.
    + vm_compute. discriminate.
    + reflexivity.
    + reflexivity.
  - apply (proj2 (counted_constructors 1 VectorHIMEMTheorems.one_byte 5 [x09] [x00]
                    Examples.denying_hardware (empty_wf Hw.deny_region) eq_refl)).
    apply denying_hardware_denies.
Defined.

Lemma construct_list_of_two_items :
  exists v hw',
    construct_list 1 [[x07]; [x08]] (Hw.empty Hw.always) = (v, hw') /\
    size v = Z.of_nat (length [[x07]; [x08]]) /\ inv 1 hw' v /\
    forall (j : nat) item, [[x07]; [x08]] !! j = Some item ->
      read_at 1 [x00] (Z.of_nat j) v hw' = Ref item.
Proof.
  apply (proj1 (proj2 (construct_list_holds_items 1 VectorHIMEMTheorems.one_byte
                         [[x07]; [x08]] [x00] (Hw.empty Hw.always)))).
  - apply empty_wf.
  - apply VectorHIMEMTheorems.empty_granting.
  - discriminate.
  - vm_compute. discriminate.
  - repeat constructor.
  - reflexivity.
Defined.

Lemma assign_list_of_two_items_to_three :
  let v := fst Examples.three in
  let hw := snd Examples.three in
  exists v' hw',
    assign_list 1 [[x07]; [x08]] v hw = (v', hw') /\
    size v' = Z.of_nat (length [[x07]; [x08]]) /\ inv 1 hw' v' /\
    (Z.of_nat (length [[x07]; [x08]]) <= capacity v ->
     capacity v' = capacity v /\
     HimemBlock.handle (memory v') = HimemBlock.handle (memory v)) /\
    forall (j : nat) item, [[x07]; [x08]] !! j = Some item ->
      read_at 1 [x00] (Z.of_nat j) v' hw' = Ref item.
Proof.
  apply (proj1 (assign_list_replaces_items 1 VectorHIMEMTheorems.one_byte
                  [[x07]; [x08]] [x00] (fst Examples.three) (snd Examples.three)
                  three_wf three_inv ltac:(discriminate))).
  - apply three_granting.
  - vm_compute. discriminate.
  - repeat constructor.
  - reflexivity.
Defined.

Lemma copy_construct_of_three :
  let other := fst Examples.three in
  let hw := snd Examples.three in
  exists v other' hw',
    copy_construct 1 other hw = (v, other', hw') /\
    size v = size other /\ size other' = size other /\
    capacity v = capacity_for 1 (size other) /\
    HimemBlock.handle (memory v) <> HimemBlock.handle (memory other') /\
    inv 1 hw' v /\ inv 1 hw' other' /\
    forall i, 0 <= i < size other ->
      read_at 1 [x00] i v hw' = read_at 1 [x00] i other hw /\
      read_at 1 [x00] i other' hw' = read_at 1 [x00] i other hw.
Proof.
  apply (proj1 (proj2 (copy_construct_copies 1 VectorHIMEMTheorems.one_byte [x00]
                         (fst Examples.three) (snd Examples.three)))).
  - apply three_wf.
  - apply three_inv.
  - apply three_granting.
  - rewrite three_size. reflexivity.
  - rewrite three_size. vm_compute. discriminate.
  - reflexivity.
Defined.


Lemma push_back_on_full_array_moves_to_a_new_region :
  let v := fst Examples.full in
  let hw := snd Examples.full in
  let value := replicate (Z.to_nat 2048) x11 in
  size v = 16 /\ capacity v = 16 /\ HimemBlock.handle (memory v) <> 0 /\
  exists v' hw',
    push_back 2048 value v hw = (v', hw') /\
    is_Some (regions hw' !! HimemBlock.handle (memory v')) /\
    regions hw !! HimemBlock.handle (memory v') = None /\
    regions hw' !! HimemBlock.handle (memory v) = None /\
    (forall h, h <> HimemBlock.handle (memory v) ->
               h <> HimemBlock.handle (memory v') ->
       regions hw' !! h = regions hw !! h).
Proof.
  assert (Hpos : 0 < 2048) by reflexivity.
  assert (Hsize : size (fst Examples.full) = 16) by apply full_good.
  assert (Hcap : capacity (fst Examples.full) = 16) by (vm_compute; reflexivity).
  assert (Hheld : HimemBlock.handle (memory (fst Examples.full)) <> 0)
    by (vm_compute; discriminate).
  assert (Hal : allocating (snd Examples.full)) by (vm_compute; constructor).
  assert (Hgf : growth_fits 2048 (fst Examples.full)).
  { intros _. fold (capacity (fst Examples.full)). rewrite Hcap.
    vm_compute. discriminate. }
  assert (Hval : Z.of_nat (length (replicate (Z.to_nat 2048) x11)) = 2048)
    by (by rewrite length_replicate).
  destruct (push_back_holds_one_region 2048 Hpos (replicate (Z.to_nat 2048) x11)
              (fst Examples.full) (snd Examples.full)
              (proj1 full_good) (proj1 (proj2 full_good)) Hal Hgf Hval)
    as (v' & hw' & Hrun & Hsome & Hfull & _ & Hrest & _).
  destruct Hfull as [Hfresh Hgone]; [rewrite Hcap, Hsize; discriminate|].
  split; [exact Hsize|]. split; [exact Hcap|]. split; [exact Hheld|].
  exists v', hw'. split; [exact Hrun|]. split; [exact Hsome|].
  split; [exact Hfresh|]. split; [exact (Hgone Hheld)|exact Hrest].
Defined.

Lemma destroy_of_three_releases_region :
  let v := fst Examples.three in
  let hw := snd Examples.three in
  wf (destroy v hw) /\
  regions (destroy v hw) = delete (HimemBlock.handle (memory v)) (regions hw) /\
  mappings_of (destroy v hw) (HimemBlock.handle (memory v)) = [] /\
  calls_since (trace hw) (destroy v hw) =
    (if HimemBlock.handle (memory v) =? 0 then []
     else HimemBlock.unmap_calls (memory v)
          ++ [(Free (HimemBlock.handle (memory v)), ESP_OK)]).
Proof.
  apply (destroy_releases_region 1 (fst Examples.three) (snd Examples.three)).
  - apply three_wf.
  - apply three_inv.
Defined.

Lemma move_assign_between_three_and_its_copy :
  let v := fst (fst Examples.copied) in
  let other := snd (fst Examples.copied) in
  let hw := snd Examples.copied in
  size other = 3 /\ HimemBlock.handle (memory v) <> 0 /\
  HimemBlock.handle (memory other) <> HimemBlock.handle (memory v) /\
  HimemBlock.mapped_ptr (memory other) <> 0 /\
  exists hw',
    move_assign v other hw = (other, init, hw') /\
    wf hw' /\ inv 1 hw' other /\ inv 1 hw' init /\
    regions hw' = delete (HimemBlock.handle (memory v)) (regions hw) /\
    (forall k, element 1 hw' (memory other) k = element 1 hw (memory other) k) /\
    (forall b, HimemBlock.mapped_at hw (memory other) b ->
               HimemBlock.mapped_at hw' (memory other) b).
Proof.
  destruct copied_good as (Hwf & Hvinv & Hoinv & _ & _ & Hso & Hne & _).
  split; [exact Hso|].
  split; [vm_compute; discriminate|].
  split; [intros Heq; apply Hne; symmetry; exact Heq|].
  split; [vm_compute; discriminate|].
  apply (move_assign_transfers_the_block 1 (fst (fst Examples.copied))
           (snd (fst Examples.copied)) (snd Examples.copied) Hwf Hvinv Hoinv).
  intros _ Heq. apply Hne. symmetry. exact Heq.
Defined.

Lemma equal_of_three_and_its_copy :
  let lhs := snd (fst Examples.copied) in
  let rhs := fst (fst Examples.copied) in
  let hw := snd Examples.copied in
  size lhs = 3 /\ size rhs = 3 /\
  exists result' lhs' rhs' hw',
    equal 1 [x00] lhs rhs hw = (true, result', lhs', rhs', hw') /\
    not_equal 1 [x00] lhs rhs hw = (false, result', lhs', rhs', hw') /\
    regions hw' = regions hw /\
    size lhs' = size lhs /\ size rhs' = size rhs /\
    (forall k, element 1 hw' (memory lhs') k = element 1 hw (memory lhs) k) /\
    (forall k, element 1 hw' (memory rhs') k = element 1 hw (memory rhs) k).
Proof.
  destruct copied_good as (Hwf & Hvinv & Hoinv & Hmp & Hsv & Hso & Hne & Hel).
  split; [exact Hso|]. split; [exact Hsv|].
  destruct (equal_compares_elements 1 VectorHIMEMTheorems.one_byte [x00]
              (snd (fst Examples.copied)) (fst (fst Examples.copied))
              (snd Examples.copied) Hwf Hmp Hoinv Hvinv
              (fun _ Heq => Hne (eq_sym Heq)) eq_refl)
    as (b & result' & lhs' & rhs' & hw' & Heq & Hneq & Hiff & Hrest).
  assert (Hb : b = true).
  { apply Hiff. split; [by rewrite Hso, Hsv|].
    intros k Hk. symmetry. apply Hel. by rewrite <- Hso. }
  subst b. exists result', lhs', rhs', hw'.
  split; [exact Heq|]. split; [exact Hneq|exact Hrest].
Defined.

Lemma erase_undoes_insert_on_three :
  let v := fst Examples.three in
  let hw := snd Examples.three in
  exists v1 hw1 v2 hw2,
    insert 1 1 [x09] v hw = (v1, hw1) /\
    erase 1 1 v1 hw1 = (v2, hw2) /\
    size v2 = size v /\ capacity v <= capacity v2 /\
    forall temp, Z.of_nat (length temp) = 1 ->
      forall i, 0 <= i < size v ->
        read_at 1 temp i v2 hw2 = read_at 1 temp i v hw.
Proof.
  apply (erase_undoes_insert 1 VectorHIMEMTheorems.one_byte 1 [x09]
           (fst Examples.three) (snd Examples.three)).
  - apply three_wf.
  - apply three_inv.
  - apply three_granting.
  - apply VectorHIMEMTheorems.three_growth_fits.
  - reflexivity.
  - rewrite three_size. lia.
Defined.

Lemma erase_at_the_end_of_three :
  let v := fst Examples.three in
  let hw := snd Examples.three in
  erase 1 (size v - 1) v hw = (pop_back v, hw).
Proof.
  apply (proj2 (end_operations 1 [x00] (fst Examples.three) (snd Examples.three))).
  rewrite three_size. split; reflexivity.
Defined.

Lemma clear_of_three_keeps_the_region :
  let v := fst Examples.three in
  let hw := snd Examples.three in
  empty (clear v) = true /\ capacity (clear v) = capacity v /\
  exists v' hw',
    push_back 1 [x09] (clear v) hw = (v', hw') /\
    size v' = 1 /\ capacity v' = capacity v /\
    HimemBlock.handle (memory v') = HimemBlock.handle (memory v) /\
    regions hw' !! HimemBlock.handle (memory v) <> None /\
    (forall h, h <> HimemBlock.handle (memory v) ->
       regions hw' !! h = regions hw !! h) /\
    forall temp, Z.of_nat (length temp) = 1 ->
      read_at 1 temp 0 v' hw' = Ref [x09].
Proof.
  apply (clear_keeps_the_region 1 VectorHIMEMTheorems.one_byte [x09]
           (fst Examples.three) (snd Examples.three)).
  - apply three_wf.
  - apply three_inv.
  - apply three_mapping.
  - rewrite three_capacity. reflexivity.
  - reflexivity.
Defined.

Lemma reserved_without_window_good :
  wf (snd Examples.reserved_without_window) /\
  inv 1 (snd Examples.reserved_without_window) (fst Examples.reserved_without_window).
Proof.
  destruct (reallocate 1 100 init (Hw.empty Hw.deny_range)) as [[ok v1] hw1] eqn:Hre.
  assert (Hres : Examples.reserved_without_window = (v1, hw1)).
  { unfold Examples.reserved_without_window, reserve.
    replace (element_capacity init <? 100) with true by reflexivity.
    rewrite Hre. reflexivity. }
  rewrite Hres. simpl.
  assert (Hal : allocating (Hw.empty Hw.deny_range)) by constructor.
  assert (Hcap : element_capacity init < 100) by reflexivity.
  assert (Hfit : fits 1 100) by (vm_compute; discriminate).
  destruct (reallocate_sizes 1 VectorHIMEMTheorems.one_byte 100 init
              (Hw.empty Hw.deny_range) ok v1 hw1 (empty_wf _)
              (VectorHIMEMTheorems.init_inv_on_empty _) Hal Hcap Hfit Hre)
    as (_ & Hwf1 & Hvinv1 & _).
  done.
Qed.

Lemma push_back_with_window_range_denied :
  let v := fst Examples.reserved_without_window in
  let hw := snd Examples.reserved_without_window in
  exists v' hw',
    push_back 1 [x07] v hw = (v', hw') /\ size v' = size v + 1 /\
    forall k, element 1 hw' (memory v') k = element 1 hw (memory v) k.
Proof.
  destruct (push_back_counts_unwritten_elements 1 VectorHIMEMTheorems.one_byte [x07]
              (fst Examples.reserved_without_window)
              (snd Examples.reserved_without_window)
              (proj1 reserved_without_window_good)
              (proj2 reserved_without_window_good)
              eq_refl eq_refl)
    as (n & v' & hw' & Hrun & Hsz & _ & _ & _ & _ & Hdeny).
  destruct (Hdeny [] eq_refl ltac:(vm_compute; discriminate)) as [_ Hsame].
  exists v', hw'. split; [exact Hrun|]. split; [exact Hsz|exact Hsame].
Defined.

End VectorHIMEMExtras.

(** * The file registry: properties *)

Module HIMEMClassExtras.

Import Hw HwFacts HimemBlockFacts VectorHIMEM HIMEMClass.

(** X26. [remove] and [exists] on a registry that was begun: a name
    that is not stored is reported absent and [remove] refuses it,
    changing nothing.  For a stored file [exists] is true and [remove]
    returns true; afterwards [exists] is false for that name and a second
    [remove] is refused, the region of the file has been handed back to
    the driver with no mapping of it left, and every other file is still
    stored, with its region and its bytes as they were. *)
Theorem remove_releases_the_file (filename : string) (fs : HIMEMClass.t)
    (hw : state) :
  initialized fs = true ->
  (fileData fs !! filename = None ->
   exists_ filename fs = false /\ remove filename fs hw = (false, fs, hw)) /\
  (forall v, fileData fs !! filename = Some v -> wf hw -> inv 1 hw v ->
   exists_ filename fs = true /\
   exists fs' hw',
     remove filename fs hw = (true, fs', hw') /\
     exists_ filename fs' = false /\
     remove filename fs' hw' = (false, fs', hw') /\
     wf hw' /\
     regions hw' = delete (HimemBlock.handle (memory v)) (regions hw) /\
     mappings_of hw' (HimemBlock.handle (memory v)) = [] /\
     forall g w, g <> filename -> fileData fs !! g = Some w ->
       exists_ g fs' = true /\ fileData fs' !! g = Some w /\
       (inv 1 hw w ->
        HimemBlock.handle (memory w) <> HimemBlock.handle (memory v) ->
        inv 1 hw' w /\
        forall k, element 1 hw' (memory w) k = element 1 hw (memory w) k)).
Proof.
  intros Hinit. split.
  - intros Hnone. unfold exists_, remove. by rewrite Hinit, Hnone.
  - intros v Hsome Hwf Hvinv.
    unfold exists_, remove. rewrite Hinit, Hsome. simpl.
    split; [done|].
    eexists _, _. split; [reflexivity|]. simpl.
    rewrite lookup_delete_eq.
    destruct (VectorHIMEMExtras.destroy_spec 1 v hw Hwf Hvinv)
      as (Hwf' & Hrg & Hmp & Hfr & _).
    split_and!; try done.
    intros g w Hne Hw. rewrite lookup_delete_ne by done. rewrite Hw.
    split_and!; try done.
    intros (Hinv & Hrest) Hh. split.
    + split; [|done]. by apply (inv_frame _ _ _ _ Hinv Hfr).
    + intros k. unfold element. by rewrite (contents_frame _ _ _ _ Hfr).
Qed.

(** X27. [begin()] only sets the flag.  When the driver reports no free
    memory, every name is reported absent and [remove] is refused, yet
    the files stay stored and keep their regions; a later [begin()] that
    finds free memory makes exactly the stored files visible again. *)
Theorem begin_gates_the_registry (free_size : Z) (filename : string)
    (fs : HIMEMClass.t) (hw : state) :
  0 < free_size ->
  exists fs1 fs2,
    begin 0 fs = (false, fs1) /\
    fileData fs1 = fileData fs /\
    exists_ filename fs1 = false /\
    remove filename fs1 hw = (false, fs1, hw) /\
    begin free_size fs1 = (true, fs2) /\
    fileData fs2 = fileData fs /\
    (exists_ filename fs2 = true <-> is_Some (fileData fs !! filename)).
Proof.
  intros Hyes. unfold begin.
  assert (E : (0 <? free_size) = true) by (apply Z.ltb_lt; lia).
  rewrite E. simpl. eexists _, _. split; [reflexivity|]. simpl.
  split_and!; try done.
  unfold exists_. simpl. destruct (fileData fs !! filename) as [v|].
  - split; [by eexists|done].
  - split; [done|]. by intros [? ?].
Qed.

(** *** The registry properties at a concrete state *)

Lemma remove_one_of_two_files :
  let fs := Examples.two_files in
  let v := snd (fst Examples.copied) in
  let w := fst (fst Examples.copied) in
  let hw := snd Examples.copied in
  exists_ "log.txt" fs = true /\ exists_ "copy.txt" fs = true /\
  exists fs' hw',
    remove "log.txt" fs hw = (true, fs', hw') /\
    exists_ "log.txt" fs' = false /\
    remove "log.txt" fs' hw' = (false, fs', hw') /\
    wf hw' /\
    regions hw' = delete (HimemBlock.handle (memory v)) (regions hw) /\
    mappings_of hw' (HimemBlock.handle (memory v)) = [] /\
    exists_ "copy.txt" fs' = true /\ fileData fs' !! "copy.txt"%string = Some w /\
    size w = 3 /\ inv 1 hw' w /\
    forall k, element 1 hw' (memory w) k = element 1 hw (memory w) k.
Proof.
  destruct VectorHIMEMExtras.copied_good
    as (Hwf & Hvinv & Hoinv & _ & Hsv & _ & Hne & _).
  assert (Hlog : fileData Examples.two_files !! "log.txt"%string
                 = Some (snd (fst Examples.copied))).
  { unfold Examples.two_files. cbn [fileData]. apply lookup_insert_eq. }
  assert (Hcopy : fileData Examples.two_files !! "copy.txt"%string
                  = Some (fst (fst Examples.copied))).
  { unfold Examples.two_files. cbn [fileData].
    rewrite lookup_insert_ne by discriminate. apply lookup_singleton_eq. }
  destruct (proj2 (remove_releases_the_file "log.txt" Examples.two_files
                     (snd Examples.copied) eq_refl)
              (snd (fst Examples.copied)) Hlog Hwf Hoinv)
    as (Hex & fs' & hw' & Hrun & Hgone & Hagain & Hwf' & Hrg & Hmp & Hothers).
  destruct (Hothers "copy.txt"%string (fst (fst Examples.copied))
              ltac:(discriminate) Hcopy)
    as (Hex' & Hstill & Hkept).
  destruct (Hkept Hvinv Hne) as [Hvinv' Hel'].
  split; [exact Hex|].
  split; [unfold exists_; rewrite Hcopy; reflexivity|].
  exists fs', hw'. split; [exact Hrun|]. split; [exact Hgone|].
  split; [exact Hagain|]. split; [exact Hwf'|]. split; [exact Hrg|].
  split; [exact Hmp|]. split; [exact Hex'|]. split; [exact Hstill|].
  split; [exact Hsv|]. split; [exact Hvinv'|exact Hel'].
Defined.

Lemma failed_begin_hides_the_only_file :
  exists fs1 fs2,
    begin 0 Examples.one_file = (false, fs1) /\
    fileData fs1 = fileData Examples.one_file /\
    exists_ "log.txt" fs1 = false /\
    remove "log.txt" fs1 (snd Examples.three) = (false, fs1, snd Examples.three) /\
    begin 4194304 fs1 = (true, fs2) /\
    fileData fs2 = fileData Examples.one_file /\
    (exists_ "log.txt" fs2 = true <->
     is_Some (fileData Examples.one_file !! "log.txt"%string)).
Proof.
  apply (begin_gates_the_registry 4194304 "log.txt" Examples.one_file
           (snd Examples.three)).
  reflexivity.
Defined.

End HIMEMClassExtras.
